(** * marco_fq: fair-queue packet scheduler with per-flow pacing

    A shallow embedding of [src/tc_sch/marco_fq.c] and the properties of its
    flow ordering, round-robin service, throttling, configuration and reset.

    Conventions of the embedding.
    - C integers are [Z] values; every operation that can wrap in C is
      written with the wrap of its C type ([u32], [s32], [u64], [s64]).
    - The kernel's red-black trees are binary search trees [rb_root]; the
      rebalancing done by [rb_insert_color] and [rb_erase] (lib/rbtree.c, not
      part of the scheduler) changes the shape of a tree but never its
      in-order sequence, and is left out.
    - Flows allocated from [marco_fq_flow_cachep] live in a heap, a finite
      map from the flow's key [sk] to the flow; reading a flow that is not
      in the heap has no result ([None]).
    - The round-robin lists [new_flows] and [old_flows] are the sequences of
      flows reached from [first] through the [next] pointers.  This reads
      the C lists as long as a flow is linked only while it is on neither
      list, which is how the scheduler links flows: after taking them off
      the head of a list or out of the deferral index, or when they are
      detached.  The one way out is the return of [ENOMEM] from
      [marco_fq_enqueue], which leaves a flow on [new_flows] that still
      counts as detached.
    - The clock ([ktime_get_ns], [jiffies]) and the allocators are inputs of
      the operations. *)

From Stdlib Require Import ZArith Lia.
From stdpp Require Import base option gmap list sorting.

Open Scope Z_scope.

(** ** Machine integers *)

Definition u32 (x : Z) : Z := x mod 2 ^ 32.
Definition u64 (x : Z) : Z := x mod 2 ^ 64.
Definition s32 (x : Z) : Z := (x + 2 ^ 31) mod 2 ^ 32 - 2 ^ 31.
Definition s64 (x : Z) : Z := (x + 2 ^ 63) mod 2 ^ 64 - 2 ^ 63.

Definition U32_MAX : Z := 2 ^ 32 - 1.
Definition U64_MAX : Z := 2 ^ 64 - 1.

Definition NSEC_PER_SEC : Z := 1000000000.
Definition NSEC_PER_USEC : Z := 1000.

(** [time_after(a, b)] of linux/jiffies.h: [(long)(b - a) < 0]. *)
Definition time_after (a b : Z) : bool := s64 (b - a) <? 0.

(** ** Red-black trees, up to rebalancing *)

Inductive rb_root (A : Type) : Type :=
| RB_ROOT : rb_root A
| RB_NODE : rb_root A → A → rb_root A → rb_root A.
Arguments RB_ROOT {A}.
Arguments RB_NODE {A} _ _ _.

Section rbtree.
Context {A : Type}.

Fixpoint rb_inorder (t : rb_root A) : list A :=
  match t with
  | RB_ROOT => []
  | RB_NODE l x r => rb_inorder l ++ x :: rb_inorder r
  end.

Fixpoint rb_size (t : rb_root A) : nat :=
  match t with
  | RB_ROOT => O
  | RB_NODE l _ r => S (rb_size l + rb_size r)
  end.

(** [rb_first]: the leftmost node. *)
Fixpoint rb_first (t : rb_root A) : option A :=
  match t with
  | RB_ROOT => None
  | RB_NODE RB_ROOT x _ => Some x
  | RB_NODE l _ _ => rb_first l
  end.

(** The descent [while ( *p ) { ... p = &parent->rb_right / rb_left }]
    followed by [rb_link_node]: [right_of aux] tells whether the new node
    goes to the right of [aux]. *)
Fixpoint rb_link (right_of : A → bool) (x : A) (t : rb_root A) : rb_root A :=
  match t with
  | RB_ROOT => RB_NODE RB_ROOT x RB_ROOT
  | RB_NODE l aux r =>
      if right_of aux then RB_NODE l aux (rb_link right_of x r)
      else RB_NODE (rb_link right_of x l) aux r
  end.

Fixpoint rb_erase_first (t : rb_root A) : rb_root A :=
  match t with
  | RB_ROOT => RB_ROOT
  | RB_NODE RB_ROOT _ r => r
  | RB_NODE l x r => RB_NODE (rb_erase_first l) x r
  end.

Fixpoint rb_mem (is_node : A → bool) (t : rb_root A) : bool :=
  match t with
  | RB_ROOT => false
  | RB_NODE l x r => rb_mem is_node l || is_node x || rb_mem is_node r
  end.

(** [rb_erase(node, root)]: the node is given by a test [is_node] that
    recognises it; its in-order successor takes its place when it has
    two children. *)
Fixpoint rb_erase (is_node : A → bool) (t : rb_root A) : rb_root A :=
  match t with
  | RB_ROOT => RB_ROOT
  | RB_NODE l x r =>
      if rb_mem is_node l then RB_NODE (rb_erase is_node l) x r
      else if is_node x then
        match rb_first r with
        | None => l
        | Some y => RB_NODE l y (rb_erase_first r)
        end
      else RB_NODE l x (rb_erase is_node r)
  end.
End rbtree.

(** ** Packets *)

(** The fields of [struct sock] the scheduler reads through [skb->sk]. *)
Record sock := Build_sock {
  sk_ptr : Z;             (* the address of the socket *)
  sk_hash : Z;
  sk_state : Z;
  sk_pacing_rate : Z
}.

Definition TCP_CLOSE : Z := 7.
Definition TCP_LISTEN : Z := 10.
Definition TCP_NEW_SYN_RECV : Z := 12.

(** [sk_listener]: [(1 << sk->sk_state) & (TCPF_LISTEN | TCPF_NEW_SYN_RECV)]. *)
Definition sk_listener (s : sock) : bool :=
  (sk_state s =? TCP_LISTEN) || (sk_state s =? TCP_NEW_SYN_RECV).

(** [struct sk_buff] with its control block [marco_fq_skb_cb]. *)
Record sk_buff := Build_sk_buff {
  skb_id : Z;             (* the address of the buffer: its identity *)
  tstamp : Z;             (* ktime_t, signed 64 bits; 0 when no deadline *)
  priority : Z;
  skb_sk : option sock;   (* skb->sk, None for NULL *)
  skb_hash : Z;           (* skb_get_hash(skb) *)
  pkt_len : Z;            (* qdisc_pkt_len(skb) *)
  saddr : Z;              (* ip_hdr(skb)->saddr *)
  daddr : Z;              (* ip_hdr(skb)->daddr *)
  ecn : Z;                (* the two ECN bits of the IP header *)
  time_to_send : Z        (* marco_fq_skb_cb(skb)->time_to_send, u64 *)
}.

Definition set_tstamp (v : Z) (skb : sk_buff) : sk_buff :=
  Build_sk_buff (skb_id skb) v (priority skb) (skb_sk skb) (skb_hash skb) (pkt_len skb)
      (saddr skb) (daddr skb) (ecn skb) (time_to_send skb).
Definition set_skb_sk (v : option sock) (skb : sk_buff) : sk_buff :=
  Build_sk_buff (skb_id skb) (tstamp skb) (priority skb) v (skb_hash skb) (pkt_len skb)
      (saddr skb) (daddr skb) (ecn skb) (time_to_send skb).
Definition set_ecn (v : Z) (skb : sk_buff) : sk_buff :=
  Build_sk_buff (skb_id skb) (tstamp skb) (priority skb) (skb_sk skb) (skb_hash skb)
      (pkt_len skb) (saddr skb) (daddr skb) v (time_to_send skb).
Definition set_time_to_send (v : Z) (skb : sk_buff) : sk_buff :=
  Build_sk_buff (skb_id skb) (tstamp skb) (priority skb) (skb_sk skb) (skb_hash skb)
      (pkt_len skb) (saddr skb) (daddr skb) (ecn skb) v.

(** Pointer equality of two buffers. *)
Definition skb_eqb (a b : sk_buff) : bool := skb_id a =? skb_id b.

(** ** Flows *)

(** [tail] and [age] share one word of [struct marco_fq_flow]; the low bit
    tells them apart: a buffer address is even, [age] is forced odd. *)
Inductive tail_or_age : Type :=
| TAIL : tail_or_age            (* the word holds a buffer address (or 0) *)
| AGE : Z → tail_or_age.        (* the word holds [jiffies | 1] *)

Record marco_fq_flow := Build_flow {
  t_root : rb_root sk_buff;   (* packets that arrived out of order *)
  head : list sk_buff;        (* the chain head, head->next, ..., tail *)
  tail : tail_or_age;
  sk : Z;
  socket_hash : Z;
  qlen : Z;                   (* int *)
  credit : Z;                 (* int *)
  next_is_throttled : bool;   (* f->next == &throttled *)
  time_next_packet : Z        (* u64 *)
}.

Definition set_t_root (v : rb_root sk_buff) (f : marco_fq_flow) : marco_fq_flow :=
  Build_flow v (head f) (tail f) (sk f) (socket_hash f) (qlen f) (credit f)
      (next_is_throttled f) (time_next_packet f).
Definition set_head (v : list sk_buff) (f : marco_fq_flow) : marco_fq_flow :=
  Build_flow (t_root f) v (tail f) (sk f) (socket_hash f) (qlen f) (credit f)
      (next_is_throttled f) (time_next_packet f).
Definition set_tail (v : tail_or_age) (f : marco_fq_flow) : marco_fq_flow :=
  Build_flow (t_root f) (head f) v (sk f) (socket_hash f) (qlen f) (credit f)
      (next_is_throttled f) (time_next_packet f).
Definition set_sk (v : Z) (f : marco_fq_flow) : marco_fq_flow :=
  Build_flow (t_root f) (head f) (tail f) v (socket_hash f) (qlen f) (credit f)
      (next_is_throttled f) (time_next_packet f).
Definition set_socket_hash (v : Z) (f : marco_fq_flow) : marco_fq_flow :=
  Build_flow (t_root f) (head f) (tail f) (sk f) v (qlen f) (credit f) (next_is_throttled f)
      (time_next_packet f).
Definition set_qlen (v : Z) (f : marco_fq_flow) : marco_fq_flow :=
  Build_flow (t_root f) (head f) (tail f) (sk f) (socket_hash f) v (credit f)
      (next_is_throttled f) (time_next_packet f).
Definition set_credit (v : Z) (f : marco_fq_flow) : marco_fq_flow :=
  Build_flow (t_root f) (head f) (tail f) (sk f) (socket_hash f) (qlen f) v
      (next_is_throttled f) (time_next_packet f).
Definition set_next_is_throttled (v : bool) (f : marco_fq_flow) : marco_fq_flow :=
  Build_flow (t_root f) (head f) (tail f) (sk f) (socket_hash f) (qlen f) (credit f) v
      (time_next_packet f).
Definition set_time_next_packet (v : Z) (f : marco_fq_flow) : marco_fq_flow :=
  Build_flow (t_root f) (head f) (tail f) (sk f) (socket_hash f) (qlen f) (credit f)
      (next_is_throttled f) v.

(** A flow as [kmem_cache_zalloc] returns it, and as [q->internal] starts. *)
Definition flow_zero : marco_fq_flow :=
  Build_flow RB_ROOT [] TAIL 0 0 0 0 false 0.

Definition marco_fq_flow_set_detached (jiffies : Z) (f : marco_fq_flow) : marco_fq_flow :=
  set_tail (AGE (Z.lor jiffies 1)) f.

Definition marco_fq_flow_is_detached (f : marco_fq_flow) : bool :=
  match tail f with
  | AGE a => Z.testbit a 0
  | TAIL => false
  end.

Definition marco_fq_flow_is_throttled (f : marco_fq_flow) : bool :=
  next_is_throttled f.

(** *** Per-flow packet order *)

Definition marco_fq_peek (flow : marco_fq_flow) : option sk_buff :=
  match rb_first (t_root flow), head flow with
  | None, [] => None
  | None, h :: _ => Some h
  | Some skb, [] => Some skb
  | Some skb, h :: _ =>
      if time_to_send skb <? time_to_send h then Some skb else Some h
  end.

Definition marco_fq_erase_head (flow : marco_fq_flow) (skb : sk_buff) : marco_fq_flow :=
  match head flow with
  | h :: rest =>
      if skb_eqb skb h then set_head rest flow
      else set_t_root (rb_erase (skb_eqb skb) (t_root flow)) flow
  | [] => set_t_root (rb_erase (skb_eqb skb) (t_root flow)) flow
  end.

Definition marco_flow_queue_add (flow : marco_fq_flow) (skb : sk_buff) : marco_fq_flow :=
  let append := set_tail TAIL (set_head (head flow ++ [skb]) flow) in
  match last (head flow) with
  | None => append
  | Some tl =>
      if time_to_send tl <=? time_to_send skb then append
      else set_t_root
             (rb_link (λ aux, time_to_send aux <=? time_to_send skb) skb (t_root flow))
             flow
  end.

(** The packets a flow holds, and what repeated peek-and-remove returns. *)
Definition flow_packets (flow : marco_fq_flow) : list sk_buff :=
  head flow ++ rb_inorder (t_root flow).

Fixpoint flow_drain (n : nat) (flow : marco_fq_flow) : list sk_buff :=
  match n with
  | O => []
  | S n' =>
      match marco_fq_peek flow with
      | None => []
      | Some skb => skb :: flow_drain n' (marco_fq_erase_head flow skb)
      end
  end.

(** ** The per-address counting table *)

(** One entry of the global [ip_count_table].  An entry is filed under the
    hash of its [d_ip], and every lookup asks for entries whose [d_ip] is
    the address it hashed, so walking one bucket and walking the whole
    table meet the same entries: the table is a list, newest entry first. *)
Record hash_ip_count := Build_ip_count {
  s_ip : Z;
  d_ip : Z;
  count : Z               (* int *)
}.

(** The lookup loop of [marco_fq_enqueue]: the first entry for the address
    pair is counted up; [None] when the loop ends without a match. *)
Fixpoint ip_count_income (src_ip des_ip : Z) (tbl : list hash_ip_count)
  : option (list hash_ip_count) :=
  match tbl with
  | [] => None
  | e :: rest =>
      if (d_ip e =? des_ip) && (s_ip e =? src_ip)
      then Some (Build_ip_count (s_ip e) (d_ip e) (s32 (count e + 1)) :: rest)
      else (cons e) <$> ip_count_income src_ip des_ip rest
  end.

(** The lookup loop of [marco_fq_dequeue]: every entry of the reverse
    direction with a positive count is counted down, and each one still
    above 5 adds 10 ms to [time_next_packet]. *)
Fixpoint ip_count_outgo (src_ip des_ip : Z) (tbl : list hash_ip_count)
  (time_next_packet : Z) : list hash_ip_count * Z :=
  match tbl with
  | [] => ([], time_next_packet)
  | e :: rest =>
      if (s_ip e =? des_ip) && (d_ip e =? src_ip) && (0 <? count e) then
        let c := count e - 1 in
        let t := if 5 <? c then u64 (time_next_packet + 10000000)
                 else time_next_packet in
        let '(rest', t') := ip_count_outgo src_ip des_ip rest t in
        (Build_ip_count (s_ip e) (d_ip e) c :: rest', t')
      else
        let '(rest', t') := ip_count_outgo src_ip des_ip rest time_next_packet in
        (e :: rest', t')
  end.

(** ** Scheduler state *)

(** A pointer to a flow: [&q->internal] or a flow of the heap, named by the
    key it is filed under in [fq_root]. *)
Inductive flow_ref : Type :=
| INTERNAL : flow_ref
| FLOW : Z → flow_ref.

Global Instance flow_ref_eq_dec : EqDecision flow_ref.
Proof. solve_decision. Defined.

Definition flow_ref_eqb (a b : flow_ref) : bool := bool_decide (a = b).

(** [struct marco_fq_sched_data].  The round-robin lists are the sequences
    reached from [first] through [next]; [flow_heap] holds the flows
    allocated from [marco_fq_flow_cachep]; [watchdog] is the armed
    (expiry, slack) of the qdisc watchdog. *)
Record marco_fq_sched_data := Build_sched {
  new_flows : list flow_ref;
  old_flows : list flow_ref;
  delayed : rb_root flow_ref;
  time_next_delayed_flow : Z;
  ktime_cache : Z;
  unthrottle_latency_ns : Z;
  internal : marco_fq_flow;
  quantum : Z;
  initial_quantum : Z;
  flow_refill_delay : Z;
  flow_plimit : Z;
  flow_max_rate : Z;
  ce_threshold : Z;
  horizon : Z;
  orphan_mask : Z;
  low_rate_threshold : Z;
  fq_root : option (list (rb_root Z));
  rate_enable : Z;
  fq_trees_log : Z;
  horizon_drop : Z;
  flows : Z;
  inactive_flows : Z;
  throttled_flows : Z;
  stat_gc_flows : Z;
  stat_internal_packets : Z;
  stat_throttled : Z;
  stat_ce_mark : Z;
  stat_horizon_drops : Z;
  stat_horizon_caps : Z;
  stat_flows_plimit : Z;
  stat_pkts_too_long : Z;
  stat_allocation_errors : Z;
  timer_slack : Z;
  watchdog : option (Z * Z);
  flow_heap : gmap Z marco_fq_flow
}.

(** The part of [struct Qdisc] the scheduler touches, its private data, and
    the module-wide counting table. *)
Record Qdisc := Build_Qdisc {
  q_qlen : Z;             (* sch->q.qlen *)
  limit : Z;
  backlog : Z;            (* sch->qstats.backlog *)
  drops : Z;              (* sch->qstats.drops *)
  bstats_bytes : Z;
  bstats_packets : Z;
  priv : marco_fq_sched_data;
  ip_count_table : list hash_ip_count
}.

(** Field updates. *)
Definition set_new_flows (v : list flow_ref) (q : marco_fq_sched_data) : marco_fq_sched_data :=
  Build_sched v (old_flows q) (delayed q) (time_next_delayed_flow q) (ktime_cache q)
      (unthrottle_latency_ns q) (internal q) (quantum q) (initial_quantum q)
      (flow_refill_delay q) (flow_plimit q) (flow_max_rate q) (ce_threshold q) (horizon q)
      (orphan_mask q) (low_rate_threshold q) (fq_root q) (rate_enable q) (fq_trees_log q)
      (horizon_drop q) (flows q) (inactive_flows q) (throttled_flows q) (stat_gc_flows q)
      (stat_internal_packets q) (stat_throttled q) (stat_ce_mark q) (stat_horizon_drops q)
      (stat_horizon_caps q) (stat_flows_plimit q) (stat_pkts_too_long q)
      (stat_allocation_errors q) (timer_slack q) (watchdog q) (flow_heap q).
Definition set_old_flows (v : list flow_ref) (q : marco_fq_sched_data) : marco_fq_sched_data :=
  Build_sched (new_flows q) v (delayed q) (time_next_delayed_flow q) (ktime_cache q)
      (unthrottle_latency_ns q) (internal q) (quantum q) (initial_quantum q)
      (flow_refill_delay q) (flow_plimit q) (flow_max_rate q) (ce_threshold q) (horizon q)
      (orphan_mask q) (low_rate_threshold q) (fq_root q) (rate_enable q) (fq_trees_log q)
      (horizon_drop q) (flows q) (inactive_flows q) (throttled_flows q) (stat_gc_flows q)
      (stat_internal_packets q) (stat_throttled q) (stat_ce_mark q) (stat_horizon_drops q)
      (stat_horizon_caps q) (stat_flows_plimit q) (stat_pkts_too_long q)
      (stat_allocation_errors q) (timer_slack q) (watchdog q) (flow_heap q).
Definition set_delayed (v : rb_root flow_ref) (q : marco_fq_sched_data) : marco_fq_sched_data :=
  Build_sched (new_flows q) (old_flows q) v (time_next_delayed_flow q) (ktime_cache q)
      (unthrottle_latency_ns q) (internal q) (quantum q) (initial_quantum q)
      (flow_refill_delay q) (flow_plimit q) (flow_max_rate q) (ce_threshold q) (horizon q)
      (orphan_mask q) (low_rate_threshold q) (fq_root q) (rate_enable q) (fq_trees_log q)
      (horizon_drop q) (flows q) (inactive_flows q) (throttled_flows q) (stat_gc_flows q)
      (stat_internal_packets q) (stat_throttled q) (stat_ce_mark q) (stat_horizon_drops q)
      (stat_horizon_caps q) (stat_flows_plimit q) (stat_pkts_too_long q)
      (stat_allocation_errors q) (timer_slack q) (watchdog q) (flow_heap q).
Definition set_time_next_delayed_flow (v : Z) (q : marco_fq_sched_data) : marco_fq_sched_data :=
  Build_sched (new_flows q) (old_flows q) (delayed q) v (ktime_cache q)
      (unthrottle_latency_ns q) (internal q) (quantum q) (initial_quantum q)
      (flow_refill_delay q) (flow_plimit q) (flow_max_rate q) (ce_threshold q) (horizon q)
      (orphan_mask q) (low_rate_threshold q) (fq_root q) (rate_enable q) (fq_trees_log q)
      (horizon_drop q) (flows q) (inactive_flows q) (throttled_flows q) (stat_gc_flows q)
      (stat_internal_packets q) (stat_throttled q) (stat_ce_mark q) (stat_horizon_drops q)
      (stat_horizon_caps q) (stat_flows_plimit q) (stat_pkts_too_long q)
      (stat_allocation_errors q) (timer_slack q) (watchdog q) (flow_heap q).
Definition set_ktime_cache (v : Z) (q : marco_fq_sched_data) : marco_fq_sched_data :=
  Build_sched (new_flows q) (old_flows q) (delayed q) (time_next_delayed_flow q) v
      (unthrottle_latency_ns q) (internal q) (quantum q) (initial_quantum q)
      (flow_refill_delay q) (flow_plimit q) (flow_max_rate q) (ce_threshold q) (horizon q)
      (orphan_mask q) (low_rate_threshold q) (fq_root q) (rate_enable q) (fq_trees_log q)
      (horizon_drop q) (flows q) (inactive_flows q) (throttled_flows q) (stat_gc_flows q)
      (stat_internal_packets q) (stat_throttled q) (stat_ce_mark q) (stat_horizon_drops q)
      (stat_horizon_caps q) (stat_flows_plimit q) (stat_pkts_too_long q)
      (stat_allocation_errors q) (timer_slack q) (watchdog q) (flow_heap q).
Definition set_unthrottle_latency_ns (v : Z) (q : marco_fq_sched_data) : marco_fq_sched_data :=
  Build_sched (new_flows q) (old_flows q) (delayed q) (time_next_delayed_flow q)
      (ktime_cache q) v (internal q) (quantum q) (initial_quantum q) (flow_refill_delay q)
      (flow_plimit q) (flow_max_rate q) (ce_threshold q) (horizon q) (orphan_mask q)
      (low_rate_threshold q) (fq_root q) (rate_enable q) (fq_trees_log q) (horizon_drop q)
      (flows q) (inactive_flows q) (throttled_flows q) (stat_gc_flows q)
      (stat_internal_packets q) (stat_throttled q) (stat_ce_mark q) (stat_horizon_drops q)
      (stat_horizon_caps q) (stat_flows_plimit q) (stat_pkts_too_long q)
      (stat_allocation_errors q) (timer_slack q) (watchdog q) (flow_heap q).
Definition set_internal (v : marco_fq_flow) (q : marco_fq_sched_data) : marco_fq_sched_data :=
  Build_sched (new_flows q) (old_flows q) (delayed q) (time_next_delayed_flow q)
      (ktime_cache q) (unthrottle_latency_ns q) v (quantum q) (initial_quantum q)
      (flow_refill_delay q) (flow_plimit q) (flow_max_rate q) (ce_threshold q) (horizon q)
      (orphan_mask q) (low_rate_threshold q) (fq_root q) (rate_enable q) (fq_trees_log q)
      (horizon_drop q) (flows q) (inactive_flows q) (throttled_flows q) (stat_gc_flows q)
      (stat_internal_packets q) (stat_throttled q) (stat_ce_mark q) (stat_horizon_drops q)
      (stat_horizon_caps q) (stat_flows_plimit q) (stat_pkts_too_long q)
      (stat_allocation_errors q) (timer_slack q) (watchdog q) (flow_heap q).
Definition set_quantum (v : Z) (q : marco_fq_sched_data) : marco_fq_sched_data :=
  Build_sched (new_flows q) (old_flows q) (delayed q) (time_next_delayed_flow q)
      (ktime_cache q) (unthrottle_latency_ns q) (internal q) v (initial_quantum q)
      (flow_refill_delay q) (flow_plimit q) (flow_max_rate q) (ce_threshold q) (horizon q)
      (orphan_mask q) (low_rate_threshold q) (fq_root q) (rate_enable q) (fq_trees_log q)
      (horizon_drop q) (flows q) (inactive_flows q) (throttled_flows q) (stat_gc_flows q)
      (stat_internal_packets q) (stat_throttled q) (stat_ce_mark q) (stat_horizon_drops q)
      (stat_horizon_caps q) (stat_flows_plimit q) (stat_pkts_too_long q)
      (stat_allocation_errors q) (timer_slack q) (watchdog q) (flow_heap q).
Definition set_initial_quantum (v : Z) (q : marco_fq_sched_data) : marco_fq_sched_data :=
  Build_sched (new_flows q) (old_flows q) (delayed q) (time_next_delayed_flow q)
      (ktime_cache q) (unthrottle_latency_ns q) (internal q) (quantum q) v
      (flow_refill_delay q) (flow_plimit q) (flow_max_rate q) (ce_threshold q) (horizon q)
      (orphan_mask q) (low_rate_threshold q) (fq_root q) (rate_enable q) (fq_trees_log q)
      (horizon_drop q) (flows q) (inactive_flows q) (throttled_flows q) (stat_gc_flows q)
      (stat_internal_packets q) (stat_throttled q) (stat_ce_mark q) (stat_horizon_drops q)
      (stat_horizon_caps q) (stat_flows_plimit q) (stat_pkts_too_long q)
      (stat_allocation_errors q) (timer_slack q) (watchdog q) (flow_heap q).
Definition set_flow_refill_delay (v : Z) (q : marco_fq_sched_data) : marco_fq_sched_data :=
  Build_sched (new_flows q) (old_flows q) (delayed q) (time_next_delayed_flow q)
      (ktime_cache q) (unthrottle_latency_ns q) (internal q) (quantum q) (initial_quantum q) v
      (flow_plimit q) (flow_max_rate q) (ce_threshold q) (horizon q) (orphan_mask q)
      (low_rate_threshold q) (fq_root q) (rate_enable q) (fq_trees_log q) (horizon_drop q)
      (flows q) (inactive_flows q) (throttled_flows q) (stat_gc_flows q)
      (stat_internal_packets q) (stat_throttled q) (stat_ce_mark q) (stat_horizon_drops q)
      (stat_horizon_caps q) (stat_flows_plimit q) (stat_pkts_too_long q)
      (stat_allocation_errors q) (timer_slack q) (watchdog q) (flow_heap q).
Definition set_flow_plimit (v : Z) (q : marco_fq_sched_data) : marco_fq_sched_data :=
  Build_sched (new_flows q) (old_flows q) (delayed q) (time_next_delayed_flow q)
      (ktime_cache q) (unthrottle_latency_ns q) (internal q) (quantum q) (initial_quantum q)
      (flow_refill_delay q) v (flow_max_rate q) (ce_threshold q) (horizon q) (orphan_mask q)
      (low_rate_threshold q) (fq_root q) (rate_enable q) (fq_trees_log q) (horizon_drop q)
      (flows q) (inactive_flows q) (throttled_flows q) (stat_gc_flows q)
      (stat_internal_packets q) (stat_throttled q) (stat_ce_mark q) (stat_horizon_drops q)
      (stat_horizon_caps q) (stat_flows_plimit q) (stat_pkts_too_long q)
      (stat_allocation_errors q) (timer_slack q) (watchdog q) (flow_heap q).
Definition set_flow_max_rate (v : Z) (q : marco_fq_sched_data) : marco_fq_sched_data :=
  Build_sched (new_flows q) (old_flows q) (delayed q) (time_next_delayed_flow q)
      (ktime_cache q) (unthrottle_latency_ns q) (internal q) (quantum q) (initial_quantum q)
      (flow_refill_delay q) (flow_plimit q) v (ce_threshold q) (horizon q) (orphan_mask q)
      (low_rate_threshold q) (fq_root q) (rate_enable q) (fq_trees_log q) (horizon_drop q)
      (flows q) (inactive_flows q) (throttled_flows q) (stat_gc_flows q)
      (stat_internal_packets q) (stat_throttled q) (stat_ce_mark q) (stat_horizon_drops q)
      (stat_horizon_caps q) (stat_flows_plimit q) (stat_pkts_too_long q)
      (stat_allocation_errors q) (timer_slack q) (watchdog q) (flow_heap q).
Definition set_ce_threshold (v : Z) (q : marco_fq_sched_data) : marco_fq_sched_data :=
  Build_sched (new_flows q) (old_flows q) (delayed q) (time_next_delayed_flow q)
      (ktime_cache q) (unthrottle_latency_ns q) (internal q) (quantum q) (initial_quantum q)
      (flow_refill_delay q) (flow_plimit q) (flow_max_rate q) v (horizon q) (orphan_mask q)
      (low_rate_threshold q) (fq_root q) (rate_enable q) (fq_trees_log q) (horizon_drop q)
      (flows q) (inactive_flows q) (throttled_flows q) (stat_gc_flows q)
      (stat_internal_packets q) (stat_throttled q) (stat_ce_mark q) (stat_horizon_drops q)
      (stat_horizon_caps q) (stat_flows_plimit q) (stat_pkts_too_long q)
      (stat_allocation_errors q) (timer_slack q) (watchdog q) (flow_heap q).
Definition set_horizon (v : Z) (q : marco_fq_sched_data) : marco_fq_sched_data :=
  Build_sched (new_flows q) (old_flows q) (delayed q) (time_next_delayed_flow q)
      (ktime_cache q) (unthrottle_latency_ns q) (internal q) (quantum q) (initial_quantum q)
      (flow_refill_delay q) (flow_plimit q) (flow_max_rate q) (ce_threshold q) v
      (orphan_mask q) (low_rate_threshold q) (fq_root q) (rate_enable q) (fq_trees_log q)
      (horizon_drop q) (flows q) (inactive_flows q) (throttled_flows q) (stat_gc_flows q)
      (stat_internal_packets q) (stat_throttled q) (stat_ce_mark q) (stat_horizon_drops q)
      (stat_horizon_caps q) (stat_flows_plimit q) (stat_pkts_too_long q)
      (stat_allocation_errors q) (timer_slack q) (watchdog q) (flow_heap q).
Definition set_orphan_mask (v : Z) (q : marco_fq_sched_data) : marco_fq_sched_data :=
  Build_sched (new_flows q) (old_flows q) (delayed q) (time_next_delayed_flow q)
      (ktime_cache q) (unthrottle_latency_ns q) (internal q) (quantum q) (initial_quantum q)
      (flow_refill_delay q) (flow_plimit q) (flow_max_rate q) (ce_threshold q) (horizon q) v
      (low_rate_threshold q) (fq_root q) (rate_enable q) (fq_trees_log q) (horizon_drop q)
      (flows q) (inactive_flows q) (throttled_flows q) (stat_gc_flows q)
      (stat_internal_packets q) (stat_throttled q) (stat_ce_mark q) (stat_horizon_drops q)
      (stat_horizon_caps q) (stat_flows_plimit q) (stat_pkts_too_long q)
      (stat_allocation_errors q) (timer_slack q) (watchdog q) (flow_heap q).
Definition set_low_rate_threshold (v : Z) (q : marco_fq_sched_data) : marco_fq_sched_data :=
  Build_sched (new_flows q) (old_flows q) (delayed q) (time_next_delayed_flow q)
      (ktime_cache q) (unthrottle_latency_ns q) (internal q) (quantum q) (initial_quantum q)
      (flow_refill_delay q) (flow_plimit q) (flow_max_rate q) (ce_threshold q) (horizon q)
      (orphan_mask q) v (fq_root q) (rate_enable q) (fq_trees_log q) (horizon_drop q)
      (flows q) (inactive_flows q) (throttled_flows q) (stat_gc_flows q)
      (stat_internal_packets q) (stat_throttled q) (stat_ce_mark q) (stat_horizon_drops q)
      (stat_horizon_caps q) (stat_flows_plimit q) (stat_pkts_too_long q)
      (stat_allocation_errors q) (timer_slack q) (watchdog q) (flow_heap q).
Definition set_fq_root (v : option (list (rb_root Z))) (q : marco_fq_sched_data) : marco_fq_sched_data :=
  Build_sched (new_flows q) (old_flows q) (delayed q) (time_next_delayed_flow q)
      (ktime_cache q) (unthrottle_latency_ns q) (internal q) (quantum q) (initial_quantum q)
      (flow_refill_delay q) (flow_plimit q) (flow_max_rate q) (ce_threshold q) (horizon q)
      (orphan_mask q) (low_rate_threshold q) v (rate_enable q) (fq_trees_log q)
      (horizon_drop q) (flows q) (inactive_flows q) (throttled_flows q) (stat_gc_flows q)
      (stat_internal_packets q) (stat_throttled q) (stat_ce_mark q) (stat_horizon_drops q)
      (stat_horizon_caps q) (stat_flows_plimit q) (stat_pkts_too_long q)
      (stat_allocation_errors q) (timer_slack q) (watchdog q) (flow_heap q).
Definition set_rate_enable (v : Z) (q : marco_fq_sched_data) : marco_fq_sched_data :=
  Build_sched (new_flows q) (old_flows q) (delayed q) (time_next_delayed_flow q)
      (ktime_cache q) (unthrottle_latency_ns q) (internal q) (quantum q) (initial_quantum q)
      (flow_refill_delay q) (flow_plimit q) (flow_max_rate q) (ce_threshold q) (horizon q)
      (orphan_mask q) (low_rate_threshold q) (fq_root q) v (fq_trees_log q) (horizon_drop q)
      (flows q) (inactive_flows q) (throttled_flows q) (stat_gc_flows q)
      (stat_internal_packets q) (stat_throttled q) (stat_ce_mark q) (stat_horizon_drops q)
      (stat_horizon_caps q) (stat_flows_plimit q) (stat_pkts_too_long q)
      (stat_allocation_errors q) (timer_slack q) (watchdog q) (flow_heap q).
Definition set_fq_trees_log (v : Z) (q : marco_fq_sched_data) : marco_fq_sched_data :=
  Build_sched (new_flows q) (old_flows q) (delayed q) (time_next_delayed_flow q)
      (ktime_cache q) (unthrottle_latency_ns q) (internal q) (quantum q) (initial_quantum q)
      (flow_refill_delay q) (flow_plimit q) (flow_max_rate q) (ce_threshold q) (horizon q)
      (orphan_mask q) (low_rate_threshold q) (fq_root q) (rate_enable q) v (horizon_drop q)
      (flows q) (inactive_flows q) (throttled_flows q) (stat_gc_flows q)
      (stat_internal_packets q) (stat_throttled q) (stat_ce_mark q) (stat_horizon_drops q)
      (stat_horizon_caps q) (stat_flows_plimit q) (stat_pkts_too_long q)
      (stat_allocation_errors q) (timer_slack q) (watchdog q) (flow_heap q).
Definition set_horizon_drop (v : Z) (q : marco_fq_sched_data) : marco_fq_sched_data :=
  Build_sched (new_flows q) (old_flows q) (delayed q) (time_next_delayed_flow q)
      (ktime_cache q) (unthrottle_latency_ns q) (internal q) (quantum q) (initial_quantum q)
      (flow_refill_delay q) (flow_plimit q) (flow_max_rate q) (ce_threshold q) (horizon q)
      (orphan_mask q) (low_rate_threshold q) (fq_root q) (rate_enable q) (fq_trees_log q) v
      (flows q) (inactive_flows q) (throttled_flows q) (stat_gc_flows q)
      (stat_internal_packets q) (stat_throttled q) (stat_ce_mark q) (stat_horizon_drops q)
      (stat_horizon_caps q) (stat_flows_plimit q) (stat_pkts_too_long q)
      (stat_allocation_errors q) (timer_slack q) (watchdog q) (flow_heap q).
Definition set_flows (v : Z) (q : marco_fq_sched_data) : marco_fq_sched_data :=
  Build_sched (new_flows q) (old_flows q) (delayed q) (time_next_delayed_flow q)
      (ktime_cache q) (unthrottle_latency_ns q) (internal q) (quantum q) (initial_quantum q)
      (flow_refill_delay q) (flow_plimit q) (flow_max_rate q) (ce_threshold q) (horizon q)
      (orphan_mask q) (low_rate_threshold q) (fq_root q) (rate_enable q) (fq_trees_log q)
      (horizon_drop q) v (inactive_flows q) (throttled_flows q) (stat_gc_flows q)
      (stat_internal_packets q) (stat_throttled q) (stat_ce_mark q) (stat_horizon_drops q)
      (stat_horizon_caps q) (stat_flows_plimit q) (stat_pkts_too_long q)
      (stat_allocation_errors q) (timer_slack q) (watchdog q) (flow_heap q).
Definition set_inactive_flows (v : Z) (q : marco_fq_sched_data) : marco_fq_sched_data :=
  Build_sched (new_flows q) (old_flows q) (delayed q) (time_next_delayed_flow q)
      (ktime_cache q) (unthrottle_latency_ns q) (internal q) (quantum q) (initial_quantum q)
      (flow_refill_delay q) (flow_plimit q) (flow_max_rate q) (ce_threshold q) (horizon q)
      (orphan_mask q) (low_rate_threshold q) (fq_root q) (rate_enable q) (fq_trees_log q)
      (horizon_drop q) (flows q) v (throttled_flows q) (stat_gc_flows q)
      (stat_internal_packets q) (stat_throttled q) (stat_ce_mark q) (stat_horizon_drops q)
      (stat_horizon_caps q) (stat_flows_plimit q) (stat_pkts_too_long q)
      (stat_allocation_errors q) (timer_slack q) (watchdog q) (flow_heap q).
Definition set_throttled_flows (v : Z) (q : marco_fq_sched_data) : marco_fq_sched_data :=
  Build_sched (new_flows q) (old_flows q) (delayed q) (time_next_delayed_flow q)
      (ktime_cache q) (unthrottle_latency_ns q) (internal q) (quantum q) (initial_quantum q)
      (flow_refill_delay q) (flow_plimit q) (flow_max_rate q) (ce_threshold q) (horizon q)
      (orphan_mask q) (low_rate_threshold q) (fq_root q) (rate_enable q) (fq_trees_log q)
      (horizon_drop q) (flows q) (inactive_flows q) v (stat_gc_flows q)
      (stat_internal_packets q) (stat_throttled q) (stat_ce_mark q) (stat_horizon_drops q)
      (stat_horizon_caps q) (stat_flows_plimit q) (stat_pkts_too_long q)
      (stat_allocation_errors q) (timer_slack q) (watchdog q) (flow_heap q).
Definition set_stat_gc_flows (v : Z) (q : marco_fq_sched_data) : marco_fq_sched_data :=
  Build_sched (new_flows q) (old_flows q) (delayed q) (time_next_delayed_flow q)
      (ktime_cache q) (unthrottle_latency_ns q) (internal q) (quantum q) (initial_quantum q)
      (flow_refill_delay q) (flow_plimit q) (flow_max_rate q) (ce_threshold q) (horizon q)
      (orphan_mask q) (low_rate_threshold q) (fq_root q) (rate_enable q) (fq_trees_log q)
      (horizon_drop q) (flows q) (inactive_flows q) (throttled_flows q) v
      (stat_internal_packets q) (stat_throttled q) (stat_ce_mark q) (stat_horizon_drops q)
      (stat_horizon_caps q) (stat_flows_plimit q) (stat_pkts_too_long q)
      (stat_allocation_errors q) (timer_slack q) (watchdog q) (flow_heap q).
Definition set_stat_internal_packets (v : Z) (q : marco_fq_sched_data) : marco_fq_sched_data :=
  Build_sched (new_flows q) (old_flows q) (delayed q) (time_next_delayed_flow q)
      (ktime_cache q) (unthrottle_latency_ns q) (internal q) (quantum q) (initial_quantum q)
      (flow_refill_delay q) (flow_plimit q) (flow_max_rate q) (ce_threshold q) (horizon q)
      (orphan_mask q) (low_rate_threshold q) (fq_root q) (rate_enable q) (fq_trees_log q)
      (horizon_drop q) (flows q) (inactive_flows q) (throttled_flows q) (stat_gc_flows q) v
      (stat_throttled q) (stat_ce_mark q) (stat_horizon_drops q) (stat_horizon_caps q)
      (stat_flows_plimit q) (stat_pkts_too_long q) (stat_allocation_errors q) (timer_slack q)
      (watchdog q) (flow_heap q).
Definition set_stat_throttled (v : Z) (q : marco_fq_sched_data) : marco_fq_sched_data :=
  Build_sched (new_flows q) (old_flows q) (delayed q) (time_next_delayed_flow q)
      (ktime_cache q) (unthrottle_latency_ns q) (internal q) (quantum q) (initial_quantum q)
      (flow_refill_delay q) (flow_plimit q) (flow_max_rate q) (ce_threshold q) (horizon q)
      (orphan_mask q) (low_rate_threshold q) (fq_root q) (rate_enable q) (fq_trees_log q)
      (horizon_drop q) (flows q) (inactive_flows q) (throttled_flows q) (stat_gc_flows q)
      (stat_internal_packets q) v (stat_ce_mark q) (stat_horizon_drops q)
      (stat_horizon_caps q) (stat_flows_plimit q) (stat_pkts_too_long q)
      (stat_allocation_errors q) (timer_slack q) (watchdog q) (flow_heap q).
Definition set_stat_ce_mark (v : Z) (q : marco_fq_sched_data) : marco_fq_sched_data :=
  Build_sched (new_flows q) (old_flows q) (delayed q) (time_next_delayed_flow q)
      (ktime_cache q) (unthrottle_latency_ns q) (internal q) (quantum q) (initial_quantum q)
      (flow_refill_delay q) (flow_plimit q) (flow_max_rate q) (ce_threshold q) (horizon q)
      (orphan_mask q) (low_rate_threshold q) (fq_root q) (rate_enable q) (fq_trees_log q)
      (horizon_drop q) (flows q) (inactive_flows q) (throttled_flows q) (stat_gc_flows q)
      (stat_internal_packets q) (stat_throttled q) v (stat_horizon_drops q)
      (stat_horizon_caps q) (stat_flows_plimit q) (stat_pkts_too_long q)
      (stat_allocation_errors q) (timer_slack q) (watchdog q) (flow_heap q).
Definition set_stat_horizon_drops (v : Z) (q : marco_fq_sched_data) : marco_fq_sched_data :=
  Build_sched (new_flows q) (old_flows q) (delayed q) (time_next_delayed_flow q)
      (ktime_cache q) (unthrottle_latency_ns q) (internal q) (quantum q) (initial_quantum q)
      (flow_refill_delay q) (flow_plimit q) (flow_max_rate q) (ce_threshold q) (horizon q)
      (orphan_mask q) (low_rate_threshold q) (fq_root q) (rate_enable q) (fq_trees_log q)
      (horizon_drop q) (flows q) (inactive_flows q) (throttled_flows q) (stat_gc_flows q)
      (stat_internal_packets q) (stat_throttled q) (stat_ce_mark q) v (stat_horizon_caps q)
      (stat_flows_plimit q) (stat_pkts_too_long q) (stat_allocation_errors q) (timer_slack q)
      (watchdog q) (flow_heap q).
Definition set_stat_horizon_caps (v : Z) (q : marco_fq_sched_data) : marco_fq_sched_data :=
  Build_sched (new_flows q) (old_flows q) (delayed q) (time_next_delayed_flow q)
      (ktime_cache q) (unthrottle_latency_ns q) (internal q) (quantum q) (initial_quantum q)
      (flow_refill_delay q) (flow_plimit q) (flow_max_rate q) (ce_threshold q) (horizon q)
      (orphan_mask q) (low_rate_threshold q) (fq_root q) (rate_enable q) (fq_trees_log q)
      (horizon_drop q) (flows q) (inactive_flows q) (throttled_flows q) (stat_gc_flows q)
      (stat_internal_packets q) (stat_throttled q) (stat_ce_mark q) (stat_horizon_drops q) v
      (stat_flows_plimit q) (stat_pkts_too_long q) (stat_allocation_errors q) (timer_slack q)
      (watchdog q) (flow_heap q).
Definition set_stat_flows_plimit (v : Z) (q : marco_fq_sched_data) : marco_fq_sched_data :=
  Build_sched (new_flows q) (old_flows q) (delayed q) (time_next_delayed_flow q)
      (ktime_cache q) (unthrottle_latency_ns q) (internal q) (quantum q) (initial_quantum q)
      (flow_refill_delay q) (flow_plimit q) (flow_max_rate q) (ce_threshold q) (horizon q)
      (orphan_mask q) (low_rate_threshold q) (fq_root q) (rate_enable q) (fq_trees_log q)
      (horizon_drop q) (flows q) (inactive_flows q) (throttled_flows q) (stat_gc_flows q)
      (stat_internal_packets q) (stat_throttled q) (stat_ce_mark q) (stat_horizon_drops q)
      (stat_horizon_caps q) v (stat_pkts_too_long q) (stat_allocation_errors q)
      (timer_slack q) (watchdog q) (flow_heap q).
Definition set_stat_pkts_too_long (v : Z) (q : marco_fq_sched_data) : marco_fq_sched_data :=
  Build_sched (new_flows q) (old_flows q) (delayed q) (time_next_delayed_flow q)
      (ktime_cache q) (unthrottle_latency_ns q) (internal q) (quantum q) (initial_quantum q)
      (flow_refill_delay q) (flow_plimit q) (flow_max_rate q) (ce_threshold q) (horizon q)
      (orphan_mask q) (low_rate_threshold q) (fq_root q) (rate_enable q) (fq_trees_log q)
      (horizon_drop q) (flows q) (inactive_flows q) (throttled_flows q) (stat_gc_flows q)
      (stat_internal_packets q) (stat_throttled q) (stat_ce_mark q) (stat_horizon_drops q)
      (stat_horizon_caps q) (stat_flows_plimit q) v (stat_allocation_errors q) (timer_slack q)
      (watchdog q) (flow_heap q).
Definition set_stat_allocation_errors (v : Z) (q : marco_fq_sched_data) : marco_fq_sched_data :=
  Build_sched (new_flows q) (old_flows q) (delayed q) (time_next_delayed_flow q)
      (ktime_cache q) (unthrottle_latency_ns q) (internal q) (quantum q) (initial_quantum q)
      (flow_refill_delay q) (flow_plimit q) (flow_max_rate q) (ce_threshold q) (horizon q)
      (orphan_mask q) (low_rate_threshold q) (fq_root q) (rate_enable q) (fq_trees_log q)
      (horizon_drop q) (flows q) (inactive_flows q) (throttled_flows q) (stat_gc_flows q)
      (stat_internal_packets q) (stat_throttled q) (stat_ce_mark q) (stat_horizon_drops q)
      (stat_horizon_caps q) (stat_flows_plimit q) (stat_pkts_too_long q) v (timer_slack q)
      (watchdog q) (flow_heap q).
Definition set_timer_slack (v : Z) (q : marco_fq_sched_data) : marco_fq_sched_data :=
  Build_sched (new_flows q) (old_flows q) (delayed q) (time_next_delayed_flow q)
      (ktime_cache q) (unthrottle_latency_ns q) (internal q) (quantum q) (initial_quantum q)
      (flow_refill_delay q) (flow_plimit q) (flow_max_rate q) (ce_threshold q) (horizon q)
      (orphan_mask q) (low_rate_threshold q) (fq_root q) (rate_enable q) (fq_trees_log q)
      (horizon_drop q) (flows q) (inactive_flows q) (throttled_flows q) (stat_gc_flows q)
      (stat_internal_packets q) (stat_throttled q) (stat_ce_mark q) (stat_horizon_drops q)
      (stat_horizon_caps q) (stat_flows_plimit q) (stat_pkts_too_long q)
      (stat_allocation_errors q) v (watchdog q) (flow_heap q).
Definition set_watchdog (v : option (Z * Z)) (q : marco_fq_sched_data) : marco_fq_sched_data :=
  Build_sched (new_flows q) (old_flows q) (delayed q) (time_next_delayed_flow q)
      (ktime_cache q) (unthrottle_latency_ns q) (internal q) (quantum q) (initial_quantum q)
      (flow_refill_delay q) (flow_plimit q) (flow_max_rate q) (ce_threshold q) (horizon q)
      (orphan_mask q) (low_rate_threshold q) (fq_root q) (rate_enable q) (fq_trees_log q)
      (horizon_drop q) (flows q) (inactive_flows q) (throttled_flows q) (stat_gc_flows q)
      (stat_internal_packets q) (stat_throttled q) (stat_ce_mark q) (stat_horizon_drops q)
      (stat_horizon_caps q) (stat_flows_plimit q) (stat_pkts_too_long q)
      (stat_allocation_errors q) (timer_slack q) v (flow_heap q).
Definition set_flow_heap (v : gmap Z marco_fq_flow) (q : marco_fq_sched_data) : marco_fq_sched_data :=
  Build_sched (new_flows q) (old_flows q) (delayed q) (time_next_delayed_flow q)
      (ktime_cache q) (unthrottle_latency_ns q) (internal q) (quantum q) (initial_quantum q)
      (flow_refill_delay q) (flow_plimit q) (flow_max_rate q) (ce_threshold q) (horizon q)
      (orphan_mask q) (low_rate_threshold q) (fq_root q) (rate_enable q) (fq_trees_log q)
      (horizon_drop q) (flows q) (inactive_flows q) (throttled_flows q) (stat_gc_flows q)
      (stat_internal_packets q) (stat_throttled q) (stat_ce_mark q) (stat_horizon_drops q)
      (stat_horizon_caps q) (stat_flows_plimit q) (stat_pkts_too_long q)
      (stat_allocation_errors q) (timer_slack q) (watchdog q) v.

Definition set_q_qlen (v : Z) (sch : Qdisc) : Qdisc :=
  Build_Qdisc v (limit sch) (backlog sch) (drops sch) (bstats_bytes sch) (bstats_packets sch)
      (priv sch) (ip_count_table sch).
Definition set_limit (v : Z) (sch : Qdisc) : Qdisc :=
  Build_Qdisc (q_qlen sch) v (backlog sch) (drops sch) (bstats_bytes sch) (bstats_packets sch)
      (priv sch) (ip_count_table sch).
Definition set_backlog (v : Z) (sch : Qdisc) : Qdisc :=
  Build_Qdisc (q_qlen sch) (limit sch) v (drops sch) (bstats_bytes sch) (bstats_packets sch)
      (priv sch) (ip_count_table sch).
Definition set_drops (v : Z) (sch : Qdisc) : Qdisc :=
  Build_Qdisc (q_qlen sch) (limit sch) (backlog sch) v (bstats_bytes sch) (bstats_packets sch)
      (priv sch) (ip_count_table sch).
Definition set_bstats_bytes (v : Z) (sch : Qdisc) : Qdisc :=
  Build_Qdisc (q_qlen sch) (limit sch) (backlog sch) (drops sch) v (bstats_packets sch)
      (priv sch) (ip_count_table sch).
Definition set_bstats_packets (v : Z) (sch : Qdisc) : Qdisc :=
  Build_Qdisc (q_qlen sch) (limit sch) (backlog sch) (drops sch) (bstats_bytes sch) v
      (priv sch) (ip_count_table sch).
Definition set_priv (v : marco_fq_sched_data) (sch : Qdisc) : Qdisc :=
  Build_Qdisc (q_qlen sch) (limit sch) (backlog sch) (drops sch) (bstats_bytes sch)
      (bstats_packets sch) v (ip_count_table sch).
Definition set_ip_count_table (v : list hash_ip_count) (sch : Qdisc) : Qdisc :=
  Build_Qdisc (q_qlen sch) (limit sch) (backlog sch) (drops sch) (bstats_bytes sch)
      (bstats_packets sch) (priv sch) v.

(** ** Flow pointers and the round-robin lists *)

Definition get_flow (q : marco_fq_sched_data) (f : flow_ref) : option marco_fq_flow :=
  match f with
  | INTERNAL => Some (internal q)
  | FLOW k => flow_heap q !! k
  end.

Definition set_flow (f : flow_ref) (v : marco_fq_flow) (q : marco_fq_sched_data)
  : marco_fq_sched_data :=
  match f with
  | INTERNAL => set_internal v q
  | FLOW k => set_flow_heap (<[k := v]> (flow_heap q)) q
  end.

(** [&q->new_flows] or [&q->old_flows]. *)
Inductive marco_fq_flow_head : Type := NEW_FLOWS | OLD_FLOWS.

Definition head_first (head : marco_fq_flow_head) (q : marco_fq_sched_data)
  : list flow_ref :=
  match head with
  | NEW_FLOWS => new_flows q
  | OLD_FLOWS => old_flows q
  end.

Definition set_head_first (head : marco_fq_flow_head) (l : list flow_ref)
  (q : marco_fq_sched_data) : marco_fq_sched_data :=
  match head with
  | NEW_FLOWS => set_new_flows l q
  | OLD_FLOWS => set_old_flows l q
  end.

Definition marco_fq_flow_add_tail (head : marco_fq_flow_head) (flow : flow_ref)
  (q : marco_fq_sched_data) : option marco_fq_sched_data :=
  fl ← get_flow q flow;
  Some (set_flow flow (set_next_is_throttled false fl)
          (set_head_first head (head_first head q ++ [flow]) q)).

Definition marco_fq_flow_unset_throttled (f : flow_ref) (q : marco_fq_sched_data)
  : option marco_fq_sched_data :=
  marco_fq_flow_add_tail OLD_FLOWS f
    (set_throttled_flows (u32 (throttled_flows q - 1))
       (set_delayed (rb_erase (flow_ref_eqb f) (delayed q)) q)).

(** [aux->time_next_packet] for a node [aux] of the [delayed] tree. *)
Definition flow_time_next_packet (q : marco_fq_sched_data) (aux : flow_ref) : Z :=
  from_option time_next_packet 0 (get_flow q aux).

Definition marco_fq_flow_set_throttled (f : flow_ref) (q : marco_fq_sched_data)
  : option marco_fq_sched_data :=
  fl ← get_flow q f;
  let q1 :=
    set_delayed
      (rb_link (λ aux, flow_time_next_packet q aux <=? time_next_packet fl) f (delayed q))
      q in
  let q2 := set_throttled_flows (u32 (throttled_flows q1 + 1)) q1 in
  let q3 := set_stat_throttled (u64 (stat_throttled q2 + 1)) q2 in
  let q4 := set_flow f (set_next_is_throttled true fl) q3 in
  Some (if time_next_packet fl <? time_next_delayed_flow q4
        then set_time_next_delayed_flow (time_next_packet fl) q4
        else q4).

(** ** Garbage collection and classification *)

Definition FQ_GC_MAX : Z := 8.
(** [HZ], the tick rate the kernel is built with. *)
Definition HZ : Z := 1000.
Definition FQ_GC_AGE : Z := 3 * HZ.

(** [f->age], read only from a detached flow. *)
Definition flow_age (f : marco_fq_flow) : Z :=
  match tail f with
  | AGE a => a
  | TAIL => 0
  end.

Definition marco_fq_gc_candidate (jiffies : Z) (f : marco_fq_flow) : bool :=
  marco_fq_flow_is_detached f && time_after jiffies (flow_age f + FQ_GC_AGE).

(** The first loop of [marco_fq_gc]: the flows collected on the way down
    to [sk]. *)
Fixpoint marco_fq_gc_walk (heap : gmap Z marco_fq_flow) (jiffies sk0 : Z)
  (t : rb_root Z) (tofree : list Z) : option (list Z) :=
  match t with
  | RB_ROOT => Some tofree
  | RB_NODE l k r =>
      f ← heap !! k;
      if k =? sk0 then Some tofree
      else if marco_fq_gc_candidate jiffies f then
        let tofree' := tofree ++ [k] in
        if Z.of_nat (length tofree') =? FQ_GC_MAX then Some tofree'
        else if k >? sk0 then marco_fq_gc_walk heap jiffies sk0 r tofree'
        else marco_fq_gc_walk heap jiffies sk0 l tofree'
      else if k >? sk0 then marco_fq_gc_walk heap jiffies sk0 r tofree
      else marco_fq_gc_walk heap jiffies sk0 l tofree
  end.

(** The shard [q->fq_root[idx]]. *)
Definition get_root (q : marco_fq_sched_data) (idx : nat) : option (rb_root Z) :=
  roots ← fq_root q; roots !! idx.

Definition set_root (idx : nat) (root : rb_root Z) (q : marco_fq_sched_data)
  : marco_fq_sched_data :=
  set_fq_root ((λ roots, <[idx := root]> roots) <$> fq_root q) q.

Definition marco_fq_gc (jiffies : Z) (idx : nat) (sk0 : Z) (q : marco_fq_sched_data)
  : option marco_fq_sched_data :=
  root ← get_root q idx;
  tofree ← marco_fq_gc_walk (flow_heap q) jiffies sk0 root [];
  match tofree with
  | [] => Some q
  | _ =>
      let fcnt := Z.of_nat (length tofree) in
      let root' := foldl (λ t k, rb_erase (Z.eqb k) t) root (reverse tofree) in
      let q1 := set_root idx root' q in
      let q2 := set_flows (u32 (flows q1 - fcnt)) q1 in
      let q3 := set_inactive_flows (u32 (inactive_flows q2 - fcnt)) q2 in
      let q4 := set_stat_gc_flows (u64 (stat_gc_flows q3 + fcnt)) q3 in
      Some (set_flow_heap (foldl (λ h k, delete k h) (flow_heap q4) tofree) q4)
  end.

Definition TC_PRIO_MAX : Z := 15.
Definition TC_PRIO_CONTROL : Z := 7.

Definition GOLDEN_RATIO_64 : Z := 0x61C8864680B583EB.

(** [hash_ptr] of linux/hash.h on a 64-bit kernel. *)
Definition hash_ptr (ptr bits : Z) : Z :=
  Z.shiftr (u64 (ptr * GOLDEN_RATIO_64)) (64 - bits).

(** The lookup loop of [marco_fq_classify]: is [sk0] met on the way down? *)
Fixpoint fq_root_lookup (sk0 : Z) (t : rb_root Z) : bool :=
  match t with
  | RB_ROOT => false
  | RB_NODE l k r =>
      if k =? sk0 then true
      else if k >? sk0 then fq_root_lookup sk0 r
      else fq_root_lookup sk0 l
  end.

(** [skb->sk == sk] for the key [sk0] chosen by [marco_fq_classify]. *)
Definition skb_sk_is (skb : sk_buff) (sk0 : Z) : option sock :=
  match skb_sk skb with
  | Some s => if sk_ptr s =? sk0 then Some s else None
  | None => None
  end.

(** Returns the flow, the packet (orphaned when it belonged to a listener)
    and the scheduler.  [alloc_ok] is the outcome [kmem_cache_zalloc] would
    have. *)
Definition marco_fq_classify (jiffies : Z) (alloc_ok : bool) (skb : sk_buff)
  (q : marco_fq_sched_data) : option (flow_ref * sk_buff * marco_fq_sched_data) :=
  if Z.land (priority skb) TC_PRIO_MAX =? TC_PRIO_CONTROL then Some (INTERNAL, skb, q)
  else
    let orphan := Z.lor (Z.shiftl (Z.land (skb_hash skb) (orphan_mask q)) 1) 1 in
    let '(sk0, skb) :=
      match skb_sk skb with
      | None => (orphan, set_skb_sk None skb)
      | Some s =>
          if sk_listener s then (orphan, set_skb_sk None skb)
          else if sk_state s =? TCP_CLOSE then (orphan, skb)
          else (sk_ptr s, skb)
      end in
    let idx := Z.to_nat (hash_ptr sk0 (fq_trees_log q)) in
    q ← (if (u32 (Z.shiftl 2 (fq_trees_log q)) <=? flows q)
            && (flows q / 2 <? inactive_flows q)
         then marco_fq_gc jiffies idx sk0 q else Some q);
    root ← get_root q idx;
    if fq_root_lookup sk0 root then
      f ← get_flow q (FLOW sk0);
      match skb_sk_is skb sk0 with
      | Some s =>
          if negb (socket_hash f =? sk_hash s) then
            let f1 := set_socket_hash (sk_hash s) (set_credit (s32 (initial_quantum q)) f) in
            let q1 := set_flow (FLOW sk0) f1 q in
            q2 ← (if marco_fq_flow_is_throttled f1
                  then marco_fq_flow_unset_throttled (FLOW sk0) q1 else Some q1);
            f2 ← get_flow q2 (FLOW sk0);
            Some (FLOW sk0, skb, set_flow (FLOW sk0) (set_time_next_packet 0 f2) q2)
          else Some (FLOW sk0, skb, q)
      | None => Some (FLOW sk0, skb, q)
      end
    else if negb alloc_ok then
      Some (INTERNAL, skb, set_stat_allocation_errors (u64 (stat_allocation_errors q + 1)) q)
    else
      let f := set_sk sk0 (marco_fq_flow_set_detached jiffies flow_zero) in
      let f := match skb_sk_is skb sk0 with
               | Some s => set_socket_hash (sk_hash s) f
               | None => f
               end in
      let f := set_credit (s32 (initial_quantum q)) f in
      let q1 := set_root idx (rb_link (λ k, k >? sk0) sk0 root) q in
      let q2 := set_flow (FLOW sk0) f q1 in
      let q3 := set_flows (u32 (flows q2 + 1)) q2 in
      Some (FLOW sk0, skb, set_inactive_flows (u32 (inactive_flows q3 + 1)) q3).

(** ** Enqueue *)

Definition NET_XMIT_SUCCESS : Z := 0.
Definition NET_XMIT_DROP : Z := 1.
Definition ENOMEM : Z := 12.
Definition EINVAL : Z := 22.

(** What an operation hands back besides the qdisc: the status and the
    packets chained on [to_free]. *)
Definition enqueue_result : Type := Z * list sk_buff * Qdisc.

Definition qdisc_drop (skb : sk_buff) (sch : Qdisc) : enqueue_result :=
  (NET_XMIT_DROP, [skb], set_drops (u32 (drops sch + 1)) sch).

Definition marco_fq_packet_beyond_horizon (skb : sk_buff) (q : marco_fq_sched_data) : bool :=
  s64 (tstamp skb) >? s64 (ktime_cache q + horizon q).

(** [marco_fq_enqueue] from the call of [marco_fq_classify] on: by then
    [time_to_send] is set. *)
Definition marco_fq_enqueue_flow (jiffies : Z) (flow_alloc_ok ip_alloc_ok : bool)
  (skb : sk_buff) (sch : Qdisc) : option enqueue_result :=
  '(f, skb, q) ← marco_fq_classify jiffies flow_alloc_ok skb (priv sch);
  fl ← get_flow q f;
  if (flow_plimit q <=? u32 (qlen fl)) && negb (flow_ref_eqb f INTERNAL) then
    Some (qdisc_drop skb
            (set_priv (set_stat_flows_plimit (u64 (stat_flows_plimit q + 1)) q) sch))
  else
    let q := set_flow f (set_qlen (s32 (qlen fl + 1)) fl) q in
    let sch := set_backlog (u32 (backlog sch + pkt_len skb)) sch in
    q ← (if marco_fq_flow_is_detached fl then
           q ← marco_fq_flow_add_tail NEW_FLOWS f q;
           fl ← get_flow q f;
           let fl :=
             if time_after jiffies (flow_age fl + flow_refill_delay q)
             then set_credit (s32 (Z.max (u32 (credit fl)) (quantum q))) fl
             else fl in
           Some (set_inactive_flows (u32 (inactive_flows q - 1)) (set_flow f fl q))
         else Some q);
    let sch := set_priv q sch in
    let counted :=
      match ip_count_income (saddr skb) (daddr skb) (ip_count_table sch) with
      | Some tbl => Some tbl
      | None =>
          if ip_alloc_ok
          then Some (Build_ip_count (saddr skb) (daddr skb) 1 :: ip_count_table sch)
          else None
      end in
    match counted with
    | None => Some (ENOMEM, [], sch)
    | Some tbl =>
        let sch := set_ip_count_table tbl sch in
        fl ← get_flow q f;
        let q := set_flow f (marco_flow_queue_add fl skb) q in
        let q := if flow_ref_eqb f INTERNAL
                 then set_stat_internal_packets (u64 (stat_internal_packets q + 1)) q
                 else q in
        Some (NET_XMIT_SUCCESS, [], set_q_qlen (u32 (q_qlen sch + 1)) (set_priv q sch))
    end.

(** [now] is what [ktime_get_ns] returns if called, [jiffies] the tick
    counter, [flow_alloc_ok] and [ip_alloc_ok] whether [kmem_cache_zalloc]
    and [kmalloc] succeed if called. *)
Definition marco_fq_enqueue (now jiffies : Z) (flow_alloc_ok ip_alloc_ok : bool)
  (skb : sk_buff) (sch : Qdisc) : option enqueue_result :=
  let q := priv sch in
  if limit sch <=? q_qlen sch then Some (qdisc_drop skb sch)
  else if tstamp skb =? 0 then
    marco_fq_enqueue_flow jiffies flow_alloc_ok ip_alloc_ok
      (set_time_to_send now skb) (set_priv (set_ktime_cache now q) sch)
  else if marco_fq_packet_beyond_horizon skb q then
    let q := set_ktime_cache now q in
    if marco_fq_packet_beyond_horizon skb q then
      if negb (horizon_drop q =? 0) then
        Some (qdisc_drop skb
                (set_priv (set_stat_horizon_drops (u64 (stat_horizon_drops q + 1)) q) sch))
      else
        let q := set_stat_horizon_caps (u64 (stat_horizon_caps q + 1)) q in
        let skb := set_tstamp (s64 (ktime_cache q + horizon q)) skb in
        marco_fq_enqueue_flow jiffies flow_alloc_ok ip_alloc_ok
          (set_time_to_send (u64 (tstamp skb)) skb) (set_priv q sch)
    else
      marco_fq_enqueue_flow jiffies flow_alloc_ok ip_alloc_ok
        (set_time_to_send (u64 (tstamp skb)) skb) (set_priv q sch)
  else
    marco_fq_enqueue_flow jiffies flow_alloc_ok ip_alloc_ok
      (set_time_to_send (u64 (tstamp skb)) skb) sch.

(** ** Dequeue *)

(** The [while] loop of [marco_fq_check_throttled]; every turn that does
    not leave the loop erases one node, so [rb_size (delayed q)] turns are
    all it can take. *)
Fixpoint marco_fq_check_throttled_loop (n : nat) (now : Z) (q : marco_fq_sched_data)
  : option marco_fq_sched_data :=
  match n with
  | O => Some q
  | S n' =>
      match rb_first (delayed q) with
      | None => Some q
      | Some f =>
          fl ← get_flow q f;
          if now <? time_next_packet fl
          then Some (set_time_next_delayed_flow (time_next_packet fl) q)
          else
            q' ← marco_fq_flow_unset_throttled f q;
            marco_fq_check_throttled_loop n' now q'
      end
  end.

Definition marco_fq_check_throttled (now : Z) (q : marco_fq_sched_data)
  : option marco_fq_sched_data :=
  if now <? time_next_delayed_flow q then Some q
  else
    let sample := u64 (now - time_next_delayed_flow q) in
    let lat := unthrottle_latency_ns q in
    let lat := u64 (lat - Z.shiftr lat 3) in
    let lat := u64 (lat + Z.shiftr sample 3) in
    let q := set_unthrottle_latency_ns lat q in
    let q := set_time_next_delayed_flow U64_MAX q in
    marco_fq_check_throttled_loop (rb_size (delayed q)) now q.

Definition marco_fq_dequeue_skb (flow : flow_ref) (skb : sk_buff) (sch : Qdisc)
  : option Qdisc :=
  fl ← get_flow (priv sch) flow;
  let fl := set_qlen (s32 (qlen fl - 1)) (marco_fq_erase_head fl skb) in
  let sch := set_priv (set_flow flow fl (priv sch)) sch in
  let sch := set_backlog (u32 (backlog sch - pkt_len skb)) sch in
  Some (set_q_qlen (u32 (q_qlen sch - 1)) sch).

(** [INET_ECN_set_ce] on an IPv4 header: ECT(0) and ECT(1) become CE.  The
    buffer is marked in place; it leaves its flow in the next statement,
    where [marco_fq_erase_head] knows it by its address. *)
Definition INET_ECN_set_ce (skb : sk_buff) : sk_buff :=
  if (ecn skb =? 1) || (ecn skb =? 2) then set_ecn 3 skb else skb.

(** One turn of [marco_fq_dequeue] from the label [begin] on. *)
Inductive dequeue_turn : Type :=
| GOTO_BEGIN : Qdisc → dequeue_turn                     (* goto begin *)
| RETURN_NULL : Qdisc → dequeue_turn                    (* return NULL *)
| DEQUEUED : flow_ref → sk_buff → Qdisc → dequeue_turn. (* skb left flow f *)

(** [head = &q->new_flows; if (!head->first) head = &q->old_flows]. *)
Definition selected_head (q : marco_fq_sched_data) : marco_fq_flow_head :=
  match new_flows q with
  | [] => OLD_FLOWS
  | _ => NEW_FLOWS
  end.

Definition marco_fq_dequeue_turn (now jiffies : Z) (sch : Qdisc) : option dequeue_turn :=
  let q := priv sch in
  let head := selected_head q in
  match head_first head q with
  | [] =>
      Some (RETURN_NULL
              (if negb (time_next_delayed_flow q =? U64_MAX)
               then set_priv (set_watchdog (Some (time_next_delayed_flow q, timer_slack q)) q) sch
               else sch))
  | f :: f_next =>
      fl ← get_flow q f;
      if credit fl <=? 0 then
        let q := set_flow f (set_credit (s32 (credit fl + quantum q)) fl) q in
        let q := set_head_first head f_next q in
        q ← marco_fq_flow_add_tail OLD_FLOWS f q;
        Some (GOTO_BEGIN (set_priv q sch))
      else
        match marco_fq_peek fl with
        | Some skb =>
            let time_next_packet := Z.max (time_to_send skb) (time_next_packet fl) in
            let '(tbl, time_next_packet) :=
              ip_count_outgo (saddr skb) (daddr skb) (ip_count_table sch) time_next_packet in
            let sch := set_ip_count_table tbl sch in
            if now <? time_next_packet then
              let q := set_head_first head f_next q in
              let q := set_flow f (set_time_next_packet time_next_packet fl) q in
              q ← marco_fq_flow_set_throttled f q;
              Some (GOTO_BEGIN (set_priv q sch))
            else
              let '(skb, q) :=
                if s64 (now - time_next_packet - ce_threshold q) >? 0
                then (INET_ECN_set_ce skb, set_stat_ce_mark (u64 (stat_ce_mark q + 1)) q)
                else (skb, q) in
              sch ← marco_fq_dequeue_skb f skb (set_priv q sch);
              Some (DEQUEUED f skb sch)
        | None =>
            let q := set_head_first head f_next q in
            if (match head with NEW_FLOWS => true | OLD_FLOWS => false end)
               && (match old_flows q with [] => false | _ => true end)
            then
              q ← marco_fq_flow_add_tail OLD_FLOWS f q;
              Some (GOTO_BEGIN (set_priv q sch))
            else
              let q := set_flow f (marco_fq_flow_set_detached jiffies fl) q in
              let q := set_inactive_flows (u32 (inactive_flows q + 1)) q in
              Some (GOTO_BEGIN (set_priv q sch))
        end
  end.

(** The loop made by [goto begin]: [None] when [fuel] turns do not reach a
    [return] (or a flow pointer is dangling). *)
Fixpoint marco_fq_dequeue_begin (fuel : nat) (now jiffies : Z) (sch : Qdisc)
  : option (option (flow_ref * sk_buff) * Qdisc) :=
  match fuel with
  | O => None
  | S fuel' =>
      turn ← marco_fq_dequeue_turn now jiffies sch;
      match turn with
      | GOTO_BEGIN sch' => marco_fq_dequeue_begin fuel' now jiffies sch'
      | RETURN_NULL sch' => Some (None, sch')
      | DEQUEUED f skb sch' => Some (Some (f, skb), sch')
      end
  end.

Definition qdisc_bstats_update (skb : sk_buff) (sch : Qdisc) : Qdisc :=
  set_bstats_packets (u64 (bstats_packets sch + 1))
    (set_bstats_bytes (u64 (bstats_bytes sch + pkt_len skb)) sch).

(** [marco_fq_dequeue] after the packet left its flow: the credit and the
    pacing of the flow, up to the label [out]. *)
Definition marco_fq_dequeue_charge (now : Z) (f : flow_ref) (skb : sk_buff)
  (q : marco_fq_sched_data) : option marco_fq_sched_data :=
  fl ← get_flow q f;
  let plen := pkt_len skb in
  let fl := set_credit (s32 (credit fl - plen)) fl in
  if rate_enable q =? 0 then Some (set_flow f fl q)
  else
    let rate := flow_max_rate q in
    let paced :=
      if tstamp skb =? 0 then
        let rate := match skb_sk skb with
                    | Some s => Z.min (sk_pacing_rate s) rate
                    | None => rate
                    end in
        if rate <=? low_rate_threshold q then Some (rate, plen, set_credit 0 fl)
        else if 0 <? credit fl then None
        else Some (rate, Z.max plen (quantum q), fl)
      else Some (rate, plen, fl) in
    match paced with
    | None => Some (set_flow f fl q)
    | Some (rate, plen, fl) =>
        if rate =? U64_MAX then Some (set_flow f fl q)
        else
          let len := u64 (plen * NSEC_PER_SEC) in
          let len := if rate =? 0 then len else len / rate in
          let '(len, q) :=
            if NSEC_PER_SEC <? len
            then (NSEC_PER_SEC, set_stat_pkts_too_long (u64 (stat_pkts_too_long q + 1)) q)
            else (len, q) in
          let len :=
            if time_next_packet fl =? 0 then len
            else u64 (len - Z.min (len / 2) (u64 (now - time_next_packet fl))) in
          Some (set_flow f (set_time_next_packet (u64 (now + len)) fl) q)
    end.

(** [fuel] bounds the turns of the selection loop. *)
Definition marco_fq_dequeue (fuel : nat) (now jiffies : Z) (sch : Qdisc)
  : option (option sk_buff * Qdisc) :=
  if q_qlen sch =? 0 then Some (None, sch)
  else
    match marco_fq_peek (internal (priv sch)) with
    | Some skb =>
        sch ← marco_fq_dequeue_skb INTERNAL skb sch;
        Some (Some skb, qdisc_bstats_update skb sch)
    | None =>
        q ← marco_fq_check_throttled now (set_ktime_cache now (priv sch));
        '(sel, sch) ← marco_fq_dequeue_begin fuel now jiffies (set_priv q sch);
        match sel with
        | None => Some (None, sch)
        | Some (f, skb) =>
            q ← marco_fq_dequeue_charge now f skb (priv sch);
            Some (Some skb, qdisc_bstats_update skb (set_priv q sch))
        end
    end.

(** ** Reset *)

(** A loop that erases the first node of a tree until none is left. *)
Fixpoint rb_erase_all {A : Type} (n : nat) (t : rb_root A) : rb_root A :=
  match n with
  | O => t
  | S n' =>
      match rb_first t with
      | None => t
      | Some _ => rb_erase_all n' (rb_erase_first t)
      end
  end.

Definition marco_fq_flow_purge (flow : marco_fq_flow) : marco_fq_flow :=
  let flow := set_t_root (rb_erase_all (rb_size (t_root flow)) (t_root flow)) flow in
  set_qlen 0 (set_head [] flow).

(** The inner loop of [marco_fq_reset] on one shard: every flow of the
    shard is erased, purged and freed. *)
Fixpoint marco_fq_reset_root (n : nat) (root : rb_root Z) (heap : gmap Z marco_fq_flow)
  : rb_root Z * gmap Z marco_fq_flow :=
  match n with
  | O => (root, heap)
  | S n' =>
      match rb_first root with
      | None => (root, heap)
      | Some k => marco_fq_reset_root n' (rb_erase_first root) (delete k heap)
      end
  end.

Fixpoint marco_fq_reset_roots (roots : list (rb_root Z)) (heap : gmap Z marco_fq_flow)
  : list (rb_root Z) * gmap Z marco_fq_flow :=
  match roots with
  | [] => ([], heap)
  | root :: rest =>
      let '(root', heap) := marco_fq_reset_root (rb_size root) root heap in
      let '(rest', heap) := marco_fq_reset_roots rest heap in
      (root' :: rest', heap)
  end.

Definition marco_fq_reset (sch : Qdisc) : Qdisc :=
  let sch := set_backlog 0 (set_q_qlen 0 sch) in
  let q := priv sch in
  let q := set_internal (marco_fq_flow_purge (internal q)) q in
  match fq_root q with
  | None => set_priv q sch
  | Some roots =>
      let '(roots, heap) := marco_fq_reset_roots roots (flow_heap q) in
      let q := set_flow_heap heap (set_fq_root (Some roots) q) in
      let q := set_new_flows [] q in
      let q := set_old_flows [] q in
      let q := set_delayed RB_ROOT q in
      let q := set_flows 0 q in
      let q := set_inactive_flows 0 q in
      let q := set_throttled_flows 0 q in
      set_priv q sch
  end.

(** ** Resize *)

(** The rehash state: the new array, the heap and the count of collected
    flows. *)
Definition rehash_state : Type := list (rb_root Z) * gmap Z marco_fq_flow * Z.

Fixpoint marco_fq_rehash_root (n : nat) (jiffies new_log : Z) (oroot : rb_root Z)
  (st : rehash_state) : option rehash_state :=
  match n with
  | O => Some st
  | S n' =>
      match rb_first oroot with
      | None => Some st
      | Some k =>
          let '(new_array, heap, fcnt) := st in
          let oroot := rb_erase_first oroot in
          of_ ← heap !! k;
          if marco_fq_gc_candidate jiffies of_ then
            marco_fq_rehash_root n' jiffies new_log oroot
              (new_array, delete k heap, fcnt + 1)
          else
            let idx := Z.to_nat (hash_ptr (sk of_) new_log) in
            nroot ← new_array !! idx;
            marco_fq_rehash_root n' jiffies new_log oroot
              (<[idx := rb_link (λ nf, nf >? sk of_) k nroot]> new_array, heap, fcnt)
      end
  end.

Definition marco_fq_rehash (jiffies : Z) (old_array : list (rb_root Z)) (new_log : Z)
  (new_array : list (rb_root Z)) (q : marco_fq_sched_data)
  : option (list (rb_root Z) * marco_fq_sched_data) :=
  '(new_array, heap, fcnt) ←
    foldl (λ st oroot, st ← st; marco_fq_rehash_root (rb_size oroot) jiffies new_log oroot st)
      (Some (new_array, flow_heap q, 0)) old_array;
  let q := set_flow_heap heap q in
  let q := set_flows (u32 (flows q - fcnt)) q in
  let q := set_inactive_flows (u32 (inactive_flows q - fcnt)) q in
  Some (new_array, set_stat_gc_flows (u64 (stat_gc_flows q + fcnt)) q).

(** [alloc_ok] is the outcome [kvmalloc_node] would have. *)
Definition marco_fq_resize (jiffies : Z) (alloc_ok : bool) (log : Z)
  (q : marco_fq_sched_data) : option (Z * marco_fq_sched_data) :=
  if (match fq_root q with Some _ => true | None => false end) && (log =? fq_trees_log q)
  then Some (0, q)
  else if negb alloc_ok then Some (- ENOMEM, q)
  else
    let array := replicate (Z.to_nat (u32 (Z.shiftl 1 log))) RB_ROOT in
    '(array, q) ← match fq_root q with
                  | Some old_fq_root => marco_fq_rehash jiffies old_fq_root log array q
                  | None => Some (array, q)
                  end;
    Some (0, set_fq_trees_log log (set_fq_root (Some array) q)).

(** ** Configuration *)

(** The attributes of a netlink request after [nla_parse_nested_deprecated]:
    [tb[TCA_FQ_x]] is [None] when the attribute is absent; a present
    attribute holds a value of its [fq_policy] type. *)
Record tca_fq := Build_tca_fq {
  TCA_FQ_PLIMIT : option Z;
  TCA_FQ_FLOW_PLIMIT : option Z;
  TCA_FQ_QUANTUM : option Z;
  TCA_FQ_INITIAL_QUANTUM : option Z;
  TCA_FQ_RATE_ENABLE : option Z;
  TCA_FQ_FLOW_DEFAULT_RATE : option Z;
  TCA_FQ_FLOW_MAX_RATE : option Z;
  TCA_FQ_BUCKETS_LOG : option Z;
  TCA_FQ_FLOW_REFILL_DELAY : option Z;
  TCA_FQ_ORPHAN_MASK : option Z;
  TCA_FQ_LOW_RATE_THRESHOLD : option Z;
  TCA_FQ_CE_THRESHOLD : option Z;
  TCA_FQ_TIMER_SLACK : option Z;
  TCA_FQ_HORIZON : option Z;
  TCA_FQ_HORIZON_DROP : option Z
}.


(** [usecs_to_jiffies] for [HZ = 1000]. *)
Definition usecs_to_jiffies (u : Z) : Z := (u + 999) / 1000.
Definition msecs_to_jiffies (m : Z) : Z := m.

(** [if (tb[attr]) body]: [body] takes the value and the state. *)
Definition with_attr {S : Type} (attr : option Z) (body : Z → S → S) (s : S) : S :=
  match attr with
  | Some v => body v s
  | None => s
  end.

(** The attribute pass of [marco_fq_change], from [fq_log = q->fq_trees_log]
    to the test of [err]: the state is [(err, fq_log, sch)]. *)
Definition marco_fq_change_attrs (tb : tca_fq) (sch : Qdisc) : Z * Z * Qdisc :=
  let on_q (f : marco_fq_sched_data → marco_fq_sched_data) (st : Z * Z * Qdisc) :=
    let '(err, fq_log, sch) := st in (err, fq_log, set_priv (f (priv sch)) sch) in
  let st := (0, fq_trees_log (priv sch), sch) in
  let st := with_attr (TCA_FQ_BUCKETS_LOG tb) (λ nval '(err, fq_log, sch),
              if (1 <=? nval) && (nval <=? 18) then (err, nval, sch)
              else (- EINVAL, fq_log, sch)) st in
  let st := with_attr (TCA_FQ_PLIMIT tb) (λ v '(err, fq_log, sch),
              (err, fq_log, set_limit v sch)) st in
  let st := with_attr (TCA_FQ_FLOW_PLIMIT tb) (λ v, on_q (set_flow_plimit v)) st in
  let st := with_attr (TCA_FQ_QUANTUM tb) (λ quantum '(err, fq_log, sch),
              if (0 <? quantum) && (quantum <=? Z.shiftl 1 20)
              then (err, fq_log, set_priv (set_quantum quantum (priv sch)) sch)
              else (- EINVAL, fq_log, sch)) st in
  let st := with_attr (TCA_FQ_INITIAL_QUANTUM tb) (λ v, on_q (set_initial_quantum v)) st in
  let st := with_attr (TCA_FQ_FLOW_MAX_RATE tb) (λ rate,
              on_q (set_flow_max_rate (if rate =? U32_MAX then U64_MAX else rate))) st in
  let st := with_attr (TCA_FQ_LOW_RATE_THRESHOLD tb) (λ v, on_q (set_low_rate_threshold v)) st in
  let st := with_attr (TCA_FQ_RATE_ENABLE tb) (λ enable '(err, fq_log, sch),
              if enable <=? 1
              then (err, fq_log, set_priv (set_rate_enable enable (priv sch)) sch)
              else (- EINVAL, fq_log, sch)) st in
  let st := with_attr (TCA_FQ_FLOW_REFILL_DELAY tb) (λ usecs_delay,
              on_q (set_flow_refill_delay (usecs_to_jiffies usecs_delay))) st in
  let st := with_attr (TCA_FQ_ORPHAN_MASK tb) (λ v, on_q (set_orphan_mask v)) st in
  let st := with_attr (TCA_FQ_CE_THRESHOLD tb) (λ v,
              on_q (set_ce_threshold (NSEC_PER_USEC * v))) st in
  let st := with_attr (TCA_FQ_TIMER_SLACK tb) (λ v, on_q (set_timer_slack v)) st in
  let st := with_attr (TCA_FQ_HORIZON tb) (λ v, on_q (set_horizon (NSEC_PER_USEC * v))) st in
  with_attr (TCA_FQ_HORIZON_DROP tb) (λ v, on_q (set_horizon_drop v)) st.

(** The loop of [marco_fq_change] that drops packets above the new limit;
    each turn that goes on takes one packet, so [q_qlen sch] turns are all
    it can take.  [clock k] is the time and tick of the [k]-th turn.
    Returns the dropped packets. *)
Fixpoint marco_fq_change_drain (n : nat) (fuel : nat) (clock : nat → Z * Z) (k : nat)
  (sch : Qdisc) (dropped : list sk_buff) : option (list sk_buff * Qdisc) :=
  match n with
  | O => Some (dropped, sch)
  | S n' =>
      if limit sch <? q_qlen sch then
        '(skb, sch') ← marco_fq_dequeue fuel (clock k).1 (clock k).2 sch;
        match skb with
        | None => Some (dropped, sch')
        | Some skb => marco_fq_change_drain n' fuel clock (S k) sch' (dropped ++ [skb])
        end
      else Some (dropped, sch)
  end.

(** [opt] is the parsed request, [None] for a NULL [opt]; the result is the
    status, the packets dropped to meet the limit, and the qdisc. *)
Definition marco_fq_change (fuel : nat) (clock : nat → Z * Z) (jiffies : Z)
  (alloc_ok : bool) (opt : option tca_fq) (sch : Qdisc)
  : option (Z * list sk_buff * Qdisc) :=
  match opt with
  | None => Some (- EINVAL, [], sch)
  | Some tb =>
      let '(err, fq_log, sch) := marco_fq_change_attrs tb sch in
      '(err, sch) ←
        (if err =? 0 then
           '(err, q) ← marco_fq_resize jiffies alloc_ok fq_log (priv sch);
           Some (err, set_priv q sch)
         else Some (err, sch));
      '(dropped, sch) ← marco_fq_change_drain (Z.to_nat (q_qlen sch)) fuel clock O sch [];
      Some (err, dropped, sch)
  end.

(** [marco_fq_init]; [mtu] is [psched_mtu(qdisc_dev(sch))], and the private
    data start zeroed. *)
Definition sched_zero : marco_fq_sched_data :=
  Build_sched [] [] RB_ROOT 0 0 0 flow_zero 0 0 0 0 0 0 0 0 0 None 0 0 0 0 0 0
    0 0 0 0 0 0 0 0 0 0 None ∅.

Definition marco_fq_init (fuel : nat) (clock : nat → Z * Z) (jiffies : Z)
  (alloc_ok : bool) (mtu : Z) (opt : option tca_fq) (sch : Qdisc)
  : option (Z * list sk_buff * Qdisc) :=
  let sch := set_limit 10000 sch in
  let q := priv sch in
  let q := set_flow_plimit 100 q in
  let q := set_quantum (u32 (2 * mtu)) q in
  let q := set_initial_quantum (u32 (10 * mtu)) q in
  let q := set_flow_refill_delay (msecs_to_jiffies 40) q in
  let q := set_flow_max_rate U64_MAX q in
  let q := set_time_next_delayed_flow U64_MAX q in
  let q := set_rate_enable 1 q in
  let q := set_new_flows [] q in
  let q := set_old_flows [] q in
  let q := set_delayed RB_ROOT q in
  let q := set_fq_root None q in
  let q := set_fq_trees_log 10 q in
  let q := set_orphan_mask (1024 - 1) q in
  let q := set_low_rate_threshold (550000 / 8) q in
  let q := set_timer_slack (10 * NSEC_PER_USEC) q in
  let q := set_horizon (10 * NSEC_PER_SEC) q in
  let q := set_horizon_drop 1 q in
  let q := set_ce_threshold (NSEC_PER_USEC * U32_MAX) q in
  let sch := set_priv q sch in
  match opt with
  | Some _ => marco_fq_change fuel clock jiffies alloc_ok opt sch
  | None =>
      '(err, q) ← marco_fq_resize jiffies alloc_ok (fq_trees_log q) q;
      Some (err, [], set_priv q sch)
  end.

(** A qdisc as allocated, before [marco_fq_init]. *)
Definition Qdisc_zero : Qdisc := Build_Qdisc 0 0 0 0 0 0 sched_zero [].

(** * The properties *)

Definition deadline_le (a b : sk_buff) : Prop := time_to_send a <= time_to_send b.

(** The two packet structures of a flow are each in deadline order. *)
Definition flow_ordered (flow : marco_fq_flow) : Prop :=
  StronglySorted deadline_le (head flow) ∧
  StronglySorted deadline_le (rb_inorder (t_root flow)).

(** Every flow on a list or in the deferral index is a live flow whose
    credit is an [int]. *)
Definition flows_live (q : marco_fq_sched_data) : Prop :=
  ∀ f, f ∈ new_flows q ++ old_flows q ++ rb_inorder (delayed q) →
       ∃ fl, get_flow q f = Some fl ∧ - 2 ^ 31 <= credit fl < 2 ^ 31.

(** How far the credit of a flow is below 1. *)
Definition credit_deficit (q : marco_fq_sched_data) (f : flow_ref) : nat :=
  match get_flow q f with
  | Some fl => Z.to_nat (1 - credit fl)
  | None => O
  end.

(** What every turn of the selection loop that goes back to [begin]
    makes smaller. *)
Definition dequeue_measure (q : marco_fq_sched_data) : nat :=
  (2 * length (new_flows q) + length (old_flows q)
   + sum_list_with (credit_deficit q) (new_flows q ++ old_flows q))%nat.

(** The deferral index in a state the scheduler keeps it in: its flows are
    live heap flows in the order of [time_next_packet], none of them is on
    a round-robin list, and [time_next_delayed_flow] is not above any of
    them. *)
Record deferral_wf (q : marco_fq_sched_data) : Prop := {
  deferral_live : ∀ f, f ∈ rb_inorder (delayed q) → is_Some (get_flow q f);
  deferral_sorted :
    StronglySorted (λ a b, flow_time_next_packet q a <= flow_time_next_packet q b)
      (rb_inorder (delayed q));
  deferral_min : ∀ f, f ∈ rb_inorder (delayed q) →
    time_next_delayed_flow q <= flow_time_next_packet q f;
  deferral_apart : ∀ f, f ∈ rb_inorder (delayed q) →
    f ∉ new_flows q ++ old_flows q;
  deferral_heap : INTERNAL ∉ rb_inorder (delayed q)
}.

(** The packet [p] sits in a flow of the scheduler. *)
Definition skb_stored (q : marco_fq_sched_data) (p : sk_buff) : Prop :=
  ∃ f fl, get_flow q f = Some fl ∧ p ∈ flow_packets fl.

(** The buffer at address [id] sits in a flow of the scheduler. *)
Definition skb_queued (q : marco_fq_sched_data) (id : Z) : Prop :=
  ∃ p, skb_stored q p ∧ skb_id p = id.

(** The calls the host makes after a packet was refused. *)
Inductive fq_op : Type :=
| OP_ENQUEUE (now jiffies : Z) (flow_alloc_ok ip_alloc_ok : bool) (skb : sk_buff)
| OP_DEQUEUE (fuel : nat) (now jiffies : Z).

(** Runs the calls in order and collects the packets the dequeues return. *)
Fixpoint fq_run (ops : list fq_op) (sch : Qdisc) : option (list sk_buff * Qdisc) :=
  match ops with
  | [] => Some ([], sch)
  | OP_ENQUEUE now jiffies flow_alloc_ok ip_alloc_ok skb :: ops =>
      '(_, _, sch) ← marco_fq_enqueue now jiffies flow_alloc_ok ip_alloc_ok skb sch;
      fq_run ops sch
  | OP_DEQUEUE fuel now jiffies :: ops =>
      '(r, sch) ← marco_fq_dequeue fuel now jiffies sch;
      '(out, sch) ← fq_run ops sch;
      Some (match r with Some skb => skb :: out | None => out end, sch)
  end.

(** The addresses of the buffers the calls enqueue. *)
Definition fq_enqueued (ops : list fq_op) : list Z :=
  omap (λ op, match op with
              | OP_ENQUEUE _ _ _ _ skb => Some (skb_id skb)
              | OP_DEQUEUE _ _ _ => None
              end) ops.

(** The scheduler a turn of the selection loop ends with. *)
Definition turn_sched (r : dequeue_turn) : marco_fq_sched_data :=
  match r with
  | GOTO_BEGIN sch' | RETURN_NULL sch' | DEQUEUED _ _ sch' => priv sch'
  end.

(** The parameters [marco_fq_change] sets, in the order of its attribute
    pass, and the size of the flow table. *)
Definition sched_config (q : marco_fq_sched_data) : list Z :=
  [flow_plimit q; quantum q; initial_quantum q; flow_max_rate q;
   low_rate_threshold q; rate_enable q; flow_refill_delay q; orphan_mask q;
   ce_threshold q; timer_slack q; horizon q; horizon_drop q; fq_trees_log q].

Definition fq_config (sch : Qdisc) : list Z := limit sch :: sched_config (priv sch).

(** An attribute of the request is outside the range [marco_fq_change]
    accepts for it. *)
Definition tca_fq_invalid (tb : tca_fq) : Prop :=
  (∃ v, TCA_FQ_BUCKETS_LOG tb = Some v ∧ ¬ (1 <= v <= 18)) ∨
  (∃ v, TCA_FQ_QUANTUM tb = Some v ∧ ¬ (0 < v <= 2 ^ 20)) ∨
  (∃ v, TCA_FQ_RATE_ENABLE tb = Some v ∧ ¬ (v <= 1)).

(** An absent attribute is in range. *)
Definition attr_ok (attr : option Z) (ok : Z → bool) : bool :=
  match attr with
  | Some v => ok v
  | None => true
  end.

(** The value a parameter has after the attribute pass: the one of the
    request when the attribute is present and [ok], else the old one. *)
Definition attr_applied (attr : option Z) (ok : Z → bool) (conv : Z → Z) (old : Z) : Z :=
  match attr with
  | Some v => if ok v then conv v else old
  | None => old
  end.

(** Schedulers for the examples: [marco_fq_init] on a device of MTU 1500
    with the attributes [tb]. *)
Definition clock0 : nat → Z * Z := λ _, (0, 0).

Definition fq_setup (tb : tca_fq) : option Qdisc :=
  '(err, _, sch) ← marco_fq_init 1 clock0 0 true 1500 (Some tb) Qdisc_zero;
  if err =? 0 then Some sch else None.

(** Two shards keep the examples small. *)
Definition tca_two_shards : tca_fq :=
  Build_tca_fq None None None None None None None (Some 1) None None None None None None None.

Definition example_sock (hash : Z) : sock := Build_sock 4096 hash 1 U64_MAX.

(** A packet of [len] bytes from the example socket: [tstamp] 0 is no
    deadline. *)
Definition example_skb (id tstamp hash len : Z) : sk_buff :=
  Build_sk_buff id tstamp 0 (Some (example_sock hash)) 0 len 1 2 2 0.

(** One flow [h] is rewritten, with a credit that did not go down. *)
Definition rewrites_flow (q q' : marco_fq_sched_data) (h : flow_ref)
  (fl fl' : marco_fq_flow) : Prop :=
  get_flow q h = Some fl ∧ get_flow q' h = Some fl' ∧
  (∀ g, g ≠ h → get_flow q' g = get_flow q g) ∧
  credit fl <= credit fl' < 2 ^ 31.

(** ** Example states *)

(** The scheduler after [marco_fq_init] with two shards. *)
Definition example_sch : Qdisc := default Qdisc_zero (fq_setup tca_two_shards).

(** Packets with the deadlines 5, 3, 4 and 5. *)
Definition stamped_skb (id deadline : Z) : sk_buff :=
  set_time_to_send deadline (example_skb id deadline 7 100).

Definition example_pkts : list sk_buff :=
  [stamped_skb 1 5; stamped_skb 2 3; stamped_skb 3 4; stamped_skb 4 5].

(** A flow that sent 20000 bytes on a credit of 15000 and holds one more
    packet. *)
Definition overdrawn_sch : Qdisc :=
  default Qdisc_zero
    ('(_, _, sch) ← marco_fq_enqueue 0 0 true true (example_skb 1 0 7 20000) example_sch;
     '(_, _, sch) ← marco_fq_enqueue 0 0 true true (example_skb 2 0 7 100) sch;
     '(_, sch) ← marco_fq_dequeue 5 0 0 sch;
     Some sch).

Definition overdrawn_flow : marco_fq_flow :=
  default flow_zero (get_flow (priv overdrawn_sch) (FLOW 4096)).

(** A flow whose only packet has the deadline 1000, after a dequeue at
    time 0 throttled it. *)
Definition throttled_sch : Qdisc :=
  default Qdisc_zero
    ('(_, _, sch) ← marco_fq_enqueue 0 0 true true (example_skb 1 1000 7 100) example_sch;
     '(_, sch) ← marco_fq_dequeue 5 0 0 sch;
     Some sch).

(** A request with a packet limit of 5 and a quantum of 0. *)
Definition tca_zero_quantum : tca_fq :=
  Build_tca_fq (Some 5) None (Some 0) None None None None None None None None None None
    None None.

(** Pacing off and a CE threshold of 1 us; one packet enqueued at time
    1000. *)
Definition tca_unpaced : tca_fq :=
  Build_tca_fq None None None None (Some 0) None None (Some 1) None None None (Some 1) None
    None None.

Definition unpaced_sch : Qdisc :=
  default Qdisc_zero
    (sch ← fq_setup tca_unpaced;
     '(_, _, sch) ← marco_fq_enqueue 1000 0 true true (example_skb 1 0 7 100) sch;
     Some sch).

Definition unpaced_flow : marco_fq_flow :=
  default flow_zero (get_flow (priv unpaced_sch) (FLOW 4096)).

(** A horizon of 10 s with the given policy, and a packet due in 20 s. *)
Definition tca_horizon (drop : Z) : tca_fq :=
  Build_tca_fq None None None None None None None (Some 1) None None None None None
    (Some 10000000) (Some drop).

Definition horizon_sch (drop : Z) : Qdisc :=
  default Qdisc_zero (fq_setup (tca_horizon drop)).

Definition far_skb : sk_buff := example_skb 1 20000000000 7 100.

(** An initial quantum of 2^32 - 1 and a flow limit of 0: the first packet
    of the socket creates its flow and is refused; then the flow limit is
    raised. *)
Definition tca_wide_initial_quantum : tca_fq :=
  Build_tca_fq None (Some 0) None (Some 4294967295) None None None (Some 1) None None None
    None None None None.

Definition tca_flow_plimit : tca_fq :=
  Build_tca_fq None (Some 100) None None None None None None None None None None None
    None None.

Definition idle_sch : Qdisc :=
  default Qdisc_zero
    (sch ← fq_setup tca_wide_initial_quantum;
     '(_, _, sch) ← marco_fq_enqueue 0 0 true true (example_skb 1 0 7 100) sch;
     '(_, _, sch) ← marco_fq_change 1 clock0 0 true (Some tca_flow_plimit) sch;
     Some sch).

Definition idle_flow : marco_fq_flow :=
  default flow_zero (get_flow (priv idle_sch) (FLOW 4096)).

(** [idle_sch] and the second packet of the socket as [marco_fq_enqueue]
    at time 1000 hands them to [marco_fq_classify]. *)
Definition idle_sch_stamped : Qdisc :=
  set_priv (set_ktime_cache 1000 (priv idle_sch)) idle_sch.

Definition idle_skb : sk_buff := set_time_to_send 1000 (example_skb 2 0 7 100).

(** [example_sch] and a first packet at time 0. *)
Definition example_sch_stamped : Qdisc :=
  set_priv (set_ktime_cache 0 (priv example_sch)) example_sch.

Definition first_skb : sk_buff := set_time_to_send 0 (example_skb 1 0 7 100).

Definition unpaced_skb : sk_buff :=
  default (example_skb 0 0 0 0) (marco_fq_peek unpaced_flow).

(** The scheduler [marco_fq_classify] leaves for the first packet at time
    0, with the new flow of its socket. *)
Definition first_q : marco_fq_sched_data :=
  default (priv example_sch)
    ('(_, _, q) ← marco_fq_classify 0 true first_skb (priv example_sch_stamped); Some q).

Definition first_flow : marco_fq_flow :=
  default flow_zero (get_flow first_q (FLOW 4096)).

(** ** Destroy *)

(** [marco_fq_destroy]: [marco_fq_reset] frees the flows, [marco_fq_free]
    the flow table, and the watchdog is cancelled.  The table that was
    freed is [None]: the model has no pointer to freed memory, a later use
    of the table is a fault. *)
Definition marco_fq_destroy (sch : Qdisc) : Qdisc :=
  let sch := marco_fq_reset sch in
  let q := priv sch in
  let q := set_fq_root None q in
  set_priv (set_watchdog None q) sch.

(** ** Dump *)




















(** ** States the scheduler reaches *)

(** A list without the first element that [p] holds of: what [rb_erase]
    does to the in-order sequence. *)
Fixpoint remove_first {A : Type} (p : A → bool) (l : list A) : list A :=
  match l with
  | [] => []
  | x :: l' => if p x then l' else x :: remove_first p l'
  end.

(** The flows that are linked: on a round-robin list or in the deferral
    index. *)
Definition linked (q : marco_fq_sched_data) : list flow_ref :=
  new_flows q ++ old_flows q ++ rb_inorder (delayed q).

(** The shards of the flow table are search trees for the descent of
    [marco_fq_classify], larger keys first, every flow of the heap is
    filed in the shard of its key, and its key is its [sk]. *)
Definition fq_root_wf (q : marco_fq_sched_data) : Prop :=
  ∃ roots, fq_root q = Some roots ∧
    (∀ idx root, roots !! idx = Some root →
       StronglySorted (λ a b, b <= a) (rb_inorder root)) ∧
    (∀ k, is_Some (get_flow q (FLOW k)) →
       ∃ root, roots !! Z.to_nat (hash_ptr k (fq_trees_log q)) = Some root ∧
               k ∈ rb_inorder root) ∧
    (∀ k fl, get_flow q (FLOW k) = Some fl → sk fl = k).

(** The links of the flows: a linked flow is a flow of the heap that is
    not detached, no flow is linked twice, [next == &throttled] marks the
    flows of the deferral index, which is in the order of
    [time_next_packet]; [credit] is an [int], and a detached flow is empty
    and not [internal]. *)
Record links_wf (q : marco_fq_sched_data) : Prop := {
  wf_linked : ∀ f, f ∈ linked q →
    f ≠ INTERNAL ∧ ∃ fl, get_flow q f = Some fl ∧ marco_fq_flow_is_detached fl = false;
  wf_nodup : NoDup (linked q);
  wf_throttled : ∀ f fl, get_flow q f = Some fl →
    (next_is_throttled fl = true ↔ f ∈ rb_inorder (delayed q));
  wf_flow : ∀ f fl, get_flow q f = Some fl →
    - 2 ^ 31 <= credit fl < 2 ^ 31 ∧
    (marco_fq_flow_is_detached fl = true → head fl = [] ∧ f ≠ INTERNAL);
  wf_sorted :
    StronglySorted (λ a b, flow_time_next_packet q a <= flow_time_next_packet q b)
      (rb_inorder (delayed q));
  wf_fq_root : fq_root_wf q
}.

(** What [marco_fq_init] establishes and every call keeps, as long as
    [marco_fq_enqueue] does not return [ENOMEM]: the links are in order and
    [time_next_delayed_flow] is not above the [time_next_packet] of a flow
    of the deferral index. *)
Definition sched_wf (q : marco_fq_sched_data) : Prop :=
  links_wf q ∧
  ∀ f, f ∈ rb_inorder (delayed q) →
       time_next_delayed_flow q <= flow_time_next_packet q f.

(** What [marco_fq_check_throttled] leaves in [time_next_delayed_flow]: a
    time after [now], or the value that stands for none. *)
Definition deferral_armed (now : Z) (q : marco_fq_sched_data) : Prop :=
  now < time_next_delayed_flow q ∨ time_next_delayed_flow q = U64_MAX.

(** What the loop of [marco_fq_rehash] keeps, for the heap [heap0] it
    started from and the keys [seen] it has met: the new shards are search
    trees, the heap lost only flows the collector may free, [fcnt] counts
    them, and every flow it met and kept is filed in the shard of its key
    under [new_log] and is not one the collector may free. *)
Definition rehash_inv (jiffies new_log : Z) (heap0 : gmap Z marco_fq_flow)
  (seen : list Z) (st : rehash_state) : Prop :=
  let '(new_array, heap, fcnt) := st in
  (∀ i r, new_array !! i = Some r → StronglySorted (λ a b, b <= a) (rb_inorder r)) ∧
  (∀ k fl, heap !! k = Some fl → heap0 !! k = Some fl) ∧
  (∀ k fl, heap0 !! k = Some fl → heap !! k = None →
           marco_fq_gc_candidate jiffies fl = true) ∧
  (∀ k, k ∈ seen → is_Some (heap !! k) →
        ∃ r, new_array !! Z.to_nat (hash_ptr k new_log) = Some r ∧ k ∈ rb_inorder r) ∧
  Z.of_nat (size heap0) = Z.of_nat (size heap) + fcnt ∧
  (∀ k fl, k ∈ seen → heap !! k = Some fl → marco_fq_gc_candidate jiffies fl = false).

(** ** Runs of the qdisc *)

(** A call of one of the operations of the qdisc, with what the call reads
    from its environment. *)
Inductive fq_call : Type :=
| CALL_ENQUEUE (now jiffies : Z) (flow_alloc_ok ip_alloc_ok : bool) (skb : sk_buff)
| CALL_DEQUEUE (fuel : nat) (now jiffies : Z)
| CALL_CHANGE (fuel : nat) (clock : nat → Z * Z) (jiffies : Z) (alloc_ok : bool)
    (opt : option tca_fq)
| CALL_RESET.

(** Runs the calls in order; the result holds the values the calls of
    [marco_fq_enqueue] returned. *)
Fixpoint fq_calls (calls : list fq_call) (sch : Qdisc) : option (list Z * Qdisc) :=
  match calls with
  | [] => Some ([], sch)
  | CALL_ENQUEUE now jiffies flow_alloc_ok ip_alloc_ok skb :: calls =>
      '(ret, _, sch) ← marco_fq_enqueue now jiffies flow_alloc_ok ip_alloc_ok skb sch;
      '(rets, sch) ← fq_calls calls sch;
      Some (ret :: rets, sch)
  | CALL_DEQUEUE fuel now jiffies :: calls =>
      '(_, sch) ← marco_fq_dequeue fuel now jiffies sch;
      fq_calls calls sch
  | CALL_CHANGE fuel clock jiffies alloc_ok opt :: calls =>
      '(_, _, sch) ← marco_fq_change fuel clock jiffies alloc_ok opt sch;
      fq_calls calls sch
  | CALL_RESET :: calls => fq_calls calls (marco_fq_reset sch)
  end.

(** ** More example states *)

(** [example_sch] with one packet of the example socket, enqueued at time
    0 without a deadline. *)
Definition queued_sch : Qdisc :=
  default Qdisc_zero
    ('(_, _, sch) ← marco_fq_enqueue 0 0 true true (example_skb 1 0 7 100) example_sch;
     Some sch).

(** A request for four shards. *)
Definition tca_four_shards : tca_fq :=
  Build_tca_fq None None None None None None None (Some 2) None None None None None None None.

(** A run that meets every operation: two packets of the socket are
    enqueued, one is dequeued, the table is resized, the qdisc is reset,
    and a packet is enqueued again. *)
Definition example_calls : list fq_call :=
  [CALL_ENQUEUE 0 0 true true (example_skb 1 0 7 100);
   CALL_ENQUEUE 0 0 true true (example_skb 2 1000 7 100);
   CALL_DEQUEUE 5 0 0;
   CALL_CHANGE 5 clock0 0 true (Some tca_four_shards);
   CALL_RESET;
   CALL_ENQUEUE 2000 2 true true (example_skb 3 0 7 100)].

(** ** Flows and sockets *)

(** The key [marco_fq_classify] files the flow of a packet under: the
    address of its socket, or for a packet without a socket, of a listener
    or of a socket in [TCP_CLOSE] the odd number made from its hash. *)
Definition classify_key (q : marco_fq_sched_data) (skb : sk_buff) : Z :=
  let orphan := Z.lor (Z.shiftl (Z.land (skb_hash skb) (orphan_mask q)) 1) 1 in
  match skb_sk skb with
  | None => orphan
  | Some s =>
      if sk_listener s then orphan
      else if sk_state s =? TCP_CLOSE then orphan
      else sk_ptr s
  end.

(** ** The counting table *)

(** The address pairs the table has an entry for, newest first. *)
Definition ip_pairs (tbl : list hash_ip_count) : list (Z * Z) :=
  (λ e, (s_ip e, d_ip e)) <$> tbl.

(** ** Configurations a dump can carry *)


(** ** Example states for the collector, the limit and the counting table *)

(** A packet of no socket: its flow is filed under a key made from the
    hash of the packet. *)
Definition orphan_skb (id : Z) : sk_buff := set_skb_sk None (example_skb id 0 7 100).

(** [example_sch] after a packet of the example socket and a packet of no
    socket were enqueued and both dequeued: the second [marco_fq_dequeue]
    found the flow of the socket empty and detached it. *)
Definition aged_sch : Qdisc :=
  default Qdisc_zero
    ('(_, sch) ← fq_calls [CALL_ENQUEUE 0 0 true true (example_skb 1 0 7 100);
                           CALL_ENQUEUE 0 0 true true (orphan_skb 2);
                           CALL_DEQUEUE 5 0 0; CALL_DEQUEUE 5 0 0] example_sch;
     Some sch).

(** A packet of control priority. *)
Definition control_skb : sk_buff := Build_sk_buff 9 0 TC_PRIO_CONTROL None 0 60 1 2 0 0.

(** [example_sch] with two packets of the example socket, and a request
    for a limit of one packet. *)
Definition two_queued_sch : Qdisc :=
  default Qdisc_zero
    ('(_, _, sch) ← marco_fq_enqueue 0 0 true true (example_skb 2 0 7 100) queued_sch;
     Some sch).

Definition tca_limit_one : tca_fq :=
  Build_tca_fq (Some 1) None None None None None None None None None None None None None
    None.

(** A counting table with eight packets counted from address 2 to
    address 1 and three the other way. *)
Definition example_table : list hash_ip_count :=
  [Build_ip_count 2 1 8; Build_ip_count 1 2 3].

(** ** States in which [marco_fq_dequeue] does not return *)

(** [example_sch] after these calls: the first packet of the example
    socket meets a failing [kmalloc] of the counting table, so that
    [marco_fq_enqueue] returns [ENOMEM]; 4000 ticks later
    [marco_fq_change] resizes the flow table to four shards; then a packet
    of no socket is enqueued. *)
Definition dangling_calls : list fq_call :=
  [CALL_ENQUEUE 0 0 true false (example_skb 1 0 7 100);
   CALL_CHANGE 5 clock0 4000 true (Some tca_four_shards);
   CALL_ENQUEUE 5000 4000 true true (orphan_skb 2)].

Definition dangling_sch : Qdisc :=
  default Qdisc_zero ('(_, sch) ← fq_calls dangling_calls example_sch; Some sch).

(** A qdisc of a device with an MTU of 2^30, set up without a request,
    and one packet of the example socket. *)
Definition wide_mtu_sch : Qdisc :=
  default Qdisc_zero
    ('(_, _, sch) ← marco_fq_init 1 clock0 0 true (2 ^ 30) None Qdisc_zero;
     '(_, _, sch) ← marco_fq_enqueue 0 0 true true (example_skb 1 0 7 100) sch;
     Some sch).

(** What a quantum of 2^31 leaves of the credit of the one flow [f] that
    is linked: it is 0 or -2^31. *)
Definition credit_cycles (f : flow_ref) (q : marco_fq_sched_data) : Prop :=
  quantum q = 2 ^ 31 ∧
  (new_flows q = [f] ∧ old_flows q = [] ∨ new_flows q = [] ∧ old_flows q = [f]) ∧
  ∃ fl, get_flow q f = Some fl ∧ (credit fl = 0 ∨ credit fl = - 2 ^ 31).

(** * Proofs *)

Set Warnings "-clear-no-such-hyp".

(** Closed facts by evaluation. *)
(** Closed comparisons of integers. *)
Ltac eval_cmp :=
  vm_compute; repeat split; first [reflexivity | discriminate | intros ?; discriminate].

Ltac eval_eq := vm_compute; reflexivity.

Section rbtree_more.
Context {A : Type}.
Implicit Types (t : rb_root A) (x : A).

Lemma rb_first_node l x r : is_Some (rb_first (RB_NODE l x r)).
Proof.
  revert x r. induction l as [|ll IH lx lr _]; intros x r; [by eexists|].
  apply (IH lx lr).
Qed.

Lemma rb_inorder_first t :
  rb_inorder t =
  match rb_first t with
  | None => []
  | Some x => x :: rb_inorder (rb_erase_first t)
  end.
Proof.
  induction t as [|l IHl x r _]; [done|].
  destruct l as [|ll lx lr]; [done|].
  destruct (rb_first_node ll lx lr) as [y Hy].
  change (rb_first (RB_NODE (RB_NODE ll lx lr) x r)) with (rb_first (RB_NODE ll lx lr)).
  change (rb_erase_first (RB_NODE (RB_NODE ll lx lr) x r))
    with (RB_NODE (rb_erase_first (RB_NODE ll lx lr)) x r).
  change (rb_inorder (RB_NODE (RB_NODE ll lx lr) x r))
    with (rb_inorder (RB_NODE ll lx lr) ++ x :: rb_inorder r).
  rewrite IHl, Hy. done.
Qed.

Lemma rb_erase_first_sub t x :
  x ∈ rb_inorder (rb_erase_first t) → x ∈ rb_inorder t.
Proof.
  rewrite (rb_inorder_first t). destruct (rb_first t) eqn:E.
  - set_solver.
  - destruct t as [|l y r]; [done|]. destruct (rb_first_node l y r). congruence.
Qed.

Lemma rb_erase_sub (is_node : A → bool) t x :
  x ∈ rb_inorder (rb_erase is_node t) → x ∈ rb_inorder t.
Proof.
  induction t as [|l IHl y r IHr]; [done|]. simpl.
  destruct (rb_mem is_node l); simpl.
  - set_solver.
  - destruct (is_node y); simpl.
    + rewrite (rb_inorder_first r). destruct (rb_first r); simpl; set_solver.
    + set_solver.
Qed.
Lemma rb_first_None t : rb_first t = None → t = RB_ROOT.
Proof.
  destruct t as [|l x r]; [done|].
  intros H. destruct (rb_first_node l x r) as [y Hy]. congruence.
Qed.

Lemma rb_size_inorder t : rb_size t = length (rb_inorder t).
Proof.
  induction t as [|l IHl x r IHr]; [done|].
  simpl. rewrite length_app. simpl. lia.
Qed.

Lemma rb_link_inorder_perm (right_of : A → bool) x t :
  rb_inorder (rb_link right_of x t) ≡ₚ x :: rb_inorder t.
Proof.
  induction t as [|l IHl y r IHr]; [done|].
  simpl. destruct (right_of y); simpl.
  - rewrite IHr. by rewrite <- !Permutation_middle, Permutation_swap.
  - by rewrite IHl.
Qed.

Lemma rb_link_elem_of (right_of : A → bool) x t z :
  z ∈ rb_inorder (rb_link right_of x t) ↔ z = x ∨ z ∈ rb_inorder t.
Proof. by rewrite rb_link_inorder_perm, elem_of_cons. Qed.

(** Linking keeps an ordered tree ordered when the descent follows the
    order: [x] goes right of the nodes that may precede it. *)
Lemma rb_link_sorted (R : relation A) `{!Transitive R} (right_of : A → bool) x t :
  (∀ y, right_of y = true → R y x) →
  (∀ y, right_of y = false → R x y) →
  StronglySorted R (rb_inorder t) →
  StronglySorted R (rb_inorder (rb_link right_of x t)).
Proof.
  intros Hr Hl. induction t as [|l IHl y r IHr]; simpl.
  - intros _. repeat constructor.
  - rewrite StronglySorted_app, StronglySorted_cons, Forall_forall.
    intros (Hlr & Sl & Hy & Sr).
    destruct (right_of y) eqn:E; simpl;
      rewrite StronglySorted_app, StronglySorted_cons, Forall_forall.
    + split_and!; [|done| |by apply IHr].
      * intros a b Ha [->|Hb]%elem_of_cons; [apply Hlr; set_solver|].
        apply rb_link_elem_of in Hb as [->|Hb]; [|apply Hlr; set_solver].
        trans y; [apply Hlr; set_solver|by apply Hr].
      * intros b [->|Hb]%rb_link_elem_of; [by apply Hr|by apply Hy].
    + split_and!; [|by apply IHl|done|done].
      intros a b [->|Ha]%rb_link_elem_of Hb; [|by apply Hlr].
      apply elem_of_cons in Hb as [->|Hb]; [by apply Hl|].
      trans y; [by apply Hl|by apply Hy].
Qed.

(** Erasing a node that is the first of the tree leaves the in-order
    sequence of [rb_erase_first]. *)
Lemma rb_erase_inorder_first (is_node : A → bool) t x :
  rb_first t = Some x → is_node x = true →
  rb_inorder (rb_erase is_node t) = rb_inorder (rb_erase_first t).
Proof.
  induction t as [|l IHl y r _]; [done|].
  destruct l as [|ll lx lr].
  - simpl. intros [= ->] ->. rewrite (rb_inorder_first r).
    by destruct (rb_first r).
  - intros Hf Hx.
    change (rb_first (RB_NODE (RB_NODE ll lx lr) y r)) with (rb_first (RB_NODE ll lx lr)) in Hf.
    assert (rb_mem is_node (RB_NODE ll lx lr) = true) as Hm.
    { clear -Hf Hx. revert Hf. generalize (RB_NODE ll lx lr). intros t.
      induction t as [|l IHl y r _]; [done|].
      destruct l as [|a b c]; simpl.
      - intros [= ->]. by rewrite Hx.
      - intros Hf. simpl in IHl. rewrite IHl; done. }
    change (rb_erase is_node (RB_NODE (RB_NODE ll lx lr) y r))
      with (if rb_mem is_node (RB_NODE ll lx lr)
            then RB_NODE (rb_erase is_node (RB_NODE ll lx lr)) y r
            else if is_node y then
              match rb_first r with None => RB_NODE ll lx lr
              | Some z => RB_NODE (RB_NODE ll lx lr) z (rb_erase_first r) end
            else RB_NODE (RB_NODE ll lx lr) y (rb_erase is_node r)).
    rewrite Hm.
    change (rb_erase_first (RB_NODE (RB_NODE ll lx lr) y r))
      with (RB_NODE (rb_erase_first (RB_NODE ll lx lr)) y r).
    cbn [rb_inorder]. by rewrite IHl.
Qed.
End rbtree_more.

(** ** Flow pointers *)

Lemma get_set_flow_eq f v q : get_flow (set_flow f v q) f = Some v.
Proof. destruct f; simpl; [done|]. apply lookup_insert_eq. Qed.

Lemma get_set_flow_ne f g v q : f ≠ g → get_flow (set_flow f v q) g = get_flow q g.
Proof.
  intros Hne. destruct f as [|k], g as [|k']; simpl; try done.
  apply lookup_insert_ne. congruence.
Qed.

Lemma get_flow_set_head_first h l q f : get_flow (set_head_first h l q) f = get_flow q f.
Proof. by destruct h, f. Qed.

Lemma s32_id x : - 2 ^ 31 <= x < 2 ^ 31 → s32 x = x.
Proof. intros H. unfold s32. rewrite Z.mod_small; lia. Qed.

Lemma s32_range x : - 2 ^ 31 <= s32 x < 2 ^ 31.
Proof. unfold s32. pose proof (Z.mod_pos_bound (x + 2 ^ 31) (2 ^ 32)). lia. Qed.

Lemma marco_fq_flow_add_tail_eq h f q fl :
  get_flow q f = Some fl →
  marco_fq_flow_add_tail h f q =
  Some (set_flow f (set_next_is_throttled false fl)
          (set_head_first h (head_first h q ++ [f]) q)).
Proof. intros H. unfold marco_fq_flow_add_tail. by rewrite H. Qed.

(** ** Reading through the field updates *)

Lemma get_flow_set_new_flows v q f : get_flow (set_new_flows v q) f = get_flow q f.
Proof. by destruct f. Qed.
Lemma new_flows_set_flow f v q : new_flows (set_flow f v q) = new_flows q.
Proof. by destruct f. Qed.
Lemma get_flow_set_old_flows v q f : get_flow (set_old_flows v q) f = get_flow q f.
Proof. by destruct f. Qed.
Lemma old_flows_set_flow f v q : old_flows (set_flow f v q) = old_flows q.
Proof. by destruct f. Qed.
Lemma get_flow_set_delayed v q f : get_flow (set_delayed v q) f = get_flow q f.
Proof. by destruct f. Qed.
Lemma delayed_set_flow f v q : delayed (set_flow f v q) = delayed q.
Proof. by destruct f. Qed.
Lemma get_flow_set_time_next_delayed_flow v q f : get_flow (set_time_next_delayed_flow v q) f = get_flow q f.
Proof. by destruct f. Qed.
Lemma time_next_delayed_flow_set_flow f v q : time_next_delayed_flow (set_flow f v q) = time_next_delayed_flow q.
Proof. by destruct f. Qed.
Lemma get_flow_set_ktime_cache v q f : get_flow (set_ktime_cache v q) f = get_flow q f.
Proof. by destruct f. Qed.
Lemma ktime_cache_set_flow f v q : ktime_cache (set_flow f v q) = ktime_cache q.
Proof. by destruct f. Qed.
Lemma get_flow_set_unthrottle_latency_ns v q f : get_flow (set_unthrottle_latency_ns v q) f = get_flow q f.
Proof. by destruct f. Qed.
Lemma unthrottle_latency_ns_set_flow f v q : unthrottle_latency_ns (set_flow f v q) = unthrottle_latency_ns q.
Proof. by destruct f. Qed.
Lemma get_flow_set_quantum v q f : get_flow (set_quantum v q) f = get_flow q f.
Proof. by destruct f. Qed.
Lemma quantum_set_flow f v q : quantum (set_flow f v q) = quantum q.
Proof. by destruct f. Qed.
Lemma get_flow_set_initial_quantum v q f : get_flow (set_initial_quantum v q) f = get_flow q f.
Proof. by destruct f. Qed.
Lemma initial_quantum_set_flow f v q : initial_quantum (set_flow f v q) = initial_quantum q.
Proof. by destruct f. Qed.
Lemma get_flow_set_flow_refill_delay v q f : get_flow (set_flow_refill_delay v q) f = get_flow q f.
Proof. by destruct f. Qed.
Lemma flow_refill_delay_set_flow f v q : flow_refill_delay (set_flow f v q) = flow_refill_delay q.
Proof. by destruct f. Qed.
Lemma get_flow_set_flow_plimit v q f : get_flow (set_flow_plimit v q) f = get_flow q f.
Proof. by destruct f. Qed.
Lemma flow_plimit_set_flow f v q : flow_plimit (set_flow f v q) = flow_plimit q.
Proof. by destruct f. Qed.
Lemma get_flow_set_flow_max_rate v q f : get_flow (set_flow_max_rate v q) f = get_flow q f.
Proof. by destruct f. Qed.
Lemma flow_max_rate_set_flow f v q : flow_max_rate (set_flow f v q) = flow_max_rate q.
Proof. by destruct f. Qed.
Lemma get_flow_set_ce_threshold v q f : get_flow (set_ce_threshold v q) f = get_flow q f.
Proof. by destruct f. Qed.
Lemma ce_threshold_set_flow f v q : ce_threshold (set_flow f v q) = ce_threshold q.
Proof. by destruct f. Qed.
Lemma get_flow_set_horizon v q f : get_flow (set_horizon v q) f = get_flow q f.
Proof. by destruct f. Qed.
Lemma horizon_set_flow f v q : horizon (set_flow f v q) = horizon q.
Proof. by destruct f. Qed.
Lemma get_flow_set_orphan_mask v q f : get_flow (set_orphan_mask v q) f = get_flow q f.
Proof. by destruct f. Qed.
Lemma orphan_mask_set_flow f v q : orphan_mask (set_flow f v q) = orphan_mask q.
Proof. by destruct f. Qed.
Lemma get_flow_set_low_rate_threshold v q f : get_flow (set_low_rate_threshold v q) f = get_flow q f.
Proof. by destruct f. Qed.
Lemma low_rate_threshold_set_flow f v q : low_rate_threshold (set_flow f v q) = low_rate_threshold q.
Proof. by destruct f. Qed.
Lemma get_flow_set_fq_root v q f : get_flow (set_fq_root v q) f = get_flow q f.
Proof. by destruct f. Qed.
Lemma fq_root_set_flow f v q : fq_root (set_flow f v q) = fq_root q.
Proof. by destruct f. Qed.
Lemma get_flow_set_rate_enable v q f : get_flow (set_rate_enable v q) f = get_flow q f.
Proof. by destruct f. Qed.
Lemma rate_enable_set_flow f v q : rate_enable (set_flow f v q) = rate_enable q.
Proof. by destruct f. Qed.
Lemma get_flow_set_fq_trees_log v q f : get_flow (set_fq_trees_log v q) f = get_flow q f.
Proof. by destruct f. Qed.
Lemma fq_trees_log_set_flow f v q : fq_trees_log (set_flow f v q) = fq_trees_log q.
Proof. by destruct f. Qed.
Lemma get_flow_set_horizon_drop v q f : get_flow (set_horizon_drop v q) f = get_flow q f.
Proof. by destruct f. Qed.
Lemma horizon_drop_set_flow f v q : horizon_drop (set_flow f v q) = horizon_drop q.
Proof. by destruct f. Qed.
Lemma get_flow_set_flows v q f : get_flow (set_flows v q) f = get_flow q f.
Proof. by destruct f. Qed.
Lemma flows_set_flow f v q : flows (set_flow f v q) = flows q.
Proof. by destruct f. Qed.
Lemma get_flow_set_inactive_flows v q f : get_flow (set_inactive_flows v q) f = get_flow q f.
Proof. by destruct f. Qed.
Lemma inactive_flows_set_flow f v q : inactive_flows (set_flow f v q) = inactive_flows q.
Proof. by destruct f. Qed.
Lemma get_flow_set_throttled_flows v q f : get_flow (set_throttled_flows v q) f = get_flow q f.
Proof. by destruct f. Qed.
Lemma throttled_flows_set_flow f v q : throttled_flows (set_flow f v q) = throttled_flows q.
Proof. by destruct f. Qed.
Lemma get_flow_set_stat_gc_flows v q f : get_flow (set_stat_gc_flows v q) f = get_flow q f.
Proof. by destruct f. Qed.
Lemma stat_gc_flows_set_flow f v q : stat_gc_flows (set_flow f v q) = stat_gc_flows q.
Proof. by destruct f. Qed.
Lemma get_flow_set_stat_internal_packets v q f : get_flow (set_stat_internal_packets v q) f = get_flow q f.
Proof. by destruct f. Qed.
Lemma stat_internal_packets_set_flow f v q : stat_internal_packets (set_flow f v q) = stat_internal_packets q.
Proof. by destruct f. Qed.
Lemma get_flow_set_stat_throttled v q f : get_flow (set_stat_throttled v q) f = get_flow q f.
Proof. by destruct f. Qed.
Lemma stat_throttled_set_flow f v q : stat_throttled (set_flow f v q) = stat_throttled q.
Proof. by destruct f. Qed.
Lemma get_flow_set_stat_ce_mark v q f : get_flow (set_stat_ce_mark v q) f = get_flow q f.
Proof. by destruct f. Qed.
Lemma stat_ce_mark_set_flow f v q : stat_ce_mark (set_flow f v q) = stat_ce_mark q.
Proof. by destruct f. Qed.
Lemma get_flow_set_stat_horizon_drops v q f : get_flow (set_stat_horizon_drops v q) f = get_flow q f.
Proof. by destruct f. Qed.
Lemma stat_horizon_drops_set_flow f v q : stat_horizon_drops (set_flow f v q) = stat_horizon_drops q.
Proof. by destruct f. Qed.
Lemma get_flow_set_stat_horizon_caps v q f : get_flow (set_stat_horizon_caps v q) f = get_flow q f.
Proof. by destruct f. Qed.
Lemma stat_horizon_caps_set_flow f v q : stat_horizon_caps (set_flow f v q) = stat_horizon_caps q.
Proof. by destruct f. Qed.
Lemma get_flow_set_stat_flows_plimit v q f : get_flow (set_stat_flows_plimit v q) f = get_flow q f.
Proof. by destruct f. Qed.
Lemma stat_flows_plimit_set_flow f v q : stat_flows_plimit (set_flow f v q) = stat_flows_plimit q.
Proof. by destruct f. Qed.
Lemma get_flow_set_stat_pkts_too_long v q f : get_flow (set_stat_pkts_too_long v q) f = get_flow q f.
Proof. by destruct f. Qed.
Lemma stat_pkts_too_long_set_flow f v q : stat_pkts_too_long (set_flow f v q) = stat_pkts_too_long q.
Proof. by destruct f. Qed.
Lemma get_flow_set_stat_allocation_errors v q f : get_flow (set_stat_allocation_errors v q) f = get_flow q f.
Proof. by destruct f. Qed.
Lemma stat_allocation_errors_set_flow f v q : stat_allocation_errors (set_flow f v q) = stat_allocation_errors q.
Proof. by destruct f. Qed.
Lemma get_flow_set_timer_slack v q f : get_flow (set_timer_slack v q) f = get_flow q f.
Proof. by destruct f. Qed.
Lemma timer_slack_set_flow f v q : timer_slack (set_flow f v q) = timer_slack q.
Proof. by destruct f. Qed.
Lemma get_flow_set_watchdog v q f : get_flow (set_watchdog v q) f = get_flow q f.
Proof. by destruct f. Qed.
Lemma watchdog_set_flow f v q : watchdog (set_flow f v q) = watchdog q.
Proof. by destruct f. Qed.
Lemma delayed_set_head_first h l q : delayed (set_head_first h l q) = delayed q.
Proof. by destruct h. Qed.
Lemma time_next_delayed_flow_set_head_first h l q : time_next_delayed_flow (set_head_first h l q) = time_next_delayed_flow q.
Proof. by destruct h. Qed.
Lemma ktime_cache_set_head_first h l q : ktime_cache (set_head_first h l q) = ktime_cache q.
Proof. by destruct h. Qed.
Lemma unthrottle_latency_ns_set_head_first h l q : unthrottle_latency_ns (set_head_first h l q) = unthrottle_latency_ns q.
Proof. by destruct h. Qed.
Lemma internal_set_head_first h l q : internal (set_head_first h l q) = internal q.
Proof. by destruct h. Qed.
Lemma quantum_set_head_first h l q : quantum (set_head_first h l q) = quantum q.
Proof. by destruct h. Qed.
Lemma initial_quantum_set_head_first h l q : initial_quantum (set_head_first h l q) = initial_quantum q.
Proof. by destruct h. Qed.
Lemma flow_refill_delay_set_head_first h l q : flow_refill_delay (set_head_first h l q) = flow_refill_delay q.
Proof. by destruct h. Qed.
Lemma flow_plimit_set_head_first h l q : flow_plimit (set_head_first h l q) = flow_plimit q.
Proof. by destruct h. Qed.
Lemma flow_max_rate_set_head_first h l q : flow_max_rate (set_head_first h l q) = flow_max_rate q.
Proof. by destruct h. Qed.
Lemma ce_threshold_set_head_first h l q : ce_threshold (set_head_first h l q) = ce_threshold q.
Proof. by destruct h. Qed.
Lemma horizon_set_head_first h l q : horizon (set_head_first h l q) = horizon q.
Proof. by destruct h. Qed.
Lemma orphan_mask_set_head_first h l q : orphan_mask (set_head_first h l q) = orphan_mask q.
Proof. by destruct h. Qed.
Lemma low_rate_threshold_set_head_first h l q : low_rate_threshold (set_head_first h l q) = low_rate_threshold q.
Proof. by destruct h. Qed.
Lemma fq_root_set_head_first h l q : fq_root (set_head_first h l q) = fq_root q.
Proof. by destruct h. Qed.
Lemma rate_enable_set_head_first h l q : rate_enable (set_head_first h l q) = rate_enable q.
Proof. by destruct h. Qed.
Lemma fq_trees_log_set_head_first h l q : fq_trees_log (set_head_first h l q) = fq_trees_log q.
Proof. by destruct h. Qed.
Lemma horizon_drop_set_head_first h l q : horizon_drop (set_head_first h l q) = horizon_drop q.
Proof. by destruct h. Qed.
Lemma flows_set_head_first h l q : flows (set_head_first h l q) = flows q.
Proof. by destruct h. Qed.
Lemma inactive_flows_set_head_first h l q : inactive_flows (set_head_first h l q) = inactive_flows q.
Proof. by destruct h. Qed.
Lemma throttled_flows_set_head_first h l q : throttled_flows (set_head_first h l q) = throttled_flows q.
Proof. by destruct h. Qed.
Lemma stat_gc_flows_set_head_first h l q : stat_gc_flows (set_head_first h l q) = stat_gc_flows q.
Proof. by destruct h. Qed.
Lemma stat_internal_packets_set_head_first h l q : stat_internal_packets (set_head_first h l q) = stat_internal_packets q.
Proof. by destruct h. Qed.
Lemma stat_throttled_set_head_first h l q : stat_throttled (set_head_first h l q) = stat_throttled q.
Proof. by destruct h. Qed.
Lemma stat_ce_mark_set_head_first h l q : stat_ce_mark (set_head_first h l q) = stat_ce_mark q.
Proof. by destruct h. Qed.
Lemma stat_horizon_drops_set_head_first h l q : stat_horizon_drops (set_head_first h l q) = stat_horizon_drops q.
Proof. by destruct h. Qed.
Lemma stat_horizon_caps_set_head_first h l q : stat_horizon_caps (set_head_first h l q) = stat_horizon_caps q.
Proof. by destruct h. Qed.
Lemma stat_flows_plimit_set_head_first h l q : stat_flows_plimit (set_head_first h l q) = stat_flows_plimit q.
Proof. by destruct h. Qed.
Lemma stat_pkts_too_long_set_head_first h l q : stat_pkts_too_long (set_head_first h l q) = stat_pkts_too_long q.
Proof. by destruct h. Qed.
Lemma stat_allocation_errors_set_head_first h l q : stat_allocation_errors (set_head_first h l q) = stat_allocation_errors q.
Proof. by destruct h. Qed.
Lemma timer_slack_set_head_first h l q : timer_slack (set_head_first h l q) = timer_slack q.
Proof. by destruct h. Qed.
Lemma watchdog_set_head_first h l q : watchdog (set_head_first h l q) = watchdog q.
Proof. by destruct h. Qed.
Lemma flow_heap_set_head_first h l q : flow_heap (set_head_first h l q) = flow_heap q.
Proof. by destruct h. Qed.
Lemma new_flows_set_head_first h l q :
  new_flows (set_head_first h l q) = match h with NEW_FLOWS => l | OLD_FLOWS => new_flows q end.
Proof. by destruct h. Qed.
Lemma old_flows_set_head_first h l q :
  old_flows (set_head_first h l q) = match h with NEW_FLOWS => old_flows q | OLD_FLOWS => l end.
Proof. by destruct h. Qed.
Lemma head_first_set_flow h f v q : head_first h (set_flow f v q) = head_first h q.
Proof. by destruct h, f. Qed.

Create Rewrite HintDb fq.
#[export] Hint Rewrite get_flow_set_new_flows new_flows_set_flow get_flow_set_old_flows old_flows_set_flow : fq.
#[export] Hint Rewrite get_flow_set_delayed delayed_set_flow get_flow_set_time_next_delayed_flow time_next_delayed_flow_set_flow : fq.
#[export] Hint Rewrite get_flow_set_ktime_cache ktime_cache_set_flow get_flow_set_unthrottle_latency_ns unthrottle_latency_ns_set_flow : fq.
#[export] Hint Rewrite get_flow_set_quantum quantum_set_flow get_flow_set_initial_quantum initial_quantum_set_flow : fq.
#[export] Hint Rewrite get_flow_set_flow_refill_delay flow_refill_delay_set_flow get_flow_set_flow_plimit flow_plimit_set_flow : fq.
#[export] Hint Rewrite get_flow_set_flow_max_rate flow_max_rate_set_flow get_flow_set_ce_threshold ce_threshold_set_flow : fq.
#[export] Hint Rewrite get_flow_set_horizon horizon_set_flow get_flow_set_orphan_mask orphan_mask_set_flow : fq.
#[export] Hint Rewrite get_flow_set_low_rate_threshold low_rate_threshold_set_flow get_flow_set_fq_root fq_root_set_flow : fq.
#[export] Hint Rewrite get_flow_set_rate_enable rate_enable_set_flow get_flow_set_fq_trees_log fq_trees_log_set_flow : fq.
#[export] Hint Rewrite get_flow_set_horizon_drop horizon_drop_set_flow get_flow_set_flows flows_set_flow : fq.
#[export] Hint Rewrite get_flow_set_inactive_flows inactive_flows_set_flow get_flow_set_throttled_flows throttled_flows_set_flow : fq.
#[export] Hint Rewrite get_flow_set_stat_gc_flows stat_gc_flows_set_flow get_flow_set_stat_internal_packets stat_internal_packets_set_flow : fq.
#[export] Hint Rewrite get_flow_set_stat_throttled stat_throttled_set_flow get_flow_set_stat_ce_mark stat_ce_mark_set_flow : fq.
#[export] Hint Rewrite get_flow_set_stat_horizon_drops stat_horizon_drops_set_flow get_flow_set_stat_horizon_caps stat_horizon_caps_set_flow : fq.
#[export] Hint Rewrite get_flow_set_stat_flows_plimit stat_flows_plimit_set_flow get_flow_set_stat_pkts_too_long stat_pkts_too_long_set_flow : fq.
#[export] Hint Rewrite get_flow_set_stat_allocation_errors stat_allocation_errors_set_flow get_flow_set_timer_slack timer_slack_set_flow : fq.
#[export] Hint Rewrite get_flow_set_watchdog watchdog_set_flow delayed_set_head_first time_next_delayed_flow_set_head_first : fq.
#[export] Hint Rewrite ktime_cache_set_head_first unthrottle_latency_ns_set_head_first internal_set_head_first quantum_set_head_first : fq.
#[export] Hint Rewrite initial_quantum_set_head_first flow_refill_delay_set_head_first flow_plimit_set_head_first flow_max_rate_set_head_first : fq.
#[export] Hint Rewrite ce_threshold_set_head_first horizon_set_head_first orphan_mask_set_head_first low_rate_threshold_set_head_first : fq.
#[export] Hint Rewrite fq_root_set_head_first rate_enable_set_head_first fq_trees_log_set_head_first horizon_drop_set_head_first : fq.
#[export] Hint Rewrite flows_set_head_first inactive_flows_set_head_first throttled_flows_set_head_first stat_gc_flows_set_head_first : fq.
#[export] Hint Rewrite stat_internal_packets_set_head_first stat_throttled_set_head_first stat_ce_mark_set_head_first stat_horizon_drops_set_head_first : fq.
#[export] Hint Rewrite stat_horizon_caps_set_head_first stat_flows_plimit_set_head_first stat_pkts_too_long_set_head_first stat_allocation_errors_set_head_first : fq.
#[export] Hint Rewrite timer_slack_set_head_first watchdog_set_head_first flow_heap_set_head_first new_flows_set_head_first : fq.
#[export] Hint Rewrite old_flows_set_head_first head_first_set_flow get_set_flow_eq get_flow_set_head_first : fq.

(** Projections of updated records. *)
Ltac fq_proj :=
  cbn [new_flows old_flows delayed time_next_delayed_flow ktime_cache unthrottle_latency_ns
       internal quantum initial_quantum flow_refill_delay flow_plimit flow_max_rate
       ce_threshold horizon orphan_mask low_rate_threshold fq_root rate_enable fq_trees_log
       horizon_drop flows inactive_flows throttled_flows stat_gc_flows
       stat_internal_packets stat_throttled stat_ce_mark stat_horizon_drops
       stat_horizon_caps stat_flows_plimit stat_pkts_too_long stat_allocation_errors
       timer_slack watchdog flow_heap set_new_flows set_old_flows set_delayed
       set_time_next_delayed_flow set_ktime_cache set_unthrottle_latency_ns set_internal
       set_quantum set_initial_quantum set_flow_refill_delay set_flow_plimit
       set_flow_max_rate set_ce_threshold set_horizon set_orphan_mask
       set_low_rate_threshold set_fq_root set_rate_enable set_fq_trees_log set_horizon_drop
       set_flows set_inactive_flows set_throttled_flows set_stat_gc_flows
       set_stat_internal_packets set_stat_throttled set_stat_ce_mark set_stat_horizon_drops
       set_stat_horizon_caps set_stat_flows_plimit set_stat_pkts_too_long
       set_stat_allocation_errors set_timer_slack set_watchdog set_flow_heap q_qlen limit
       backlog drops bstats_bytes bstats_packets priv ip_count_table set_q_qlen set_limit
       set_backlog set_drops set_bstats_bytes set_bstats_packets set_priv
       set_ip_count_table t_root head tail sk socket_hash qlen credit next_is_throttled
       time_next_packet set_t_root set_head set_tail set_sk set_socket_hash set_qlen
       set_credit set_next_is_throttled set_time_next_packet skb_id tstamp priority skb_sk
       skb_hash pkt_len saddr daddr ecn time_to_send set_tstamp set_skb_sk set_ecn
       set_time_to_send].
Ltac fq_proj_in H :=
  cbn [new_flows old_flows delayed time_next_delayed_flow ktime_cache unthrottle_latency_ns
       internal quantum initial_quantum flow_refill_delay flow_plimit flow_max_rate
       ce_threshold horizon orphan_mask low_rate_threshold fq_root rate_enable fq_trees_log
       horizon_drop flows inactive_flows throttled_flows stat_gc_flows
       stat_internal_packets stat_throttled stat_ce_mark stat_horizon_drops
       stat_horizon_caps stat_flows_plimit stat_pkts_too_long stat_allocation_errors
       timer_slack watchdog flow_heap set_new_flows set_old_flows set_delayed
       set_time_next_delayed_flow set_ktime_cache set_unthrottle_latency_ns set_internal
       set_quantum set_initial_quantum set_flow_refill_delay set_flow_plimit
       set_flow_max_rate set_ce_threshold set_horizon set_orphan_mask
       set_low_rate_threshold set_fq_root set_rate_enable set_fq_trees_log set_horizon_drop
       set_flows set_inactive_flows set_throttled_flows set_stat_gc_flows
       set_stat_internal_packets set_stat_throttled set_stat_ce_mark set_stat_horizon_drops
       set_stat_horizon_caps set_stat_flows_plimit set_stat_pkts_too_long
       set_stat_allocation_errors set_timer_slack set_watchdog set_flow_heap q_qlen limit
       backlog drops bstats_bytes bstats_packets priv ip_count_table set_q_qlen set_limit
       set_backlog set_drops set_bstats_bytes set_bstats_packets set_priv
       set_ip_count_table t_root head tail sk socket_hash qlen credit next_is_throttled
       time_next_packet set_t_root set_head set_tail set_sk set_socket_hash set_qlen
       set_credit set_next_is_throttled set_time_next_packet skb_id tstamp priority skb_sk
       skb_hash pkt_len saddr daddr ecn time_to_send set_tstamp set_skb_sk set_ecn
       set_time_to_send] in H.

Ltac fq_simpl := repeat first [ progress autorewrite with fq | progress fq_proj ].

Lemma marco_fq_flow_set_throttled_eq f q fl :
  get_flow q f = Some fl →
  marco_fq_flow_set_throttled f q =
  Some (let q4 :=
          set_flow f (set_next_is_throttled true fl)
            (set_stat_throttled (u64 (stat_throttled q + 1))
               (set_throttled_flows (u32 (throttled_flows q + 1))
                  (set_delayed
                     (rb_link (λ aux, flow_time_next_packet q aux <=? time_next_packet fl)
                        f (delayed q)) q))) in
        if time_next_packet fl <? time_next_delayed_flow q
        then set_time_next_delayed_flow (time_next_packet fl) q4 else q4).
Proof.
  intros H. unfold marco_fq_flow_set_throttled. rewrite H. simpl.
  by destruct f.
Qed.

Lemma marco_fq_flow_unset_throttled_eq f q fl :
  get_flow q f = Some fl →
  marco_fq_flow_unset_throttled f q =
  Some (set_flow f (set_next_is_throttled false fl)
          (set_old_flows (old_flows q ++ [f])
             (set_throttled_flows (u32 (throttled_flows q - 1))
                (set_delayed (rb_erase (flow_ref_eqb f) (delayed q)) q)))).
Proof.
  intros H. unfold marco_fq_flow_unset_throttled.
  erewrite marco_fq_flow_add_tail_eq by (fq_simpl; done). done.
Qed.

(** Case analysis of one turn of the selection loop: [H] states what the
    turn returned. *)
Ltac turn_inv H :=
  unfold marco_fq_dequeue_turn in H;
  repeat
    (first
       [ progress simplify_eq/=
       | match type of H with
         | context [match head_first ?h ?q with _ => _ end] =>
             destruct (head_first h q) as [|? ?] eqn:?
         | context [get_flow ?q ?f ≫= _] =>
             let E := fresh "Hget" in
             destruct (get_flow q f) as [?|] eqn:E
         | context [if credit ?fl <=? 0 then _ else _] =>
             destruct (credit fl <=? 0) eqn:?
         | context [match marco_fq_peek ?fl with _ => _ end] =>
             destruct (marco_fq_peek fl) as [?|] eqn:?
         | context [ip_count_outgo ?a ?b ?c ?d] =>
             destruct (ip_count_outgo a b c d) as [? ?] eqn:?
         | context [if ?now <? ?t then _ else _] =>
             destruct (now <? t) eqn:?
         | context [marco_fq_flow_set_throttled ?f ?q] =>
             erewrite (marco_fq_flow_set_throttled_eq f q) in H
               by (rewrite ?get_set_flow_eq, ?get_flow_set_head_first, ?get_set_flow_eq; done)
         | context [marco_fq_flow_add_tail ?h ?f ?q] =>
             erewrite (marco_fq_flow_add_tail_eq h f q) in H
               by (rewrite ?get_set_flow_eq, ?get_flow_set_head_first, ?get_set_flow_eq; done)
         | context [if s64 ?x >? 0 then _ else _] =>
             destruct (s64 x >? 0) eqn:?
         | context [marco_fq_dequeue_skb ?f ?skb ?sch] =>
             unfold marco_fq_dequeue_skb in H; simpl in H;
             rewrite ?get_flow_set_stat_ce_mark in H
         | context [if ?a && ?b then _ else _] =>
             destruct (a && b) eqn:?
         end ]).

Section rbtree_erase.
Context {A : Type}.

Lemma rb_erase_keeps (is_node : A → bool) (t : rb_root A) x :
  x ∈ rb_inorder t → is_node x = false → x ∈ rb_inorder (rb_erase is_node t).
Proof.
  induction t as [|l IHl y r IHr]; [done|]. simpl. intros Hx Hp.
  destruct (rb_mem is_node l); simpl.
  - set_solver.
  - destruct (is_node y) eqn:Ey; simpl.
    + rewrite (rb_inorder_first r) in Hx. destruct (rb_first r); simpl.
      * apply elem_of_app in Hx as [Hx|[->|Hx]%elem_of_cons]; [set_solver|congruence|].
        set_solver.
      * apply elem_of_app in Hx as [Hx|[->|Hx]%elem_of_cons]; [done|congruence|].
        by apply elem_of_nil in Hx.
    + set_solver.
Qed.
End rbtree_erase.

Lemma flow_ref_eqb_eq f g : flow_ref_eqb f g = true ↔ f = g.
Proof. unfold flow_ref_eqb. apply bool_decide_eq_true. Qed.
Lemma flow_ref_eqb_refl f : flow_ref_eqb f f = true.
Proof. by apply flow_ref_eqb_eq. Qed.

Lemma StronglySorted_mono {A} (R R' : relation A) (l : list A) :
  (∀ a b, R a b → R' a b) → StronglySorted R l → StronglySorted R' l.
Proof.
  intros HR. induction 1 as [|a l _ IH Ha]; constructor; [done|].
  eapply Forall_impl; [done|]. intros b. apply HR.
Qed.

Lemma selected_head_cases q h l :
  head_first (selected_head q) q = h :: l →
  (selected_head q = NEW_FLOWS ∧ new_flows q = h :: l) ∨
  (selected_head q = OLD_FLOWS ∧ new_flows q = [] ∧ old_flows q = h :: l).
Proof.
  unfold selected_head. destruct (new_flows q) eqn:E; simpl; intros H.
  - right. by rewrite H.
  - left. by rewrite <- H.
Qed.

(** ** Machine integers *)

Lemma s64_id x : - 2 ^ 63 <= x < 2 ^ 63 → s64 x = x.
Proof. intros H. unfold s64. rewrite Z.mod_small; lia. Qed.

Lemma u64_id x : 0 <= x < 2 ^ 64 → u64 x = x.
Proof. intros H. unfold u64. rewrite Z.mod_small; lia. Qed.

Lemma u32_neg x : - 2 ^ 31 <= x < 0 → u32 x = x + 2 ^ 32.
Proof.
  intros H. unfold u32. rewrite <- (Z.mod_add x 1 (2 ^ 32)) by lia.
  rewrite Z.mod_small; lia.
Qed.

Lemma u32_id x : 0 <= x < 2 ^ 32 → u32 x = x.
Proof. intros H. unfold u32. rewrite Z.mod_small; lia. Qed.

Lemma s32_wrap x : 2 ^ 31 <= x < 2 ^ 32 → s32 x = x - 2 ^ 32.
Proof.
  intros H. unfold s32. rewrite <- (Z.mod_add (x + 2 ^ 31) (-1) (2 ^ 32)) by lia.
  rewrite Z.mod_small; lia.
Qed.

(** [max_t(u32, f->credit, q->quantum)] stored back in the [int]. *)
Lemma credit_refill_cases c qu :
  - 2 ^ 31 <= c < 2 ^ 31 → 0 <= qu < 2 ^ 31 →
  s32 (Z.max (u32 c) qu) = if c <? 0 then c else Z.max c qu.
Proof.
  intros Hc Hq. destruct (Z.ltb_spec c 0).
  - rewrite u32_neg by lia. rewrite Z.max_l by lia. rewrite s32_wrap; lia.
  - rewrite u32_id by lia. apply s32_id. lia.
Qed.

Lemma credit_marco_flow_queue_add fl skb :
  credit (marco_flow_queue_add fl skb) = credit fl.
Proof.
  unfold marco_flow_queue_add. destruct (last (head fl)); [|done].
  by destruct (_ <=? _).
Qed.

Lemma qlen_marco_flow_queue_add fl skb :
  qlen (marco_flow_queue_add fl skb) = qlen fl.
Proof.
  unfold marco_flow_queue_add. destruct (last (head fl)); [|done].
  by destruct (_ <=? _).
Qed.

(** ** Order of the packets of a flow *)

Lemma deadline_le_trans : Transitive deadline_le.
Proof. unfold deadline_le. intros a b c. lia. Qed.

#[local] Existing Instance deadline_le_trans.

Section flow_order.
Implicit Types (flow : marco_fq_flow) (skb p : sk_buff).

Lemma sorted_last_max l tl x :
  StronglySorted deadline_le l → last l = Some tl → x ∈ l → deadline_le x tl.
Proof.
  intros Hs Hl Hx. destruct (last_Some l tl) as [[l' ->] _]; [done|].
  apply StronglySorted_app in Hs as (H & _ & _).
  apply elem_of_app in Hx as [Hx|Hx%list_elem_of_singleton].
  - apply H; [done|]. by apply list_elem_of_singleton.
  - subst. unfold deadline_le. lia.
Qed.

Lemma marco_flow_queue_add_packets flow skb :
  flow_packets (marco_flow_queue_add flow skb) ≡ₚ flow_packets flow ++ [skb].
Proof.
  unfold marco_flow_queue_add, flow_packets.
  destruct (last (head flow)) as [tl|];
    [destruct (time_to_send tl <=? time_to_send skb)|]; simpl.
  - rewrite <- !app_assoc. apply Permutation_app_head, Permutation_app_comm.
  - rewrite rb_link_inorder_perm, <- app_assoc.
    apply Permutation_app_head, Permutation_cons_append.
  - rewrite <- !app_assoc. apply Permutation_app_head, Permutation_app_comm.
Qed.

Lemma marco_flow_queue_add_ordered flow skb :
  flow_ordered flow → flow_ordered (marco_flow_queue_add flow skb).
Proof.
  intros [Hh Ht]. unfold marco_flow_queue_add.
  destruct (last (head flow)) as [tl|] eqn:El;
    [destruct (time_to_send tl <=? time_to_send skb) eqn:E|]; split; simpl; try done.
  - apply StronglySorted_app; split_and!; [|done|repeat constructor].
    intros a b Ha ->%list_elem_of_singleton.
    trans tl; [by apply (sorted_last_max (head flow))|]. unfold deadline_le. lia.
  - apply rb_link_sorted; [apply _| | |done]; unfold deadline_le; intros y; lia.
  - apply last_None in El. rewrite El. repeat constructor.
Qed.

Lemma marco_fq_peek_None flow :
  marco_fq_peek flow = None ↔ flow_packets flow = [].
Proof.
  unfold marco_fq_peek, flow_packets. rewrite (rb_inorder_first (t_root flow)).
  destruct (rb_first (t_root flow)), (head flow); simpl; try case_match; naive_solver.
Qed.

(** [marco_fq_peek] returns a packet of the flow with the least deadline. *)
Lemma marco_fq_peek_least flow skb :
  flow_ordered flow → marco_fq_peek flow = Some skb →
  skb ∈ flow_packets flow ∧ ∀ p, p ∈ flow_packets flow → deadline_le skb p.
Proof.
  intros [Hh Ht]. unfold marco_fq_peek, flow_packets.
  rewrite (rb_inorder_first (t_root flow)) in Ht |- *.
  destruct (rb_first (t_root flow)) as [x|], (head flow) as [|h rest]; simpl; try done.
  - intros [= ->]. apply StronglySorted_cons in Ht as [Ht _].
    rewrite Forall_forall in Ht. split; [set_solver|].
    intros p [->|Hp]%elem_of_cons; [unfold deadline_le; lia|by apply Ht].
  - apply StronglySorted_cons in Ht as [Ht _], Hh as [Hh _].
    rewrite Forall_forall in Ht, Hh.
    destruct (time_to_send x <? time_to_send h) eqn:E; intros [= <-];
      (split; [set_solver|]); intros p [->|[Hp|[->|Hp]%elem_of_cons]%elem_of_app]%elem_of_cons;
      unfold deadline_le in *; try lia.
    + specialize (Hh _ Hp). lia.
    + by apply Ht.
    + by apply Hh.
    + specialize (Ht _ Hp). lia.
  - intros [= ->]. apply StronglySorted_cons in Hh as [Hh _].
    rewrite Forall_forall in Hh. split; [set_solver|].
    rewrite app_nil_r.
    intros p [->|Hp]%elem_of_cons; [unfold deadline_le; lia|by apply Hh].
Qed.

(** Removing the packet [marco_fq_peek] returned takes exactly that packet
    out of the flow, when the buffers of the flow are distinct. *)
Lemma marco_fq_erase_head_packets flow skb :
  NoDup (skb_id <$> flow_packets flow) → marco_fq_peek flow = Some skb →
  ∃ l1 l2, flow_packets flow = l1 ++ skb :: l2 ∧
           flow_packets (marco_fq_erase_head flow skb) = l1 ++ l2 ∧
           (∃ m, head flow = m ++ head (marco_fq_erase_head flow skb)) ∧
           (∃ m, rb_inorder (t_root flow)
                 = m ++ rb_inorder (t_root (marco_fq_erase_head flow skb))).
Proof.
  unfold marco_fq_peek, marco_fq_erase_head, flow_packets.
  intros Hnd.
  assert (skb_eqb skb skb = true) as Hrefl by (unfold skb_eqb; lia).
  destruct (rb_first (t_root flow)) as [x|] eqn:Ef, (head flow) as [|h rest] eqn:Eh;
    simpl; try done.
  - intros [= ->]. exists [], (rb_inorder (rb_erase_first (t_root flow))).
    rewrite Eh, (rb_inorder_first (t_root flow)), Ef.
    rewrite (rb_erase_inorder_first _ _ skb) by done.
    split_and!; [done|done|by exists []|by exists [skb]].
  - rewrite (rb_inorder_first (t_root flow)), Ef in Hnd |- *.
    destruct (time_to_send x <? time_to_send h); intros [= <-].
    + assert (skb_eqb x h = false) as ->.
      { unfold skb_eqb. apply Z.eqb_neq. intros Heq.
        simpl in Hnd. apply NoDup_cons in Hnd as [Hnd _]. apply Hnd.
        rewrite fmap_app, fmap_cons, Heq. set_solver. }
      simpl. rewrite Eh, (rb_erase_inorder_first _ _ x) by done.
      exists (h :: rest), (rb_inorder (rb_erase_first (t_root flow))).
      split_and!; [done|done|by exists []|by exists [x]].
    + rewrite Hrefl. simpl. exists [], (rest ++ x :: rb_inorder (rb_erase_first (t_root flow))).
      rewrite (rb_inorder_first (t_root flow)), Ef.
      split_and!; [done|done|by exists [h]|by exists []].
  - intros [= ->]. rewrite Hrefl. simpl.
    exists [], (rest ++ rb_inorder (t_root flow)).
    split_and!; [done|done|by exists [skb]|by exists []].
Qed.

Lemma marco_fq_erase_head_ordered flow skb :
  NoDup (skb_id <$> flow_packets flow) → marco_fq_peek flow = Some skb →
  flow_ordered flow → flow_ordered (marco_fq_erase_head flow skb).
Proof.
  intros Hnd Hp [Hh Ht].
  destruct (marco_fq_erase_head_packets _ _ Hnd Hp) as (_ & _ & _ & _ & [m1 E1] & [m2 E2]).
  rewrite E1 in Hh. rewrite E2 in Ht.
  split; by eapply StronglySorted_app_1_r.
Qed.

Lemma flow_drain_sorted n flow :
  flow_ordered flow → NoDup (skb_id <$> flow_packets flow) →
  n = length (flow_packets flow) →
  flow_drain n flow ≡ₚ flow_packets flow ∧
  StronglySorted deadline_le (flow_drain n flow).
Proof.
  revert flow. induction n as [|n IH]; intros flow Ho Hnd Hn.
  - symmetry in Hn. apply nil_length_inv in Hn. rewrite Hn. split; [done|constructor].
  - simpl. destruct (marco_fq_peek flow) as [skb|] eqn:Ep.
    + destruct (marco_fq_erase_head_packets _ _ Hnd Ep) as (l1 & l2 & E & E' & _).
      destruct (marco_fq_peek_least _ _ Ho Ep) as [_ Hmin].
      destruct (IH (marco_fq_erase_head flow skb)) as [IHp IHs].
      * by apply marco_fq_erase_head_ordered.
      * rewrite E', E in *. rewrite fmap_app, fmap_cons in Hnd.
        rewrite fmap_app. apply NoDup_app in Hnd as (H1 & H2 & H3).
        apply NoDup_cons in H3 as [_ H3]. apply NoDup_app. split_and!; [done| |done].
        intros i Hi Hi'. apply (H2 i Hi). by right.
      * rewrite E', E in *. rewrite length_app in *. simpl in Hn. lia.
      * split.
        -- rewrite IHp, E', E. by rewrite <- Permutation_middle.
        -- constructor; [done|]. rewrite Forall_forall. intros p Hp.
           apply Hmin. rewrite E. rewrite IHp, E' in Hp. set_solver.
    + apply marco_fq_peek_None in Ep. by rewrite Ep in Hn.
Qed.
End flow_order.

(** C1.  Packets queued on a flow one after the other by
    [marco_flow_queue_add] come out, by [marco_fq_peek] and
    [marco_fq_erase_head], each once and in non-decreasing order of
    [time_to_send].  [marco_fq_peek] returns a packet of the flow with the
    least [time_to_send], and the head of the list whenever the first node
    of the tree is not earlier than it.  The flow starts with its list and
    its tree in order, as the empty flow does, and no two buffers share an
    address; queueing and taking out the packet [marco_fq_peek] returned
    both keep the list and the tree in order, so the same holds however
    enqueues and dequeues alternate. *)
Theorem marco_fq_flow_dequeues_by_deadline (flow : marco_fq_flow) (pkts : list sk_buff) :
  flow_ordered flow →
  NoDup (skb_id <$> (flow_packets flow ++ pkts)) →
  let flow' := foldl marco_flow_queue_add flow pkts in
  let out := flow_drain (length (flow_packets flow')) flow' in
  out ≡ₚ flow_packets flow ++ pkts ∧
  Sorted Z.le (time_to_send <$> out) ∧
  (∀ skb, marco_fq_peek flow' = Some skb →
          skb ∈ flow_packets flow' ∧
          ∀ p, p ∈ flow_packets flow' → time_to_send skb <= time_to_send p) ∧
  (∀ h rest m, head flow' = h :: rest → rb_first (t_root flow') = Some m →
               time_to_send h <= time_to_send m → marco_fq_peek flow' = Some h) ∧
  flow_ordered flow' ∧
  (∀ skb, marco_fq_peek flow' = Some skb →
          flow_ordered (marco_fq_erase_head flow' skb)).
Proof.
  intros Ho Hnd flow' out.
  assert (flow_ordered flow' ∧ flow_packets flow' ≡ₚ flow_packets flow ++ pkts) as [Ho' Hp'].
  { subst flow'. clear Hnd out. revert flow Ho.
    induction pkts as [|p pkts IH]; intros flow Ho; simpl.
    - by rewrite app_nil_r.
    - destruct (IH (marco_flow_queue_add flow p)) as [IH1 IH2].
      + by apply marco_flow_queue_add_ordered.
      + split; [done|]. rewrite IH2, marco_flow_queue_add_packets.
        by rewrite <- app_assoc. }
  assert (NoDup (skb_id <$> flow_packets flow')) as Hnd' by (by rewrite Hp').
  destruct (flow_drain_sorted (length (flow_packets flow')) flow') as [Hperm Hs];
    [done..|].
  split_and!.
  - subst out. by rewrite Hperm.
  - apply StronglySorted_Sorted. subst out. clear -Hs.
    induction Hs as [|a l _ IH Ha]; simpl; constructor; [done|].
    rewrite Forall_forall. intros z (y & -> & Hy)%list_elem_of_fmap.
    exact (proj1 (Forall_forall _ _) Ha y Hy).
  - intros skb Hpk. by apply marco_fq_peek_least.
  - intros h rest m Hh Hm Hle. unfold marco_fq_peek. rewrite Hm, Hh.
    destruct (Z.ltb_spec (time_to_send m) (time_to_send h)); [lia|done].
  - done.
  - intros skb Hpk. by apply marco_fq_erase_head_ordered.
Qed.

(** Four packets with the deadlines 5, 3, 4 and 5 on an empty flow. *)
Lemma marco_fq_flow_dequeues_by_deadline_witness :
  flow_ordered flow_zero ∧
  NoDup (skb_id <$> (flow_packets flow_zero ++ example_pkts)) ∧
  Sorted Z.le
    (time_to_send <$> flow_drain 4 (foldl marco_flow_queue_add flow_zero example_pkts)).
Proof.
  assert (flow_ordered flow_zero) as Ho by (split; constructor).
  assert (NoDup (skb_id <$> (flow_packets flow_zero ++ example_pkts))) as Hnd
    by (refine (bool_decide_unpack _ _); vm_compute; exact I).
  split; [exact Ho|]. split; [exact Hnd|].
  exact (proj1 (proj2 (marco_fq_flow_dequeues_by_deadline flow_zero example_pkts Ho Hnd))).
Defined.

(** ** Credit refill *)



(** ** Throttled flows *)

Section throttling.
Implicit Types (q : marco_fq_sched_data) (sch : Qdisc) (f g : flow_ref).

Lemma flow_time_next_packet_get q f fl :
  get_flow q f = Some fl → flow_time_next_packet q f = time_next_packet fl.
Proof. intros H. unfold flow_time_next_packet. by rewrite H. Qed.

Lemma marco_fq_check_throttled_loop_spec n now q :
  (∀ f, f ∈ rb_inorder (delayed q) → is_Some (get_flow q f)) →
  StronglySorted (λ a b, flow_time_next_packet q a <= flow_time_next_packet q b)
    (rb_inorder (delayed q)) →
  (length (rb_inorder (delayed q)) ≤ n)%nat →
  ∃ q' due,
    marco_fq_check_throttled_loop n now q = Some q' ∧
    rb_inorder (delayed q) = due ++ rb_inorder (delayed q') ∧
    (∀ f, f ∈ due → flow_time_next_packet q f <= now) ∧
    (∀ f, f ∈ rb_inorder (delayed q') → now < flow_time_next_packet q f) ∧
    old_flows q' = old_flows q ++ due ∧
    new_flows q' = new_flows q ∧
    (∀ g, g ∉ due → get_flow q' g = get_flow q g) ∧
    (∀ g, flow_time_next_packet q' g = flow_time_next_packet q g).
Proof.
  revert q. induction n as [|n IH]; intros q Hlive Hs Hn.
  - apply Nat.le_0_r, nil_length_inv in Hn. exists q, []. simpl. rewrite Hn.
    split_and!; try done; [set_solver..|by rewrite app_nil_r].
  - simpl. pose proof (rb_inorder_first (delayed q)) as Hio.
    destruct (rb_first (delayed q)) as [f|] eqn:Ef.
    2:{ exists q, []. rewrite Hio. split_and!; try done; [set_solver..|by rewrite app_nil_r]. }
    destruct (Hlive f) as [fl Hget]; [rewrite Hio; set_solver|].
    rewrite Hget. simpl. destruct (now <? time_next_packet fl) eqn:E.
    + eexists _, []. split; [done|]. fq_proj.
      split_and!; try done; [set_solver| |by rewrite app_nil_r].
      intros g Hg. rewrite Hio in Hg, Hs.
      apply StronglySorted_cons in Hs as [Hs _]. rewrite Forall_forall in Hs.
      assert (flow_time_next_packet q f <= flow_time_next_packet q g).
      { apply elem_of_cons in Hg as [->|Hg]; [lia|by apply Hs]. }
      rewrite (flow_time_next_packet_get _ _ _ Hget) in *. lia.
    + rewrite (marco_fq_flow_unset_throttled_eq _ _ _ Hget). simpl.
      set (q1 := set_flow f _ _).
      assert (∀ g, flow_time_next_packet q1 g = flow_time_next_packet q g) as Htnp.
      { intros g. unfold flow_time_next_packet, q1.
        destruct (decide (g = f)) as [->|Hne].
        - by rewrite get_set_flow_eq, Hget.
        - rewrite get_set_flow_ne by done. by fq_simpl. }
      assert (rb_inorder (delayed q1) = rb_inorder (rb_erase_first (delayed q))) as Hd1.
      { unfold q1. fq_simpl.
        apply (rb_erase_inorder_first _ _ f); [done|apply flow_ref_eqb_refl]. }
      destruct (IH q1) as (q' & due & Hq' & Hdel & Hdue & Hrest & Hold & Hnew & Hfr & Ht).
      * intros g Hg. rewrite Hd1 in Hg. unfold q1.
        destruct (decide (g = f)) as [->|Hne]; [by rewrite get_set_flow_eq|].
        rewrite get_set_flow_ne by done. fq_simpl. apply Hlive.
        rewrite Hio. by right.
      * rewrite Hd1. rewrite Hio in Hs. apply StronglySorted_cons in Hs as [_ Hs].
        eapply StronglySorted_mono; [|done]. intros a b. by rewrite !Htnp.
      * rewrite Hd1. rewrite Hio in Hn. simpl in Hn. lia.
      * exists q', (f :: due). split; [done|]. split_and!.
        -- rewrite Hio. simpl. f_equal. by rewrite <- Hd1.
        -- intros g [->|Hg]%elem_of_cons.
           ++ rewrite (flow_time_next_packet_get _ _ _ Hget). lia.
           ++ rewrite <- Htnp. by apply Hdue.
        -- intros g Hg. rewrite <- Htnp. by apply Hrest.
        -- rewrite Hold. unfold q1. fq_simpl. by rewrite <- app_assoc.
        -- rewrite Hnew. unfold q1. by fq_simpl.
        -- intros g Hg. rewrite Hfr by set_solver. unfold q1.
           rewrite get_set_flow_ne by set_solver. by fq_simpl.
        -- intros g. by rewrite Ht, Htnp.
Qed.

Lemma marco_fq_check_throttled_spec now q :
  deferral_wf q →
  ∃ q' due,
    marco_fq_check_throttled now q = Some q' ∧
    rb_inorder (delayed q) = due ++ rb_inorder (delayed q') ∧
    (∀ f, f ∈ due → flow_time_next_packet q f <= now) ∧
    (∀ f, f ∈ rb_inorder (delayed q') → now < flow_time_next_packet q f) ∧
    old_flows q' = old_flows q ++ due ∧
    new_flows q' = new_flows q ∧
    (∀ g, g ∉ due → get_flow q' g = get_flow q g).
Proof.
  intros [Hlive Hs Hmin Hap Hint]. unfold marco_fq_check_throttled.
  destruct (now <? time_next_delayed_flow q) eqn:E.
  - exists q, []. split_and!; try done; [set_solver| |by rewrite app_nil_r].
    intros f Hf. specialize (Hmin f Hf). lia.
  - match goal with
    | |- context [marco_fq_check_throttled_loop ?n now ?q0] =>
        destruct (marco_fq_check_throttled_loop_spec n now q0)
          as (q' & due & H1 & H2 & H3 & H4 & H5 & H6 & H7 & _)
    end.
    + done.
    + done.
    + fq_proj. by rewrite rb_size_inorder.
    + exists q', due. split; [done|]. split_and!; done.
Qed.

Lemma marco_fq_gc_lists jiffies idx sk0 q q' :
  marco_fq_gc jiffies idx sk0 q = Some q' →
  new_flows q' = new_flows q ∧ old_flows q' = old_flows q ∧ delayed q' = delayed q.
Proof.
  unfold marco_fq_gc. intros H.
  destruct (get_root q idx); simpl in H; [|done].
  destruct (marco_fq_gc_walk _ _ _ _ _) as [[|k tofree]|]; simpl in H; simplify_eq; [done|].
  unfold set_root. by fq_proj.
Qed.


(** A turn leaves alone every flow that is on neither list: it stays off
    the lists and in the deferral index, and is not the one served. *)
Lemma marco_fq_dequeue_turn_frame now jiffies sch r g :
  marco_fq_dequeue_turn now jiffies sch = Some r →
  g ∉ new_flows (priv sch) ++ old_flows (priv sch) →
  (g ∉ new_flows (turn_sched r) ++ old_flows (turn_sched r)) ∧
  (g ∈ rb_inorder (delayed (priv sch)) → g ∈ rb_inorder (delayed (turn_sched r))) ∧
  get_flow (turn_sched r) g = get_flow (priv sch) g ∧
  match r with DEQUEUED h _ _ => (h ≠ g) | _ => True end.
Proof.
  intros H Hg. turn_inv H; unfold turn_sched.
  1: { case_match; by fq_simpl. }
  all: destruct (selected_head_cases _ _ _ Heql) as [[E0 E]|(E0 & E1 & E2)];
    assert (f ≠ g) by (intros ->; apply Hg; rewrite ?E, ?E2; set_solver).
  all: repeat match goal with
              | |- context [if ?c then _ else _] => destruct c
              end;
    repeat first [ rewrite get_set_flow_ne by done | progress fq_simpl ];
    rewrite ?E0; rewrite ?E, ?E1, ?E2 in *.
  all: split_and!; try done; try set_solver.
  all: rewrite rb_link_elem_of; tauto.
Qed.

Lemma marco_fq_dequeue_begin_frame fuel now jiffies sch sel sch' g :
  marco_fq_dequeue_begin fuel now jiffies sch = Some (sel, sch') →
  g ∉ new_flows (priv sch) ++ old_flows (priv sch) →
  (g ∈ rb_inorder (delayed (priv sch)) → g ∈ rb_inorder (delayed (priv sch'))) ∧
  get_flow (priv sch') g = get_flow (priv sch) g ∧
  match sel with Some (h, _) => (h ≠ g) | None => True end.
Proof.
  revert sch. induction fuel as [|fuel IH]; intros sch H Hg; [done|].
  simpl in H. destruct (marco_fq_dequeue_turn now jiffies sch) as [r|] eqn:Hr; [|done].
  destruct (marco_fq_dequeue_turn_frame _ _ _ _ g Hr Hg) as (F1 & F2 & F3 & F4).
  destruct r as [sch1|sch1|h skb sch1]; simpl in *; simplify_eq; try done.
  destruct (IH _ H F1) as (I1 & I2 & I3). rewrite I2, F3. split_and!; auto.
Qed.


End throttling.




(** ** Packets beyond the horizon *)

Section stored.
Implicit Types (q : marco_fq_sched_data) (sch : Qdisc) (f g h : flow_ref) (p : sk_buff).

Lemma skb_stored_ext q q' p :
  (∀ g, get_flow q' g = get_flow q g) → skb_stored q' p → skb_stored q p.
Proof. intros H (f & fl & Hf & Hp). exists f, fl. by rewrite <- H. Qed.

(** Rewriting one flow without adding a packet to it stores nothing new. *)
Lemma skb_stored_rewrite q q' h fl fl' p :
  get_flow q h = Some fl →
  (∀ g, get_flow q' g = get_flow (set_flow h fl' q) g) →
  (∀ x, x ∈ flow_packets fl' → x ∈ flow_packets fl) →
  skb_stored q' p → skb_stored q p.
Proof.
  intros Hh Hq Hsub (g & fl0 & Hg & Hp). rewrite Hq in Hg.
  destruct (decide (h = g)) as [->|Hne].
  - rewrite get_set_flow_eq in Hg. injection Hg as <-. exists g, fl. auto.
  - rewrite get_set_flow_ne in Hg by done. by exists g, fl0.
Qed.

Lemma marco_fq_peek_stored fl skb :
  marco_fq_peek fl = Some skb → skb ∈ flow_packets fl.
Proof.
  unfold marco_fq_peek, flow_packets. rewrite (rb_inorder_first (t_root fl)).
  destruct (rb_first (t_root fl)), (head fl); simpl; try case_match;
    intros; simplify_eq; set_solver.
Qed.

Lemma marco_fq_erase_head_sub fl skb x :
  x ∈ flow_packets (marco_fq_erase_head fl skb) → x ∈ flow_packets fl.
Proof.
  unfold marco_fq_erase_head, flow_packets.
  destruct (head fl) as [|h rest] eqn:E; [|destruct (skb_eqb skb h)];
    fq_proj; rewrite ?E, !elem_of_app; try set_solver.
  - intros [?|?%rb_erase_sub]; set_solver.
  - intros [?|?%rb_erase_sub]; set_solver.
Qed.

(** A scheduler reads as [set_flow h v q] at every flow. *)
Ltac flow_reads h :=
  let g := fresh "g" in
  intros g; destruct (decide (g = h)) as [->|];
  [ fq_simpl; rewrite ?get_set_flow_eq; fq_simpl; done
  | repeat first [ rewrite get_set_flow_ne by done | progress fq_simpl ]; done ].

Lemma marco_fq_dequeue_turn_stored now jiffies sch r :
  marco_fq_dequeue_turn now jiffies sch = Some r →
  (∀ p, skb_stored (turn_sched r) p → skb_stored (priv sch) p) ∧
  match r with
  | DEQUEUED _ skb _ => skb_queued (priv sch) (skb_id skb)
  | _ => True
  end.
Proof.
  intros H. turn_inv H; unfold turn_sched.
  - split; [|done]. intros p. case_match; [|done]. apply skb_stored_ext. intros g. by fq_simpl.
  - split; [|done]. intros p. eapply skb_stored_rewrite; [done|flow_reads f|done].
  - split; [|done]. intros p. case_match;
      (eapply skb_stored_rewrite; [done|flow_reads f|done]).
  - split.
    + intros p. eapply skb_stored_rewrite; [done|flow_reads f|].
      intros x. unfold flow_packets. fq_proj. apply marco_fq_erase_head_sub.
    + exists s. split; [exists f, m; split; [done|by apply marco_fq_peek_stored]|].
      unfold INET_ECN_set_ce. by case_match.
  - split.
    + intros p. eapply skb_stored_rewrite; [done|flow_reads f|].
      intros x. unfold flow_packets. fq_proj. apply marco_fq_erase_head_sub.
    + exists s. split; [exists f, m; split; [done|by apply marco_fq_peek_stored]|done].
  - split; [|done]. intros p. eapply skb_stored_rewrite; [done|flow_reads f|done].
  - split; [|done]. intros p. eapply skb_stored_rewrite; [done|flow_reads f|done].
Qed.

Lemma marco_fq_dequeue_begin_stored fuel now jiffies sch sel sch' :
  marco_fq_dequeue_begin fuel now jiffies sch = Some (sel, sch') →
  (∀ p, skb_stored (priv sch') p → skb_stored (priv sch) p) ∧
  match sel with
  | Some (_, skb) => skb_queued (priv sch) (skb_id skb)
  | None => True
  end.
Proof.
  revert sch. induction fuel as [|fuel IH]; intros sch H; [done|].
  simpl in H. destruct (marco_fq_dequeue_turn now jiffies sch) as [r|] eqn:Hr; [|done].
  destruct (marco_fq_dequeue_turn_stored _ _ _ _ Hr) as [F1 F2].
  destruct r as [sch1|sch1|h skb sch1]; simpl in *; simplify_eq; try done.
  destruct (IH _ H) as [I1 I2]. split; [auto|].
  destruct sel as [[h skb]|]; [|done].
  destruct I2 as (p & Hp & Hid). exists p. auto.
Qed.

Lemma marco_fq_check_throttled_loop_stored n now q q' :
  marco_fq_check_throttled_loop n now q = Some q' →
  ∀ p, skb_stored q' p → skb_stored q p.
Proof.
  revert q. induction n as [|n IH]; intros q H p; simpl in H; [by simplify_eq|].
  destruct (rb_first (delayed q)) as [f|]; [|by simplify_eq].
  destruct (get_flow q f) as [fl|] eqn:Hget; [|done]. cbn [mbind option_bind] in H.
  destruct (now <? time_next_packet fl).
  - simplify_eq. apply skb_stored_ext. intros g. by fq_simpl.
  - rewrite (marco_fq_flow_unset_throttled_eq _ _ _ Hget) in H.
    cbn [mbind option_bind] in H. intros Hp. apply (IH _ H) in Hp. revert Hp.
    eapply skb_stored_rewrite; [done|flow_reads f|done].
Qed.

Lemma marco_fq_check_throttled_stored now q q' :
  marco_fq_check_throttled now q = Some q' →
  ∀ p, skb_stored q' p → skb_stored q p.
Proof.
  unfold marco_fq_check_throttled. intros H p Hp.
  destruct (now <? time_next_delayed_flow q); [by simplify_eq|].
  apply (marco_fq_check_throttled_loop_stored _ _ _ _ H) in Hp. revert Hp.
  apply skb_stored_ext. intros g. by fq_simpl.
Qed.

Lemma marco_fq_dequeue_charge_stored now h skb q q' :
  marco_fq_dequeue_charge now h skb q = Some q' →
  ∀ p, skb_stored q' p → skb_stored q p.
Proof.
  unfold marco_fq_dequeue_charge. intros H p.
  destruct (get_flow q h) as [fl|] eqn:Hget; [|done]. cbn [mbind option_bind] in H.
  repeat case_match; simplify_eq;
    (eapply skb_stored_rewrite; [done|flow_reads h|done]).
Qed.

(** [marco_fq_dequeue] returns a buffer that was queued and queues none. *)
Lemma marco_fq_dequeue_stored fuel now jiffies sch r sch' :
  marco_fq_dequeue fuel now jiffies sch = Some (r, sch') →
  (∀ p, skb_stored (priv sch') p → skb_stored (priv sch) p) ∧
  match r with
  | Some skb => skb_queued (priv sch) (skb_id skb)
  | None => True
  end.
Proof.
  unfold marco_fq_dequeue. intros H.
  destruct (q_qlen sch =? 0); [by simplify_eq|].
  destruct (marco_fq_peek (internal (priv sch))) as [skb|] eqn:Hpk.
  { unfold marco_fq_dequeue_skb in H.
    change (get_flow (priv sch) INTERNAL) with (Some (internal (priv sch))) in H.
    cbn [mbind option_bind] in H. simplify_eq. unfold qdisc_bstats_update. fq_proj. split.
    - intros p. eapply (skb_stored_rewrite _ _ INTERNAL); [done|flow_reads INTERNAL|].
      intros x. unfold flow_packets. fq_proj. apply marco_fq_erase_head_sub.
    - exists skb. split; [|done]. exists INTERNAL, (internal (priv sch)).
      split; [done|by apply marco_fq_peek_stored]. }
  destruct (marco_fq_check_throttled now _) as [q1|] eqn:H1; [|done].
  cbn [mbind option_bind] in H.
  destruct (marco_fq_dequeue_begin fuel now jiffies (set_priv q1 sch))
    as [[sel sch1]|] eqn:Hb; [|done].
  cbn [mbind option_bind] in H.
  destruct (marco_fq_dequeue_begin_stored _ _ _ _ _ _ Hb) as [B1 B2]. simpl in B1, B2.
  assert (∀ p, skb_stored q1 p → skb_stored (priv sch) p) as C1.
  { intros p Hp. apply (marco_fq_check_throttled_stored _ _ _ H1) in Hp. revert Hp.
    apply skb_stored_ext. intros g. by fq_simpl. }
  destruct sel as [[h skb]|].
  - destruct (marco_fq_dequeue_charge now h skb (priv sch1)) as [q2|] eqn:Hc; [|done].
    simpl in H. simplify_eq. simpl. split.
    + intros p Hp. apply C1, B1. by eapply marco_fq_dequeue_charge_stored.
    + destruct B2 as (p & Hp & Hid). exists p. auto.
  - simplify_eq. split; [|done]. intros p Hp. auto.
Qed.

Lemma skb_stored_fresh q q' h fl' p :
  (∀ g, get_flow q' g = get_flow (set_flow h fl' q) g) →
  flow_packets fl' = [] →
  skb_stored q' p → skb_stored q p.
Proof.
  intros Hq Hnil (g & fl0 & Hg & Hp). rewrite Hq in Hg.
  destruct (decide (h = g)) as [->|Hne].
  - rewrite get_set_flow_eq in Hg. injection Hg as <-. rewrite Hnil in Hp.
    by apply elem_of_nil in Hp.
  - rewrite get_set_flow_ne in Hg by done. by exists g, fl0.
Qed.

Lemma skb_stored_rewrite_add q q' h fl fl' skb p :
  get_flow q h = Some fl →
  (∀ g, get_flow q' g = get_flow (set_flow h fl' q) g) →
  (∀ x, x ∈ flow_packets fl' → x ∈ flow_packets fl ∨ x = skb) →
  skb_stored q' p → skb_stored q p ∨ p = skb.
Proof.
  intros Hh Hq Hsub (g & fl0 & Hg & Hp). rewrite Hq in Hg.
  destruct (decide (h = g)) as [->|Hne].
  - rewrite get_set_flow_eq in Hg. injection Hg as <-.
    destruct (Hsub _ Hp); [left; by exists g, fl|by right].
  - rewrite get_set_flow_ne in Hg by done. left. by exists g, fl0.
Qed.

Lemma foldl_delete_lookup (heap : gmap Z marco_fq_flow) (l : list Z) k v :
  foldl (λ m k, delete k m) heap l !! k = Some v → heap !! k = Some v.
Proof.
  revert heap. induction l as [|a l IH]; intros heap; simpl; [done|].
  intros H. apply IH in H. by apply lookup_delete_Some in H as [_ H].
Qed.

Lemma marco_fq_gc_stored jiffies idx sk0 q q' p :
  marco_fq_gc jiffies idx sk0 q = Some q' → skb_stored q' p → skb_stored q p.
Proof.
  unfold marco_fq_gc. intros H.
  destruct (get_root q idx); cbn [mbind option_bind] in H; [|done].
  destruct (marco_fq_gc_walk _ _ _ _ _) as [[|k tofree]|];
    cbn [mbind option_bind] in H; simplify_eq; [done|].
  intros (g & fl & Hg & Hp). exists g, fl. split; [|done].
  destruct g as [|k']; [done|]. simpl in Hg.
  apply (foldl_delete_lookup _ (k :: tofree)) in Hg. done.
Qed.

Lemma marco_fq_classify_stored jiffies alloc_ok skb q f skb' q' :
  marco_fq_classify jiffies alloc_ok skb q = Some (f, skb', q') →
  (∀ p, skb_stored q' p → skb_stored q p) ∧
  skb_id skb' = skb_id skb ∧ time_to_send skb' = time_to_send skb.
Proof.
  unfold marco_fq_classify. intros H.
  destruct (Z.land (priority skb) TC_PRIO_MAX =? TC_PRIO_CONTROL); [by simplify_eq|].
  match type of H with
  | (let '(_, _) := ?p in _) = _ =>
      assert (skb_id p.2 = skb_id skb ∧ time_to_send p.2 = time_to_send skb) as Hskb
        by (destruct (skb_sk skb) as [s|];
            [destruct (sk_listener s); [|destruct (sk_state s =? TCP_CLOSE)]|]; done);
      destruct p as [sk0 skb0]
  end.
  simpl in Hskb.
  match type of H with
  | (?c ≫= _) = _ => destruct c as [q1|] eqn:Hgc; [|done]
  end.
  assert (∀ p, skb_stored q1 p → skb_stored q p) as Hq1.
  { intros p. match type of Hgc with
    | (if ?c then _ else _) = _ => destruct c
    end; [by eapply marco_fq_gc_stored|by simplify_eq]. }
  cbn [mbind option_bind] in H. clear Hgc.
  destruct (get_root q1 _) as [root|]; [|done]. cbn [mbind option_bind] in H.
  destruct (fq_root_lookup sk0 root).
  - destruct (get_flow q1 (FLOW sk0)) as [fl|] eqn:Hget; [|done].
    cbn [mbind option_bind] in H.
    destruct (skb_sk_is skb0 sk0) as [s|]; [|by simplify_eq].
    destruct (negb (socket_hash fl =? sk_hash s)); [|by simplify_eq].
    destruct (marco_fq_flow_is_throttled _).
    + erewrite marco_fq_flow_unset_throttled_eq in H by apply get_set_flow_eq.
      cbn [mbind option_bind] in H. rewrite get_set_flow_eq in H.
      cbn [mbind option_bind] in H. simplify_eq. split; [|done].
      intros p Hp. apply Hq1. revert Hp.
      eapply skb_stored_rewrite; [done|flow_reads (FLOW sk0)|done].
    + cbn [mbind option_bind] in H. rewrite get_set_flow_eq in H.
      cbn [mbind option_bind] in H. simplify_eq. split; [|done].
      intros p Hp. apply Hq1. revert Hp.
      eapply skb_stored_rewrite; [done|flow_reads (FLOW sk0)|done].
  - destruct (negb alloc_ok); simplify_eq; (split; [|done]); intros p Hp; apply Hq1;
      revert Hp.
    + apply skb_stored_ext. intros g. by fq_simpl.
    + eapply skb_stored_fresh; [unfold set_root; flow_reads (FLOW sk0)|].
      by destruct (skb_sk_is skb' sk0).
Qed.

Lemma marco_flow_queue_add_elem fl skb x :
  x ∈ flow_packets (marco_flow_queue_add fl skb) → x ∈ flow_packets fl ∨ x = skb.
Proof.
  unfold marco_flow_queue_add, flow_packets.
  destruct (last (head fl)) as [tl|];
    [destruct (time_to_send tl <=? time_to_send skb)|]; fq_proj;
    rewrite !elem_of_app, ?rb_link_elem_of, ?list_elem_of_singleton; tauto.
Qed.

(** [marco_fq_enqueue_flow] stores at most the packet it was given. *)
Lemma marco_fq_enqueue_flow_stored jiffies fa ia skb sch ret free sch' p :
  marco_fq_enqueue_flow jiffies fa ia skb sch = Some (ret, free, sch') →
  skb_stored (priv sch') p → skb_stored (priv sch) p ∨ skb_id p = skb_id skb.
Proof.
  unfold marco_fq_enqueue_flow. intros H.
  destruct (marco_fq_classify jiffies fa skb (priv sch)) as [[[f skb1] q1]|] eqn:Hcl;
    [|done].
  destruct (marco_fq_classify_stored _ _ _ _ _ _ _ Hcl) as (Hq1 & Hid & _).
  cbn [mbind option_bind] in H.
  destruct (get_flow q1 f) as [fl|] eqn:Hget; [|done]. cbn [mbind option_bind] in H.
  destruct (_ && _).
  { unfold qdisc_drop in H. simplify_eq. fq_proj. intros Hp. left. apply Hq1. revert Hp.
    apply skb_stored_ext. intros g. by fq_simpl. }
  match type of H with
  | (?c ≫= _) = _ =>
      assert (∃ q3 fl3, c = Some q3 ∧ get_flow q3 f = Some fl3 ∧
                flow_packets fl3 = flow_packets fl ∧
                ∀ g, get_flow q3 g = get_flow (set_flow f fl3 q1) g)
        as (q3 & fl3 & Hc & Hget3 & Hpk3 & Hq3)
  end.
  { destruct (marco_fq_flow_is_detached fl).
    - erewrite marco_fq_flow_add_tail_eq by apply get_set_flow_eq.
      cbn [mbind option_bind]. rewrite get_set_flow_eq. cbn [mbind option_bind].
      eexists _, _. split; [done|]. split; [by fq_simpl|]. split.
      + destruct (time_after _ _); unfold flow_packets; by fq_proj.
      + flow_reads f.
    - eexists _, _. split; [done|]. split; [apply get_set_flow_eq|]. split; [done|].
      flow_reads f. }
  rewrite Hc in H. cbn [mbind option_bind] in H. fq_proj_in H.
  assert (∀ x, skb_stored q3 x → skb_stored (priv sch) x) as Hs3.
  { intros x Hx. apply Hq1. revert Hx.
    eapply skb_stored_rewrite; [done|done|]. by rewrite Hpk3. }
  match type of H with
  | match ?c with _ => _ end = _ => destruct c as [tbl|]
  end.
  - rewrite Hget3 in H. cbn [mbind option_bind] in H. simplify_eq. fq_proj.
    intros Hp.
    assert (skb_stored q3 p ∨ p = skb1) as [?| ->]; [|auto|by right].
    revert Hp. eapply skb_stored_rewrite_add; [done| |apply marco_flow_queue_add_elem].
    destruct (flow_ref_eqb f INTERNAL); flow_reads f.
  - simplify_eq. fq_proj. auto.
Qed.

Lemma marco_fq_enqueue_stored now jiffies fa ia skb sch ret free sch' p :
  marco_fq_enqueue now jiffies fa ia skb sch = Some (ret, free, sch') →
  skb_stored (priv sch') p → skb_stored (priv sch) p ∨ skb_id p = skb_id skb.
Proof.
  unfold marco_fq_enqueue. intros H Hp.
  repeat match type of H with
         | (if ?c then _ else _) = _ => destruct c
         end;
    try (unfold qdisc_drop in H; simplify_eq; revert Hp; fq_proj; intros Hp; left;
         revert Hp; apply skb_stored_ext; intros g; by fq_simpl);
    (destruct (marco_fq_enqueue_flow_stored _ _ _ _ _ _ _ _ p H Hp) as [Hs|Hs];
     [left; revert Hs; fq_proj; apply skb_stored_ext; intros g; by fq_simpl
     |by right]).
Qed.

(** A buffer that is not queued is not returned by any later dequeue,
    unless it is enqueued again. *)
Lemma fq_run_never_returns ops sch outs sch' id :
  ¬ skb_queued (priv sch) id →
  id ∉ fq_enqueued ops →
  fq_run ops sch = Some (outs, sch') →
  ∀ p, p ∈ outs → skb_id p ≠ id.
Proof.
  revert sch outs. induction ops as [|op ops IH]; intros sch outs Hnq Hne H; simpl in H.
  - simplify_eq. set_solver.
  - destruct op as [now jiffies fa ia skb|fuel now jiffies].
    + destruct (marco_fq_enqueue now jiffies fa ia skb sch) as [[[ret free] sch1]|] eqn:He;
        [|done].
      cbn [mbind option_bind] in H. eapply (IH sch1); [| |done].
      * intros (p & Hp & Hid).
        destruct (marco_fq_enqueue_stored _ _ _ _ _ _ _ _ _ p He Hp) as [Hs|Hs].
        -- apply Hnq. by exists p.
        -- apply Hne. simpl. rewrite <- Hs, Hid. set_solver.
      * simpl in Hne. set_solver.
    + destruct (marco_fq_dequeue fuel now jiffies sch) as [[r sch1]|] eqn:Hd; [|done].
      cbn [mbind option_bind] in H.
      destruct (fq_run ops sch1) as [[out sch2]|] eqn:Hr; [|done].
      cbn [mbind option_bind] in H. simplify_eq.
      destruct (marco_fq_dequeue_stored _ _ _ _ _ _ Hd) as [D1 D2].
      assert (¬ skb_queued (priv sch1) id) as Hnq1.
      { intros (p & Hp & Hid). apply Hnq. exists p. auto. }
      specialize (IH sch1 out Hnq1 Hne Hr).
      intros p. destruct r as [skb|]; [|by apply IH].
      intros [->|Hp]%elem_of_cons; [|by apply IH].
      intros Hid. apply Hnq. by rewrite <- Hid.
Qed.
End stored.

Section horizon.
Implicit Types (q : marco_fq_sched_data) (sch : Qdisc) (f g h : flow_ref) (p : sk_buff).

Lemma marco_fq_gc_horizon_stats jiffies idx sk0 q q' :
  marco_fq_gc jiffies idx sk0 q = Some q' →
  stat_horizon_caps q' = stat_horizon_caps q ∧
  stat_horizon_drops q' = stat_horizon_drops q.
Proof.
  unfold marco_fq_gc. intros H.
  destruct (get_root q idx); cbn [mbind option_bind] in H; [|done].
  destruct (marco_fq_gc_walk _ _ _ _ _) as [[|k tofree]|];
    cbn [mbind option_bind] in H; simplify_eq; [done|].
  unfold set_root. by fq_proj.
Qed.

Lemma marco_fq_classify_horizon_stats jiffies alloc_ok skb q f skb' q' :
  marco_fq_classify jiffies alloc_ok skb q = Some (f, skb', q') →
  stat_horizon_caps q' = stat_horizon_caps q ∧
  stat_horizon_drops q' = stat_horizon_drops q.
Proof.
  unfold marco_fq_classify. intros H.
  destruct (Z.land (priority skb) TC_PRIO_MAX =? TC_PRIO_CONTROL); [by simplify_eq|].
  match type of H with
  | (let '(_, _) := ?p in _) = _ => destruct p as [sk0 skb0]
  end.
  match type of H with
  | (?c ≫= _) = _ => destruct c as [q1|] eqn:Hgc; [|done]
  end.
  assert (stat_horizon_caps q1 = stat_horizon_caps q ∧
          stat_horizon_drops q1 = stat_horizon_drops q) as [<- <-].
  { match type of Hgc with
    | (if ?c then _ else _) = _ => destruct c
    end; [by eapply marco_fq_gc_horizon_stats|by simplify_eq]. }
  cbn [mbind option_bind] in H. clear Hgc.
  destruct (get_root q1 _) as [root|]; [|done]. cbn [mbind option_bind] in H.
  destruct (fq_root_lookup sk0 root).
  - destruct (get_flow q1 (FLOW sk0)) as [fl|] eqn:Hget; [|done].
    cbn [mbind option_bind] in H.
    destruct (skb_sk_is skb0 sk0) as [s|]; [|by simplify_eq].
    destruct (negb (socket_hash fl =? sk_hash s)); [|by simplify_eq].
    destruct (marco_fq_flow_is_throttled _).
    + erewrite marco_fq_flow_unset_throttled_eq in H by apply get_set_flow_eq.
      cbn [mbind option_bind] in H. rewrite get_set_flow_eq in H.
      cbn [mbind option_bind] in H. simplify_eq. by fq_simpl.
    + cbn [mbind option_bind] in H. rewrite get_set_flow_eq in H.
      cbn [mbind option_bind] in H. simplify_eq. by fq_simpl.
  - destruct (negb alloc_ok); simplify_eq; unfold set_root; by fq_simpl.
Qed.

(** A packet [marco_fq_enqueue_flow] accepts sits in a flow afterwards,
    with the deadline it came with. *)
Lemma marco_fq_enqueue_flow_success jiffies fa ia skb sch free sch' :
  marco_fq_enqueue_flow jiffies fa ia skb sch = Some (NET_XMIT_SUCCESS, free, sch') →
  (∃ p, skb_stored (priv sch') p ∧ skb_id p = skb_id skb ∧
        time_to_send p = time_to_send skb) ∧
  stat_horizon_caps (priv sch') = stat_horizon_caps (priv sch) ∧
  stat_horizon_drops (priv sch') = stat_horizon_drops (priv sch).
Proof.
  unfold marco_fq_enqueue_flow. intros H.
  destruct (marco_fq_classify jiffies fa skb (priv sch)) as [[[f skb1] q1]|] eqn:Hcl;
    [|done].
  destruct (marco_fq_classify_stored _ _ _ _ _ _ _ Hcl) as (_ & Hid & Htts).
  destruct (marco_fq_classify_horizon_stats _ _ _ _ _ _ _ Hcl) as [Hcaps Hdrops].
  cbn [mbind option_bind] in H.
  destruct (get_flow q1 f) as [fl|] eqn:Hget; [|done]. cbn [mbind option_bind] in H.
  destruct (_ && _); [unfold qdisc_drop in H; by simplify_eq|].
  match type of H with
  | (?c ≫= _) = _ =>
      assert (∃ q3 fl3, c = Some q3 ∧ get_flow q3 f = Some fl3 ∧
                stat_horizon_caps q3 = stat_horizon_caps q1 ∧
                stat_horizon_drops q3 = stat_horizon_drops q1)
        as (q3 & fl3 & Hc & Hget3 & Hcaps3 & Hdrops3)
  end.
  { destruct (marco_fq_flow_is_detached fl).
    - erewrite marco_fq_flow_add_tail_eq by apply get_set_flow_eq.
      cbn [mbind option_bind]. rewrite get_set_flow_eq. cbn [mbind option_bind].
      eexists _, _. split; [done|]. split; [by fq_simpl|]. by fq_simpl.
    - eexists _, _. split; [done|]. split; [apply get_set_flow_eq|]. by fq_simpl. }
  rewrite Hc in H. cbn [mbind option_bind] in H. fq_proj_in H.
  match type of H with
  | match ?c with _ => _ end = _ => destruct c as [tbl|]
  end; [|by simplify_eq].
  rewrite Hget3 in H. cbn [mbind option_bind] in H. simplify_eq. fq_proj.
  split.
  - exists skb1. split; [|done]. exists f, (marco_flow_queue_add fl3 skb1). split.
    + destruct (flow_ref_eqb f INTERNAL); fq_simpl; by rewrite ?get_set_flow_eq.
    + unfold flow_packets, marco_flow_queue_add.
      destruct (last (head fl3)) as [tl|];
        [destruct (time_to_send tl <=? time_to_send skb1)|]; fq_proj;
        rewrite !elem_of_app, ?rb_link_elem_of, ?list_elem_of_singleton; tauto.
  - destruct (flow_ref_eqb f INTERNAL); fq_simpl; by rewrite Hcaps3, Hdrops3.
Qed.
End horizon.

(** C6.  A packet that is admitted with a [tstamp] after
    [now + horizon]: with [horizon_drop] set it is dropped,
    [stat_horizon_drops] goes up by one, the flows are left as they are and
    no later run of enqueues and dequeues returns the buffer unless it is
    enqueued again; with [horizon_drop] clear it is enqueued with its
    deadline set to [now + horizon], and [stat_horizon_caps], not
    [stat_horizon_drops], goes up by one. *)
Theorem marco_fq_enqueue_beyond_horizon
    (now jiffies : Z) (flow_alloc_ok ip_alloc_ok : bool) (skb : sk_buff) (sch : Qdisc) :
  let q := priv sch in
  q_qlen sch < limit sch →
  0 <= ktime_cache q <= now →
  0 <= horizon q →
  now + horizon q < tstamp skb < 2 ^ 63 →
  0 <= stat_horizon_drops q < U64_MAX →
  0 <= stat_horizon_caps q < U64_MAX →
  (horizon_drop q ≠ 0 →
   ∃ sch',
     marco_fq_enqueue now jiffies flow_alloc_ok ip_alloc_ok skb sch
       = Some (NET_XMIT_DROP, [skb], sch') ∧
     stat_horizon_drops (priv sch') = stat_horizon_drops q + 1 ∧
     stat_horizon_caps (priv sch') = stat_horizon_caps q ∧
     q_qlen sch' = q_qlen sch ∧
     (∀ f, get_flow (priv sch') f = get_flow q f) ∧
     (¬ skb_queued q (skb_id skb) →
      ∀ ops outs sch'',
        skb_id skb ∉ fq_enqueued ops →
        fq_run ops sch' = Some (outs, sch'') →
        ∀ p, p ∈ outs → skb_id p ≠ skb_id skb)) ∧
  (horizon_drop q = 0 →
   let capped :=
     set_time_to_send (now + horizon q) (set_tstamp (now + horizon q) skb) in
   marco_fq_enqueue now jiffies flow_alloc_ok ip_alloc_ok skb sch
     = marco_fq_enqueue_flow jiffies flow_alloc_ok ip_alloc_ok capped
         (set_priv (set_stat_horizon_caps (stat_horizon_caps q + 1)
                      (set_ktime_cache now q)) sch) ∧
   ∀ free sch',
     marco_fq_enqueue now jiffies flow_alloc_ok ip_alloc_ok skb sch
       = Some (NET_XMIT_SUCCESS, free, sch') →
     (∃ p, skb_stored (priv sch') p ∧ skb_id p = skb_id skb ∧
           time_to_send p = now + horizon q) ∧
     stat_horizon_caps (priv sch') = stat_horizon_caps q + 1 ∧
     stat_horizon_drops (priv sch') = stat_horizon_drops q).
Proof.
  intros q Hlim Hkc Hh Hts Hd Hc.
  assert (marco_fq_packet_beyond_horizon skb q = true) as Hb1.
  { unfold marco_fq_packet_beyond_horizon. rewrite !s64_id by lia. apply Z.gtb_gt. lia. }
  assert (marco_fq_packet_beyond_horizon skb (set_ktime_cache now q) = true) as Hb2.
  { unfold marco_fq_packet_beyond_horizon. fq_proj. rewrite !s64_id by lia.
    apply Z.gtb_gt. lia. }
  unfold marco_fq_enqueue. fold q.
  destruct (Z.leb_spec (limit sch) (q_qlen sch)); [lia|].
  destruct (Z.eqb_spec (tstamp skb) 0); [lia|].
  rewrite Hb1, Hb2. fq_proj. unfold U64_MAX in *. split.
  - intros Hdrop. destruct (Z.eqb_spec (horizon_drop q) 0); [lia|]. simpl negb. cbv iota.
    unfold qdisc_drop. eexists. split; [done|]. fq_proj.
    rewrite u64_id by lia. split_and!; try done.
    intros Hnq ops outs sch'' Hne Hrun. eapply fq_run_never_returns; [|done|done].
    fq_proj. intros (p & Hp & Hid). apply Hnq. exists p. split; [|done]. revert Hp.
    apply skb_stored_ext. intros g. by fq_simpl.
  - intros Hcap. rewrite Hcap. simpl negb. cbv iota.
    fq_proj. rewrite s64_id by lia. rewrite !u64_id by lia.
    split; [done|]. intros free sch' Henq.
    destruct (marco_fq_enqueue_flow_success _ _ _ _ _ _ _ Henq)
      as ((p & Hp & Hid & Ht) & H1 & H2).
    split_and!; [|done|done]. exists p. done.
Qed.

(** A horizon of 10 s, the drop policy, and a packet due in 20 s. *)
Lemma marco_fq_enqueue_beyond_horizon_witness :
  q_qlen (horizon_sch 1) < limit (horizon_sch 1) ∧
  horizon (priv (horizon_sch 1)) = 10000000000 ∧
  tstamp far_skb = 20000000000 ∧
  horizon_drop (priv (horizon_sch 1)) ≠ 0 ∧
  ∃ sch',
    marco_fq_enqueue 0 0 true true far_skb (horizon_sch 1)
      = Some (NET_XMIT_DROP, [far_skb], sch') ∧
    stat_horizon_drops (priv sch') = stat_horizon_drops (priv (horizon_sch 1)) + 1 ∧
    ∀ ops outs sch'',
      skb_id far_skb ∉ fq_enqueued ops →
      fq_run ops sch' = Some (outs, sch'') →
      ∀ p, p ∈ outs → skb_id p ≠ skb_id far_skb.
Proof.
  assert (q_qlen (horizon_sch 1) < limit (horizon_sch 1)) as Hlim by eval_cmp.
  assert (horizon (priv (horizon_sch 1)) = 10000000000) as Hhor by eval_eq.
  assert (tstamp far_skb = 20000000000) as Hts by eval_eq.
  assert (horizon_drop (priv (horizon_sch 1)) ≠ 0) as Hdrop by eval_cmp.
  assert (ktime_cache (priv (horizon_sch 1)) = 0) as Hkt by eval_eq.
  assert (stat_horizon_drops (priv (horizon_sch 1)) = 0) as Hsd by eval_eq.
  assert (stat_horizon_caps (priv (horizon_sch 1)) = 0) as Hsc by eval_eq.
  assert (¬ skb_queued (priv (horizon_sch 1)) (skb_id far_skb)) as Hfresh.
  { intros (p & (f & fl & Hf & Hp) & _). revert Hp.
    assert (get_flow (priv (horizon_sch 1)) f = Some fl → flow_packets fl = []) as ->.
    { destruct f as [|k]; unfold get_flow.
      - intros [= <-]. eval_eq.
      - assert (flow_heap (priv (horizon_sch 1)) = ∅) as -> by eval_eq.
        rewrite lookup_empty. discriminate. }
    - apply not_elem_of_nil.
    - exact Hf. }
  split; [exact Hlim|]. split; [exact Hhor|]. split; [exact Hts|]. split; [exact Hdrop|].
  destruct (marco_fq_enqueue_beyond_horizon 0 0 true true far_skb (horizon_sch 1))
    as [Hd _].
  - exact Hlim.
  - rewrite Hkt. lia.
  - rewrite Hhor. lia.
  - rewrite Hhor, Hts. lia.
  - rewrite Hsd. unfold U64_MAX. lia.
  - rewrite Hsc. unfold U64_MAX. lia.
  - destruct (Hd Hdrop) as (sch' & Hrun & Hstat & _ & _ & _ & Hnever).
    exists sch'. split; [exact Hrun|]. split; [exact Hstat|]. exact (Hnever Hfresh).
Defined.

(** ** Termination of the selection loop *)

Section termination.
Implicit Types (q : marco_fq_sched_data) (sch : Qdisc) (f g : flow_ref).

Lemma sum_list_with_le {A} (d d' : A → nat) (l : list A) :
  (∀ x, x ∈ l → (d' x ≤ d x)%nat) →
  (sum_list_with d' l ≤ sum_list_with d l)%nat.
Proof.
  induction l as [|x l IH]; intros H; simpl; [lia|].
  pose proof (H x ltac:(left)). pose proof (IH (λ y Hy, H y ltac:(by right))). lia.
Qed.

Lemma rewrites_flow_deficit q q' h fl fl' g :
  rewrites_flow q q' h fl fl' → (credit_deficit q' g ≤ credit_deficit q g)%nat.
Proof.
  intros (H1 & H2 & H3 & H4). unfold credit_deficit.
  destruct (decide (g = h)) as [->|Hne].
  - rewrite H1, H2. lia.
  - by rewrite H3.
Qed.

Lemma rewrites_flow_live q q' h fl fl' :
  rewrites_flow q q' h fl fl' →
  (∀ g, g ∈ new_flows q' ++ old_flows q' ++ rb_inorder (delayed q') →
        g = h ∨ g ∈ new_flows q ++ old_flows q ++ rb_inorder (delayed q)) →
  - 2 ^ 31 <= credit fl →
  flows_live q → flows_live q'.
Proof.
  intros (H1 & H2 & H3 & H4) Hsub Hlo Hl g Hg.
  destruct (decide (g = h)) as [->|Hne].
  - exists fl'. split; [done|lia].
  - rewrite H3 by done. apply Hl. by destruct (Hsub g Hg).
Qed.

Lemma deficit_sum_le q q' h fl fl' l :
  rewrites_flow q q' h fl fl' →
  (sum_list_with (credit_deficit q') l ≤ sum_list_with (credit_deficit q) l)%nat.
Proof. intros H. apply sum_list_with_le. intros g _. by eapply rewrites_flow_deficit. Qed.

(** The head flow left the new-list, for the old-list or for no list. *)
Lemma measure_new_head q q' h fl fl' l :
  rewrites_flow q q' h fl fl' →
  new_flows q = h :: l → new_flows q' = l →
  old_flows q' = old_flows q ∨ old_flows q' = old_flows q ++ [h] →
  (dequeue_measure q' < dequeue_measure q)%nat.
Proof.
  intros Hr Hn Hn' Ho. unfold dequeue_measure. rewrite Hn, Hn'.
  pose proof (deficit_sum_le _ _ _ _ _ l Hr) as H1.
  pose proof (deficit_sum_le _ _ _ _ _ (old_flows q) Hr) as H2.
  pose proof (deficit_sum_le _ _ _ _ _ [h] Hr) as H3.
  destruct Ho as [->| ->]; simpl in *;
    rewrite ?sum_list_with_app, ?length_app in *; simpl in *; lia.
Qed.

(** The head flow left the old-list for no list. *)
Lemma measure_old_head q q' h fl fl' l :
  rewrites_flow q q' h fl fl' →
  new_flows q = [] → old_flows q = h :: l →
  new_flows q' = [] → old_flows q' = l →
  (dequeue_measure q' < dequeue_measure q)%nat.
Proof.
  intros Hr Hn Ho Hn' Ho'. unfold dequeue_measure. rewrite Hn, Hn', Ho, Ho'.
  pose proof (deficit_sum_le _ _ _ _ _ l Hr) as H1. simpl. lia.
Qed.

(** The head flow of the old-list went to its tail with a larger credit. *)
Lemma measure_old_rotate q q' h fl fl' l :
  rewrites_flow q q' h fl fl' →
  new_flows q = [] → old_flows q = h :: l →
  new_flows q' = [] → old_flows q' = l ++ [h] →
  credit fl <= 0 → credit fl < credit fl' →
  (dequeue_measure q' < dequeue_measure q)%nat.
Proof.
  intros Hr Hn Ho Hn' Ho' Hc Hc'. unfold dequeue_measure. rewrite Hn, Hn', Ho, Ho'.
  pose proof (deficit_sum_le _ _ _ _ _ l Hr) as H1.
  assert (credit_deficit q' h < credit_deficit q h)%nat.
  { destruct Hr as (G & G' & _). unfold credit_deficit. rewrite G, G'. lia. }
  simpl. rewrite sum_list_with_app, length_app. simpl. lia.
Qed.

Lemma turn_goto_ok q q' h l fl fl' (rot : bool) :
  0 < quantum q → flows_live q →
  head_first (selected_head q) q = h :: l →
  rewrites_flow q q' h fl fl' →
  quantum q' = quantum q →
  new_flows q' = new_flows (set_head_first (selected_head q) l q) →
  old_flows q' = old_flows (set_head_first (selected_head q) l q)
                 ++ (if rot then [h] else []) →
  (∀ g, g ∈ rb_inorder (delayed q') → g = h ∨ g ∈ rb_inorder (delayed q)) →
  (rot = true →
   selected_head q = NEW_FLOWS ∨ credit fl <= 0 ∧ credit fl < credit fl') →
  flows_live q' ∧ quantum q' = quantum q ∧
  (dequeue_measure q' < dequeue_measure q)%nat.
Proof.
  intros Hq Hl Hsel Hr Hqu Hn Ho Hd Hrot.
  assert (- 2 ^ 31 <= credit fl) as Hlo.
  { destruct Hr as (G & _). destruct (Hl h) as (fl0 & G0 & ?).
    - destruct (selected_head_cases _ _ _ Hsel) as [[_ E]|(_ & E1 & E2)];
        [rewrite E|rewrite E2]; set_solver.
    - rewrite G in G0. injection G0 as ->. lia. }
  rewrite new_flows_set_head_first in Hn. rewrite old_flows_set_head_first in Ho.
  split_and!; [|done|].
  - eapply rewrites_flow_live; [done| |done|done].
    intros g. rewrite Hn, Ho.
    destruct (selected_head_cases _ _ _ Hsel) as [[-> E]|(-> & E1 & E2)];
      [rewrite E|rewrite E1, E2]; destruct rot; specialize (Hd g); set_solver.
  - destruct (selected_head_cases _ _ _ Hsel) as [[E0 E]|(E0 & E1 & E2)];
      rewrite E0 in Hn, Ho.
    + eapply measure_new_head; [done|done|done|].
      destruct rot; [by right|left; by rewrite Ho, app_nil_r].
    + destruct rot.
      * destruct Hrot as [?|[? ?]]; [done|congruence|].
        eapply measure_old_rotate; try done. by rewrite Hn.
      * eapply measure_old_head; try done; [by rewrite Hn|by rewrite Ho, app_nil_r].
Qed.

Lemma head_live q h l :
  flows_live q → head_first (selected_head q) q = h :: l →
  ∃ fl, get_flow q h = Some fl ∧ - 2 ^ 31 <= credit fl < 2 ^ 31.
Proof.
  intros Hl Hsel. apply Hl.
  destruct (selected_head_cases _ _ _ Hsel) as [[_ E]|(_ & E1 & E2)];
    [rewrite E|rewrite E2]; set_solver.
Qed.

(** States the three facts of a turn about one and the same scheduler. *)
Ltac same_sched sch :=
  match goal with
  | |- flows_live ?X ∧ _ =>
      cut (flows_live X ∧ quantum X = quantum (priv sch) ∧
           (dequeue_measure X < dequeue_measure (priv sch))%nat);
      [ let H := fresh in intros H; exact H | ]
  end.

(** Reads a flow other than the rewritten one through the updates. *)
Ltac read_other :=
  repeat first [ rewrite get_set_flow_ne by done | progress fq_simpl ].

Lemma marco_fq_dequeue_turn_progress now jiffies sch :
  0 < quantum (priv sch) < 2 ^ 31 → flows_live (priv sch) →
  ∃ r, marco_fq_dequeue_turn now jiffies sch = Some r ∧
       match r with
       | GOTO_BEGIN sch' =>
           flows_live (priv sch') ∧ quantum (priv sch') = quantum (priv sch) ∧
           (dequeue_measure (priv sch') < dequeue_measure (priv sch))%nat
       | RETURN_NULL _ => True
       | DEQUEUED f _ sch' => is_Some (get_flow (priv sch') f)
       end.
Proof.
  intros Hq Hl.
  destruct (marco_fq_dequeue_turn now jiffies sch) as [r|] eqn:H.
  - exists r. split; [done|]. turn_inv H.
    + done.
    + (* credit refill *)
      destruct (head_live _ _ _ Hl Heql) as (fl0 & G0 & Hc).
      rewrite Hget in G0. injection G0 as <-.
      same_sched sch.
      eapply (turn_goto_ok (priv sch) _ f l m (set_next_is_throttled false (set_credit (s32 (credit m + quantum (priv sch))) m)) true); try done; try lia.
      * split; [done|split; [by fq_simpl|split]].
        -- intros g Hg. by read_other.
        -- simpl. rewrite s32_id; lia.
      * by fq_simpl.
      * by fq_simpl.
      * by fq_simpl.
      * intros g. fq_simpl. by right.
      * intros _. right. simpl. rewrite s32_id; lia.
    + (* throttled *)
      destruct (head_live _ _ _ Hl Heql) as (fl0 & G0 & Hc).
      rewrite Hget in G0. injection G0 as <-.
      same_sched sch.
      eapply (turn_goto_ok (priv sch) _ f l m (set_next_is_throttled true (set_time_next_packet z m)) false); try done; try lia.
      * split; [done|split; [case_match; by fq_simpl|split]].
        -- intros g Hg. case_match; by read_other.
        -- simpl. lia.
      * case_match; by fq_simpl.
      * case_match; by fq_simpl.
      * case_match; fq_simpl; by rewrite app_nil_r.
      * intros g. case_match; fq_simpl;
          rewrite rb_link_elem_of; tauto.
    + by fq_simpl.
    + by fq_simpl.
    + (* an empty flow goes from the new-list to the old-list *)
      destruct (head_live _ _ _ Hl Heql) as (fl0 & G0 & Hc).
      rewrite Hget in G0. injection G0 as <-.
      same_sched sch.
      eapply (turn_goto_ok (priv sch) _ f l m (set_next_is_throttled false m) true); try done; try lia.
      * split; [done|split; [by fq_simpl|split]].
        -- intros g Hg. by read_other.
        -- simpl. lia.
      * by fq_simpl.
      * by fq_simpl.
      * by fq_simpl.
      * intros g. fq_simpl. by right.
      * intros _. left. by destruct (selected_head (priv sch)).
    + (* an empty flow is detached *)
      destruct (head_live _ _ _ Hl Heql) as (fl0 & G0 & Hc).
      rewrite Hget in G0. injection G0 as <-.
      same_sched sch.
      eapply (turn_goto_ok (priv sch) _ f l m (marco_fq_flow_set_detached jiffies m) false); try done; try lia.
      * split; [done|split; [by fq_simpl|split]].
        -- intros g Hg. by read_other.
        -- simpl. lia.
      * by fq_simpl.
      * by fq_simpl.
      * fq_simpl. by rewrite app_nil_r.
      * intros g. fq_simpl. by right.
  - exfalso. turn_inv H.
    destruct (head_live _ _ _ Hl Heql) as (fl0 & G0 & Hc). congruence.
Qed.

Lemma marco_fq_dequeue_begin_terminates now jiffies n sch :
  (dequeue_measure (priv sch) < n)%nat →
  0 < quantum (priv sch) < 2 ^ 31 → flows_live (priv sch) →
  ∃ r, (∀ fuel, (n ≤ fuel)%nat → marco_fq_dequeue_begin fuel now jiffies sch = Some r) ∧
       match r.1 with
       | Some (f, _) => is_Some (get_flow (priv r.2) f)
       | None => True
       end.
Proof.
  revert sch. induction n as [|n IH]; intros sch Hm Hq Hl; [lia|].
  destruct (marco_fq_dequeue_turn_progress now jiffies sch Hq Hl) as (r & Hr & Hpost).
  destruct r as [sch'|sch'|f skb sch'].
  - destruct Hpost as (Hl' & Hq' & Hm').
    destruct (IH sch') as (r & Hr' & Hpost'); [lia|by rewrite Hq'|done|].
    exists r. split; [|done]. intros [|fuel] Hf; [lia|]. simpl. rewrite Hr. simpl.
    apply Hr'. lia.
  - exists (None, sch'). split; [|done]. intros [|fuel] Hf; [lia|]. simpl. by rewrite Hr.
  - exists (Some (f, skb), sch'). split; [|done].
    intros [|fuel] Hf; [lia|]. simpl. by rewrite Hr.
Qed.

Lemma flows_live_congr q q' :
  (∀ g, get_flow q' g = get_flow q g) →
  new_flows q' = new_flows q → old_flows q' = old_flows q → delayed q' = delayed q →
  flows_live q → flows_live q'.
Proof. intros Hg Hn Ho Hd Hl g. rewrite Hg, Hn, Ho, Hd. apply Hl. Qed.

Lemma marco_fq_check_throttled_loop_live n now q :
  flows_live q →
  ∃ q', marco_fq_check_throttled_loop n now q = Some q' ∧
        flows_live q' ∧ quantum q' = quantum q.
Proof.
  revert q. induction n as [|n IH]; intros q Hl; simpl; [by eexists|].
  destruct (rb_first (delayed q)) as [f|] eqn:Ef; [|by eexists].
  destruct (Hl f) as (fl & Hget & Hc).
  { rewrite (rb_inorder_first (delayed q)), Ef. set_solver. }
  rewrite Hget. simpl. destruct (now <? time_next_packet fl).
  - eexists. split; [done|]. split; [|done].
    eapply flows_live_congr; [| | | |done]; try done; intros g; by fq_simpl.
  - rewrite (marco_fq_flow_unset_throttled_eq _ _ _ Hget). simpl.
    destruct (IH (set_flow f (set_next_is_throttled false fl)
          (set_old_flows (old_flows q ++ [f])
             (set_throttled_flows (u32 (throttled_flows q - 1))
                (set_delayed (rb_erase (flow_ref_eqb f) (delayed q)) q)))))
      as (q' & Hq' & Hl' & Hqu).
    + eapply (rewrites_flow_live q _ f fl); [| |lia|done].
      * split; [done|split; [by fq_simpl|split]].
        -- intros g Hg. rewrite get_set_flow_ne by done. by fq_simpl.
        -- simpl. lia.
      * intros g. fq_simpl. rewrite !elem_of_app.
        intros [?|[[?|?%list_elem_of_singleton]|?%rb_erase_sub]]; tauto.
    + exists q'. split; [done|]. split; [done|]. rewrite Hqu. by fq_simpl.
Qed.

Lemma marco_fq_check_throttled_live now q :
  flows_live q →
  ∃ q', marco_fq_check_throttled now q = Some q' ∧
        flows_live q' ∧ quantum q' = quantum q.
Proof.
  intros Hl. unfold marco_fq_check_throttled.
  destruct (now <? time_next_delayed_flow q); [by eexists|].
  match goal with
  | |- context [marco_fq_check_throttled_loop ?n now ?q0] =>
      destruct (marco_fq_check_throttled_loop_live n now q0) as (q' & H1 & H2 & H3)
  end.
  - eapply flows_live_congr; [| | | |done]; try done; intros g; by fq_simpl.
  - exists q'. split; [done|]. split; [done|]. by rewrite H3.
Qed.

Lemma marco_fq_dequeue_charge_total now f skb q :
  is_Some (get_flow q f) → is_Some (marco_fq_dequeue_charge now f skb q).
Proof.
  intros [fl Hfl]. unfold marco_fq_dequeue_charge. rewrite Hfl. simpl.
  repeat case_match; by eexists.
Qed.
End termination.

(** With [0 < quantum < 2^31] and every flow on a list or in the
    deferral index live, [marco_fq_dequeue] returns: from some number of
    turns on, it has a result, a packet or none. *)
Theorem marco_fq_dequeue_terminates (now jiffies : Z) (sch : Qdisc) :
  0 < quantum (priv sch) < 2 ^ 31 →
  flows_live (priv sch) →
  ∃ fuel r, ∀ fuel', (fuel ≤ fuel')%nat →
    marco_fq_dequeue fuel' now jiffies sch = Some r.
Proof.
  intros Hq Hl. unfold marco_fq_dequeue.
  destruct (q_qlen sch =? 0); [by exists O; eexists|].
  destruct (marco_fq_peek (internal (priv sch))) as [skb|].
  { exists O. unfold marco_fq_dequeue_skb. simpl. by eexists. }
  destruct (marco_fq_check_throttled_live now (set_ktime_cache now (priv sch)))
    as (q1 & H1 & Hl1 & Hq1).
  { eapply flows_live_congr; [| | | |done]; try done; intros g; by fq_simpl. }
  rewrite H1. simpl.
  destruct (marco_fq_dequeue_begin_terminates now jiffies
              (S (dequeue_measure q1)) (set_priv q1 sch))
    as ([sel sch'] & Hr & Hpost); [simpl; lia|simpl; by rewrite Hq1|done|].
  exists (S (dequeue_measure q1)).
  destruct sel as [[f skb]|]; simpl in Hpost.
  - destruct (marco_fq_dequeue_charge_total now f skb (priv sch') Hpost) as [q2 H2].
    eexists. intros fuel' Hf. rewrite (Hr fuel' Hf). simpl. rewrite H2. done.
  - eexists. intros fuel' Hf. rewrite (Hr fuel' Hf). done.
Qed.

(** A scheduler with one flow that is 5000 bytes overdrawn. *)
Lemma marco_fq_dequeue_terminates_witness :
  0 < quantum (priv overdrawn_sch) < 2 ^ 31 ∧
  flows_live (priv overdrawn_sch) ∧
  ∃ fuel r, ∀ fuel', (fuel ≤ fuel')%nat →
    marco_fq_dequeue fuel' 0 0 overdrawn_sch = Some r.
Proof.
  assert (0 < quantum (priv overdrawn_sch) < 2 ^ 31) as Hquantum by eval_cmp.
  assert (flows_live (priv overdrawn_sch)) as Hlive.
  { intros f.
    assert (new_flows (priv overdrawn_sch) ++ old_flows (priv overdrawn_sch)
            ++ rb_inorder (delayed (priv overdrawn_sch)) = [FLOW 4096]) as -> by eval_eq.
    intros ->%list_elem_of_singleton. exists overdrawn_flow. split; [eval_eq|eval_cmp]. }
  split; [exact Hquantum|]. split; [exact Hlive|].
  exact (marco_fq_dequeue_terminates 0 0 overdrawn_sch Hquantum Hlive).
Defined.

(** ** Configuration *)

Section config.
Implicit Types (q : marco_fq_sched_data) (sch : Qdisc) (f g h : flow_ref).

Lemma marco_fq_dequeue_turn_config now jiffies sch r :
  marco_fq_dequeue_turn now jiffies sch = Some r →
  let sch' := match r with GOTO_BEGIN s | RETURN_NULL s | DEQUEUED _ _ s => s end in
  fq_config sch' = fq_config sch ∧ fq_root (priv sch') = fq_root (priv sch).
Proof.
  intros H. turn_inv H; unfold fq_config, sched_config;
    repeat match goal with
           | |- context [if ?c then _ else _] => destruct c
           end; by fq_simpl.
Qed.

Lemma marco_fq_dequeue_begin_config fuel now jiffies sch sel sch' :
  marco_fq_dequeue_begin fuel now jiffies sch = Some (sel, sch') →
  fq_config sch' = fq_config sch ∧ fq_root (priv sch') = fq_root (priv sch).
Proof.
  revert sch. induction fuel as [|fuel IH]; intros sch H; [done|].
  simpl in H. destruct (marco_fq_dequeue_turn now jiffies sch) as [r|] eqn:Hr; [|done].
  destruct (marco_fq_dequeue_turn_config _ _ _ _ Hr) as [F1 F2].
  destruct r as [sch1|sch1|h skb sch1]; cbv beta iota zeta in F1, F2;
    cbn [mbind option_bind] in H.
  - destruct (IH _ H) as [I1 I2]. by rewrite I1, I2.
  - by injection H as <- <-.
  - by injection H as <- <-.
Qed.

Lemma marco_fq_check_throttled_loop_config n now q q' :
  marco_fq_check_throttled_loop n now q = Some q' →
  sched_config q' = sched_config q ∧ fq_root q' = fq_root q.
Proof.
  revert q. induction n as [|n IH]; intros q H; simpl in H; [by simplify_eq|].
  destruct (rb_first (delayed q)) as [f|]; [|by simplify_eq].
  destruct (get_flow q f) as [fl|] eqn:Hget; [|done]. cbn [mbind option_bind] in H.
  destruct (now <? time_next_packet fl).
  - by simplify_eq.
  - rewrite (marco_fq_flow_unset_throttled_eq _ _ _ Hget) in H.
    cbn [mbind option_bind] in H. destruct (IH _ H) as [-> ->].
    unfold sched_config. by fq_simpl.
Qed.

Lemma marco_fq_dequeue_charge_config now h skb q q' :
  marco_fq_dequeue_charge now h skb q = Some q' →
  sched_config q' = sched_config q ∧ fq_root q' = fq_root q.
Proof.
  unfold marco_fq_dequeue_charge. intros H.
  destruct (get_flow q h) as [fl|]; [|done]. cbn [mbind option_bind] in H.
  repeat match type of H with
         | context [if ?c then _ else _] => destruct c
         | context [match ?c with _ => _ end] => destruct c
         end;
    injection H as <-; unfold sched_config; by fq_simpl.
Qed.

Lemma marco_fq_dequeue_config fuel now jiffies sch r sch' :
  marco_fq_dequeue fuel now jiffies sch = Some (r, sch') →
  fq_config sch' = fq_config sch ∧ fq_root (priv sch') = fq_root (priv sch).
Proof.
  unfold marco_fq_dequeue. intros H.
  destruct (q_qlen sch =? 0); [by simplify_eq|].
  destruct (marco_fq_peek (internal (priv sch))) as [skb|] eqn:Hpk.
  { unfold marco_fq_dequeue_skb in H. simpl in H. by simplify_eq. }
  destruct (marco_fq_check_throttled now _) as [q1|] eqn:H1; [|done].
  cbn [mbind option_bind] in H.
  assert (sched_config q1 = sched_config (priv sch) ∧ fq_root q1 = fq_root (priv sch))
    as [C1 C2].
  { unfold marco_fq_check_throttled in H1. destruct (now <? _); [by simplify_eq|].
    by destruct (marco_fq_check_throttled_loop_config _ _ _ _ H1) as [-> ->]. }
  destruct (marco_fq_dequeue_begin fuel now jiffies (set_priv q1 sch))
    as [[sel sch1]|] eqn:Hb; [|done].
  cbn [mbind option_bind] in H.
  assert (fq_config sch1 = fq_config sch ∧ fq_root (priv sch1) = fq_root (priv sch))
    as [E1 E2].
  { destruct (marco_fq_dequeue_begin_config _ _ _ _ _ _ Hb) as [B1 B2].
    rewrite B1, B2. unfold fq_config. fq_proj. by rewrite C1, C2. }
  destruct sel as [[h skb]|]; [|by injection H as <- <-].
  destruct (marco_fq_dequeue_charge now h skb (priv sch1)) as [q2|] eqn:Hc; [|done].
  cbn [mbind option_bind] in H. injection H as <- <-.
  destruct (marco_fq_dequeue_charge_config _ _ _ _ _ Hc) as [G1 G2].
  rewrite <- E1, <- E2. unfold qdisc_bstats_update, fq_config. fq_proj.
  by rewrite G1, G2.
Qed.

Lemma marco_fq_change_drain_config n fuel clock k sch dropped dropped' sch' :
  marco_fq_change_drain n fuel clock k sch dropped = Some (dropped', sch') →
  fq_config sch' = fq_config sch ∧ fq_root (priv sch') = fq_root (priv sch).
Proof.
  revert k sch dropped. induction n as [|n IH]; intros k sch dropped H; simpl in H;
    [by injection H as <- <-|].
  destruct (limit sch <? q_qlen sch); [|by injection H as <- <-].
  destruct (marco_fq_dequeue fuel (clock k).1 (clock k).2 sch) as [[r sch1]|] eqn:Hd;
    [|done].
  cbn [mbind option_bind] in H.
  destruct (marco_fq_dequeue_config _ _ _ _ _ _ Hd) as [D1 D2].
  destruct r as [skb|]; [|by injection H as <- <-].
  destruct (IH _ _ _ H) as [I1 I2]. by rewrite I1, I2.
Qed.
End config.

Section attrs.
(** An observation [p] of the state of the attribute pass is not changed
    by an attribute whose body leaves it alone. *)
Lemma with_attr_frame {S A : Type} (p : S → A) a (body : Z → S → S) st :
  (∀ v st, p (body v st) = p st) → p (with_attr a body st) = p st.
Proof. intros H. destruct a; simpl; auto. Qed.

(** Skips the attributes that leave [p] alone, outermost first. *)
Ltac skip_attrs p :=
  repeat (etrans;
          [ apply (with_attr_frame p); intros ? [[? ?] ?];
            solve [ reflexivity | repeat case_match; reflexivity ]
          | ]).

(** Reads the observation [p], whose value was [old] before the pass:
    skips the attributes above the one that sets it, looks at that one,
    and skips the ones below. *)
Ltac read_attr p old :=
  skip_attrs p;
  match goal with
  | |- context [with_attr ?a ?body ?st] =>
      let Hold := fresh "Hold" in
      assert (p st = old) as Hold by (cbv beta; skip_attrs p; reflexivity);
      cbv beta in Hold;
      destruct a; cbn [with_attr attr_applied];
      [ destruct st as [[? ?] ?]; cbn in Hold |- *;
        repeat case_match; solve [ reflexivity | exact Hold ]
      | exact Hold ]
  | |- _ => reflexivity
  end.

Lemma marco_fq_change_attrs_config tb sch :
  let q := priv sch in
  fq_config (marco_fq_change_attrs tb sch).2 =
  [ attr_applied (TCA_FQ_PLIMIT tb) (λ _, true) id (limit sch);
    attr_applied (TCA_FQ_FLOW_PLIMIT tb) (λ _, true) id (flow_plimit q);
    attr_applied (TCA_FQ_QUANTUM tb) (λ v, (0 <? v) && (v <=? Z.shiftl 1 20)) id (quantum q);
    attr_applied (TCA_FQ_INITIAL_QUANTUM tb) (λ _, true) id (initial_quantum q);
    attr_applied (TCA_FQ_FLOW_MAX_RATE tb) (λ _, true)
      (λ rate, if rate =? U32_MAX then U64_MAX else rate) (flow_max_rate q);
    attr_applied (TCA_FQ_LOW_RATE_THRESHOLD tb) (λ _, true) id (low_rate_threshold q);
    attr_applied (TCA_FQ_RATE_ENABLE tb) (λ v, v <=? 1) id (rate_enable q);
    attr_applied (TCA_FQ_FLOW_REFILL_DELAY tb) (λ _, true) usecs_to_jiffies
      (flow_refill_delay q);
    attr_applied (TCA_FQ_ORPHAN_MASK tb) (λ _, true) id (orphan_mask q);
    attr_applied (TCA_FQ_CE_THRESHOLD tb) (λ _, true) (Z.mul NSEC_PER_USEC) (ce_threshold q);
    attr_applied (TCA_FQ_TIMER_SLACK tb) (λ _, true) id (timer_slack q);
    attr_applied (TCA_FQ_HORIZON tb) (λ _, true) (Z.mul NSEC_PER_USEC) (horizon q);
    attr_applied (TCA_FQ_HORIZON_DROP tb) (λ _, true) id (horizon_drop q);
    fq_trees_log q ].
Proof.
  intros q. unfold fq_config, sched_config, marco_fq_change_attrs. cbv zeta.
  repeat match goal with
         | |- _ :: _ = _ :: _ => apply (f_equal2 cons)
         end; [..|reflexivity].
  - read_attr (λ st : Z * Z * Qdisc, limit st.2) (limit sch).
  - read_attr (λ st : Z * Z * Qdisc, flow_plimit (priv st.2)) (flow_plimit q).
  - read_attr (λ st : Z * Z * Qdisc, quantum (priv st.2)) (quantum q).
  - read_attr (λ st : Z * Z * Qdisc, initial_quantum (priv st.2)) (initial_quantum q).
  - read_attr (λ st : Z * Z * Qdisc, flow_max_rate (priv st.2)) (flow_max_rate q).
  - read_attr (λ st : Z * Z * Qdisc, low_rate_threshold (priv st.2)) (low_rate_threshold q).
  - read_attr (λ st : Z * Z * Qdisc, rate_enable (priv st.2)) (rate_enable q).
  - read_attr (λ st : Z * Z * Qdisc, flow_refill_delay (priv st.2)) (flow_refill_delay q).
  - read_attr (λ st : Z * Z * Qdisc, orphan_mask (priv st.2)) (orphan_mask q).
  - read_attr (λ st : Z * Z * Qdisc, ce_threshold (priv st.2)) (ce_threshold q).
  - read_attr (λ st : Z * Z * Qdisc, timer_slack (priv st.2)) (timer_slack q).
  - read_attr (λ st : Z * Z * Qdisc, horizon (priv st.2)) (horizon q).
  - read_attr (λ st : Z * Z * Qdisc, horizon_drop (priv st.2)) (horizon_drop q).
  - read_attr (λ st : Z * Z * Qdisc, fq_trees_log (priv st.2)) (fq_trees_log q).
Qed.

Lemma with_attr_err a (ok : Z → bool) (upd : Z → Qdisc → Qdisc) (st : Z * Z * Qdisc) :
  (with_attr a (λ v '(err, fq_log, sch),
                  if ok v then (err, fq_log, upd v sch) else (- EINVAL, fq_log, sch))
     st).1.1
  = if attr_ok a ok then st.1.1 else - EINVAL.
Proof. destruct a as [v|], st as [[e l] s]; simpl; [|done]. by destruct (ok v). Qed.

Lemma marco_fq_change_attrs_err tb sch :
  (marco_fq_change_attrs tb sch).1.1 =
  if attr_ok (TCA_FQ_BUCKETS_LOG tb) (λ v, (1 <=? v) && (v <=? 18))
     && attr_ok (TCA_FQ_QUANTUM tb) (λ v, (0 <? v) && (v <=? Z.shiftl 1 20))
     && attr_ok (TCA_FQ_RATE_ENABLE tb) (λ v, v <=? 1)
  then 0 else - EINVAL.
Proof.
  unfold marco_fq_change_attrs. cbv zeta.
  skip_attrs (λ st : Z * Z * Qdisc, st.1.1).
  etrans; [apply (with_attr_err _ (λ v, v <=? 1)
                    (λ v s, set_priv (set_rate_enable v (priv s)) s))|].
  destruct (attr_ok (TCA_FQ_RATE_ENABLE tb) _); [|by rewrite andb_false_r].
  rewrite andb_true_r.
  skip_attrs (λ st : Z * Z * Qdisc, st.1.1).
  etrans; [apply (with_attr_err _ (λ v, (0 <? v) && (v <=? Z.shiftl 1 20))
                    (λ v s, set_priv (set_quantum v (priv s)) s))|].
  destruct (attr_ok (TCA_FQ_QUANTUM tb) _); [|by rewrite andb_false_r].
  rewrite andb_true_r.
  skip_attrs (λ st : Z * Z * Qdisc, st.1.1).
  destruct (TCA_FQ_BUCKETS_LOG tb) as [v|]; simpl; [|done]. by case_match.
Qed.

Lemma marco_fq_change_attrs_fq_root tb sch :
  fq_root (priv (marco_fq_change_attrs tb sch).2) = fq_root (priv sch).
Proof.
  unfold marco_fq_change_attrs. cbv zeta.
  skip_attrs (λ st : Z * Z * Qdisc, fq_root (priv st.2)). reflexivity.
Qed.

Lemma tca_fq_invalid_not_ok tb :
  tca_fq_invalid tb →
  attr_ok (TCA_FQ_BUCKETS_LOG tb) (λ v, (1 <=? v) && (v <=? 18))
  && attr_ok (TCA_FQ_QUANTUM tb) (λ v, (0 <? v) && (v <=? Z.shiftl 1 20))
  && attr_ok (TCA_FQ_RATE_ENABLE tb) (λ v, v <=? 1) = false.
Proof.
  intros [(v & -> & H)|[(v & -> & H)|(v & -> & H)]]; simpl.
  - replace ((1 <=? v) && (v <=? 18)) with false; [done|]. symmetry.
    apply andb_false_iff. rewrite !Z.leb_gt. lia.
  - replace ((0 <? v) && (v <=? Z.shiftl 1 20)) with false; [by rewrite andb_false_r|].
    symmetry. apply andb_false_iff. rewrite Z.ltb_ge, Z.leb_gt.
    change (Z.shiftl 1 20) with (2 ^ 20). lia.
  - replace (v <=? 1) with false; [by rewrite andb_false_r|].
    symmetry. apply Z.leb_gt. lia.
Qed.
End attrs.

(** C4, as the code has it.  When an attribute of the request is out
    of range, [marco_fq_change] returns [-EINVAL] and leaves the flow table
    as it is, yet every attribute of the request that is in range is set:
    the attribute pass skips the offending attributes only, and the packets
    above the new limit are dropped as after a valid request. *)
Theorem marco_fq_change_invalid_applies_rest (tb : tca_fq) (sch : Qdisc) :
  tca_fq_invalid tb →
  let q := priv sch in
  let '(err, fq_log, sch1) := marco_fq_change_attrs tb sch in
  err = - EINVAL ∧
  fq_root (priv sch1) = fq_root q ∧
  fq_config sch1 =
    [ attr_applied (TCA_FQ_PLIMIT tb) (λ _, true) id (limit sch);
      attr_applied (TCA_FQ_FLOW_PLIMIT tb) (λ _, true) id (flow_plimit q);
      attr_applied (TCA_FQ_QUANTUM tb) (λ v, (0 <? v) && (v <=? Z.shiftl 1 20)) id (quantum q);
      attr_applied (TCA_FQ_INITIAL_QUANTUM tb) (λ _, true) id (initial_quantum q);
      attr_applied (TCA_FQ_FLOW_MAX_RATE tb) (λ _, true)
        (λ rate, if rate =? U32_MAX then U64_MAX else rate) (flow_max_rate q);
      attr_applied (TCA_FQ_LOW_RATE_THRESHOLD tb) (λ _, true) id (low_rate_threshold q);
      attr_applied (TCA_FQ_RATE_ENABLE tb) (λ v, v <=? 1) id (rate_enable q);
      attr_applied (TCA_FQ_FLOW_REFILL_DELAY tb) (λ _, true) usecs_to_jiffies
        (flow_refill_delay q);
      attr_applied (TCA_FQ_ORPHAN_MASK tb) (λ _, true) id (orphan_mask q);
      attr_applied (TCA_FQ_CE_THRESHOLD tb) (λ _, true) (Z.mul NSEC_PER_USEC) (ce_threshold q);
      attr_applied (TCA_FQ_TIMER_SLACK tb) (λ _, true) id (timer_slack q);
      attr_applied (TCA_FQ_HORIZON tb) (λ _, true) (Z.mul NSEC_PER_USEC) (horizon q);
      attr_applied (TCA_FQ_HORIZON_DROP tb) (λ _, true) id (horizon_drop q);
      fq_trees_log q ] ∧
  ∀ fuel clock jiffies alloc_ok,
    marco_fq_change fuel clock jiffies alloc_ok (Some tb) sch =
      ('(dropped, sch2) ←
         marco_fq_change_drain (Z.to_nat (q_qlen sch1)) fuel clock O sch1 [];
       Some (- EINVAL, dropped, sch2)) ∧
    ∀ err' dropped sch2,
      marco_fq_change fuel clock jiffies alloc_ok (Some tb) sch
        = Some (err', dropped, sch2) →
      err' = - EINVAL ∧ fq_config sch2 = fq_config sch1 ∧
      fq_root (priv sch2) = fq_root q.
Proof.
  intros Hinv q.
  pose proof (marco_fq_change_attrs_err tb sch) as Herr.
  pose proof (marco_fq_change_attrs_fq_root tb sch) as Hroot.
  pose proof (marco_fq_change_attrs_config tb sch) as Hcfg.
  rewrite (tca_fq_invalid_not_ok _ Hinv) in Herr.
  assert (∀ fuel clock jiffies alloc_ok,
    marco_fq_change fuel clock jiffies alloc_ok (Some tb) sch =
      ('(dropped, sch2) ←
         marco_fq_change_drain
           (Z.to_nat (q_qlen (marco_fq_change_attrs tb sch).2)) fuel clock O
           (marco_fq_change_attrs tb sch).2 [];
       Some (- EINVAL, dropped, sch2))) as Heq.
  { intros. unfold marco_fq_change.
    destruct (marco_fq_change_attrs tb sch) as [[err fq_log] sch1]. simpl in Herr.
    subst err. done. }
  destruct (marco_fq_change_attrs tb sch) as [[err fq_log] sch1].
  cbn [fst snd] in Herr, Hroot, Hcfg, Heq. cbv iota. split_and!; try done.
  intros fuel clock jiffies alloc_ok. split; [apply Heq|].
  intros err' dropped sch2. rewrite Heq.
  destruct (marco_fq_change_drain _ _ _ _ _ _) as [[d s2]|] eqn:Hd; [|done].
  cbn [mbind option_bind]. intros [= <- <- <-].
  destruct (marco_fq_change_drain_config _ _ _ _ _ _ _ _ Hd) as [D1 D2].
  split_and!; [done|done|]. by rewrite D2.
Qed.

(** A request with a limit of 5 and a quantum of 0: the error is
    [-EINVAL] and the limit is 5 afterwards. *)
Lemma marco_fq_change_invalid_applies_rest_witness :
  tca_fq_invalid tca_zero_quantum ∧
  ∀ err' dropped sch2,
    marco_fq_change 1 clock0 0 true (Some tca_zero_quantum) example_sch
      = Some (err', dropped, sch2) →
    err' = - EINVAL ∧ limit sch2 = 5.
Proof.
  assert (tca_fq_invalid tca_zero_quantum) as Hinv.
  { right. left. exists 0. split; [reflexivity|lia]. }
  split; [exact Hinv|]. intros err' dropped sch2 Hrun.
  pose proof (marco_fq_change_invalid_applies_rest tca_zero_quantum example_sch Hinv) as H.
  destruct (marco_fq_change_attrs tca_zero_quantum example_sch) as [[err fq_log] sch1].
  destruct H as (_ & _ & Hcfg & H).
  destruct (proj2 (H 1%nat clock0 0 true) err' dropped sch2 Hrun) as (Herr & Hcfg2 & _).
  split; [exact Herr|]. rewrite Hcfg in Hcfg2. unfold fq_config in Hcfg2.
  injection Hcfg2 as Hlim _. exact Hlim.
Defined.

(** C4 does not hold as stated: the request with a quantum of 0 is
    refused with [-EINVAL], and the limit went from 10000 to 5. *)
Lemma marco_fq_change_applies_valid_part :
  limit example_sch = 10000 ∧
  ∃ dropped sch',
    marco_fq_change 1 clock0 0 true (Some tca_zero_quantum) example_sch
      = Some (- EINVAL, dropped, sch') ∧
    limit sch' = 5.
Proof.
  split; [eval_eq|]. eexists _, _. split; eval_eq.
Qed.

(** ** Reset *)

Section reset.
Lemma rb_size_erase_first {A} (t : rb_root A) x :
  rb_first t = Some x → rb_size t = S (rb_size (rb_erase_first t)).
Proof.
  intros H. rewrite !rb_size_inorder, (rb_inorder_first t), H. done.
Qed.

Lemma rb_erase_all_empty {A} n (t : rb_root A) :
  (rb_size t ≤ n)%nat → rb_erase_all n t = RB_ROOT.
Proof.
  revert t. induction n as [|n IH]; intros t Hn; simpl.
  - destruct t; [done|simpl in Hn; lia].
  - destruct (rb_first t) as [x|] eqn:E; [|by apply rb_first_None].
    apply IH. rewrite (rb_size_erase_first _ _ E) in Hn. lia.
Qed.

Lemma marco_fq_flow_purge_eq flow :
  marco_fq_flow_purge flow = set_qlen 0 (set_head [] (set_t_root RB_ROOT flow)).
Proof. unfold marco_fq_flow_purge. by rewrite rb_erase_all_empty. Qed.

Lemma marco_fq_reset_root_empty n root heap :
  (rb_size root ≤ n)%nat → (marco_fq_reset_root n root heap).1 = RB_ROOT.
Proof.
  revert root heap. induction n as [|n IH]; intros root heap Hn; simpl.
  - destruct root; [done|simpl in Hn; lia].
  - destruct (rb_first root) as [x|] eqn:E; [|by apply rb_first_None].
    apply IH. rewrite (rb_size_erase_first _ _ E) in Hn. lia.
Qed.

Lemma marco_fq_reset_roots_empty roots heap :
  Forall (λ root, root = RB_ROOT) (marco_fq_reset_roots roots heap).1.
Proof.
  revert heap. induction roots as [|root roots IH]; intros heap; simpl; [done|].
  pose proof (marco_fq_reset_root_empty (rb_size root) root heap (le_n _)) as H.
  destruct (marco_fq_reset_root _ _ _) as [root' heap']. simpl in H.
  specialize (IH heap'). destruct (marco_fq_reset_roots roots heap') as [rest heap''].
  simpl in *. by constructor.
Qed.

Lemma marco_fq_reset_roots_id roots heap :
  Forall (λ root, root = RB_ROOT) roots →
  marco_fq_reset_roots roots heap = (roots, heap).
Proof.
  induction 1 as [|root roots -> _ IH]; simpl; [done|]. by rewrite IH.
Qed.
End reset.

(** Field updates of records given by their constructors: call by need, so
    that nested updates are not copied. *)
Ltac fq_lazy :=
  lazy beta iota zeta delta [marco_fq_flow_purge new_flows old_flows delayed time_next_delayed_flow ktime_cache unthrottle_latency_ns
       internal quantum initial_quantum flow_refill_delay flow_plimit flow_max_rate
       ce_threshold horizon orphan_mask low_rate_threshold fq_root rate_enable fq_trees_log
       horizon_drop flows inactive_flows throttled_flows stat_gc_flows
       stat_internal_packets stat_throttled stat_ce_mark stat_horizon_drops
       stat_horizon_caps stat_flows_plimit stat_pkts_too_long stat_allocation_errors
       timer_slack watchdog flow_heap set_new_flows set_old_flows set_delayed
       set_time_next_delayed_flow set_ktime_cache set_unthrottle_latency_ns set_internal
       set_quantum set_initial_quantum set_flow_refill_delay set_flow_plimit
       set_flow_max_rate set_ce_threshold set_horizon set_orphan_mask
       set_low_rate_threshold set_fq_root set_rate_enable set_fq_trees_log set_horizon_drop
       set_flows set_inactive_flows set_throttled_flows set_stat_gc_flows
       set_stat_internal_packets set_stat_throttled set_stat_ce_mark set_stat_horizon_drops
       set_stat_horizon_caps set_stat_flows_plimit set_stat_pkts_too_long
       set_stat_allocation_errors set_timer_slack set_watchdog set_flow_heap q_qlen limit
       backlog drops bstats_bytes bstats_packets priv ip_count_table set_q_qlen set_limit
       set_backlog set_drops set_bstats_bytes set_bstats_packets set_priv
       set_ip_count_table t_root head tail sk socket_hash qlen credit next_is_throttled
       time_next_packet set_t_root set_head set_tail set_sk set_socket_hash set_qlen
       set_credit set_next_is_throttled set_time_next_packet skb_id tstamp priority skb_sk
       skb_hash pkt_len saddr daddr ecn time_to_send set_tstamp set_skb_sk set_ecn
       set_time_to_send].
Ltac fq_lazy_in H :=
  lazy beta iota zeta delta [marco_fq_flow_purge new_flows old_flows delayed time_next_delayed_flow ktime_cache unthrottle_latency_ns
       internal quantum initial_quantum flow_refill_delay flow_plimit flow_max_rate
       ce_threshold horizon orphan_mask low_rate_threshold fq_root rate_enable fq_trees_log
       horizon_drop flows inactive_flows throttled_flows stat_gc_flows
       stat_internal_packets stat_throttled stat_ce_mark stat_horizon_drops
       stat_horizon_caps stat_flows_plimit stat_pkts_too_long stat_allocation_errors
       timer_slack watchdog flow_heap set_new_flows set_old_flows set_delayed
       set_time_next_delayed_flow set_ktime_cache set_unthrottle_latency_ns set_internal
       set_quantum set_initial_quantum set_flow_refill_delay set_flow_plimit
       set_flow_max_rate set_ce_threshold set_horizon set_orphan_mask
       set_low_rate_threshold set_fq_root set_rate_enable set_fq_trees_log set_horizon_drop
       set_flows set_inactive_flows set_throttled_flows set_stat_gc_flows
       set_stat_internal_packets set_stat_throttled set_stat_ce_mark set_stat_horizon_drops
       set_stat_horizon_caps set_stat_flows_plimit set_stat_pkts_too_long
       set_stat_allocation_errors set_timer_slack set_watchdog set_flow_heap q_qlen limit
       backlog drops bstats_bytes bstats_packets priv ip_count_table set_q_qlen set_limit
       set_backlog set_drops set_bstats_bytes set_bstats_packets set_priv
       set_ip_count_table t_root head tail sk socket_hash qlen credit next_is_throttled
       time_next_packet set_t_root set_head set_tail set_sk set_socket_hash set_qlen
       set_credit set_next_is_throttled set_time_next_packet skb_id tstamp priority skb_sk
       skb_hash pkt_len saddr daddr ecn time_to_send set_tstamp set_skb_sk set_ecn
       set_time_to_send] in H.

(** C8.  [marco_fq_reset] twice is [marco_fq_reset] once.  After it
    the queue length and the backlog are 0 and the internal flow is empty;
    when the flow table was allocated, the counts of flows, of inactive
    flows and of throttled flows are 0, both lists and the deferral index
    are empty, and so is every shard of the flow table. *)
Theorem marco_fq_reset_idempotent (sch : Qdisc) :
  marco_fq_reset (marco_fq_reset sch) = marco_fq_reset sch ∧
  q_qlen (marco_fq_reset sch) = 0 ∧
  backlog (marco_fq_reset sch) = 0 ∧
  flow_packets (internal (priv (marco_fq_reset sch))) = [] ∧
  (fq_root (priv sch) ≠ None →
   let q := priv (marco_fq_reset sch) in
   flows q = 0 ∧ inactive_flows q = 0 ∧ throttled_flows q = 0 ∧
   new_flows q = [] ∧ old_flows q = [] ∧ delayed q = RB_ROOT ∧
   ∃ roots, fq_root q = Some roots ∧ Forall (λ root, root = RB_ROOT) roots).
Proof.
  destruct (fq_root (priv sch)) as [roots|] eqn:Hroot.
  - pose proof (marco_fq_reset_roots_empty roots (flow_heap (priv sch))) as Hall.
    destruct (marco_fq_reset_roots roots (flow_heap (priv sch))) as [roots' heap'] eqn:Er.
    simpl in Hall.
    destruct sch as [? ? ? ? ? ? [] ?]. fq_lazy_in Hroot. fq_lazy_in Er. subst.
    match goal with
    | |- context [marco_fq_reset (marco_fq_reset ?s)] =>
        set (once := marco_fq_reset s); assert (Honce : once = marco_fq_reset s) by done
    end.
    clearbody once. unfold marco_fq_reset in Honce.
    fq_lazy_in Honce. rewrite Er in Honce.
    rewrite rb_erase_all_empty in Honce by done. subst once.
    unfold marco_fq_reset. fq_lazy. rewrite (marco_fq_reset_roots_id _ _ Hall).
    change (rb_erase_all (rb_size RB_ROOT) RB_ROOT) with (@RB_ROOT sk_buff).
    split; [reflexivity|]. split; [reflexivity|]. split; [reflexivity|].
    split; [reflexivity|]. intros _.
    repeat (split; [reflexivity|]). exists roots'. split; [reflexivity|exact Hall].
  - destruct sch as [? ? ? ? ? ? [] ?]. fq_lazy_in Hroot. subst.
    match goal with
    | |- context [marco_fq_reset (marco_fq_reset ?s)] =>
        set (once := marco_fq_reset s); assert (Honce : once = marco_fq_reset s) by done
    end.
    clearbody once. unfold marco_fq_reset in Honce.
    fq_lazy_in Honce. rewrite rb_erase_all_empty in Honce by done. subst once.
    unfold marco_fq_reset. fq_lazy.
    change (rb_erase_all (rb_size RB_ROOT) RB_ROOT) with (@RB_ROOT sk_buff).
    split; [reflexivity|]. split; [reflexivity|]. split; [reflexivity|].
    split; [reflexivity|]. intros []. reflexivity.
Qed.

(** ** Congestion marks *)

(** C5, as the code has it.  A packet that is ready at the head of
    the selected flow is marked CE, and [stat_ce_mark] counted up, exactly
    when [now - time_next_packet - ce_threshold], as an [s64], is positive,
    that is when the packet is later than [ce_threshold] after its
    time; [rate_enable] is not read, so this holds with pacing off as
    well. *)
Theorem marco_fq_dequeue_ce_mark (now jiffies : Z) (sch : Qdisc)
  (f : flow_ref) (f_next : list flow_ref) (fl : marco_fq_flow) (skb : sk_buff)
  (tbl : list hash_ip_count) (tnp : Z) :
  let q := priv sch in
  head_first (selected_head q) q = f :: f_next →
  get_flow q f = Some fl →
  0 < credit fl →
  marco_fq_peek fl = Some skb →
  ip_count_outgo (saddr skb) (daddr skb) (ip_count_table sch)
    (Z.max (time_to_send skb) (time_next_packet fl)) = (tbl, tnp) →
  tnp <= now →
  let late := s64 (now - tnp - ce_threshold q) >? 0 in
  (0 <= tnp → now < 2 ^ 63 → 0 <= ce_threshold q < 2 ^ 63 →
   late = true ↔ ce_threshold q < now - tnp) ∧
  ∃ sch',
    marco_fq_dequeue_turn now jiffies sch
    = Some (DEQUEUED f (if late then INET_ECN_set_ce skb else skb) sch') ∧
    stat_ce_mark (priv sch')
    = (if late then u64 (stat_ce_mark q + 1) else stat_ce_mark q) ∧
    rate_enable (priv sch') = rate_enable q.
Proof.
  intros q Hhead Hget Hcredit Hpeek Hip Hdue late. split.
  - intros Htnp Hnow Hce. unfold late. rewrite s64_id by lia.
    rewrite Z.gtb_gt. lia.
  - unfold marco_fq_dequeue_turn. fold q. rewrite Hhead.
    cbn [mbind option_bind]. rewrite Hget. cbn [mbind option_bind].
    destruct (Z.leb_spec (credit fl) 0) as [?|_]; [lia|].
    rewrite Hpeek, Hip.
    destruct (Z.ltb_spec now tnp) as [?|_]; [lia|].
    fold late. unfold marco_fq_dequeue_skb.
    destruct late; fq_simpl; rewrite Hget; cbn [mbind option_bind];
      eexists; (split; [reflexivity|]); fq_simpl; done.
Qed.

(** Pacing off, a threshold of 1 us, a packet due at 1000 and sent at
    5000: it is marked. *)
Lemma marco_fq_dequeue_ce_mark_witness :
  head_first (selected_head (priv unpaced_sch)) (priv unpaced_sch) = [FLOW 4096] ∧
  get_flow (priv unpaced_sch) (FLOW 4096) = Some unpaced_flow ∧
  0 < credit unpaced_flow ∧
  marco_fq_peek unpaced_flow = Some unpaced_skb ∧
  ip_count_outgo (saddr unpaced_skb) (daddr unpaced_skb) (ip_count_table unpaced_sch)
    (Z.max (time_to_send unpaced_skb) (time_next_packet unpaced_flow))
  = (ip_count_table unpaced_sch, 1000) ∧
  rate_enable (priv unpaced_sch) = 0 ∧
  ∃ sch',
    marco_fq_dequeue_turn 5000 0 unpaced_sch
    = Some (DEQUEUED (FLOW 4096) (INET_ECN_set_ce unpaced_skb) sch') ∧
    stat_ce_mark (priv sch') = 1.
Proof.
  assert (head_first (selected_head (priv unpaced_sch)) (priv unpaced_sch)
          = [FLOW 4096]) as Hhead by eval_eq.
  assert (get_flow (priv unpaced_sch) (FLOW 4096) = Some unpaced_flow) as Hget by eval_eq.
  assert (0 < credit unpaced_flow) as Hcredit by eval_cmp.
  assert (marco_fq_peek unpaced_flow = Some unpaced_skb) as Hpeek by eval_eq.
  assert (ip_count_outgo (saddr unpaced_skb) (daddr unpaced_skb)
            (ip_count_table unpaced_sch)
            (Z.max (time_to_send unpaced_skb) (time_next_packet unpaced_flow))
          = (ip_count_table unpaced_sch, 1000)) as Hip by eval_eq.
  assert (rate_enable (priv unpaced_sch) = 0) as Hrate by eval_eq.
  assert ((s64 (5000 - 1000 - ce_threshold (priv unpaced_sch)) >? 0) = true) as Hlate
    by eval_eq.
  assert (u64 (stat_ce_mark (priv unpaced_sch) + 1) = 1) as Hstat by eval_eq.
  destruct (marco_fq_dequeue_ce_mark 5000 0 unpaced_sch (FLOW 4096) [] unpaced_flow
              unpaced_skb (ip_count_table unpaced_sch) 1000 Hhead Hget Hcredit Hpeek Hip)
    as (_ & sch' & Hturn & Hce & _); [lia|].
  rewrite Hlate in Hturn, Hce. rewrite Hstat in Hce.
  split; [exact Hhead|]. split; [exact Hget|]. split; [exact Hcredit|].
  split; [exact Hpeek|]. split; [exact Hip|]. split; [exact Hrate|].
  exists sch'. split; [exact Hturn|exact Hce].
Defined.

(** C5 does not hold as stated: with [rate_enable] 0,
    [marco_fq_dequeue] returns the packet marked CE and counts the mark. *)
Lemma marco_fq_dequeue_marks_unpaced :
  rate_enable (priv unpaced_sch) = 0 ∧
  stat_ce_mark (priv unpaced_sch) = 0 ∧
  ∃ skb sch',
    marco_fq_dequeue 5 5000 0 unpaced_sch = Some (Some skb, sch') ∧
    ecn skb = 3 ∧
    stat_ce_mark (priv sch') = 1.
Proof.
  split; [eval_eq|]. split; [eval_eq|].
  eexists _, _. split; [eval_eq|]. split; eval_eq.
Qed.

(** ** Credit of an idle flow *)

(** The refill of [marco_fq_enqueue].  A packet for a detached flow puts
    the flow at the tail of [new_flows].  The credit never goes down.  Once the
    flow was idle for longer than [flow_refill_delay], a credit that is not
    negative becomes the larger of the credit and [quantum]; a negative
    credit compares as a large [u32] in [max_t] and is kept. *)
Theorem marco_fq_enqueue_refill (jiffies : Z) (flow_alloc_ok ip_alloc_ok : bool)
  (skb skb' : sk_buff) (sch : Qdisc) (f : flow_ref) (q : marco_fq_sched_data)
  (fl : marco_fq_flow) :
  marco_fq_classify jiffies flow_alloc_ok skb (priv sch) = Some (f, skb', q) →
  get_flow q f = Some fl →
  marco_fq_flow_is_detached fl = true →
  (flow_plimit q <=? u32 (qlen fl)) && negb (flow_ref_eqb f INTERNAL) = false →
  - 2 ^ 31 <= credit fl < 2 ^ 31 →
  0 <= quantum q < 2 ^ 31 →
  ∃ ret free sch' fl',
    marco_fq_enqueue_flow jiffies flow_alloc_ok ip_alloc_ok skb sch
    = Some (ret, free, sch') ∧
    new_flows (priv sch') = new_flows q ++ [f] ∧
    old_flows (priv sch') = old_flows q ∧
    get_flow (priv sch') f = Some fl' ∧
    credit fl <= credit fl' ∧
    credit fl' =
      (if time_after jiffies (flow_age fl + flow_refill_delay q) && (0 <=? credit fl)
       then Z.max (credit fl) (quantum q)
       else credit fl).
Proof.
  intros Hcl Hget Hdet Hlim Hcredit Hquantum.
  unfold marco_fq_enqueue_flow. rewrite Hcl. cbn [mbind option_bind].
  rewrite Hget. cbn [mbind option_bind]. rewrite Hlim, Hdet.
  erewrite marco_fq_flow_add_tail_eq by (rewrite ?get_set_flow_eq; done).
  cbn [mbind option_bind]. rewrite ?get_set_flow_eq. cbn [mbind option_bind].
  fq_simpl. unfold flow_age. fq_proj. fold (flow_age fl).
  set (fl1 := if time_after _ _ then _ else _).
  assert (credit fl1 =
          if time_after jiffies (flow_age fl + flow_refill_delay q) && (0 <=? credit fl)
          then Z.max (credit fl) (quantum q) else credit fl) as Hfl1.
  { unfold fl1. destruct (time_after _ _); [|done]. fq_proj.
    rewrite credit_refill_cases by done.
    destruct (Z.ltb_spec (credit fl) 0), (Z.leb_spec 0 (credit fl)); simpl; lia. }
  assert (credit fl <= credit fl1) as Hle.
  { rewrite Hfl1. match goal with |- context [if ?c then _ else _] => destruct c end; lia. }
  destruct (match ip_count_income _ _ _ with Some _ => _ | None => _ end).
  - cbn [mbind option_bind]. fq_simpl. rewrite ?get_set_flow_eq. cbn [mbind option_bind].
    eexists _, _, _, _. split; [reflexivity|].
    destruct (flow_ref_eqb f INTERNAL); fq_simpl; rewrite ?get_set_flow_eq;
      rewrite credit_marco_flow_queue_add; done.
  - eexists _, _, _, _. split; [reflexivity|]. fq_simpl. rewrite ?get_set_flow_eq. done.
Qed.

(** A detached flow with a credit of -1, idle for 1000 ticks: it is put
    on [new_flows] and keeps its credit. *)
Lemma marco_fq_enqueue_refill_witness :
  marco_fq_classify 1000 true idle_skb (priv idle_sch_stamped)
    = Some (FLOW 4096, idle_skb, priv idle_sch_stamped) ∧
  get_flow (priv idle_sch_stamped) (FLOW 4096) = Some idle_flow ∧
  marco_fq_flow_is_detached idle_flow = true ∧
  credit idle_flow = -1 ∧
  quantum (priv idle_sch_stamped) = 3000 ∧
  ∃ ret free sch' fl',
    marco_fq_enqueue_flow 1000 true true idle_skb idle_sch_stamped
      = Some (ret, free, sch') ∧
    new_flows (priv sch') = new_flows (priv idle_sch_stamped) ++ [FLOW 4096] ∧
    get_flow (priv sch') (FLOW 4096) = Some fl' ∧
    credit fl' = -1.
Proof.
  assert (marco_fq_classify 1000 true idle_skb (priv idle_sch_stamped)
          = Some (FLOW 4096, idle_skb, priv idle_sch_stamped)) as Hcl by eval_eq.
  assert (get_flow (priv idle_sch_stamped) (FLOW 4096) = Some idle_flow) as Hget
    by eval_eq.
  assert (marco_fq_flow_is_detached idle_flow = true) as Hdet by eval_eq.
  assert (credit idle_flow = -1) as Hcredit by eval_eq.
  assert (quantum (priv idle_sch_stamped) = 3000) as Hquantum by eval_eq.
  assert ((flow_plimit (priv idle_sch_stamped) <=? u32 (qlen idle_flow))
          && negb (flow_ref_eqb (FLOW 4096) INTERNAL) = false) as Hlim by eval_eq.
  assert (time_after 1000 (flow_age idle_flow + flow_refill_delay (priv idle_sch_stamped))
          && (0 <=? credit idle_flow) = false) as Hkeep by eval_eq.
  destruct (marco_fq_enqueue_refill 1000 true true idle_skb idle_skb idle_sch_stamped
              (FLOW 4096) (priv idle_sch_stamped) idle_flow Hcl Hget Hdet Hlim)
    as (ret & free & sch' & fl' & Hrun & Hnew & _ & Hget' & _ & Hc);
    [rewrite Hcredit; lia|rewrite Hquantum; lia|].
  rewrite Hkeep, Hcredit in Hc.
  split; [exact Hcl|]. split; [exact Hget|]. split; [exact Hdet|].
  split; [exact Hcredit|]. split; [exact Hquantum|].
  exists ret, free, sch', fl'. split; [exact Hrun|]. split; [exact Hnew|].
  split; [exact Hget'|exact Hc].
Defined.

(** C7 fails in the code.  With an initial quantum of 2^32 - 1 a flow
    is created with a credit of -1; its first packet is refused by a flow
    limit of 0, which is then raised.  A packet 1000 ticks later finds the
    flow detached and idle beyond the refill delay of 40 ticks, and leaves
    the credit at -1, below the quantum of 3000: [max_t(u32, ...)] reads
    the credit, an [int], as 2^32 - 1. *)
Lemma marco_fq_enqueue_refill_keeps_negative_credit :
  get_flow (priv idle_sch) (FLOW 4096) = Some idle_flow ∧
  marco_fq_flow_is_detached idle_flow = true ∧
  time_after 1000 (flow_age idle_flow + flow_refill_delay (priv idle_sch)) = true ∧
  credit idle_flow = -1 ∧
  quantum (priv idle_sch) = 3000 ∧
  ∃ free sch' fl',
    marco_fq_enqueue 1000 1000 true true (example_skb 2 0 7 100) idle_sch
      = Some (NET_XMIT_SUCCESS, free, sch') ∧
    new_flows (priv sch') = [FLOW 4096] ∧
    get_flow (priv sch') (FLOW 4096) = Some fl' ∧
    credit fl' = -1.
Proof.
  split; [eval_eq|]. split; [eval_eq|]. split; [eval_eq|]. split; [eval_eq|].
  split; [eval_eq|]. eexists _, _, _. split; [eval_eq|]. split; [eval_eq|].
  split; eval_eq.
Qed.

(** ** Failure of the counting table *)

(** C9.  When the counting table has no entry for the addresses of
    the packet and [kmalloc] fails, [marco_fq_enqueue] returns [ENOMEM],
    which is neither [NET_XMIT_SUCCESS] nor [NET_XMIT_DROP], and frees
    nothing; by then the [qlen] of the flow and the backlog are counted up,
    while the packet is in no flow and the queue length of the qdisc is
    what it was. *)
Theorem marco_fq_enqueue_enomem (jiffies : Z) (flow_alloc_ok : bool)
  (skb skb' : sk_buff) (sch : Qdisc) (f : flow_ref) (q : marco_fq_sched_data)
  (fl : marco_fq_flow) :
  marco_fq_classify jiffies flow_alloc_ok skb (priv sch) = Some (f, skb', q) →
  get_flow q f = Some fl →
  (flow_plimit q <=? u32 (qlen fl)) && negb (flow_ref_eqb f INTERNAL) = false →
  ip_count_income (saddr skb') (daddr skb') (ip_count_table sch) = None →
  ∃ sch' fl',
    marco_fq_enqueue_flow jiffies flow_alloc_ok false skb sch = Some (ENOMEM, [], sch') ∧
    ENOMEM ≠ NET_XMIT_SUCCESS ∧ ENOMEM ≠ NET_XMIT_DROP ∧
    get_flow (priv sch') f = Some fl' ∧
    qlen fl' = s32 (qlen fl + 1) ∧
    flow_packets fl' = flow_packets fl ∧
    backlog sch' = u32 (backlog sch + pkt_len skb') ∧
    q_qlen sch' = q_qlen sch ∧
    drops sch' = drops sch ∧
    ∀ p, skb_stored (priv sch') p → skb_stored q p.
Proof.
  intros Hcl Hget Hlim Hip.
  unfold marco_fq_enqueue_flow. rewrite Hcl. cbn [mbind option_bind].
  rewrite Hget. cbn [mbind option_bind]. rewrite Hlim.
  destruct (marco_fq_flow_is_detached fl).
  - erewrite marco_fq_flow_add_tail_eq by (rewrite ?get_set_flow_eq; done).
    cbn [mbind option_bind]. rewrite ?get_set_flow_eq. cbn [mbind option_bind].
    fq_simpl. rewrite Hip.
    eexists _, _. split; [reflexivity|]. fq_simpl. rewrite ?get_set_flow_eq.
    split; [done|]. split; [done|]. split; [reflexivity|].
    split; [by destruct (time_after _ _)|]. split; [by destruct (time_after _ _)|].
    split; [done|]. split; [done|]. split; [done|].
    intros p Hp. eapply (skb_stored_rewrite q _ f fl _ p Hget); [| |exact Hp].
    + intros g. fq_simpl. destruct (decide (f = g)) as [<-|Hne].
      * by rewrite !get_set_flow_eq.
      * repeat first [rewrite get_set_flow_ne by done | rewrite get_flow_set_head_first]. done.
    + by destruct (time_after _ _).
  - cbn [mbind option_bind]. fq_simpl. rewrite Hip.
    eexists _, _. split; [reflexivity|]. fq_simpl. rewrite ?get_set_flow_eq.
    split; [done|]. split; [done|]. split; [reflexivity|].
    split; [done|]. split; [done|]. split; [done|]. split; [done|]. split; [done|].
    intros p Hp. eapply (skb_stored_rewrite q _ f fl _ p Hget); [| |exact Hp].
    + intros g. reflexivity.
    + done.
Qed.

(** The first packet on a fresh scheduler, with [kmalloc] failing. *)
Lemma marco_fq_enqueue_enomem_witness :
  marco_fq_classify 0 true first_skb (priv example_sch_stamped)
    = Some (FLOW 4096, first_skb, first_q) ∧
  get_flow first_q (FLOW 4096) = Some first_flow ∧
  ip_count_income (saddr first_skb) (daddr first_skb) (ip_count_table example_sch_stamped)
    = None ∧
  ∃ sch' fl',
    marco_fq_enqueue 0 0 true false (example_skb 1 0 7 100) example_sch
      = Some (ENOMEM, [], sch') ∧
    get_flow (priv sch') (FLOW 4096) = Some fl' ∧
    qlen fl' = 1 ∧
    flow_packets fl' = [] ∧
    backlog sch' = 100 ∧
    q_qlen sch' = 0.
Proof.
  assert (marco_fq_classify 0 true first_skb (priv example_sch_stamped)
          = Some (FLOW 4096, first_skb, first_q)) as Hcl by eval_eq.
  assert (get_flow first_q (FLOW 4096) = Some first_flow) as Hget by eval_eq.
  assert (ip_count_income (saddr first_skb) (daddr first_skb)
            (ip_count_table example_sch_stamped) = None) as Hip by eval_eq.
  assert ((flow_plimit first_q <=? u32 (qlen first_flow))
          && negb (flow_ref_eqb (FLOW 4096) INTERNAL) = false) as Hlim by eval_eq.
  assert (marco_fq_enqueue 0 0 true false (example_skb 1 0 7 100) example_sch
          = marco_fq_enqueue_flow 0 true false first_skb example_sch_stamped) as Henq
    by eval_eq.
  assert (s32 (qlen first_flow + 1) = 1) as Hqlen by eval_eq.
  assert (flow_packets first_flow = []) as Hpk by eval_eq.
  assert (u32 (backlog example_sch_stamped + pkt_len first_skb) = 100) as Hbl by eval_eq.
  assert (q_qlen example_sch_stamped = 0) as Hq by eval_eq.
  destruct (marco_fq_enqueue_enomem 0 true first_skb first_skb example_sch_stamped
              (FLOW 4096) first_q first_flow Hcl Hget Hlim Hip)
    as (sch' & fl' & Hrun & _ & _ & Hget' & Hqlen' & Hpk' & Hbl' & Hq' & _).
  rewrite Hqlen in Hqlen'. rewrite Hpk in Hpk'. rewrite Hbl in Hbl'. rewrite Hq in Hq'.
  rewrite <- Henq in Hrun.
  split; [exact Hcl|]. split; [exact Hget|]. split; [exact Hip|].
  exists sch', fl'. split; [exact Hrun|]. split; [exact Hget'|]. split; [exact Hqlen'|].
  split; [exact Hpk'|]. split; [exact Hbl'|exact Hq'].
Defined.

(** * The states the scheduler reaches *)

(** A scheduler reads as [set_flow h v q] at every flow. *)
Ltac flow_reads h :=
  let g := fresh "g" in
  intros g; destruct (decide (g = h)) as [->|];
  [ fq_simpl; rewrite ?get_set_flow_eq; fq_simpl; done
  | repeat first [ rewrite get_set_flow_ne by done | progress fq_simpl ]; done ].

Ltac fq_simpl_in H :=
  repeat first [ progress autorewrite with fq in H | progress fq_proj_in H ].

Section rbtree_erase_any.
Context {A : Type}.
Implicit Types (t : rb_root A) (p : A → bool).

Lemma rb_mem_inorder p t : rb_mem p t = existsb p (rb_inorder t).
Proof.
  induction t as [|l IHl x r IHr]; [done|].
  simpl. rewrite existsb_app. simpl. rewrite IHl, IHr. by rewrite orb_assoc.
Qed.

Lemma remove_first_app_l p (l1 l2 : list A) :
  existsb p l1 = true → remove_first p (l1 ++ l2) = remove_first p l1 ++ l2.
Proof.
  induction l1 as [|x l1 IH]; [done|]. simpl.
  destruct (p x); [done|]. simpl. intros H. by rewrite IH.
Qed.

Lemma remove_first_app_r p (l1 l2 : list A) :
  existsb p l1 = false → remove_first p (l1 ++ l2) = l1 ++ remove_first p l2.
Proof.
  induction l1 as [|x l1 IH]; [done|]. simpl.
  destruct (p x); [done|]. simpl. intros H. by rewrite IH.
Qed.

(** [rb_erase] takes the first node that [p] recognises out of the
    in-order sequence. *)
Lemma rb_erase_inorder p t :
  rb_inorder (rb_erase p t) = remove_first p (rb_inorder t).
Proof.
  induction t as [|l IHl x r IHr]; [done|]. simpl.
  rewrite (rb_mem_inorder p l).
  destruct (existsb p (rb_inorder l)) eqn:El.
  - simpl. by rewrite IHl, remove_first_app_l.
  - rewrite remove_first_app_r by done. simpl.
    destruct (p x).
    + rewrite (rb_inorder_first r). destruct (rb_first r); simpl; [done|].
      by rewrite app_nil_r.
    + simpl. by rewrite IHr.
Qed.

Lemma remove_first_sublist p (l : list A) : remove_first p l `sublist_of` l.
Proof.
  induction l as [|x l IH]; [done|]. simpl.
  destruct (p x); [by apply sublist_cons|by apply sublist_skip].
Qed.

Lemma remove_first_perm p (l : list A) x :
  x ∈ l → p x = true → (∀ y, y ∈ l → p y = true → y = x) →
  l ≡ₚ x :: remove_first p l.
Proof.
  induction l as [|y l IH]; [by intros ?%elem_of_nil|].
  intros Hx Hp Huniq. simpl. destruct (p y) eqn:Ey.
  - rewrite (Huniq y) by (done || left). done.
  - apply elem_of_cons in Hx as [->|Hx]; [congruence|].
    rewrite Permutation_swap. f_equiv. apply IH; [done..|].
    intros z Hz. apply Huniq. by right.
Qed.

Lemma remove_first_none p (l : list A) :
  existsb p l = false → remove_first p l = l.
Proof.
  induction l as [|y l IH]; [done|]. simpl.
  destruct (p y); [done|]. simpl. intros H. by rewrite IH.
Qed.
End rbtree_erase_any.

Lemma StronglySorted_sublist {A} (R : relation A) (l1 l2 : list A) :
  l1 `sublist_of` l2 → StronglySorted R l2 → StronglySorted R l1.
Proof.
  induction 1 as [|x l1 l2 Hs IH|x l1 l2 Hs IH]; intros H2; [done|..].
  - apply StronglySorted_cons in H2 as [Hx H2]. constructor; [by apply IH|].
    eapply Forall_forall. intros y Hy. rewrite Forall_forall in Hx. apply Hx.
    by eapply elem_of_sublist.
  - apply StronglySorted_cons in H2 as [_ H2]. by apply IH.
Qed.

(** In a search tree the descent of [marco_fq_classify] finds every key. *)
Lemma fq_root_lookup_elem_of sk0 (t : rb_root Z) :
  StronglySorted (λ a b, b <= a) (rb_inorder t) →
  fq_root_lookup sk0 t = true ↔ sk0 ∈ rb_inorder t.
Proof.
  induction t as [|l IHl k r IHr]; simpl.
  - intros _. split; [done|by intros ?%elem_of_nil].
  - rewrite StronglySorted_app, StronglySorted_cons, Forall_forall.
    intros (Hlr & Sl & Hk & Sr).
    destruct (Z.eqb_spec k sk0) as [->|Hne]; [set_solver|].
    destruct (Z.gtb_spec k sk0) as [Hgt|Hle].
    + rewrite IHr by done. split; [set_solver|].
      intros [Hin|[?|Hin]%elem_of_cons]%elem_of_app; [|done..].
      specialize (Hlr sk0 k Hin ltac:(left)). lia.
    + rewrite IHl by done. split; [set_solver|].
      intros [Hin|[?|Hin]%elem_of_cons]%elem_of_app; [done..|].
      specialize (Hk _ Hin). lia.
Qed.

Lemma StronglySorted_ext_in {A} (R R' : relation A) (l : list A) :
  (∀ a b, a ∈ l → b ∈ l → R a b → R' a b) → StronglySorted R l → StronglySorted R' l.
Proof.
  intros HR Hs. induction Hs as [|a l _ IH Ha]; constructor.
  - apply IH. intros x y Hx Hy. apply HR; by right.
  - rewrite Forall_forall in Ha |- *. intros b Hb. apply HR; [by left|by right|by apply Ha].
Qed.

Section links.
Implicit Types (q : marco_fq_sched_data) (sch : Qdisc) (f g h : flow_ref).

Lemma flow_time_next_packet_ext q q' g :
  get_flow q' g = get_flow q g → flow_time_next_packet q' g = flow_time_next_packet q g.
Proof. unfold flow_time_next_packet. by intros ->. Qed.

(** The flow table does not change when a flow of the heap is
    rewritten. *)
Lemma fq_root_wf_rewrite q q' h fl fl' :
  fq_root_wf q →
  get_flow q h = Some fl →
  (∀ g, get_flow q' g = get_flow (set_flow h fl' q) g) →
  fq_root q' = fq_root q → fq_trees_log q' = fq_trees_log q →
  sk fl' = sk fl →
  fq_root_wf q'.
Proof.
  intros (roots & Hroots & Hbst & Hfiled & Hsk) Hget Hq' Hr Hlog Hsk'. exists roots.
  rewrite Hr, Hlog. split_and!; [done..| |].
  - intros k Hk. apply Hfiled. destruct (decide (FLOW k = h)) as [<-|Hne].
    + by rewrite Hget.
    + by rewrite Hq', get_set_flow_ne in Hk.
  - intros k gl. rewrite Hq'. destruct (decide (FLOW k = h)) as [<-|Hne].
    + rewrite get_set_flow_eq. intros [= <-]. rewrite Hsk'. by apply Hsk.
    + rewrite get_set_flow_ne by done. apply Hsk.
Qed.

(** The step every operation on the links is an instance of: the flow
    [h] is written and may change its place; the other flows keep
    theirs. *)
Lemma links_wf_step q q' h fl' :
  links_wf q →
  (∀ g, get_flow q' g = get_flow (set_flow h fl' q) g) →
  fq_root_wf q' →
  (∀ g, g ≠ h → g ∈ linked q' → g ∈ linked q) →
  (∀ g, g ≠ h → (g ∈ rb_inorder (delayed q') ↔ g ∈ rb_inorder (delayed q))) →
  NoDup (linked q') →
  StronglySorted (λ a b, flow_time_next_packet q' a <= flow_time_next_packet q' b)
    (rb_inorder (delayed q')) →
  (h ∈ linked q' → h ≠ INTERNAL ∧ marco_fq_flow_is_detached fl' = false) →
  (next_is_throttled fl' = true ↔ h ∈ rb_inorder (delayed q')) →
  - 2 ^ 31 <= credit fl' < 2 ^ 31 →
  (marco_fq_flow_is_detached fl' = true → head fl' = [] ∧ h ≠ INTERNAL) →
  links_wf q'.
Proof.
  intros [Hl Hnd Hth Hfl Hso Hroot] Hq' Hr Hkeep Hidx Hnd' Hso' Hl' Hth' Hc' Hd'.
  assert (get_flow q' h = Some fl') as Hh by (by rewrite Hq', get_set_flow_eq).
  assert (∀ g, g ≠ h → get_flow q' g = get_flow q g) as Hother.
  { intros g Hg. by rewrite Hq', get_set_flow_ne. }
  split; try done.
  - intros g Hg. destruct (decide (g = h)) as [->|Hne].
    + destruct (Hl' Hg). split; [done|]. by exists fl'.
    + rewrite Hother by done. by apply Hl, Hkeep.
  - intros g gl. destruct (decide (g = h)) as [->|Hne].
    + rewrite Hh. by intros [= <-].
    + rewrite Hother, Hidx by done. apply Hth.
  - intros g gl. destruct (decide (g = h)) as [->|Hne].
    + rewrite Hh. by intros [= <-].
    + rewrite Hother by done. apply Hfl.
Qed.

(** Nothing of the links changes. *)
Lemma links_wf_ext q q' :
  links_wf q →
  (∀ g, get_flow q' g = get_flow q g) →
  new_flows q' = new_flows q → old_flows q' = old_flows q → delayed q' = delayed q →
  fq_root q' = fq_root q → fq_trees_log q' = fq_trees_log q →
  links_wf q'.
Proof.
  intros Hwf Hg Hn Ho Hd Hr Hlog.
  assert (linked q' = linked q) as Hlk by (unfold linked; by rewrite Hn, Ho, Hd).
  destruct Hwf as [Hl Hnd Hth Hfl Hso Hroot]. split.
  - intros f. rewrite Hlk, Hg. apply Hl.
  - by rewrite Hlk.
  - intros f fl. rewrite Hg, Hd. apply Hth.
  - intros f fl. rewrite Hg. apply Hfl.
  - rewrite Hd. eapply StronglySorted_mono; [|done].
    intros a b. by rewrite !(flow_time_next_packet_ext q q') by done.
  - destruct Hroot as (roots & Hroots & Hbst & Hfiled & Hsk). exists roots.
    rewrite Hr, Hlog. split_and!; [done..| |]; intros k.
    + rewrite Hg. apply Hfiled.
    + intros fl. rewrite Hg. apply Hsk.
Qed.

(** One flow is rewritten in its place. *)
Lemma links_wf_rewrite q q' h fl fl' :
  links_wf q →
  get_flow q h = Some fl →
  (∀ g, get_flow q' g = get_flow (set_flow h fl' q) g) →
  new_flows q' = new_flows q → old_flows q' = old_flows q → delayed q' = delayed q →
  fq_root q' = fq_root q → fq_trees_log q' = fq_trees_log q →
  (marco_fq_flow_is_detached fl' = true →
   marco_fq_flow_is_detached fl = true ∧ head fl' = []) →
  next_is_throttled fl' = next_is_throttled fl →
  - 2 ^ 31 <= credit fl' < 2 ^ 31 →
  (h ∈ rb_inorder (delayed q) → time_next_packet fl' = time_next_packet fl) →
  sk fl' = sk fl →
  links_wf q'.
Proof.
  intros Hwf Hget Hq' Hn Ho Hd Hr Hlog Hdet Hflag Hc Htnp Hsk.
  assert (linked q' = linked q) as Hlk by (unfold linked; by rewrite Hn, Ho, Hd).
  pose proof Hwf as [Hl Hnd Hth Hfl Hso Hroot].
  eapply (links_wf_step q q' h fl'); try done.
  - by eapply fq_root_wf_rewrite.
  - intros g _. by rewrite Hlk.
  - intros g _. by rewrite Hd.
  - by rewrite Hlk.
  - rewrite Hd. eapply StronglySorted_ext_in; [|done].
    intros a b Ha Hb. unfold flow_time_next_packet. rewrite !Hq'.
    destruct (decide (a = h)) as [->|Ha'], (decide (b = h)) as [->|Hb'];
      rewrite ?get_set_flow_eq, ?get_set_flow_ne, ?Hget by done; simpl;
      rewrite ?Htnp by done; done.
  - rewrite Hlk. intros Hh. destruct (Hl h Hh) as (Hi & fl0 & Hg0 & Hd0).
    split; [done|]. rewrite Hget in Hg0. injection Hg0 as <-.
    destruct (marco_fq_flow_is_detached fl') eqn:E; [|done].
    destruct (Hdet eq_refl). congruence.
  - rewrite Hflag, Hd. by apply Hth.
  - intros E. destruct (Hdet E) as [E1 E2]. split; [done|].
    by apply (Hfl h fl Hget).
Qed.
End links.

Section collect.
Implicit Types (q : marco_fq_sched_data) (sch : Qdisc) (f g h : flow_ref).

Lemma marco_fq_gc_walk_candidates heap jiffies sk0 t acc l :
  marco_fq_gc_walk heap jiffies sk0 t acc = Some l →
  ∀ k, k ∈ l →
    k ∈ acc ∨ ∃ fl, heap !! k = Some fl ∧ marco_fq_gc_candidate jiffies fl = true.
Proof.
  revert acc. induction t as [|tl IHl x tr IHr]; intros acc; simpl.
  - intros [= <-]. by left.
  - destruct (heap !! x) as [fl|] eqn:Hx; [|done]. cbn [mbind option_bind].
    destruct (x =? sk0); [intros [= <-]; by left|].
    destruct (marco_fq_gc_candidate jiffies fl) eqn:Hc.
    + assert (∀ k, k ∈ acc ++ [x] →
                k ∈ acc ∨ ∃ fl, heap !! k = Some fl ∧ marco_fq_gc_candidate jiffies fl = true)
        as Hacc.
      { intros k [?| ->%list_elem_of_singleton]%elem_of_app; [by left|right; by exists fl]. }
      destruct (_ =? FQ_GC_MAX); [intros [= <-]; exact Hacc|].
      destruct (x >? sk0); intros H k Hk;
        [destruct (IHr _ H k Hk); auto|destruct (IHl _ H k Hk); auto].
    + destruct (x >? sk0); [apply IHr|apply IHl].
Qed.

Lemma foldl_delete_lookup_Some (heap : gmap Z marco_fq_flow) (l : list Z) k v :
  foldl (λ m a, delete a m) heap l !! k = Some v ↔ (k ∉ l) ∧ heap !! k = Some v.
Proof.
  revert heap. induction l as [|a l IH]; intros heap; simpl.
  - split; [intros ?; split; [apply not_elem_of_nil|done]|by intros [_ ?]].
  - rewrite IH, lookup_delete_Some, not_elem_of_cons. naive_solver.
Qed.

Lemma foldl_rb_erase_sublist (root : rb_root Z) (l : list Z) :
  rb_inorder (foldl (λ t a, rb_erase (Z.eqb a) t) root l) `sublist_of` rb_inorder root.
Proof.
  revert root. induction l as [|a l IH]; intros root; simpl; [done|].
  etrans; [apply IH|]. rewrite rb_erase_inorder. apply remove_first_sublist.
Qed.

Lemma foldl_rb_erase_keeps (root : rb_root Z) (l : list Z) k :
  k ∉ l → k ∈ rb_inorder root →
  k ∈ rb_inorder (foldl (λ t a, rb_erase (Z.eqb a) t) root l).
Proof.
  revert root. induction l as [|a l IH]; intros root; simpl; [done|].
  intros [Ha Hl]%not_elem_of_cons Hk. apply IH; [done|].
  apply rb_erase_keeps; [done|]. apply Z.eqb_neq. congruence.
Qed.

(** [marco_fq_gc] frees detached flows only: the links stay in order. *)
Lemma marco_fq_gc_wf jiffies idx sk0 q q' :
  links_wf q → marco_fq_gc jiffies idx sk0 q = Some q' →
  links_wf q' ∧
  time_next_delayed_flow q' = time_next_delayed_flow q ∧
  fq_trees_log q' = fq_trees_log q ∧
  (∀ g, g ∈ linked q → get_flow q' g = get_flow q g).
Proof.
  intros Hwf H. pose proof (marco_fq_gc_lists _ _ _ _ _ H) as (Hn & Ho & Hd).
  assert (linked q' = linked q) as Hlk by (unfold linked; by rewrite Hn, Ho, Hd).
  unfold marco_fq_gc in H.
  destruct (get_root q idx) as [root|] eqn:Hroot; cbn [mbind option_bind] in H; [|done].
  destruct (marco_fq_gc_walk _ _ _ _ _) as [tofree|] eqn:Hwalk;
    cbn [mbind option_bind] in H; [|done].
  destruct tofree as [|k0 tofree0] eqn:Etf; [by simplify_eq|]. rewrite <- Etf in *.
  clear Etf k0 tofree0. injection H as <-.
  pose proof (marco_fq_gc_walk_candidates _ _ _ _ _ _ Hwalk) as Hcand.
  destruct Hwf as [Hl Hnd Hth Hfl Hso Hfq].
  assert (∀ g fl, get_flow q g = Some fl → marco_fq_flow_is_detached fl = false →
                  ∀ k, g = FLOW k → k ∉ tofree) as Hkeep.
  { intros g fl Hg Hdet k -> Hk. destruct (Hcand k Hk) as [[]%elem_of_nil|(fl0 & H0 & Hc)].
    simpl in Hg. rewrite Hg in H0. injection H0 as <-.
    unfold marco_fq_gc_candidate in Hc. by rewrite Hdet in Hc. }
  set (q' := set_flow_heap _ _).
  assert (∀ g fl, get_flow q' g = Some fl ↔
                  get_flow q g = Some fl ∧ ∀ k, g = FLOW k → k ∉ tofree) as Hget.
  { intros [|k] fl; unfold q', set_root; fq_simpl; simpl.
    - split; [intros ?; split; [done|by intros ?]|by intros [? _]].
    - rewrite foldl_delete_lookup_Some. split.
      + intros [? ?]. split; [done|]. by intros ? [= <-].
      + intros [? Hk]. split; [by apply Hk|done]. }
  assert (∀ g, g ∈ linked q → get_flow q' g = get_flow q g) as Hsame.
  { intros g Hg. destruct (Hl g Hg) as (_ & fl & Hgf & Hdet). rewrite Hgf.
    apply Hget. split; [done|]. by apply (Hkeep g fl). }
  split; [|split_and!; [done..|exact Hsame]]. split.
  - intros f Hf. rewrite Hsame by done. by apply Hl.
  - done.
  - intros f fl [Hf _]%Hget. unfold q', set_root. fq_simpl. by apply Hth.
  - intros f fl [Hf _]%Hget. by apply Hfl.
  - replace (delayed q') with (delayed q) by (unfold q', set_root; by fq_simpl).
    eapply StronglySorted_ext_in; [|done]. intros a b Ha Hb.
    rewrite !(flow_time_next_packet_ext q q') by (apply Hsame; unfold linked; set_solver).
    done.
  - destruct Hfq as (roots & Hroots & Hbst & Hfiled & Hsk).
    unfold get_root in Hroot. rewrite Hroots in Hroot. simpl in Hroot.
    eexists. split; [unfold q', set_root; fq_simpl; rewrite Hroots; reflexivity|].
    split; [|split; [|intros k fl [Hk _]%Hget; by apply Hsk]].
    + intros i r. destruct (decide (i = idx)) as [->|Hne].
      * rewrite list_lookup_insert_eq by (by eapply lookup_lt_Some).
        intros [= <-]. eapply StronglySorted_sublist; [apply foldl_rb_erase_sublist|].
        by eapply Hbst.
      * rewrite list_lookup_insert_ne by done. apply Hbst.
    + intros k [fl Hk]. apply Hget in Hk as [Hk Hnot].
      destruct (Hfiled k) as (r & Hr & Hin); [by eexists|].
      replace (fq_trees_log q') with (fq_trees_log q) by (unfold q', set_root; by fq_simpl).
      destruct (decide (Z.to_nat (hash_ptr k (fq_trees_log q)) = idx)) as [E|Hne].
      * rewrite E in *. rewrite Hroot in Hr. injection Hr as <-.
        eexists. rewrite list_lookup_insert_eq by (by eapply lookup_lt_Some).
        split; [done|]. apply foldl_rb_erase_keeps; [|done].
        rewrite elem_of_reverse. by apply Hnot.
      * exists r. by rewrite list_lookup_insert_ne.
Qed.
End collect.

Section classify.
Implicit Types (q : marco_fq_sched_data) (sch : Qdisc) (f g h : flow_ref).

Lemma remove_first_flow_perm h (l : list flow_ref) :
  h ∈ l → l ≡ₚ h :: remove_first (flow_ref_eqb h) l.
Proof.
  intros Hh. apply remove_first_perm; [done|apply flow_ref_eqb_refl|].
  intros y _ Hy. symmetry. by apply flow_ref_eqb_eq.
Qed.

Lemma remove_first_flow_elem_of h g (l : list flow_ref) :
  g ≠ h → g ∈ remove_first (flow_ref_eqb h) l ↔ g ∈ l.
Proof.
  intros Hne. induction l as [|y l IH]; simpl; [done|].
  destruct (flow_ref_eqb h y) eqn:E.
  - apply flow_ref_eqb_eq in E as <-. set_solver.
  - set_solver.
Qed.

(** Taking the flow [h] out of the deferral index and putting it on the
    old-list, as [marco_fq_flow_unset_throttled] does. *)
Lemma links_wf_unthrottle q q' h fl fl' :
  links_wf q →
  get_flow q h = Some fl →
  h ∈ rb_inorder (delayed q) →
  (∀ g, get_flow q' g = get_flow (set_flow h fl' q) g) →
  fq_root q' = fq_root q → fq_trees_log q' = fq_trees_log q →
  new_flows q' = new_flows q →
  old_flows q' = old_flows q ++ [h] →
  delayed q' = rb_erase (flow_ref_eqb h) (delayed q) →
  marco_fq_flow_is_detached fl' = marco_fq_flow_is_detached fl →
  next_is_throttled fl' = false →
  - 2 ^ 31 <= credit fl' < 2 ^ 31 →
  sk fl' = sk fl →
  links_wf q' ∧
  (∀ g, g ∈ rb_inorder (delayed q') →
        g ∈ rb_inorder (delayed q) ∧
        flow_time_next_packet q' g = flow_time_next_packet q g).
Proof.
  intros Hwf Hget Hh Hq' Hr Hlog Hn Ho Hd Hdet Hflag Hc Hsk.
  pose proof Hwf as [Hl Hnd Hth Hfl Hso Hroot].
  assert (linked q ≡ₚ linked q') as Hperm.
  { unfold linked. rewrite Hn, Ho, Hd, rb_erase_inorder.
    rewrite (remove_first_flow_perm h (rb_inorder (delayed q))) at 1 by done.
    solve_Permutation. }
  assert (NoDup (linked q')) as Hnd' by (by rewrite <- Hperm).
  assert (h ∉ rb_inorder (delayed q')) as Hh'.
  { intros Hin. unfold linked in Hnd'. rewrite Ho in Hnd'.
    apply NoDup_app in Hnd' as (_ & _ & Hnd').
    apply NoDup_app in Hnd' as (_ & Hnd' & _). apply (Hnd' h); [set_solver|done]. }
  assert (∀ g, g ∈ rb_inorder (delayed q') →
            g ∈ rb_inorder (delayed q) ∧
            flow_time_next_packet q' g = flow_time_next_packet q g) as Hidx.
  { intros g Hg. assert (g ≠ h) by congruence. split.
    - rewrite Hd, rb_erase_inorder in Hg. by apply remove_first_flow_elem_of in Hg.
    - apply flow_time_next_packet_ext. by rewrite Hq', get_set_flow_ne. }
  split; [|done].
  destruct (Hl h) as (Hint & fl0 & Hg0 & Hd0); [unfold linked; set_solver|].
  rewrite Hget in Hg0. injection Hg0 as <-.
  eapply (links_wf_step q q' h fl'); try done.
  - by eapply fq_root_wf_rewrite.
  - intros g Hne. rewrite <- Hperm. done.
  - intros g Hne. rewrite Hd, rb_erase_inorder. by apply remove_first_flow_elem_of.
  - eapply StronglySorted_ext_in.
    2:{ eapply StronglySorted_sublist; [|exact Hso].
        rewrite Hd, rb_erase_inorder. apply remove_first_sublist. }
    intros a b Ha Hb. simpl.
    destruct (Hidx a Ha) as [_ ->], (Hidx b Hb) as [_ ->]. done.
  - intros _. split; [done|]. by rewrite Hdet.
  - rewrite Hflag. split; [done|]. by intros ?.
  - rewrite Hdet, Hd0. done.
Qed.

Lemma sched_wf_ext q q' :
  sched_wf q →
  (∀ g, get_flow q' g = get_flow q g) →
  new_flows q' = new_flows q → old_flows q' = old_flows q → delayed q' = delayed q →
  fq_root q' = fq_root q → fq_trees_log q' = fq_trees_log q →
  time_next_delayed_flow q' = time_next_delayed_flow q →
  sched_wf q'.
Proof.
  intros [Hwf Hmin] Hg Hn Ho Hd Hr Hlog Ht. split; [by eapply links_wf_ext|].
  intros f. rewrite Hd, Ht, (flow_time_next_packet_ext q q') by done. apply Hmin.
Qed.

(** [marco_fq_classify] keeps the links in order, and returns a flow
    that is linked unless it is detached. *)
Lemma marco_fq_classify_wf jiffies alloc_ok skb q f skb' q' :
  sched_wf q →
  marco_fq_classify jiffies alloc_ok skb q = Some (f, skb', q') →
  sched_wf q'.
Proof.
  unfold marco_fq_classify. intros Hwf H.
  destruct (Z.land (priority skb) TC_PRIO_MAX =? TC_PRIO_CONTROL); [by simplify_eq|].
  match type of H with
  | (let '(_, _) := ?p in _) = _ => destruct p as [sk0 skb0]
  end.
  match type of H with
  | (?c ≫= _) = _ => destruct c as [q1|] eqn:Hgc; [|done]
  end.
  assert (sched_wf q1 ∧ fq_trees_log q = fq_trees_log q1) as [[Hwf1 Hmin1] Hlog1].
  { match type of Hgc with
    | (if ?c then _ else _) = _ => destruct c
    end; [|by simplify_eq].
    destruct Hwf as [Hwf Hmin].
    destruct (marco_fq_gc_wf _ _ _ _ _ Hwf Hgc) as (Hw & Ht & Hlog & Hsame).
    destruct (marco_fq_gc_lists _ _ _ _ _ Hgc) as (_ & _ & Hd).
    split; [|done]. split; [done|]. intros g. rewrite Hd, Ht. intros Hg.
    rewrite (flow_time_next_packet_ext q q1) by (apply Hsame; unfold linked; set_solver).
    by apply Hmin. }
  cbn [mbind option_bind] in H. rewrite Hlog1 in H. clear Hgc Hwf Hlog1.
  destruct (get_root q1 _) as [root|] eqn:Hroot; [|done]. cbn [mbind option_bind] in H.
  pose proof Hwf1 as [Hl Hnd Hth Hfl Hso Hfq].
  destruct (fq_root_lookup sk0 root) eqn:Hlook.
  - destruct (get_flow q1 (FLOW sk0)) as [fl|] eqn:Hget; [|done].
    cbn [mbind option_bind] in H.
    destruct (skb_sk_is skb0 sk0) as [s|]; [|by simplify_eq].
    destruct (negb (socket_hash fl =? sk_hash s)); [|by simplify_eq].
    unfold marco_fq_flow_is_throttled in H. fq_proj_in H.
    destruct (next_is_throttled fl) eqn:Hflag.
    + erewrite marco_fq_flow_unset_throttled_eq in H by apply get_set_flow_eq.
      cbn [mbind option_bind] in H. rewrite get_set_flow_eq in H.
      cbn [mbind option_bind] in H. simplify_eq.
      assert (FLOW sk0 ∈ rb_inorder (delayed q1)) as Hin by (by apply (Hth _ fl)).
      match goal with
      | |- sched_wf ?q2 =>
          destruct (links_wf_unthrottle q1 q2 (FLOW sk0) fl
                      (set_time_next_packet 0
                         (set_next_is_throttled false
                            (set_socket_hash (sk_hash s)
                               (set_credit (s32 (initial_quantum q1)) fl)))))
            as [Hw Hidx];
            [first [ done | flow_reads (FLOW sk0) | by fq_simpl
                   | fq_proj; apply s32_range ]..|]
      end.
      split; [done|]. intros g Hg. destruct (Hidx g Hg) as [Hg1 ->].
      fq_simpl. by apply Hmin1.
    + cbn [mbind option_bind] in H. rewrite get_set_flow_eq in H.
      cbn [mbind option_bind] in H. simplify_eq.
      assert (FLOW sk0 ∉ rb_inorder (delayed q1)) as Hout.
      { intros Hin. apply (Hth _ fl Hget) in Hin. congruence. }
      split.
      * eapply (links_wf_rewrite q1 _ (FLOW sk0) fl);
          [exact Hwf1|exact Hget|flow_reads (FLOW sk0)|by fq_simpl..| |by fq_simpl
          |fq_proj; apply s32_range|by intros ?|done].
        unfold marco_fq_flow_is_detached. fq_proj. intros E. split; [done|].
        by apply (Hfl _ fl Hget).
      * intros g. fq_simpl. intros Hg.
        rewrite (flow_time_next_packet_ext q1); [by apply Hmin1|].
        rewrite get_set_flow_ne by congruence. by rewrite get_set_flow_ne by congruence.
  - assert (get_flow q1 (FLOW sk0) = None) as Hnone.
    { destruct (get_flow q1 (FLOW sk0)) as [fl|] eqn:Hget; [|done]. exfalso.
      destruct Hfq as (roots & Hroots & Hbst & Hfiled & _).
      destruct (Hfiled sk0) as (r & Hr & Hin); [by eexists|].
      unfold get_root in Hroot. rewrite Hroots in Hroot. simpl in Hroot.
      rewrite Hroot in Hr. injection Hr as <-.
      apply fq_root_lookup_elem_of in Hin; [congruence|by eapply Hbst]. }
    destruct (negb alloc_ok).
    { simplify_eq. eapply sched_wf_ext; [done|intros g; by fq_simpl|done..]. }
    simplify_eq.
    assert (FLOW sk0 ∉ linked q1) as Hout.
    { intros Hin. destruct (Hl _ Hin) as (_ & fl & Hg & _). congruence. }
    match goal with
    | |- sched_wf ?q2 => set (q' := q2)
    end.
    assert (∀ g, g ≠ FLOW sk0 → get_flow q' g = get_flow q1 g) as Hother.
    { intros g Hg. unfold q', set_root. fq_simpl. by rewrite get_set_flow_ne. }
    split.
    + eapply (links_wf_step q1 q' (FLOW sk0)); [exact Hwf1|..].
      * unfold q', set_root. flow_reads (FLOW sk0).
      * destruct Hfq as (roots & Hroots & Hbst & Hfiled & Hsk).
        unfold get_root in Hroot. rewrite Hroots in Hroot. simpl in Hroot.
        eexists. split; [unfold q', set_root; fq_simpl; rewrite Hroots; reflexivity|].
        replace (fq_trees_log q') with (fq_trees_log q1)
          by (unfold q', set_root; by fq_simpl).
        split; [|split].
        -- intros i r. destruct (decide (i = Z.to_nat (hash_ptr sk0 (fq_trees_log q1))))
             as [->|Hne].
           ++ rewrite list_lookup_insert_eq by (by eapply lookup_lt_Some).
              intros [= <-]. apply rb_link_sorted.
              ** intros a b c. lia.
              ** intros y Hy. apply Z.gtb_gt in Hy. lia.
              ** intros y Hy. destruct (Z.gtb_spec y sk0); [done|lia].
              ** by eapply Hbst.
           ++ rewrite list_lookup_insert_ne by done. apply Hbst.
        -- intros k Hk. destruct (decide (k = sk0)) as [->|Hne].
           ++ eexists. rewrite list_lookup_insert_eq by (by eapply lookup_lt_Some).
              split; [done|]. apply rb_link_elem_of. by left.
           ++ rewrite Hother in Hk by congruence.
              destruct (Hfiled k Hk) as (r & Hr & Hin).
              destruct (decide (Z.to_nat (hash_ptr k (fq_trees_log q1))
                                = Z.to_nat (hash_ptr sk0 (fq_trees_log q1)))) as [E|Hd].
              ** rewrite E in *. rewrite Hroot in Hr. injection Hr as <-.
                 eexists. rewrite list_lookup_insert_eq by (by eapply lookup_lt_Some).
                 split; [done|]. apply rb_link_elem_of. by right.
              ** exists r. by rewrite list_lookup_insert_ne.
        -- intros k gl. destruct (decide (k = sk0)) as [->|Hne].
           ++ unfold q', set_root. fq_simpl. rewrite ?get_set_flow_eq.
              intros [= <-]. by destruct (skb_sk_is skb' sk0).
           ++ rewrite Hother by congruence. apply Hsk.
      * intros g _. unfold q', set_root, linked. by fq_simpl.
      * intros g _. unfold q', set_root. by fq_simpl.
      * unfold q', set_root, linked. by fq_simpl.
      * replace (delayed q') with (delayed q1) by (unfold q', set_root; by fq_simpl).
        eapply StronglySorted_ext_in; [|done]. intros a b Ha Hb.
        rewrite !(flow_time_next_packet_ext q1 q'); [done|apply Hother..];
          intros ->; apply Hout; unfold linked; set_solver.
      * intros Hin. exfalso. apply Hout. revert Hin. unfold q', set_root, linked.
        by fq_simpl.
      * destruct (skb_sk_is skb' sk0); fq_proj; unfold q', set_root; fq_simpl;
          (split; [done|]); intros Hin; exfalso; apply Hout; unfold linked; set_solver.
      * destruct (skb_sk_is skb' sk0); fq_proj; apply s32_range.
      * intros _. by destruct (skb_sk_is skb' sk0).
    + intros g. unfold q', set_root. fq_simpl. intros Hg.
      rewrite (flow_time_next_packet_ext q1); [by apply Hmin1|].
      fold q'. apply Hother. intros ->. apply Hout. unfold linked. set_solver.
Qed.
End classify.

Section enqueue.
Implicit Types (q : marco_fq_sched_data) (sch : Qdisc) (f g h : flow_ref).

Lemma marco_flow_queue_add_attached fl skb :
  marco_fq_flow_is_detached (marco_flow_queue_add fl skb) = true →
  marco_fq_flow_is_detached fl = true ∧ head fl ≠ [].
Proof.
  unfold marco_flow_queue_add. destruct (last (head fl)) as [tl|] eqn:El.
  - assert (head fl ≠ []) by (intros E; by rewrite E in El).
    by destruct (_ <=? _).
  - done.
Qed.

Lemma next_is_throttled_marco_flow_queue_add fl skb :
  next_is_throttled (marco_flow_queue_add fl skb) = next_is_throttled fl.
Proof.
  unfold marco_flow_queue_add. destruct (last (head fl)); [|done].
  by destruct (_ <=? _).
Qed.

Lemma sk_marco_flow_queue_add fl skb :
  sk (marco_flow_queue_add fl skb) = sk fl.
Proof.
  unfold marco_flow_queue_add. destruct (last (head fl)); [|done].
  by destruct (_ <=? _).
Qed.

Lemma time_next_packet_marco_flow_queue_add fl skb :
  time_next_packet (marco_flow_queue_add fl skb) = time_next_packet fl.
Proof.
  unfold marco_flow_queue_add. destruct (last (head fl)); [|done].
  by destruct (_ <=? _).
Qed.

Lemma sched_wf_min_keep q q' :
  sched_wf q → links_wf q' →
  delayed q' = delayed q →
  time_next_delayed_flow q' = time_next_delayed_flow q →
  (∀ g, g ∈ rb_inorder (delayed q) →
        flow_time_next_packet q' g = flow_time_next_packet q g) →
  sched_wf q'.
Proof.
  intros [_ Hmin] Hw Hd Ht Htnp. split; [done|].
  intros g. rewrite Hd, Ht. intros Hg. rewrite Htnp by done. by apply Hmin.
Qed.

Lemma marco_fq_enqueue_flow_wf jiffies flow_alloc_ok ip_alloc_ok skb sch ret free sch' :
  sched_wf (priv sch) →
  marco_fq_enqueue_flow jiffies flow_alloc_ok ip_alloc_ok skb sch = Some (ret, free, sch') →
  ret ≠ ENOMEM →
  sched_wf (priv sch').
Proof.
  unfold marco_fq_enqueue_flow. intros Hwf0 H Hret.
  destruct (marco_fq_classify _ _ _ _) as [[[f skb1] q]|] eqn:Hcl; [|done].
  cbn [mbind option_bind] in H.
  pose proof (marco_fq_classify_wf _ _ _ _ _ _ _ Hwf0 Hcl) as Hwf. clear Hwf0 Hcl.
  destruct (get_flow q f) as [fl|] eqn:Hget; [|done]. cbn [mbind option_bind] in H.
  destruct (_ && _).
  { unfold qdisc_drop in H. simplify_eq. fq_proj.
    eapply sched_wf_ext; [done|intros g; by fq_simpl|done..]. }
  pose proof Hwf as [[Hl Hnd Hth Hfl Hso Hfq] Hmin].
  destruct (marco_fq_flow_is_detached fl) eqn:Hdet.
  - destruct (Hfl _ _ Hget) as [Hc Hd]. destruct (Hd Hdet) as [Hhead Hint].
    assert (f ∉ linked q) as Hout.
    { intros Hin. destruct (Hl _ Hin) as (_ & fl0 & Hg0 & Hd0). congruence. }
    assert (f ∉ rb_inorder (delayed q)) as Hidx by (unfold linked in Hout; set_solver).
    assert (next_is_throttled fl = false) as Hflag.
    { destruct (next_is_throttled fl) eqn:E; [|done]. by apply (Hth _ _ Hget) in E. }
    erewrite marco_fq_flow_add_tail_eq in H by (rewrite get_set_flow_eq; done).
    cbn [mbind option_bind] in H. rewrite get_set_flow_eq in H.
    cbn [mbind option_bind] in H. fq_proj_in H.
    match type of H with
    | context [match ?c with Some _ => _ | None => _ end] =>
        destruct c as [tbl|] eqn:Hcount; [|by simplify_eq]
    end.
    rewrite get_flow_set_inactive_flows, get_set_flow_eq in H.
    cbn [mbind option_bind] in H. injection H as <- <- <-. fq_proj.
    match goal with
    | |- context [marco_flow_queue_add ?x skb1] => set (fl3 := x)
    end.
    assert (head fl3 = [] ∧ next_is_throttled fl3 = false ∧
            - 2 ^ 31 <= credit fl3 < 2 ^ 31 ∧ sk fl3 = sk fl) as (Hh3 & Hf3 & Hc3 & Hsk3).
    { unfold fl3. destruct (time_after _ _); fq_proj; split_and!;
        first [done | apply s32_range | lia]. }
    match goal with
    | |- sched_wf ?q0 => set (q' := q0)
    end.
    assert (∀ g, get_flow q' g = get_flow (set_flow f (marco_flow_queue_add fl3 skb1) q) g)
      as Hq'.
    { unfold q'. destruct (flow_ref_eqb f INTERNAL); flow_reads f. }
    assert (new_flows q' = new_flows q ++ [f] ∧ old_flows q' = old_flows q ∧
            delayed q' = delayed q ∧ fq_root q' = fq_root q ∧
            fq_trees_log q' = fq_trees_log q ∧
            time_next_delayed_flow q' = time_next_delayed_flow q)
      as (Hn' & Ho' & Hd' & Hr' & Hlog' & Ht').
    { unfold q'. destruct (flow_ref_eqb f INTERNAL); fq_simpl; done. }
    assert (linked q' ≡ₚ f :: linked q) as Hperm.
    { unfold linked. rewrite Hn', Ho', Hd'. solve_Permutation. }
    eapply sched_wf_min_keep; [exact Hwf| |done..|].
    + eapply (links_wf_step q q' f); [done|exact Hq'|..].
      * eapply fq_root_wf_rewrite; [done..|].
        by rewrite sk_marco_flow_queue_add.
      * intros g Hne. rewrite Hperm. set_solver.
      * intros g _. by rewrite Hd'.
      * rewrite Hperm. by constructor.
      * rewrite Hd'. eapply StronglySorted_ext_in; [|done]. intros a b Ha Hb.
        rewrite !(flow_time_next_packet_ext q q'); [done|..];
          rewrite Hq', get_set_flow_ne; set_solver.
      * intros _. split; [done|].
        destruct (marco_fq_flow_is_detached (marco_flow_queue_add fl3 skb1)) eqn:E;
          [|done].
        by apply marco_flow_queue_add_attached in E as [_ ?].
      * rewrite next_is_throttled_marco_flow_queue_add, Hf3, Hd'. split; [done|].
        by intros ?.
      * by rewrite credit_marco_flow_queue_add.
      * intros E. by apply marco_flow_queue_add_attached in E as [_ ?].
    + intros g Hg. apply flow_time_next_packet_ext.
      rewrite Hq', get_set_flow_ne; [done|]. set_solver.
  - cbn [mbind option_bind] in H. fq_proj_in H.
    match type of H with
    | context [match ?c with Some _ => _ | None => _ end] =>
        destruct c as [tbl|] eqn:Hcount; [|by simplify_eq]
    end.
    rewrite get_set_flow_eq in H. cbn [mbind option_bind] in H.
    injection H as <- <- <-. fq_proj.
    match goal with
    | |- sched_wf ?q0 => set (q' := q0)
    end.
    assert (∀ g, get_flow q' g
                 = get_flow (set_flow f (marco_flow_queue_add
                                           (set_qlen (s32 (qlen fl + 1)) fl) skb1) q) g)
      as Hq'.
    { unfold q'. destruct (flow_ref_eqb f INTERNAL); flow_reads f. }
    assert (new_flows q' = new_flows q ∧ old_flows q' = old_flows q ∧
            delayed q' = delayed q ∧ fq_root q' = fq_root q ∧
            fq_trees_log q' = fq_trees_log q ∧
            time_next_delayed_flow q' = time_next_delayed_flow q)
      as (Hn' & Ho' & Hd' & Hr' & Hlog' & Ht').
    { unfold q'. destruct (flow_ref_eqb f INTERNAL); fq_simpl; done. }
    eapply sched_wf_min_keep; [exact Hwf| |done..|].
    + eapply (links_wf_rewrite q q' f fl); [done|done|exact Hq'|done..| | | | |].
      5: by rewrite sk_marco_flow_queue_add.
      * intros E. apply marco_flow_queue_add_attached in E as [E _].
        unfold marco_fq_flow_is_detached in E, Hdet. fq_proj_in E. congruence.
      * by rewrite next_is_throttled_marco_flow_queue_add.
      * rewrite credit_marco_flow_queue_add. fq_proj. by apply (Hfl _ _ Hget).
      * intros _. by rewrite time_next_packet_marco_flow_queue_add.
    + intros g Hg. unfold flow_time_next_packet. rewrite Hq'.
      destruct (decide (g = f)) as [->|].
      * rewrite get_set_flow_eq, Hget. simpl.
        by rewrite time_next_packet_marco_flow_queue_add.
      * by rewrite get_set_flow_ne.
Qed.

Lemma marco_fq_enqueue_wf now jiffies flow_alloc_ok ip_alloc_ok skb sch ret free sch' :
  sched_wf (priv sch) →
  marco_fq_enqueue now jiffies flow_alloc_ok ip_alloc_ok skb sch = Some (ret, free, sch') →
  ret ≠ ENOMEM →
  sched_wf (priv sch').
Proof.
  unfold marco_fq_enqueue. intros Hwf H Hret.
  assert (∀ q1, (∀ g, get_flow q1 g = get_flow (priv sch) g) →
                new_flows q1 = new_flows (priv sch) → old_flows q1 = old_flows (priv sch) →
                delayed q1 = delayed (priv sch) → fq_root q1 = fq_root (priv sch) →
                fq_trees_log q1 = fq_trees_log (priv sch) →
                time_next_delayed_flow q1 = time_next_delayed_flow (priv sch) →
                ∀ skb1, marco_fq_enqueue_flow jiffies flow_alloc_ok ip_alloc_ok skb1
                          (set_priv q1 sch) = Some (ret, free, sch') →
                sched_wf (priv sch')) as Hgo.
  { intros q1 ? ? ? ? ? ? ? skb1 Hrun.
    eapply marco_fq_enqueue_flow_wf; [|exact Hrun|done]. fq_proj.
    by eapply sched_wf_ext. }
  destruct (limit sch <=? q_qlen sch).
  { unfold qdisc_drop in H. by simplify_eq. }
  destruct (tstamp skb =? 0).
  { eapply Hgo; [..|exact H]; first [done | by intros g; fq_simpl]. }
  destruct (marco_fq_packet_beyond_horizon skb (priv sch)).
  - destruct (marco_fq_packet_beyond_horizon skb _).
    + destruct (negb _).
      * unfold qdisc_drop in H. simplify_eq. fq_proj.
        eapply sched_wf_ext; [done|intros g; by fq_simpl|done..].
      * eapply Hgo; [..|exact H]; first [done | by intros g; fq_simpl].
    + eapply Hgo; [..|exact H]; first [done | by intros g; fq_simpl].
  - eapply marco_fq_enqueue_flow_wf; [|exact H|done]. done.
Qed.
End enqueue.

Section dequeue.
Implicit Types (q : marco_fq_sched_data) (sch : Qdisc) (f g h : flow_ref).

(** The lists with the head of the selected one taken off. *)
Lemma selected_head_split q h l :
  head_first (selected_head q) q = h :: l →
  new_flows q ++ old_flows q
  = h :: new_flows (set_head_first (selected_head q) l q)
      ++ old_flows (set_head_first (selected_head q) l q).
Proof.
  intros H. destruct (selected_head_cases _ _ _ H) as [[-> E]|(-> & E1 & E2)]; simpl.
  - by rewrite E.
  - by rewrite E1, E2.
Qed.

Lemma linked_head q h l :
  head_first (selected_head q) q = h :: l →
  linked q = h :: new_flows (set_head_first (selected_head q) l q)
               ++ old_flows (set_head_first (selected_head q) l q)
               ++ rb_inorder (delayed q).
Proof.
  intros H. unfold linked. rewrite app_assoc, (selected_head_split _ _ _ H).
  simpl. by rewrite <- app_assoc.
Qed.

Lemma marco_fq_check_throttled_loop_wf n now q q' :
  links_wf q →
  (length (rb_inorder (delayed q)) ≤ n)%nat →
  time_next_delayed_flow q = U64_MAX →
  marco_fq_check_throttled_loop n now q = Some q' →
  sched_wf q' ∧ deferral_armed now q'.
Proof.
  revert q. induction n as [|n IH]; intros q Hwf Hn Ht H.
  - simpl in H. injection H as <-. apply Nat.le_0_r, nil_length_inv in Hn.
    split; [split; [done|]|by right]. intros f. rewrite Hn. by intros ?%elem_of_nil.
  - simpl in H. pose proof (rb_inorder_first (delayed q)) as Hio.
    destruct (rb_first (delayed q)) as [f|] eqn:Ef.
    2:{ injection H as <-. split; [split; [done|]|by right].
        intros f. rewrite Hio. by intros ?%elem_of_nil. }
    assert (f ∈ rb_inorder (delayed q)) as Hf by (rewrite Hio; by left).
    destruct (get_flow q f) as [fl|] eqn:Hget; [|done]. cbn [mbind option_bind] in H.
    destruct (Z.ltb_spec now (time_next_packet fl)) as [Hlate|Hdue].
    + injection H as <-. split; [split|left; by fq_simpl].
      * eapply links_wf_ext; [done|intros g; by fq_simpl|done..].
      * intros g. fq_simpl. rewrite Hio. intros Hg.
        rewrite (flow_time_next_packet_ext q) by (by fq_simpl).
        rewrite <- (flow_time_next_packet_get _ _ _ Hget).
        destruct Hwf as [_ _ _ _ Hso _]. rewrite Hio in Hso.
        apply StronglySorted_cons in Hso as [Hso _]. rewrite Forall_forall in Hso.
        apply elem_of_cons in Hg as [->|Hg]; [lia|by apply Hso].
    + rewrite (marco_fq_flow_unset_throttled_eq _ _ _ Hget) in H.
      cbn [mbind option_bind] in H.
      match type of H with
      | marco_fq_check_throttled_loop _ _ ?q1 = _ =>
          destruct (links_wf_unthrottle q q1 f fl (set_next_is_throttled false fl))
            as [Hw1 _];
            [first [ done | flow_reads f | by fq_simpl
                   | fq_proj; by apply (wf_flow _ Hwf _ _ Hget) ]..|];
          apply (IH q1); [done| |by fq_simpl|done]
      end.
      fq_simpl. rewrite rb_erase_inorder.
      rewrite Hio in Hn |- *. simpl. rewrite flow_ref_eqb_refl. simpl in Hn. lia.
Qed.

Lemma marco_fq_check_throttled_wf now q q' :
  sched_wf q →
  marco_fq_check_throttled now q = Some q' →
  sched_wf q' ∧ deferral_armed now q'.
Proof.
  unfold marco_fq_check_throttled. intros Hwf H.
  destruct (Z.ltb_spec now (time_next_delayed_flow q)).
  - injection H as <-. split; [done|by left].
  - eapply marco_fq_check_throttled_loop_wf; [| | |exact H].
    + destruct Hwf as [Hwf _].
      eapply links_wf_ext; [done|intros g; by fq_simpl|done..].
    + fq_proj. by rewrite rb_size_inorder.
    + by fq_simpl.
Qed.
Lemma links_wf_head_flow q h l :
  links_wf q → head_first (selected_head q) q = h :: l →
  h ≠ INTERNAL ∧ (h ∉ rb_inorder (delayed q)) ∧
  (h ∉ new_flows (set_head_first (selected_head q) l q)
       ++ old_flows (set_head_first (selected_head q) l q)) ∧
  ∃ fl, get_flow q h = Some fl ∧ marco_fq_flow_is_detached fl = false ∧
        next_is_throttled fl = false ∧ - 2 ^ 31 <= credit fl < 2 ^ 31.
Proof.
  intros Hwf Hsel. pose proof (wf_nodup _ Hwf) as Hnd.
  rewrite (linked_head _ _ _ Hsel) in Hnd. apply NoDup_cons in Hnd as [Hh Hnd].
  destruct (wf_linked _ Hwf h) as (Hint & fl & Hget & Hdet).
  { rewrite (linked_head _ _ _ Hsel). by left. }
  split; [done|]. split; [set_solver|]. split; [set_solver|].
  exists fl. split; [done|]. split; [done|].
  split; [|by apply (wf_flow _ Hwf _ _ Hget)].
  destruct (next_is_throttled fl) eqn:E; [|done].
  apply (wf_throttled _ Hwf _ _ Hget) in E. set_solver.
Qed.

(** The head of the selected list goes to the tail of the old-list. *)
Lemma links_wf_rotate q q' h l fl fl' :
  links_wf q → head_first (selected_head q) q = h :: l →
  get_flow q h = Some fl →
  (∀ g, get_flow q' g = get_flow (set_flow h fl' q) g) →
  fq_root q' = fq_root q → fq_trees_log q' = fq_trees_log q →
  new_flows q' = new_flows (set_head_first (selected_head q) l q) →
  old_flows q' = old_flows (set_head_first (selected_head q) l q) ++ [h] →
  delayed q' = delayed q →
  marco_fq_flow_is_detached fl' = marco_fq_flow_is_detached fl →
  next_is_throttled fl' = false →
  - 2 ^ 31 <= credit fl' < 2 ^ 31 →
  sk fl' = sk fl →
  links_wf q' ∧
  ∀ g, g ∈ rb_inorder (delayed q) →
       flow_time_next_packet q' g = flow_time_next_packet q g.
Proof.
  intros Hwf Hsel Hget Hq' Hr Hlog Hn Ho Hd Hdet Hflag Hc Hsk.
  destruct (links_wf_head_flow _ _ _ Hwf Hsel)
    as (Hint & Hidx & Hrest & fl0 & Hg0 & Hd0 & Hf0 & Hc0).
  rewrite Hget in Hg0. injection Hg0 as <-.
  assert (linked q' ≡ₚ linked q) as Hperm.
  { rewrite (linked_head _ _ _ Hsel). unfold linked. rewrite Hn, Ho, Hd.
    solve_Permutation. }
  assert (∀ g, g ∈ rb_inorder (delayed q) →
            flow_time_next_packet q' g = flow_time_next_packet q g) as Htnp.
  { intros g Hg. apply flow_time_next_packet_ext.
    rewrite Hq', get_set_flow_ne; [done|]. congruence. }
  split; [|done].
  eapply (links_wf_step q q' h fl'); [done|done|..].
  - eapply fq_root_wf_rewrite; [apply Hwf|done..].
  - intros g _. by rewrite Hperm.
  - intros g _. by rewrite Hd.
  - rewrite Hperm. apply Hwf.
  - rewrite Hd. eapply StronglySorted_ext_in; [|apply Hwf].
    intros a b Ha Hb. simpl. by rewrite !Htnp.
  - intros _. split; [done|]. by rewrite Hdet.
  - rewrite Hflag, Hd. split; [done|]. by intros ?.
  - done.
  - rewrite Hdet, Hd0. done.
Qed.

(** The head of the selected list goes into the deferral index. *)
Lemma links_wf_throttle q q' h l fl fl' (right_of : flow_ref → bool) :
  links_wf q → head_first (selected_head q) q = h :: l →
  get_flow q h = Some fl →
  (∀ g, get_flow q' g = get_flow (set_flow h fl' q) g) →
  fq_root q' = fq_root q → fq_trees_log q' = fq_trees_log q →
  new_flows q' = new_flows (set_head_first (selected_head q) l q) →
  old_flows q' = old_flows (set_head_first (selected_head q) l q) →
  delayed q' = rb_link right_of h (delayed q) →
  (∀ y, right_of y = (flow_time_next_packet q' y <=? time_next_packet fl')) →
  marco_fq_flow_is_detached fl' = marco_fq_flow_is_detached fl →
  next_is_throttled fl' = true →
  - 2 ^ 31 <= credit fl' < 2 ^ 31 →
  sk fl' = sk fl →
  links_wf q' ∧
  ∀ g, g ∈ rb_inorder (delayed q) →
       flow_time_next_packet q' g = flow_time_next_packet q g.
Proof.
  intros Hwf Hsel Hget Hq' Hr Hlog Hn Ho Hd Hright Hdet Hflag Hc Hsk.
  destruct (links_wf_head_flow _ _ _ Hwf Hsel)
    as (Hint & Hidx & Hrest & fl0 & Hg0 & Hd0 & Hf0 & Hc0).
  rewrite Hget in Hg0. injection Hg0 as <-.
  assert (linked q' ≡ₚ linked q) as Hperm.
  { rewrite (linked_head _ _ _ Hsel). unfold linked.
    rewrite Hn, Ho, Hd, rb_link_inorder_perm. solve_Permutation. }
  assert (∀ g, g ∈ rb_inorder (delayed q) →
            flow_time_next_packet q' g = flow_time_next_packet q g) as Htnp.
  { intros g Hg. apply flow_time_next_packet_ext.
    rewrite Hq', get_set_flow_ne; [done|]. congruence. }
  assert (flow_time_next_packet q' h = time_next_packet fl') as Hh.
  { apply flow_time_next_packet_get. by rewrite Hq', get_set_flow_eq. }
  split; [|done].
  eapply (links_wf_step q q' h fl'); [done|done|..].
  - eapply fq_root_wf_rewrite; [apply Hwf|done..].
  - intros g _. by rewrite Hperm.
  - intros g Hne. rewrite Hd, rb_link_elem_of. naive_solver.
  - rewrite Hperm. apply Hwf.
  - rewrite Hd. apply rb_link_sorted.
    + intros a b c. lia.
    + intros y. rewrite Hright, Hh. intros Hy%Z.leb_le. done.
    + intros y. rewrite Hright, Hh. intros Hy%Z.leb_gt. lia.
    + eapply StronglySorted_ext_in; [|apply Hwf].
      intros a b Ha Hb. simpl. by rewrite !Htnp.
  - intros _. split; [done|]. by rewrite Hdet.
  - rewrite Hflag, Hd, rb_link_elem_of. naive_solver.
  - done.
  - rewrite Hdet, Hd0. done.
Qed.

(** The head of the selected list, an empty flow, is detached. *)
Lemma links_wf_detach q q' h l fl fl' :
  links_wf q → head_first (selected_head q) q = h :: l →
  get_flow q h = Some fl →
  (∀ g, get_flow q' g = get_flow (set_flow h fl' q) g) →
  fq_root q' = fq_root q → fq_trees_log q' = fq_trees_log q →
  new_flows q' = new_flows (set_head_first (selected_head q) l q) →
  old_flows q' = old_flows (set_head_first (selected_head q) l q) →
  delayed q' = delayed q →
  head fl' = [] →
  next_is_throttled fl' = next_is_throttled fl →
  - 2 ^ 31 <= credit fl' < 2 ^ 31 →
  sk fl' = sk fl →
  links_wf q' ∧
  ∀ g, g ∈ rb_inorder (delayed q) →
       flow_time_next_packet q' g = flow_time_next_packet q g.
Proof.
  intros Hwf Hsel Hget Hq' Hr Hlog Hn Ho Hd Hhead Hflag Hc Hsk.
  destruct (links_wf_head_flow _ _ _ Hwf Hsel)
    as (Hint & Hidx & Hrest & fl0 & Hg0 & Hd0 & Hf0 & Hc0).
  rewrite Hget in Hg0. injection Hg0 as <-.
  assert (linked q = h :: linked q') as Hlk.
  { rewrite (linked_head _ _ _ Hsel). unfold linked. by rewrite Hn, Ho, Hd. }
  pose proof (wf_nodup _ Hwf) as Hnd. rewrite Hlk in Hnd.
  apply NoDup_cons in Hnd as [Hout Hnd].
  assert (∀ g, g ∈ rb_inorder (delayed q) →
            flow_time_next_packet q' g = flow_time_next_packet q g) as Htnp.
  { intros g Hg. apply flow_time_next_packet_ext.
    rewrite Hq', get_set_flow_ne; [done|]. congruence. }
  split; [|done].
  eapply (links_wf_step q q' h fl'); [done|done|..].
  - eapply fq_root_wf_rewrite; [apply Hwf|done..].
  - intros g _. rewrite Hlk. by right.
  - intros g _. by rewrite Hd.
  - done.
  - rewrite Hd. eapply StronglySorted_ext_in; [|apply Hwf].
    intros a b Ha Hb. simpl. by rewrite !Htnp.
  - done.
  - rewrite Hflag, Hf0, Hd. split; [done|]. by intros ?.
  - done.
  - done.
Qed.
Lemma marco_fq_erase_head_fields fl skb :
  tail (marco_fq_erase_head fl skb) = tail fl ∧
  next_is_throttled (marco_fq_erase_head fl skb) = next_is_throttled fl ∧
  credit (marco_fq_erase_head fl skb) = credit fl ∧
  time_next_packet (marco_fq_erase_head fl skb) = time_next_packet fl ∧
  sk (marco_fq_erase_head fl skb) = sk fl.
Proof.
  unfold marco_fq_erase_head. destruct (head fl); [done|]. by destruct (skb_eqb _ _).
Qed.

(** A turn of the selection loop keeps the links in order. *)
Lemma marco_fq_dequeue_turn_wf now jiffies sch r :
  sched_wf (priv sch) → deferral_armed now (priv sch) →
  marco_fq_dequeue_turn now jiffies sch = Some r →
  sched_wf (turn_sched r) ∧ deferral_armed now (turn_sched r) ∧
  match r with
  | DEQUEUED h _ _ => h ∈ new_flows (turn_sched r) ++ old_flows (turn_sched r)
  | _ => True
  end.
Proof.
  intros [Hwf Hmin] Harm H. turn_inv H; unfold turn_sched.
  - (* nothing to send *)
    split; [|split; [|done]].
    + case_match; [|by split]. fq_proj.
      eapply sched_wf_ext; [by split|intros g; by fq_simpl|done..].
    + case_match; [|done]. by fq_proj.
  - (* credit refill *)
    destruct (links_wf_head_flow _ _ _ Hwf Heql) as (_ & _ & _ & fl0 & G0 & ? & ? & ?).
    rewrite Hget in G0. injection G0 as <-. fq_proj.
    match goal with
    | |- sched_wf ?q1 ∧ _ =>
        destruct (links_wf_rotate (priv sch) q1 f l m
                    (set_next_is_throttled false
                       (set_credit (s32 (credit m + quantum (priv sch))) m)))
          as [Hw Htnp];
          [first [ done | flow_reads f | by fq_simpl | fq_proj; apply s32_range ]..|]
    end.
    split; [|split; [|done]].
    + eapply (sched_wf_min_keep (priv sch)); [by split|done|by fq_simpl..|done].
    + unfold deferral_armed in *. by fq_simpl.
  - (* throttled *)
    destruct (links_wf_head_flow _ _ _ Hwf Heql) as (_ & Hidx & _ & fl0 & G0 & ? & ? & ?).
    rewrite Hget in G0. injection G0 as <-. fq_proj.
    match goal with
    | Hlt : (now <? _) = true |- _ => apply Z.ltb_lt in Hlt; rename Hlt into Hlate
    end.
    match goal with
    | |- sched_wf ?q1 ∧ _ =>
        destruct (links_wf_throttle (priv sch) q1 f l m
                    (set_next_is_throttled true (set_time_next_packet z m))
                    (λ aux, flow_time_next_packet
                              (set_flow f (set_time_next_packet z m)
                                 (set_head_first (selected_head (priv sch)) l (priv sch)))
                              aux <=? z))
          as [Hw Htnp];
          try first [ done | by fq_simpl
                    | case_match; first [flow_reads f | by fq_simpl] ]
    end.
    { intros y. case_match; fq_proj; f_equal; unfold flow_time_next_packet;
        (destruct (decide (y = f)) as [->|];
         [fq_simpl; by rewrite ?get_set_flow_eq
         |repeat first [rewrite get_set_flow_ne by done | progress fq_simpl]; done]). }
    assert (∀ q0, (∀ g, get_flow q0 g
                        = get_flow (set_flow f (set_next_is_throttled true
                                                  (set_time_next_packet z m)) (priv sch)) g) →
                  flow_time_next_packet q0 f = z) as Hz.
    { intros q0 Hq0. unfold flow_time_next_packet. by rewrite Hq0, get_set_flow_eq. }
    split; [split; [exact Hw|]|split; [|done]].
    + intros g Hg. revert Hw Htnp Hg. case_match; intros Hw Htnp Hg;
        fq_simpl_in Htnp; fq_simpl_in Hg; fq_simpl;
        rewrite rb_link_elem_of in Hg; (destruct Hg as [->|Hg];
          [rewrite Hz by flow_reads f|rewrite Htnp by done; specialize (Hmin g Hg)]);
        match goal with
        | Hc : (_ <? _) = _ |- _ =>
            first [apply Z.ltb_lt in Hc | apply Z.ltb_ge in Hc]; revert Hc
        end; fq_simpl; lia.
    + unfold deferral_armed in *. case_match; fq_simpl; [by left|done].
  - (* a packet leaves the flow, marked *)
    destruct (links_wf_head_flow _ _ _ Hwf Heql) as (_ & Hidx & _ & fl0 & G0 & Hd0 & Hf0 & Hc0).
    rewrite Hget0 in G0. injection G0 as <-.
    destruct (marco_fq_erase_head_fields m (INET_ECN_set_ce s)) as (Et & En & Ec & Etn & Esk).
    assert (f ∈ new_flows (priv sch) ++ old_flows (priv sch)) as Hin.
    { rewrite (selected_head_split _ _ _ Heql). by left. }
    split; [|split].
    + eapply (sched_wf_min_keep (priv sch)); [by split| |by fq_simpl..|].
      * eapply (links_wf_rewrite (priv sch) _ f m);
          [done|done|flow_reads f|by fq_simpl..| | | | |].
        -- unfold marco_fq_flow_is_detached in *. cbn [tail set_qlen].
           rewrite Et. by rewrite Hd0.
        -- cbn [next_is_throttled set_qlen]. by rewrite En.
        -- cbn [credit set_qlen]. by rewrite Ec.
        -- done.
        -- cbn [sk set_qlen]. by rewrite Esk.
      * intros g Hg. apply flow_time_next_packet_ext.
        fq_simpl. rewrite get_set_flow_ne; [by fq_simpl|]. congruence.
    + unfold deferral_armed in *. by fq_simpl.
    + by fq_simpl.
  - (* a packet leaves the flow *)
    destruct (links_wf_head_flow _ _ _ Hwf Heql) as (_ & Hidx & _ & fl0 & G0 & Hd0 & Hf0 & Hc0).
    rewrite Hget0 in G0. injection G0 as <-.
    destruct (marco_fq_erase_head_fields m s) as (Et & En & Ec & Etn & Esk).
    assert (f ∈ new_flows (priv sch) ++ old_flows (priv sch)) as Hin.
    { rewrite (selected_head_split _ _ _ Heql). by left. }
    split; [|split].
    + eapply (sched_wf_min_keep (priv sch)); [by split| |by fq_simpl..|].
      * eapply (links_wf_rewrite (priv sch) _ f m);
          [done|done|flow_reads f|by fq_simpl..| | | | |].
        -- unfold marco_fq_flow_is_detached in *. cbn [tail set_qlen].
           rewrite Et. by rewrite Hd0.
        -- cbn [next_is_throttled set_qlen]. by rewrite En.
        -- cbn [credit set_qlen]. by rewrite Ec.
        -- done.
        -- cbn [sk set_qlen]. by rewrite Esk.
      * intros g Hg. apply flow_time_next_packet_ext.
        fq_simpl. rewrite get_set_flow_ne; [by fq_simpl|]. congruence.
    + unfold deferral_armed in *. by fq_simpl.
    + by fq_simpl.
  - (* an empty flow of the new list moves to the old list *)
    destruct (links_wf_head_flow _ _ _ Hwf Heql) as (_ & _ & _ & fl0 & G0 & ? & ? & ?).
    rewrite Hget in G0. injection G0 as <-.
    match goal with
    | |- sched_wf ?q1 ∧ _ =>
        destruct (links_wf_rotate (priv sch) q1 f l m (set_next_is_throttled false m))
          as [Hw Htnp];
          [first [ done | flow_reads f | by fq_simpl ]..|]
    end.
    split; [|split; [|done]].
    + eapply (sched_wf_min_keep (priv sch)); [by split|done|by fq_simpl..|done].
    + unfold deferral_armed in *. by fq_simpl.
  - (* an empty flow is detached *)
    destruct (links_wf_head_flow _ _ _ Hwf Heql) as (_ & _ & _ & fl0 & G0 & ? & ? & ?).
    rewrite Hget in G0. injection G0 as <-.
    assert (head m = []) as Hhead.
    { unfold marco_fq_peek in Heqo. destruct (rb_first _), (head m); try done.
      by repeat case_match. }
    match goal with
    | |- sched_wf ?q1 ∧ _ =>
        destruct (links_wf_detach (priv sch) q1 f l m (marco_fq_flow_set_detached jiffies m))
          as [Hw Htnp];
          [first [ done | flow_reads f | by fq_simpl ]..|]
    end.
    split; [|split; [|done]].
    + eapply (sched_wf_min_keep (priv sch)); [by split|done|by fq_simpl..|done].
    + unfold deferral_armed in *. by fq_simpl.
Qed.

(** The selection loop keeps the links in order, and the flow it serves
    is on a round-robin list. *)
Lemma marco_fq_dequeue_begin_wf fuel now jiffies sch sel sch' :
  sched_wf (priv sch) → deferral_armed now (priv sch) →
  marco_fq_dequeue_begin fuel now jiffies sch = Some (sel, sch') →
  sched_wf (priv sch') ∧ deferral_armed now (priv sch') ∧
  match sel with
  | Some (h, _) => h ∈ new_flows (priv sch') ++ old_flows (priv sch')
  | None => True
  end.
Proof.
  revert sch. induction fuel as [|fuel IH]; intros sch Hwf Harm H; [done|].
  simpl in H. destruct (marco_fq_dequeue_turn now jiffies sch) as [r|] eqn:Hturn; [|done].
  destruct (marco_fq_dequeue_turn_wf _ _ _ _ Hwf Harm Hturn) as (Hwf' & Harm' & Hsel).
  cbn [mbind option_bind] in H. destruct r; simplify_eq; eauto.
Qed.

(** The bill of a packet: the flow keeps its links and its flags. *)
Lemma marco_fq_dequeue_charge_shape now f skb q q' fl :
  get_flow q f = Some fl →
  marco_fq_dequeue_charge now f skb q = Some q' →
  ∃ fl', (∀ g, get_flow q' g = get_flow (set_flow f fl' q) g) ∧
         new_flows q' = new_flows q ∧ old_flows q' = old_flows q ∧
         delayed q' = delayed q ∧ fq_root q' = fq_root q ∧
         fq_trees_log q' = fq_trees_log q ∧
         time_next_delayed_flow q' = time_next_delayed_flow q ∧
         tail fl' = tail fl ∧ next_is_throttled fl' = next_is_throttled fl ∧
         head fl' = head fl ∧ - 2 ^ 31 <= credit fl' < 2 ^ 31 ∧ sk fl' = sk fl.
Proof.
  intros Hget H. unfold marco_fq_dequeue_charge in H. rewrite Hget in H.
  cbn [mbind option_bind] in H. pose proof (s32_range (credit fl - pkt_len skb)).
  repeat case_match; simplify_eq;
    eexists; (split; [flow_reads f|]); fq_simpl; split_and!; first [done | lia].
Qed.

Lemma marco_fq_dequeue_charge_wf now f skb q q' :
  sched_wf q → f ∈ new_flows q ++ old_flows q →
  marco_fq_dequeue_charge now f skb q = Some q' →
  sched_wf q'.
Proof.
  intros [Hwf Hmin] Hin H.
  destruct (wf_linked _ Hwf f) as (Hint & fl & Hget & Hdet).
  { unfold linked. rewrite app_assoc. apply elem_of_app. by left. }
  assert (f ∉ rb_inorder (delayed q)) as Hout.
  { pose proof (wf_nodup _ Hwf) as Hnd. unfold linked in Hnd. rewrite app_assoc in Hnd.
    apply NoDup_app in Hnd as (_ & Hnd & _). by apply Hnd. }
  destruct (marco_fq_dequeue_charge_shape _ _ _ _ _ _ Hget H)
    as (fl' & Hq' & Hn & Ho & Hd & Hr & Hlog & Ht & Htail & Hflag & Hhead & Hc & Hsk).
  eapply (sched_wf_min_keep q); [by split| |done|done|].
  - eapply (links_wf_rewrite q q' f fl fl'); try done.
    unfold marco_fq_flow_is_detached in *. rewrite Htail. by rewrite Hdet.
  - intros g Hg. apply flow_time_next_packet_ext.
    rewrite Hq', get_set_flow_ne; [done|]. congruence.
Qed.

(** A packet leaves a flow that stays where it is. *)
Lemma marco_fq_dequeue_skb_wf f skb sch sch' :
  sched_wf (priv sch) →
  marco_fq_dequeue_skb f skb sch = Some sch' →
  sched_wf (priv sch').
Proof.
  intros [Hwf Hmin] H. unfold marco_fq_dequeue_skb in H.
  destruct (get_flow (priv sch) f) as [fl|] eqn:Hget; [|done].
  cbn [mbind option_bind] in H. simplify_eq.
  destruct (marco_fq_erase_head_fields fl skb) as (Et & En & Ec & Etn & Esk).
  destruct (wf_flow _ Hwf f fl Hget) as [Hc Hdet].
  fq_simpl.
  eapply (sched_wf_min_keep (priv sch)); [by split| |by fq_simpl..|].
  - eapply (links_wf_rewrite (priv sch) _ f fl);
      [done|done|flow_reads f|by fq_simpl..| | | | |].
    + unfold marco_fq_flow_is_detached in *. cbn [tail set_qlen]. rewrite Et.
      intros Hd. split; [done|]. cbn [head set_qlen].
      destruct (Hdet Hd) as [Hh _]. unfold marco_fq_erase_head. by rewrite Hh.
    + cbn [next_is_throttled set_qlen]. by rewrite En.
    + cbn [credit set_qlen]. by rewrite Ec.
    + done.
    + cbn [sk set_qlen]. by rewrite Esk.
  - intros g Hg. unfold flow_time_next_packet. fq_simpl.
    destruct (decide (g = f)) as [->|].
    + rewrite get_set_flow_eq, Hget. simpl. by rewrite Etn.
    + rewrite get_set_flow_ne by done. by fq_simpl.
Qed.

(** The links are in order after every dequeue. *)
Lemma marco_fq_dequeue_wf fuel now jiffies sch r sch' :
  sched_wf (priv sch) →
  marco_fq_dequeue fuel now jiffies sch = Some (r, sch') →
  sched_wf (priv sch').
Proof.
  intros Hwf H. unfold marco_fq_dequeue in H.
  destruct (q_qlen sch =? 0); [by simplify_eq|].
  destruct (marco_fq_peek (internal (priv sch))) as [skb|].
  { destruct (marco_fq_dequeue_skb INTERNAL skb sch) as [sch1|] eqn:H1; [|done].
    cbn [mbind option_bind] in H. simplify_eq.
    apply marco_fq_dequeue_skb_wf in H1; [|done]. by fq_simpl. }
  destruct (marco_fq_check_throttled now (set_ktime_cache now (priv sch))) as [q1|] eqn:H1;
    [|done].
  cbn [mbind option_bind] in H.
  apply marco_fq_check_throttled_wf in H1 as [Hwf1 Harm1];
    [|eapply sched_wf_ext; [done|intros g; by fq_simpl|by fq_simpl..]].
  destruct (marco_fq_dequeue_begin fuel now jiffies (set_priv q1 sch)) as [[sel sch2]|] eqn:H2;
    [|done].
  cbn [mbind option_bind] in H.
  apply marco_fq_dequeue_begin_wf in H2 as (Hwf2 & _ & Hsel); [|by fq_simpl..].
  destruct sel as [[f skb]|]; [|by simplify_eq].
  destruct (marco_fq_dequeue_charge now f skb (priv sch2)) as [q3|] eqn:H3; [|done].
  cbn [mbind option_bind] in H. simplify_eq.
  apply marco_fq_dequeue_charge_wf in H3; [|done..]. by fq_simpl.
Qed.
End dequeue.

Section resize.
Implicit Types (q : marco_fq_sched_data) (sch : Qdisc) (f g h : flow_ref).

(** Flows that are detached may leave the heap: the links of the others
    stay as they are. *)
Lemma links_wf_collect q q' :
  links_wf q →
  (∀ g fl, get_flow q' g = Some fl → get_flow q g = Some fl) →
  (∀ g fl, get_flow q g = Some fl → marco_fq_flow_is_detached fl = false →
           get_flow q' g = Some fl) →
  new_flows q' = new_flows q → old_flows q' = old_flows q → delayed q' = delayed q →
  fq_root_wf q' →
  links_wf q' ∧ ∀ g, g ∈ linked q → get_flow q' g = get_flow q g.
Proof.
  intros [Hl Hnd Hth Hfl Hso Hfq] Hsub Hkeep Hn Ho Hd Hfq'.
  assert (linked q' = linked q) as Hlk by (unfold linked; by rewrite Hn, Ho, Hd).
  assert (∀ g, g ∈ linked q → get_flow q' g = get_flow q g) as Hsame.
  { intros g Hg. destruct (Hl g Hg) as (_ & fl & Hgf & Hdet). rewrite Hgf. by apply Hkeep. }
  split; [|done]. split.
  - intros f. rewrite Hlk. intros Hf. rewrite Hsame by done. by apply Hl.
  - by rewrite Hlk.
  - intros f fl Hf%Hsub. rewrite Hd. by apply Hth.
  - intros f fl Hf%Hsub. by apply Hfl.
  - rewrite Hd. eapply StronglySorted_ext_in; [|done]. intros a b Ha Hb.
    rewrite !(flow_time_next_packet_ext q q') by (apply Hsame; unfold linked; set_solver).
    done.
  - done.
Qed.

Lemma rehash_inv_seen jiffies new_log heap0 seen seen' st :
  rehash_inv jiffies new_log heap0 seen st → (∀ k, k ∈ seen' → k ∈ seen) →
  rehash_inv jiffies new_log heap0 seen' st.
Proof.
  destruct st as [[arr heap] fcnt]. intros (I1 & I2 & I3 & I4 & I5 & I6) Hs.
  split_and!; try done.
  - intros k Hk. apply I4. by apply Hs.
  - intros k fl Hk. apply I6. by apply Hs.
Qed.

(** One shard of the old table. *)
Lemma marco_fq_rehash_root_inv n jiffies new_log heap0 seen oroot st st' :
  (∀ k fl, heap0 !! k = Some fl → sk fl = k) →
  rehash_inv jiffies new_log heap0 seen st →
  (rb_size oroot ≤ n)%nat →
  marco_fq_rehash_root n jiffies new_log oroot st = Some st' →
  rehash_inv jiffies new_log heap0 (seen ++ rb_inorder oroot) st' ∧
  length st'.1.1 = length st.1.1.
Proof.
  intros Hsk. revert seen oroot st.
  induction n as [|n IH]; intros seen oroot st Hinv Hsize H; simpl in H.
  { simplify_eq. rewrite rb_size_inorder in Hsize.
    destruct (rb_inorder oroot); [|simpl in Hsize; lia]. by rewrite app_nil_r. }
  rewrite (rb_inorder_first oroot). destruct (rb_first oroot) as [k|] eqn:Hfirst.
  2:{ simplify_eq. by rewrite app_nil_r. }
  destruct st as [[arr heap] fcnt]. destruct (heap !! k) as [of_|] eqn:Hk; [|done].
  cbn [mbind option_bind] in H.
  pose proof Hinv as (I1 & I2 & I3 & I4 & I5 & I6).
  assert (rb_size (rb_erase_first oroot) ≤ n)%nat as Hsize'.
  { rewrite !rb_size_inorder in *. rewrite (rb_inorder_first oroot), Hfirst in Hsize.
    simpl in Hsize. lia. }
  assert (sk of_ = k) as Hkey by (by apply Hsk, I2).
  rewrite cons_middle, app_assoc.
  destruct (marco_fq_gc_candidate jiffies of_) eqn:Hcand.
  - apply (IH (seen ++ [k])) in H as [H1 H2]; [done| |done].
    split_and!.
    + done.
    + intros k' fl [_ Hk']%lookup_delete_Some. by apply I2.
    + intros k' fl H0 [->|Hnone]%lookup_delete_None; [|by eapply I3].
      apply I2 in Hk. rewrite Hk in H0. by injection H0 as <-.
    + intros k' Hin [fl [Hne Hk']%lookup_delete_Some].
      apply I4; [|by eexists]. apply elem_of_app in Hin as [?|Hin]; [done|].
      apply list_elem_of_singleton in Hin. congruence.
    + rewrite map_size_delete, Hk.
      assert (size heap ≠ 0)%nat; [|lia]. intros E%map_size_empty_inv.
      by rewrite E in Hk.
    + intros k' fl Hin [Hne Hk']%lookup_delete_Some.
      apply (I6 k'); [|done]. apply elem_of_app in Hin as [?|Hin]; [done|].
      apply list_elem_of_singleton in Hin. congruence.
  - destruct (arr !! Z.to_nat (hash_ptr (sk of_) new_log)) as [nroot|] eqn:Hroot; [|done].
    cbn [mbind option_bind] in H. rewrite Hkey in *.
    apply (IH (seen ++ [k])) in H as [H1 H2]; [split; [done|] | |done].
    { rewrite H2. simpl. by rewrite length_insert. }
    split_and!; try done.
    + intros i r. destruct (decide (i = Z.to_nat (hash_ptr k new_log))) as [->|Hne].
      * rewrite list_lookup_insert_eq by (by eapply lookup_lt_Some).
        intros [= <-]. apply rb_link_sorted.
        -- intros a b c. lia.
        -- intros y Hy. apply Z.gtb_gt in Hy. lia.
        -- intros y Hy. destruct (Z.gtb_spec y k); [done|lia].
        -- by eapply I1.
      * rewrite list_lookup_insert_ne by done. apply I1.
    + intros k' Hin Hsome.
      destruct (decide (Z.to_nat (hash_ptr k' new_log) = Z.to_nat (hash_ptr k new_log)))
        as [E|Hne].
      * rewrite E. eexists. rewrite list_lookup_insert_eq by (by eapply lookup_lt_Some).
        split; [done|]. apply rb_link_elem_of.
        apply elem_of_app in Hin as [Hin|Hin]; [|by left; apply list_elem_of_singleton in Hin].
        right. destruct (I4 k' Hin Hsome) as (r & Hr & Hin'). rewrite E in Hr.
        rewrite Hroot in Hr. by injection Hr as <-.
      * rewrite list_lookup_insert_ne by done.
        apply elem_of_app in Hin as [Hin|Hin]; [by apply I4|].
        apply list_elem_of_singleton in Hin. by subst.
    + intros k' fl Hin Hk'. apply elem_of_app in Hin as [Hin|Hin]; [by eapply I6|].
      apply list_elem_of_singleton in Hin. subst. rewrite Hk in Hk'. by injection Hk' as <-.
Qed.

Lemma marco_fq_rehash_roots_inv jiffies new_log heap0 old_array :
  (∀ k fl, heap0 !! k = Some fl → sk fl = k) →
  ∀ seen st st',
  rehash_inv jiffies new_log heap0 seen st →
  foldl (λ st oroot, st ← st; marco_fq_rehash_root (rb_size oroot) jiffies new_log oroot st)
    (Some st) old_array = Some st' →
  rehash_inv jiffies new_log heap0 (seen ++ mjoin (rb_inorder <$> old_array)) st' ∧
  length st'.1.1 = length st.1.1.
Proof.
  intros Hsk. induction old_array as [|oroot rest IH]; intros seen st st' Hinv H; simpl in H.
  { simplify_eq. simpl. by rewrite app_nil_r. }
  destruct (marco_fq_rehash_root (rb_size oroot) jiffies new_log oroot st) as [st1|] eqn:H1.
  2:{ exfalso. clear -H. induction rest as [|? ? IHr]; [done|]. by apply IHr. }
  apply marco_fq_rehash_root_inv with (heap0 := heap0) (seen := seen) in H1
    as [Hinv1 Hlen1]; [|done..].
  destruct (IH _ _ _ Hinv1 H) as [Hinv' Hlen']. simpl. rewrite app_assoc.
  split; [done|]. by rewrite Hlen', Hlen1.
Qed.

(** [marco_fq_rehash] frees the flows the collector may free, all of
    them, and files the others in the new table. *)
Lemma marco_fq_rehash_spec jiffies old_array new_log new_array q arr' q' :
  fq_root_wf q → fq_root q = Some old_array →
  (∀ i r, new_array !! i = Some r → r = RB_ROOT) →
  marco_fq_rehash jiffies old_array new_log new_array q = Some (arr', q') →
  ∃ fcnt,
    length arr' = length new_array ∧
    (∀ k fl, flow_heap q' !! k = Some fl ↔
             flow_heap q !! k = Some fl ∧ marco_fq_gc_candidate jiffies fl = false) ∧
    Z.of_nat (size (flow_heap q)) = Z.of_nat (size (flow_heap q')) + fcnt ∧
    (∀ i r, arr' !! i = Some r → StronglySorted (λ a b, b <= a) (rb_inorder r)) ∧
    (∀ k, is_Some (flow_heap q' !! k) →
          ∃ r, arr' !! Z.to_nat (hash_ptr k new_log) = Some r ∧ k ∈ rb_inorder r) ∧
    flows q' = u32 (flows q - fcnt) ∧
    inactive_flows q' = u32 (inactive_flows q - fcnt) ∧
    stat_gc_flows q' = u64 (stat_gc_flows q + fcnt) ∧
    internal q' = internal q ∧ new_flows q' = new_flows q ∧ old_flows q' = old_flows q ∧
    delayed q' = delayed q ∧
    time_next_delayed_flow q' = time_next_delayed_flow q ∧
    sched_config q' = sched_config q.
Proof.
  intros (roots & Hroots & Hbst & Hfiled & Hsk) Hold Hnew H.
  rewrite Hold in Hroots. injection Hroots as <-.
  unfold marco_fq_rehash in H.
  match type of H with
  | (?c ≫= _) = _ => destruct c as [[[arr heap] fcnt]|] eqn:Hfold; [|done]
  end.
  cbn [mbind option_bind] in H. injection H as <- <-.
  apply marco_fq_rehash_roots_inv with (heap0 := flow_heap q) (seen := []) in Hfold
    as [(I1 & I2 & I3 & I4 & I5 & I6) Hlen].
  2:{ intros k fl Hk. by apply (Hsk k fl). }
  2:{ split_and!.
      - intros i r ->%Hnew. constructor.
      - done.
      - intros k fl ? ?. congruence.
      - by intros k ?%elem_of_nil.
      - lia.
      - by intros k fl ?%elem_of_nil. }
  simpl in Hlen, I4, I6.
  assert (∀ k, is_Some (heap !! k) → k ∈ mjoin (rb_inorder <$> old_array)) as Hseen.
  { intros k [fl Hk]. destruct (Hfiled k) as (r & Hr & Hin); [exists fl; by apply I2|].
    apply list_elem_of_join. exists (rb_inorder r). split; [done|].
    apply list_elem_of_fmap. exists r. split; [done|]. by eapply list_elem_of_lookup_2. }
  exists fcnt. fq_simpl. unfold sched_config. fq_simpl. split_and!; try done.
  - intros k fl. split.
    + intros Hk. split; [by apply I2|]. apply (I6 k); [|done]. apply Hseen. by eexists.
    + intros [Hk Hc]. destruct (heap !! k) as [fl'|] eqn:Hk'.
      * apply I2 in Hk'. congruence.
      * rewrite (I3 k fl Hk Hk') in Hc. done.
  - intros k Hk. apply I4; [|done]. by apply Hseen.
Qed.

(** The flow table is rebuilt with [2^log] shards; the links stay as
    they are. *)
Lemma marco_fq_resize_wf jiffies alloc_ok log q err q' :
  sched_wf q →
  marco_fq_resize jiffies alloc_ok log q = Some (err, q') →
  sched_wf q' ∧ (∀ g, g ∈ linked q → get_flow q' g = get_flow q g) ∧
  new_flows q' = new_flows q ∧ old_flows q' = old_flows q ∧ delayed q' = delayed q.
Proof.
  intros [Hwf Hmin] H. unfold marco_fq_resize in H.
  destruct (_ && _); [by simplify_eq|].
  destruct (negb alloc_ok); [by simplify_eq|].
  pose proof (wf_fq_root _ Hwf) as Hfq. pose proof Hfq as (roots & Hroots & _).
  rewrite Hroots in H.
  match type of H with
  | (?c ≫= _) = _ => destruct c as [[arr q1]|] eqn:Hre; [|done]
  end.
  cbn [mbind option_bind] in H. injection H as <- <-.
  apply marco_fq_rehash_spec in Hre
    as (fcnt & Hlen & Hheap & _ & Hbst & Hfiled & _ & _ & _ & Hint & Hn & Ho & Hd & Ht & _);
    [|done|done|by intros i r [-> _]%lookup_replicate].
  assert (∀ g fl, get_flow q1 g = Some fl → get_flow q g = Some fl) as Hsub.
  { intros [|k] fl; simpl; [by rewrite Hint|]. by intros [? _]%Hheap. }
  destruct (links_wf_collect q (set_fq_trees_log log (set_fq_root (Some arr) q1)))
    as [Hwf' Hsame]; [done|..].
  - intros g fl. fq_simpl. apply Hsub.
  - intros [|k] fl; fq_simpl; simpl; [by rewrite Hint|].
    intros Hk Hdet. apply Hheap. split; [done|].
    unfold marco_fq_gc_candidate. by rewrite Hdet.
  - by fq_simpl.
  - by fq_simpl.
  - by fq_simpl.
  - exists arr. fq_simpl. split_and!; [done|done| |].
    + intros k Hk. by apply Hfiled.
    + intros k fl Hk. destruct Hfq as (? & _ & _ & _ & Hsk). by apply Hsk, Hsub.
  - split_and!; [|done|by fq_simpl..]. split; [done|].
    intros g. fq_simpl. rewrite Hd, Ht. intros Hg.
    unfold flow_time_next_packet. rewrite Hsame by (unfold linked; set_solver).
    by apply Hmin.
Qed.
End resize.

(** Skips the attributes of the request that leave the observation [p]
    alone, outermost first. *)
Ltac attrs_keep p :=
  unfold marco_fq_change_attrs; cbv zeta;
  repeat (etrans;
          [ apply (with_attr_frame p); intros ? [[? ?] ?];
            solve [ reflexivity | repeat case_match; reflexivity ]
          | ]);
  reflexivity.

Section lifecycle.
Implicit Types (q : marco_fq_sched_data) (sch : Qdisc) (f g h : flow_ref).

(** The attribute pass writes parameters only. *)
Lemma marco_fq_change_attrs_links tb sch :
  let q' := priv (marco_fq_change_attrs tb sch).2 in
  flow_heap q' = flow_heap (priv sch) ∧ internal q' = internal (priv sch) ∧
  new_flows q' = new_flows (priv sch) ∧ old_flows q' = old_flows (priv sch) ∧
  delayed q' = delayed (priv sch) ∧ fq_root q' = fq_root (priv sch) ∧
  fq_trees_log q' = fq_trees_log (priv sch) ∧
  time_next_delayed_flow q' = time_next_delayed_flow (priv sch).
Proof.
  cbv zeta. split_and!.
  - attrs_keep (λ st : Z * Z * Qdisc, flow_heap (priv st.2)).
  - attrs_keep (λ st : Z * Z * Qdisc, internal (priv st.2)).
  - attrs_keep (λ st : Z * Z * Qdisc, new_flows (priv st.2)).
  - attrs_keep (λ st : Z * Z * Qdisc, old_flows (priv st.2)).
  - attrs_keep (λ st : Z * Z * Qdisc, delayed (priv st.2)).
  - attrs_keep (λ st : Z * Z * Qdisc, fq_root (priv st.2)).
  - attrs_keep (λ st : Z * Z * Qdisc, fq_trees_log (priv st.2)).
  - attrs_keep (λ st : Z * Z * Qdisc, time_next_delayed_flow (priv st.2)).
Qed.

Lemma get_flow_ext q q' :
  flow_heap q' = flow_heap q → internal q' = internal q →
  ∀ g, get_flow q' g = get_flow q g.
Proof. intros Hh Hi [|k]; simpl; by rewrite ?Hh, ?Hi. Qed.

Lemma marco_fq_change_attrs_wf tb sch :
  sched_wf (priv sch) → sched_wf (priv (marco_fq_change_attrs tb sch).2).
Proof.
  intros Hwf.
  destruct (marco_fq_change_attrs_links tb sch) as (Hh & Hi & Hn & Ho & Hd & Hr & Hl & Ht).
  eapply sched_wf_ext; [done|by apply get_flow_ext|done..].
Qed.

(** The packets above the limit leave by [marco_fq_dequeue]. *)
Lemma marco_fq_change_drain_wf n fuel clock k sch dropped dropped' sch' :
  sched_wf (priv sch) →
  marco_fq_change_drain n fuel clock k sch dropped = Some (dropped', sch') →
  sched_wf (priv sch').
Proof.
  revert k sch dropped. induction n as [|n IH]; intros k sch dropped Hwf H; simpl in H;
    [by simplify_eq|].
  destruct (limit sch <? q_qlen sch); [|by simplify_eq].
  destruct (marco_fq_dequeue fuel (clock k).1 (clock k).2 sch) as [[r sch1]|] eqn:Hd;
    [|done].
  cbn [mbind option_bind] in H.
  apply marco_fq_dequeue_wf in Hd; [|done].
  destruct r as [skb|]; [|by simplify_eq]. by eapply IH.
Qed.

Lemma marco_fq_change_wf fuel clock jiffies alloc_ok opt sch err dropped sch' :
  sched_wf (priv sch) →
  marco_fq_change fuel clock jiffies alloc_ok opt sch = Some (err, dropped, sch') →
  sched_wf (priv sch').
Proof.
  intros Hwf H. unfold marco_fq_change in H. destruct opt as [tb|]; [|by simplify_eq].
  pose proof (marco_fq_change_attrs_wf tb sch Hwf) as Hwf1.
  destruct (marco_fq_change_attrs tb sch) as [[err1 fq_log] sch1]. simpl in Hwf1.
  match type of H with
  | (?c ≫= _) = _ => destruct c as [[err2 sch2]|] eqn:H2; [|done]
  end.
  cbn [mbind option_bind] in H.
  assert (sched_wf (priv sch2)) as Hwf2.
  { destruct (err1 =? 0); [|by simplify_eq].
    destruct (marco_fq_resize jiffies alloc_ok fq_log (priv sch1)) as [[e q]|] eqn:Hre;
      [|done].
    cbn [mbind option_bind] in H2. simplify_eq. fq_simpl.
    by apply marco_fq_resize_wf in Hre as [? _]. }
  destruct (marco_fq_change_drain _ _ _ _ _ _) as [[d sch3]|] eqn:H3; [|done].
  cbn [mbind option_bind] in H. simplify_eq. by eapply marco_fq_change_drain_wf.
Qed.

(** A scheduler without flows. *)
Lemma sched_wf_empty q roots :
  fq_root q = Some roots → (∀ i r, roots !! i = Some r → r = RB_ROOT) →
  flow_heap q = ∅ →
  new_flows q = [] → old_flows q = [] → delayed q = RB_ROOT →
  - 2 ^ 31 <= credit (internal q) < 2 ^ 31 →
  marco_fq_flow_is_detached (internal q) = false →
  next_is_throttled (internal q) = false →
  sched_wf q.
Proof.
  intros Hr Hroots Hh Hn Ho Hd Hc Hdet Hflag.
  assert (∀ g fl, get_flow q g = Some fl → g = INTERNAL ∧ fl = internal q) as Hget.
  { intros [|k] fl; simpl; [by intros [= <-]|]. by rewrite Hh. }
  split; [split|].
  - unfold linked. rewrite Hn, Ho, Hd. by intros f ?%elem_of_nil.
  - unfold linked. rewrite Hn, Ho, Hd. constructor.
  - intros f fl [-> ->]%Hget. rewrite Hd, Hflag. simpl.
    split; [done|]. by intros ?%elem_of_nil.
  - intros f fl [-> ->]%Hget. by rewrite Hdet.
  - rewrite Hd. constructor.
  - exists roots. split; [done|]. split_and!.
    + intros i r ->%Hroots. constructor.
    + intros k [fl Hk]. by apply Hget in Hk as [? _].
    + intros k fl Hk. by apply Hget in Hk as [? _].
  - intros f. rewrite Hd. by intros ?%elem_of_nil.
Qed.

(** The first table of a scheduler without flows. *)
Lemma marco_fq_resize_fresh jiffies alloc_ok log q q' :
  fq_root q = None → flow_heap q = ∅ →
  new_flows q = [] → old_flows q = [] → delayed q = RB_ROOT →
  - 2 ^ 31 <= credit (internal q) < 2 ^ 31 →
  marco_fq_flow_is_detached (internal q) = false →
  next_is_throttled (internal q) = false →
  marco_fq_resize jiffies alloc_ok log q = Some (0, q') →
  sched_wf q'.
Proof.
  intros Hr Hh Hn Ho Hd Hc Hdet Hflag H. unfold marco_fq_resize in H.
  rewrite Hr in H. simpl in H. destruct alloc_ok; simpl in H; [|done].
  injection H as <-.
  eapply sched_wf_empty; fq_simpl; [done| |done..].
  by intros i r [-> _]%lookup_replicate.
Qed.

(** The internal flow is never detached and never throttled. *)
Lemma sched_wf_internal q :
  sched_wf q →
  - 2 ^ 31 <= credit (internal q) < 2 ^ 31 ∧
  marco_fq_flow_is_detached (internal q) = false ∧
  next_is_throttled (internal q) = false.
Proof.
  intros [Hwf _]. destruct (wf_flow _ Hwf INTERNAL (internal q) eq_refl) as [Hc Hd].
  split; [done|split].
  - destruct (marco_fq_flow_is_detached _); [|done]. by destruct Hd.
  - destruct (next_is_throttled (internal q)) eqn:E; [|done].
    apply (wf_throttled _ Hwf INTERNAL _ eq_refl) in E.
    destruct (wf_linked _ Hwf INTERNAL) as [? _]; [|done].
    unfold linked. set_solver.
Qed.

Lemma marco_fq_reset_root_heap n root heap k fl :
  (rb_size root ≤ n)%nat →
  (marco_fq_reset_root n root heap).2 !! k = Some fl ↔
  heap !! k = Some fl ∧ k ∉ rb_inorder root.
Proof.
  revert root heap. induction n as [|n IH]; intros root heap Hn; simpl.
  { destruct root; [|simpl in Hn; lia]. simpl. set_solver. }
  rewrite (rb_inorder_first root). destruct (rb_first root) as [x|] eqn:E.
  - rewrite IH by (rewrite (rb_size_erase_first _ _ E) in Hn; lia).
    rewrite lookup_delete_Some, not_elem_of_cons. naive_solver.
  - simpl. set_solver.
Qed.

Lemma marco_fq_reset_roots_heap roots heap k fl :
  (marco_fq_reset_roots roots heap).2 !! k = Some fl ↔
  heap !! k = Some fl ∧ k ∉ mjoin (rb_inorder <$> roots).
Proof.
  revert heap. induction roots as [|root roots IH]; intros heap; simpl.
  { set_solver. }
  pose proof (marco_fq_reset_root_heap (rb_size root) root heap k fl (le_n _)) as H.
  destruct (marco_fq_reset_root _ _ _) as [root' heap']. simpl in H.
  specialize (IH heap'). destruct (marco_fq_reset_roots roots heap') as [rest heap''].
  simpl in *. rewrite IH, H, not_elem_of_app. naive_solver.
Qed.

(** [marco_fq_reset] frees every flow of the heap. *)
Lemma marco_fq_reset_wf sch :
  sched_wf (priv sch) →
  let q' := priv (marco_fq_reset sch) in
  sched_wf q' ∧ flow_heap q' = ∅ ∧ new_flows q' = [] ∧ old_flows q' = [] ∧
  delayed q' = RB_ROOT ∧ marco_fq_peek (internal q') = None.
Proof.
  intros Hwf. destruct (sched_wf_internal _ Hwf) as (Hc & Hdet & Hflag).
  pose proof Hwf as [[_ _ _ _ _ (roots & Hroots & _ & Hfiled & _)] _].
  unfold marco_fq_reset. cbv zeta. fq_proj. rewrite Hroots.
  pose proof (marco_fq_reset_roots_empty roots (flow_heap (priv sch))) as Hempty.
  pose proof (λ k fl, marco_fq_reset_roots_heap roots (flow_heap (priv sch)) k fl) as Hheap.
  destruct (marco_fq_reset_roots roots (flow_heap (priv sch))) as [roots' heap'].
  simpl in Hempty, Hheap. fq_proj.
  assert (heap' = ∅) as ->.
  { apply map_eq. intros k. rewrite lookup_empty.
    destruct (heap' !! k) as [fl|] eqn:Hk; [|done]. exfalso.
    apply Hheap in Hk as [Hk Hout]. apply Hout.
    destruct (Hfiled k) as (r & Hr & Hin); [by eexists|].
    apply list_elem_of_join. exists (rb_inorder r). split; [done|].
    apply list_elem_of_fmap. exists r. split; [done|]. by eapply list_elem_of_lookup_2. }
  rewrite marco_fq_flow_purge_eq.
  split_and!; try done.
  eapply sched_wf_empty; fq_proj; [done| |done..].
  intros i r Hr. rewrite Forall_forall in Hempty. apply Hempty.
  by eapply list_elem_of_lookup_2.
Qed.

(** The end of [marco_fq_init], for a scheduler [q] without flows. *)
Lemma marco_fq_start_wf fuel clock jiffies alloc_ok opt q sch dropped sch' :
  fq_root q = None → flow_heap q = ∅ →
  new_flows q = [] → old_flows q = [] → delayed q = RB_ROOT →
  internal q = flow_zero →
  match opt with
  | Some _ => marco_fq_change fuel clock jiffies alloc_ok opt (set_priv q sch)
  | None =>
      '(err, q1) ← marco_fq_resize jiffies alloc_ok (fq_trees_log q) q;
      Some (err, [], set_priv q1 (set_priv q sch))
  end = Some (0, dropped, sch') →
  sched_wf (priv sch').
Proof.
  intros Hr Hh Hn Ho Hd Hi H.
  assert (- 2 ^ 31 <= credit flow_zero < 2 ^ 31) as Hc by (split; by vm_compute).
  destruct opt as [tb|].
  - unfold marco_fq_change in H.
    pose proof (marco_fq_change_attrs_links tb (set_priv q sch))
      as (Ah & Ai & An & Ao & Ad & Ar & _).
    destruct (marco_fq_change_attrs tb _) as [[err1 fq_log] sch1].
    cbn [fst snd] in Ah, Ai, An, Ao, Ad, Ar.
    fq_proj_in Ah. fq_proj_in Ai. fq_proj_in An. fq_proj_in Ao. fq_proj_in Ad.
    fq_proj_in Ar.
    match type of H with
    | (?c ≫= _) = _ => destruct c as [[err2 sch2]|] eqn:H2; [|done]
    end.
    cbn [mbind option_bind] in H.
    destruct (marco_fq_change_drain _ _ _ _ _ _) as [[d sch3]|] eqn:H3; [|done].
    cbn [mbind option_bind] in H. injection H as -> <- <-.
    eapply marco_fq_change_drain_wf; [|exact H3].
    destruct (Z.eqb_spec err1 0) as [->|]; [|by injection H2 as -> <-].
    destruct (marco_fq_resize jiffies alloc_ok fq_log (priv sch1)) as [[e q1]|] eqn:Hre;
      [|done].
    cbn [mbind option_bind] in H2. injection H2 as -> <-. fq_proj.
    eapply marco_fq_resize_fresh;
      [by rewrite Ar|by rewrite Ah|by rewrite An|by rewrite Ao|by rewrite Ad
      |rewrite Ai, Hi..|exact Hre]; [exact Hc|reflexivity..].
  - destruct (marco_fq_resize jiffies alloc_ok (fq_trees_log q) q) as [[e q1]|] eqn:Hre;
      [|done].
    cbn [mbind option_bind] in H. injection H as -> <- <-. fq_proj.
    eapply marco_fq_resize_fresh;
      [exact Hr|exact Hh|exact Hn|exact Ho|exact Hd|rewrite Hi..|exact Hre];
      [exact Hc|reflexivity..].
Qed.

(** [marco_fq_init] of a zeroed qdisc that returns 0. *)
Lemma marco_fq_init_wf fuel clock jiffies alloc_ok mtu opt sch dropped sch' :
  priv sch = sched_zero →
  marco_fq_init fuel clock jiffies alloc_ok mtu opt sch = Some (0, dropped, sch') →
  sched_wf (priv sch').
Proof.
  intros Hz H. unfold marco_fq_init in H. cbv zeta in H.
  eapply marco_fq_start_wf; [..|exact H]; fq_proj; rewrite ?Hz; reflexivity.
Qed.
End lifecycle.

Section runs.
Implicit Types (q : marco_fq_sched_data) (sch : Qdisc) (f g h : flow_ref).

Lemma marco_fq_gc_config jiffies idx sk0 q q' :
  marco_fq_gc jiffies idx sk0 q = Some q' → sched_config q' = sched_config q.
Proof.
  unfold marco_fq_gc. intros H.
  destruct (get_root q idx); cbn [mbind option_bind] in H; [|done].
  destruct (marco_fq_gc_walk _ _ _ _ _) as [[|k tofree]|];
    cbn [mbind option_bind] in H; simplify_eq; [done|].
  unfold set_root, sched_config. by fq_proj.
Qed.

Lemma marco_fq_classify_config jiffies alloc_ok skb q f skb' q' :
  marco_fq_classify jiffies alloc_ok skb q = Some (f, skb', q') →
  sched_config q' = sched_config q.
Proof.
  unfold marco_fq_classify. intros H.
  destruct (Z.land (priority skb) TC_PRIO_MAX =? TC_PRIO_CONTROL); [by simplify_eq|].
  match type of H with
  | (let '(_, _) := ?p in _) = _ => destruct p as [sk0 skb0]
  end.
  match type of H with
  | (?c ≫= _) = _ => destruct c as [q1|] eqn:Hgc; [|done]
  end.
  assert (sched_config q1 = sched_config q) as <-.
  { match type of Hgc with
    | (if ?c then _ else _) = _ => destruct c
    end; [by eapply marco_fq_gc_config|by simplify_eq]. }
  cbn [mbind option_bind] in H. clear Hgc.
  destruct (get_root q1 _) as [root|]; [|done]. cbn [mbind option_bind] in H.
  destruct (fq_root_lookup sk0 root).
  - destruct (get_flow q1 (FLOW sk0)) as [fl|] eqn:Hget; [|done].
    cbn [mbind option_bind] in H.
    destruct (skb_sk_is skb0 sk0) as [s|]; [|by simplify_eq].
    destruct (negb (socket_hash fl =? sk_hash s)); [|by simplify_eq].
    destruct (marco_fq_flow_is_throttled _).
    + erewrite marco_fq_flow_unset_throttled_eq in H by apply get_set_flow_eq.
      cbn [mbind option_bind] in H. rewrite get_set_flow_eq in H.
      cbn [mbind option_bind] in H. simplify_eq. unfold sched_config. by fq_simpl.
    + cbn [mbind option_bind] in H. rewrite get_set_flow_eq in H.
      cbn [mbind option_bind] in H. simplify_eq. unfold sched_config. by fq_simpl.
  - destruct (negb alloc_ok); simplify_eq; unfold set_root, sched_config; by fq_simpl.
Qed.

Lemma marco_fq_enqueue_flow_config jiffies fa ia skb sch ret free sch' :
  marco_fq_enqueue_flow jiffies fa ia skb sch = Some (ret, free, sch') →
  sched_config (priv sch') = sched_config (priv sch) ∧ limit sch' = limit sch.
Proof.
  unfold marco_fq_enqueue_flow. intros H.
  destruct (marco_fq_classify jiffies fa skb (priv sch)) as [[[f skb1] q1]|] eqn:Hcl;
    [|done].
  rewrite <- (marco_fq_classify_config _ _ _ _ _ _ _ Hcl).
  cbn [mbind option_bind] in H.
  destruct (get_flow q1 f) as [fl|] eqn:Hget; [|done]. cbn [mbind option_bind] in H.
  destruct (_ && _); [unfold qdisc_drop in H; simplify_eq; unfold sched_config; by fq_simpl|].
  match type of H with
  | (?c ≫= _) = _ =>
      assert (∃ q3 fl3, c = Some q3 ∧ get_flow q3 f = Some fl3 ∧
                sched_config q3 = sched_config q1)
        as (q3 & fl3 & Hc & Hget3 & <-)
  end.
  { destruct (marco_fq_flow_is_detached fl).
    - erewrite marco_fq_flow_add_tail_eq by apply get_set_flow_eq.
      cbn [mbind option_bind]. rewrite get_set_flow_eq. cbn [mbind option_bind].
      eexists _, _. split; [done|]. split; [by fq_simpl|].
      unfold sched_config. by fq_simpl.
    - eexists _, _. split; [done|]. split; [apply get_set_flow_eq|].
      unfold sched_config. by fq_simpl. }
  rewrite Hc in H. cbn [mbind option_bind] in H. fq_proj_in H.
  match type of H with
  | match ?c with _ => _ end = _ => destruct c as [tbl|]
  end; [|simplify_eq; by fq_proj].
  rewrite Hget3 in H. cbn [mbind option_bind] in H. simplify_eq. fq_proj.
  destruct (flow_ref_eqb f INTERNAL); unfold sched_config; by fq_simpl.
Qed.

(** [marco_fq_enqueue] does not write a parameter. *)
Lemma marco_fq_enqueue_config now jiffies fa ia skb sch ret free sch' :
  marco_fq_enqueue now jiffies fa ia skb sch = Some (ret, free, sch') →
  fq_config sch' = fq_config sch.
Proof.
  unfold marco_fq_enqueue, fq_config. intros H.
  repeat match type of H with
         | (if ?c then _ else _) = _ => destruct c
         end;
    try (unfold qdisc_drop in H; simplify_eq; unfold sched_config; by fq_simpl);
    apply marco_fq_enqueue_flow_config in H as [-> ->]; unfold sched_config; by fq_simpl.
Qed.

Lemma marco_fq_calls_wf calls sch rets sch' :
  sched_wf (priv sch) →
  fq_calls calls sch = Some (rets, sch') →
  ENOMEM ∉ rets →
  sched_wf (priv sch').
Proof.
  revert sch rets. induction calls as [|call calls IH]; intros sch rets Hwf H Hrets;
    simpl in H; [by simplify_eq|].
  destruct call as [now jiffies fa ia skb|fuel now jiffies|fuel clock jiffies ok opt|].
  - destruct (marco_fq_enqueue now jiffies fa ia skb sch) as [[[ret free] sch1]|] eqn:H1;
      [|done].
    cbn [mbind option_bind] in H.
    destruct (fq_calls calls sch1) as [[rets1 sch2]|] eqn:H2; [|done].
    cbn [mbind option_bind] in H. simplify_eq.
    apply not_elem_of_cons in Hrets as [Hret Hrets].
    eapply IH; [|done..]. eapply marco_fq_enqueue_wf; [done..|congruence].
  - destruct (marco_fq_dequeue fuel now jiffies sch) as [[r sch1]|] eqn:H1; [|done].
    cbn [mbind option_bind] in H.
    eapply IH; [|done..]. by eapply marco_fq_dequeue_wf.
  - destruct (marco_fq_change fuel clock jiffies ok opt sch) as [[[e d] sch1]|] eqn:H1;
      [|done].
    cbn [mbind option_bind] in H.
    eapply IH; [|done..]. by eapply marco_fq_change_wf.
  - eapply IH; [|done..]. by apply marco_fq_reset_wf.
Qed.

Lemma sched_wf_flows_live q : sched_wf q → flows_live q.
Proof.
  intros [Hwf _] f Hf. destruct (wf_linked _ Hwf f Hf) as (_ & fl & Hget & _).
  exists fl. split; [done|]. by apply (wf_flow _ Hwf f fl).
Qed.

(** In a state whose links are in order [marco_fq_dequeue] returns. *)
Lemma marco_fq_dequeue_total now jiffies sch :
  sched_wf (priv sch) → 0 < quantum (priv sch) < 2 ^ 31 →
  ∃ fuel r, ∀ fuel', (fuel ≤ fuel')%nat →
    marco_fq_dequeue fuel' now jiffies sch = Some r.
Proof.
  intros Hl%sched_wf_flows_live Hq. unfold marco_fq_dequeue.
  destruct (q_qlen sch =? 0); [by exists O; eexists|].
  destruct (marco_fq_peek (internal (priv sch))) as [skb|].
  { exists O. unfold marco_fq_dequeue_skb. simpl. by eexists. }
  destruct (marco_fq_check_throttled_live now (set_ktime_cache now (priv sch)))
    as (q1 & H1 & Hl1 & Hq1).
  { eapply flows_live_congr; [| | | |done]; try done; intros g; by fq_simpl. }
  rewrite H1. simpl.
  destruct (marco_fq_dequeue_begin_terminates now jiffies
              (S (dequeue_measure q1)) (set_priv q1 sch))
    as ([sel sch'] & Hr & Hpost); [simpl; lia|simpl; by rewrite Hq1|done|].
  exists (S (dequeue_measure q1)).
  destruct sel as [[f skb]|]; simpl in Hpost.
  - destruct (marco_fq_dequeue_charge_total now f skb (priv sch') Hpost) as [q2 H2].
    eexists. intros fuel' Hf. rewrite (Hr fuel' Hf). simpl. rewrite H2. done.
  - eexists. intros fuel' Hf. rewrite (Hr fuel' Hf). done.
Qed.

Lemma marco_fq_rehash_quantum jiffies old_array new_log new_array q arr' q' :
  marco_fq_rehash jiffies old_array new_log new_array q = Some (arr', q') →
  quantum q' = quantum q.
Proof.
  unfold marco_fq_rehash. intros H.
  match type of H with
  | (?c ≫= _) = _ => destruct c as [[[arr heap] fcnt]|]; [|done]
  end.
  cbn [mbind option_bind] in H. simplify_eq. by fq_simpl.
Qed.

Lemma marco_fq_resize_quantum jiffies alloc_ok log q err q' :
  marco_fq_resize jiffies alloc_ok log q = Some (err, q') → quantum q' = quantum q.
Proof.
  unfold marco_fq_resize. intros H.
  destruct (_ && _); [by simplify_eq|].
  destruct (negb alloc_ok); [by simplify_eq|].
  match type of H with
  | (?c ≫= _) = _ => destruct c as [[arr q1]|] eqn:Hre; [|done]
  end.
  cbn [mbind option_bind] in H. simplify_eq. fq_simpl.
  destruct (fq_root q); [by eapply marco_fq_rehash_quantum|by simplify_eq].
Qed.

(** A request cannot set a quantum outside of 1 .. 2^20. *)
Lemma marco_fq_change_quantum fuel clock jiffies alloc_ok opt sch err dropped sch' :
  0 < quantum (priv sch) < 2 ^ 31 →
  marco_fq_change fuel clock jiffies alloc_ok opt sch = Some (err, dropped, sch') →
  0 < quantum (priv sch') < 2 ^ 31.
Proof.
  intros Hq H. unfold marco_fq_change in H. destruct opt as [tb|]; [|by simplify_eq].
  pose proof (marco_fq_change_attrs_config tb sch) as Hcfg.
  destruct (marco_fq_change_attrs tb sch) as [[err1 fq_log] sch1].
  assert (0 < quantum (priv sch1) < 2 ^ 31) as Hq1.
  { unfold fq_config, sched_config in Hcfg. cbv zeta in Hcfg. simpl snd in Hcfg.
    injection Hcfg as _ _ -> _. unfold attr_applied.
    destruct (TCA_FQ_QUANTUM tb) as [v|]; [|done].
    destruct (Z.ltb_spec 0 v), (Z.leb_spec v (Z.shiftl 1 20)); simpl; try done.
    unfold id. change (Z.shiftl 1 20) with (2 ^ 20) in *. lia. }
  clear Hcfg.
  match type of H with
  | (?c ≫= _) = _ => destruct c as [[err2 sch2]|] eqn:H2; [|done]
  end.
  cbn [mbind option_bind] in H.
  assert (quantum (priv sch2) = quantum (priv sch1)) as Hq2.
  { destruct (err1 =? 0); [|by simplify_eq].
    destruct (marco_fq_resize jiffies alloc_ok fq_log (priv sch1)) as [[e q]|] eqn:Hre;
      [|done].
    cbn [mbind option_bind] in H2. simplify_eq. fq_simpl.
    by eapply marco_fq_resize_quantum. }
  destruct (marco_fq_change_drain _ _ _ _ _ _) as [[d sch3]|] eqn:H3; [|done].
  cbn [mbind option_bind] in H. simplify_eq.
  apply marco_fq_change_drain_config in H3 as [H3 _].
  unfold fq_config, sched_config in H3. injection H3 as _ _ -> _. by rewrite Hq2.
Qed.

Lemma marco_fq_reset_quantum sch : quantum (priv (marco_fq_reset sch)) = quantum (priv sch).
Proof.
  unfold marco_fq_reset. cbv zeta. fq_proj. destruct (fq_root (priv sch)); [|done].
  destruct (marco_fq_reset_roots _ _). by fq_proj.
Qed.

Lemma marco_fq_calls_quantum calls sch rets sch' :
  0 < quantum (priv sch) < 2 ^ 31 →
  fq_calls calls sch = Some (rets, sch') →
  0 < quantum (priv sch') < 2 ^ 31.
Proof.
  revert sch rets. induction calls as [|call calls IH]; intros sch rets Hq H;
    simpl in H; [by simplify_eq|].
  destruct call as [now jiffies fa ia skb|fuel now jiffies|fuel clock jiffies ok opt|].
  - destruct (marco_fq_enqueue now jiffies fa ia skb sch) as [[[ret free] sch1]|] eqn:H1;
      [|done].
    cbn [mbind option_bind] in H.
    destruct (fq_calls calls sch1) as [[rets1 sch2]|] eqn:H2; [|done].
    cbn [mbind option_bind] in H. simplify_eq.
    eapply IH; [|done]. apply marco_fq_enqueue_config in H1.
    unfold fq_config, sched_config in H1. injection H1 as _ _ -> _. done.
  - destruct (marco_fq_dequeue fuel now jiffies sch) as [[r sch1]|] eqn:H1; [|done].
    cbn [mbind option_bind] in H.
    eapply IH; [|done]. apply marco_fq_dequeue_config in H1 as [H1 _].
    unfold fq_config, sched_config in H1. injection H1 as _ _ -> _. done.
  - destruct (marco_fq_change fuel clock jiffies ok opt sch) as [[[e d] sch1]|] eqn:H1;
      [|done].
    cbn [mbind option_bind] in H.
    eapply IH; [|done]. by eapply marco_fq_change_quantum.
  - eapply IH; [|done]. by rewrite marco_fq_reset_quantum.
Qed.

(** The quantum [marco_fq_init] sets from the MTU of the device. *)
Lemma marco_fq_init_quantum fuel clock jiffies alloc_ok mtu opt sch err dropped sch' :
  0 < mtu < 2 ^ 30 →
  marco_fq_init fuel clock jiffies alloc_ok mtu opt sch = Some (err, dropped, sch') →
  0 < quantum (priv sch') < 2 ^ 31.
Proof.
  intros Hmtu H. unfold marco_fq_init in H. cbv zeta in H.
  assert (0 < u32 (2 * mtu) < 2 ^ 31) as Hq by (rewrite u32_id; lia).
  destruct opt as [tb|].
  - eapply marco_fq_change_quantum; [|exact H]. by fq_proj.
  - match type of H with
    | (?c ≫= _) = _ => destruct c as [[e q1]|] eqn:Hre; [|done]
    end.
    cbn [mbind option_bind] in H. injection H as <- <- <-. fq_proj.
    rewrite (marco_fq_resize_quantum _ _ _ _ _ _ Hre). by fq_proj.
Qed.

(** The turn that ends the selection loop without a packet. *)
Lemma marco_fq_dequeue_turn_null now jiffies sch sch' :
  marco_fq_dequeue_turn now jiffies sch = Some (RETURN_NULL sch') →
  new_flows (priv sch') = [] ∧ old_flows (priv sch') = [] ∧
  internal (priv sch') = internal (priv sch) ∧
  (time_next_delayed_flow (priv sch') ≠ U64_MAX →
   watchdog (priv sch')
   = Some (time_next_delayed_flow (priv sch'), timer_slack (priv sch'))).
Proof.
  intros H. turn_inv H.
  assert (new_flows (priv sch) = [] ∧ old_flows (priv sch) = []) as [Hn Ho].
  { revert Heql. unfold selected_head.
    destruct (new_flows (priv sch)) eqn:E; simpl; [done|]. by rewrite E. }
  destruct (Z.eqb_spec (time_next_delayed_flow (priv sch)) U64_MAX) as [E|E]; simpl.
  - by rewrite E.
  - by fq_proj.
Qed.

Lemma marco_fq_dequeue_begin_null fuel now jiffies sch sch' :
  marco_fq_dequeue_begin fuel now jiffies sch = Some (None, sch') →
  new_flows (priv sch') = [] ∧ old_flows (priv sch') = [] ∧
  (time_next_delayed_flow (priv sch') ≠ U64_MAX →
   watchdog (priv sch')
   = Some (time_next_delayed_flow (priv sch'), timer_slack (priv sch'))).
Proof.
  revert sch. induction fuel as [|fuel IH]; intros sch H; [done|].
  simpl in H. destruct (marco_fq_dequeue_turn now jiffies sch) as [r|] eqn:Hr; [|done].
  cbn [mbind option_bind] in H. destruct r as [sch1|sch1|h skb sch1]; [by eapply IH| |done].
  injection H as <-.
  by destruct (marco_fq_dequeue_turn_null _ _ _ _ Hr) as (? & ? & _ & ?).
Qed.

Lemma sched_wf_deferral_wf q : sched_wf q → deferral_wf q.
Proof.
  intros [Hwf Hmin]. split.
  - intros f Hf. destruct (wf_linked _ Hwf f) as (_ & fl & -> & _); [|done].
    unfold linked. set_solver.
  - apply Hwf.
  - done.
  - intros f Hf Hin. pose proof (wf_nodup _ Hwf) as Hnd. unfold linked in Hnd.
    rewrite app_assoc in Hnd. apply NoDup_app in Hnd as (_ & Hnd & _).
    by apply (Hnd f).
  - intros Hin. destruct (wf_linked _ Hwf INTERNAL) as [? _]; [|done].
    unfold linked. set_solver.
Qed.

(** When [marco_fq_dequeue] has no packet to give although packets are
    queued, no flow is ready. *)
Lemma marco_fq_dequeue_null fuel now jiffies sch sch' :
  sched_wf (priv sch) → q_qlen sch ≠ 0 → now < U64_MAX →
  marco_fq_dequeue fuel now jiffies sch = Some (None, sch') →
  let q' := priv sch' in
  marco_fq_peek (internal q') = None ∧ new_flows q' = [] ∧ old_flows q' = [] ∧
  (∀ f, f ∈ rb_inorder (delayed q') → now < flow_time_next_packet q' f) ∧
  (time_next_delayed_flow q' ≠ U64_MAX →
   now < time_next_delayed_flow q' ∧
   watchdog q' = Some (time_next_delayed_flow q', timer_slack q')).
Proof.
  intros Hwf Hlen Hnow H. unfold marco_fq_dequeue in H.
  destruct (Z.eqb_spec (q_qlen sch) 0); [done|].
  destruct (marco_fq_peek (internal (priv sch))) as [skb|] eqn:Hpeek.
  { destruct (marco_fq_dequeue_skb INTERNAL skb sch); simpl in H; by simplify_eq. }
  assert (sched_wf (set_ktime_cache now (priv sch))) as Hwf0.
  { eapply sched_wf_ext; [done|intros g; by fq_simpl|by fq_simpl..]. }
  destruct (marco_fq_check_throttled_spec now _ (sched_wf_deferral_wf _ Hwf0))
    as (q1 & due & H1 & H2 & _ & _ & _ & _ & H7).
  rewrite H1 in H. cbn [mbind option_bind] in H.
  destruct (marco_fq_check_throttled_wf _ _ _ Hwf0 H1) as [Hwf1 Harm1].
  destruct (marco_fq_dequeue_begin fuel now jiffies (set_priv q1 sch))
    as [[sel sch2]|] eqn:Hb; [|done].
  cbn [mbind option_bind] in H.
  destruct sel as [[f skb]|].
  { destruct (marco_fq_dequeue_charge now f skb (priv sch2)); simpl in H; by simplify_eq. }
  injection H as <-.
  destruct (marco_fq_dequeue_begin_wf fuel now jiffies (set_priv q1 sch) None sch2)
    as ([Hwf2 Hmin2] & Harm2 & _); [done..|].
  destruct (marco_fq_dequeue_begin_frame _ _ _ _ _ _ INTERNAL Hb) as (_ & Hint & _).
  { fq_proj. intros Hin. destruct (wf_linked _ (proj1 Hwf1) INTERNAL) as [? _]; [|done].
    unfold linked. set_solver. }
  destruct (marco_fq_dequeue_begin_null _ _ _ _ _ Hb) as (Hn & Ho & Hw).
  cbv zeta. split_and!; try done.
  - simpl in Hint. injection Hint as ->.
    assert (get_flow q1 INTERNAL = get_flow (set_ktime_cache now (priv sch)) INTERNAL) as E.
    { apply H7. intros Hd. destruct (wf_linked _ (proj1 Hwf0) INTERNAL) as [? _]; [|done].
      unfold linked. rewrite H2. set_solver. }
    simpl in E. injection E as ->. by fq_proj.
  - intros g Hg. specialize (Hmin2 g Hg). destruct Harm2 as [?|E]; [lia|].
    rewrite E in Hmin2. lia.
  - intros Hne. split; [|by apply Hw]. by destruct Harm2.
Qed.
End runs.

Section lookup.
Implicit Types (q : marco_fq_sched_data) (sch : Qdisc) (f g h : flow_ref).

(** The walk of the collector stops at the socket it looks for and at
    [FQ_GC_MAX] flows. *)
Lemma marco_fq_gc_walk_bound heap jiffies sk0 t acc l :
  marco_fq_gc_walk heap jiffies sk0 t acc = Some l →
  (Z.of_nat (length acc) < FQ_GC_MAX → Z.of_nat (length l) <= FQ_GC_MAX) ∧
  (sk0 ∉ acc → sk0 ∉ l).
Proof.
  revert acc. induction t as [|tl IHl x tr IHr]; intros acc; simpl.
  - intros [= <-]. split; [lia|done].
  - destruct (heap !! x) as [fl|] eqn:Hx; [|done]. cbn [mbind option_bind].
    destruct (Z.eqb_spec x sk0) as [->|Hne]; [intros [= <-]; split; [lia|done]|].
    destruct (marco_fq_gc_candidate jiffies fl) eqn:Hc.
    + assert (sk0 ∉ acc → sk0 ∉ acc ++ [x]) as Hacc.
      { intros Ha [?| ->%list_elem_of_singleton]%elem_of_app; done. }
      destruct (Z.eqb_spec (Z.of_nat (length (acc ++ [x]))) FQ_GC_MAX) as [E|E].
      { intros [= <-]. split; [lia|done]. }
      rewrite length_app in E. simpl in E.
      destruct (x >? sk0); intros H;
        [destruct (IHr _ H) as [B1 B2]|destruct (IHl _ H) as [B1 B2]];
        (split; [intros Hlen; apply B1; rewrite length_app; simpl; lia|auto]).
    + destruct (x >? sk0); [apply IHr|apply IHl].
Qed.

(** What [marco_fq_gc] frees. *)
Lemma marco_fq_gc_spec jiffies idx sk0 q q' :
  marco_fq_gc jiffies idx sk0 q = Some q' →
  ∃ tofree,
    Z.of_nat (length tofree) <= FQ_GC_MAX ∧ (sk0 ∉ tofree) ∧
    (∀ k, k ∈ tofree →
          ∃ fl, flow_heap q !! k = Some fl ∧ marco_fq_gc_candidate jiffies fl = true) ∧
    (∀ k fl, flow_heap q' !! k = Some fl ↔ flow_heap q !! k = Some fl ∧ k ∉ tofree) ∧
    (tofree = [] → q' = q) ∧
    (tofree ≠ [] →
     flows q' = u32 (flows q - Z.of_nat (length tofree)) ∧
     inactive_flows q' = u32 (inactive_flows q - Z.of_nat (length tofree)) ∧
     stat_gc_flows q' = u64 (stat_gc_flows q + Z.of_nat (length tofree))).
Proof.
  unfold marco_fq_gc. intros H.
  destruct (get_root q idx) as [root|] eqn:Hroot; cbn [mbind option_bind] in H; [|done].
  destruct (marco_fq_gc_walk _ _ _ _ _) as [tofree|] eqn:Hwalk;
    cbn [mbind option_bind] in H; [|done].
  exists tofree.
  destruct (marco_fq_gc_walk_bound _ _ _ _ _ _ Hwalk) as [Hlen Hsk].
  pose proof (marco_fq_gc_walk_candidates _ _ _ _ _ _ Hwalk) as Hcand.
  split; [apply Hlen; by vm_compute|]. split; [apply Hsk, not_elem_of_nil|].
  split. { intros k Hk. by destruct (Hcand k Hk) as [?%elem_of_nil|?]. }
  destruct tofree as [|k0 tofree0] eqn:Etf.
  - simplify_eq. split_and!; [|done..]. intros k fl. split; [|by intros [? _]].
    intros ?. split; [done|apply not_elem_of_nil].
  - rewrite <- Etf in *. injection H as <-. unfold set_root. fq_simpl.
    split_and!; [|by rewrite Etf|done].
    intros k fl. rewrite foldl_delete_lookup_Some. tauto.
Qed.

(** A packet of a socket whose flow is in the heap is given that flow:
    the collector does not free the flow it is looking for, and the
    descent finds it in its shard. *)
Lemma marco_fq_classify_hit jiffies alloc_ok skb q f skb' q' :
  sched_wf q →
  Z.land (priority skb) TC_PRIO_MAX ≠ TC_PRIO_CONTROL →
  is_Some (get_flow q (FLOW (classify_key q skb))) →
  marco_fq_classify jiffies alloc_ok skb q = Some (f, skb', q') →
  f = FLOW (classify_key q skb) ∧ is_Some (get_flow q' f) ∧
  stat_allocation_errors q' = stat_allocation_errors q ∧
  ∀ k, is_Some (flow_heap q' !! k) → is_Some (flow_heap q !! k).
Proof.
  unfold marco_fq_classify, classify_key. intros [Hwf Hmin] Hprio Hin H.
  destruct (Z.eqb_spec (Z.land (priority skb) TC_PRIO_MAX) TC_PRIO_CONTROL); [done|].
  cbv zeta in Hin, H |- *.
  set (orphan := Z.lor (Z.shiftl (Z.land (skb_hash skb) (orphan_mask q)) 1) 1) in *.
  set (key := match skb_sk skb with
              | Some s => if sk_listener s then orphan
                          else if sk_state s =? TCP_CLOSE then orphan else sk_ptr s
              | None => orphan
              end) in *.
  assert (∃ skb0, (match skb_sk skb with
                   | Some s =>
                       if sk_listener s then (orphan, set_skb_sk None skb)
                       else if sk_state s =? TCP_CLOSE then (orphan, skb)
                       else (sk_ptr s, skb)
                   | None => (orphan, set_skb_sk None skb)
                   end) = (key, skb0)) as [skb0 Hkey].
  { unfold key. destruct (skb_sk skb) as [s|]; [|by eexists].
    destruct (sk_listener s); [by eexists|]. destruct (_ =? _); by eexists. }
  rewrite Hkey in H. clear Hkey.
  match type of H with
  | (?c ≫= _) = _ => destruct c as [q1|] eqn:Hgc; [|done]
  end.
  cbn [mbind option_bind] in H.
  assert (links_wf q1 ∧ fq_trees_log q1 = fq_trees_log q ∧
          get_flow q1 (FLOW key) = get_flow q (FLOW key) ∧
          stat_allocation_errors q1 = stat_allocation_errors q ∧
          ∀ k, is_Some (flow_heap q1 !! k) → is_Some (flow_heap q !! k))
    as (Hwf1 & Hlog1 & Hget1 & Hst1 & Hdom1).
  { match type of Hgc with
    | (if ?c then _ else _) = _ => destruct c
    end; [|by simplify_eq].
    destruct (marco_fq_gc_wf _ _ _ _ _ Hwf Hgc) as (Hw & _ & Hlog & _).
    destruct (marco_fq_gc_spec _ _ _ _ _ Hgc) as (tofree & _ & Hsk & _ & Hheap & He & Hc).
    split_and!; [done|done| | |].
    - destruct Hin as [fl Hfl]. rewrite Hfl. simpl. apply Hheap. done.
    - destruct tofree; [by rewrite He|].
      unfold marco_fq_gc in Hgc. destruct (get_root q _); [|done].
      cbn [mbind option_bind] in Hgc.
      destruct (marco_fq_gc_walk _ _ _ _ _) as [[|??]|]; cbn [mbind option_bind] in Hgc;
        simplify_eq; [done|]. unfold set_root. by fq_simpl.
    - intros k [fl [Hk _]%Hheap]. by eexists. }
  rewrite <- Hlog1 in H. rewrite <- Hget1 in Hin. clear Hgc Hget1.
  destruct (get_root q1 _) as [root|] eqn:Hroot; [|done]. cbn [mbind option_bind] in H.
  assert (fq_root_lookup key root = true) as Hlook.
  { destruct (wf_fq_root _ Hwf1) as (roots & Hroots & Hbst & Hfiled & _).
    destruct (Hfiled key Hin) as (r & Hr & Hk).
    unfold get_root in Hroot. rewrite Hroots in Hroot. simpl in Hroot.
    rewrite Hroot in Hr. injection Hr as <-.
    apply fq_root_lookup_elem_of; [by eapply Hbst|done]. }
  rewrite Hlook in H. destruct Hin as [fl Hget]. rewrite Hget in H.
  cbn [mbind option_bind] in H.
  assert (∀ q2 fl2, (∀ g, get_flow q2 g = get_flow (set_flow (FLOW key) fl2 q1) g) →
            ∀ k, is_Some (flow_heap q2 !! k) → is_Some (flow_heap q !! k)) as Hdom.
  { intros q2 fl2 Hq2 k Hk. apply Hdom1. specialize (Hq2 (FLOW k)).
    destruct (decide (k = key)) as [->|Hne]; [by eexists|].
    rewrite get_set_flow_ne in Hq2 by congruence. simpl in Hq2. by rewrite <- Hq2. }
  destruct (skb_sk_is skb0 key) as [s|].
  2:{ simplify_eq. split_and!; [done|by eexists|done|done]. }
  destruct (negb (socket_hash fl =? sk_hash s)).
  2:{ simplify_eq. split_and!; [done|by eexists|done|done]. }
  destruct (marco_fq_flow_is_throttled _).
  - erewrite marco_fq_flow_unset_throttled_eq in H by apply get_set_flow_eq.
    cbn [mbind option_bind] in H. rewrite get_set_flow_eq in H.
    cbn [mbind option_bind] in H. simplify_eq.
    split_and!; [done|rewrite get_set_flow_eq; by eexists|by fq_simpl|].
    eapply Hdom. flow_reads (FLOW key).
  - cbn [mbind option_bind] in H. rewrite get_set_flow_eq in H.
    cbn [mbind option_bind] in H. simplify_eq.
    split_and!; [done|rewrite get_set_flow_eq; by eexists|by fq_simpl|].
    eapply Hdom. flow_reads (FLOW key).
Qed.
End lookup.

Section control.
Implicit Types (q : marco_fq_sched_data) (sch : Qdisc) (f g h : flow_ref).

(** A packet of control priority that is accepted is alone in the
    internal flow when that flow was empty. *)
Lemma marco_fq_enqueue_flow_control jiffies fa ia skb sch free sch' :
  Z.land (priority skb) TC_PRIO_MAX = TC_PRIO_CONTROL →
  marco_fq_peek (internal (priv sch)) = None →
  marco_fq_enqueue_flow jiffies fa ia skb sch = Some (NET_XMIT_SUCCESS, free, sch') →
  head (internal (priv sch')) = [skb] ∧ t_root (internal (priv sch')) = RB_ROOT ∧
  q_qlen sch' = u32 (q_qlen sch + 1).
Proof.
  intros Hprio Hpeek H. unfold marco_fq_enqueue_flow, marco_fq_classify in H.
  rewrite Hprio in H. change (TC_PRIO_CONTROL =? TC_PRIO_CONTROL) with true in H.
  cbn [mbind option_bind get_flow] in H.
  apply marco_fq_peek_None in Hpeek. unfold flow_packets in Hpeek.
  apply app_eq_nil in Hpeek as [Hhead Htree].
  assert (t_root (internal (priv sch)) = RB_ROOT) as Hroot.
  { destruct (t_root (internal (priv sch))) as [|l x r]; [done|].
    simpl in Htree. by destruct (rb_inorder l). }
  simpl in H. rewrite andb_false_r in H.
  match type of H with
  | (?c ≫= _) = _ =>
      assert (∃ q3, c = Some q3 ∧ head (internal q3) = [] ∧ t_root (internal q3) = RB_ROOT)
        as (q3 & Hc & Hh3 & Hr3)
  end.
  { destruct (marco_fq_flow_is_detached _).
    - cbn [mbind option_bind]. eexists. split; [done|].
      destruct (time_after _ _); by fq_proj.
    - eexists. split; [done|]. by fq_proj. }
  rewrite Hc in H. cbn [mbind option_bind] in H. fq_proj_in H.
  match type of H with
  | match ?c with _ => _ end = _ => destruct c as [tbl|]
  end; [|done].
  injection H as <- <-. fq_proj. unfold marco_flow_queue_add. rewrite Hh3. simpl.
  by fq_proj.
Qed.

Lemma marco_fq_enqueue_control now jiffies fa ia skb sch free sch' :
  Z.land (priority skb) TC_PRIO_MAX = TC_PRIO_CONTROL →
  marco_fq_peek (internal (priv sch)) = None →
  marco_fq_enqueue now jiffies fa ia skb sch = Some (NET_XMIT_SUCCESS, free, sch') →
  ∃ skb1, skb_id skb1 = skb_id skb ∧
    head (internal (priv sch')) = [skb1] ∧ t_root (internal (priv sch')) = RB_ROOT ∧
    q_qlen sch' = u32 (q_qlen sch + 1) ∧ q_qlen sch < limit sch.
Proof.
  intros Hprio Hpeek H. unfold marco_fq_enqueue in H.
  destruct (Z.leb_spec (limit sch) (q_qlen sch)); [done|].
  repeat match type of H with
         | (if ?c then _ else _) = _ => destruct c
         end;
    try done;
    apply marco_fq_enqueue_flow_control in H as (E1 & E2 & E3); try done;
    eexists; (split; [|split; [exact E1|split; [exact E2|split; [exact E3|done]]]]);
    done.
Qed.

(** The next dequeue returns the packet of the internal flow. *)
Lemma marco_fq_dequeue_internal fuel now jiffies sch skb :
  q_qlen sch ≠ 0 →
  head (internal (priv sch)) = [skb] → t_root (internal (priv sch)) = RB_ROOT →
  ∃ sch', marco_fq_dequeue fuel now jiffies sch = Some (Some skb, sch') ∧
          marco_fq_peek (internal (priv sch')) = None ∧
          q_qlen sch' = u32 (q_qlen sch - 1).
Proof.
  intros Hlen Hhead Hroot. unfold marco_fq_dequeue.
  destruct (Z.eqb_spec (q_qlen sch) 0); [done|].
  unfold marco_fq_peek at 1. rewrite Hhead, Hroot. simpl.
  eexists. split; [done|]. unfold qdisc_bstats_update. fq_proj. split; [|done].
  unfold marco_fq_erase_head. rewrite Hhead. unfold skb_eqb. rewrite Z.eqb_refl.
  unfold marco_fq_peek. fq_proj. by rewrite Hroot.
Qed.
End control.

Section counting.
Implicit Types (q : marco_fq_sched_data) (sch : Qdisc) (f g h : flow_ref)
  (tbl : list hash_ip_count).

Lemma ip_count_income_pairs src des tbl tbl' :
  ip_count_income src des tbl = Some tbl' → ip_pairs tbl' = ip_pairs tbl.
Proof.
  revert tbl'. induction tbl as [|e rest IH]; intros tbl'; simpl; [done|].
  destruct (_ && _); [by intros [= <-]|].
  destruct (ip_count_income src des rest) as [r|]; simpl; [|done].
  intros [= <-]. unfold ip_pairs in *. simpl. f_equal. by apply IH.
Qed.

Lemma ip_count_income_None src des tbl :
  ip_count_income src des tbl = None ↔ (src, des) ∉ ip_pairs tbl.
Proof.
  induction tbl as [|e rest IH]; simpl.
  - split; [intros _; apply not_elem_of_nil|done].
  - unfold ip_pairs in *. simpl. rewrite not_elem_of_cons.
    destruct (Z.eqb_spec (d_ip e) des), (Z.eqb_spec (s_ip e) src); simpl.
    + split; [done|]. intros [Hne _]. subst. done.
    + rewrite fmap_None, IH. split; [intros ?; split; [congruence|done]|tauto].
    + rewrite fmap_None, IH. split; [intros ?; split; [congruence|done]|tauto].
    + rewrite fmap_None, IH. split; [intros ?; split; [congruence|done]|tauto].
Qed.

Lemma ip_count_outgo_pairs src des tbl t :
  ip_pairs (ip_count_outgo src des tbl t).1 = ip_pairs tbl.
Proof.
  revert t. induction tbl as [|e rest IH]; intros t; simpl; [done|].
  destruct (_ && _).
  - match goal with
    | |- context [ip_count_outgo src des rest ?t0] =>
        specialize (IH t0); destruct (ip_count_outgo src des rest t0)
    end.
    unfold ip_pairs in *. simpl in *. by f_equal.
  - specialize (IH t). destruct (ip_count_outgo src des rest t).
    unfold ip_pairs in *. simpl in *. by f_equal.
Qed.

(** Without an entry of the reverse direction nothing happens. *)
Lemma ip_count_outgo_other src des tbl t :
  (des, src) ∉ ip_pairs tbl → ip_count_outgo src des tbl t = (tbl, t).
Proof.
  revert t. induction tbl as [|e rest IH]; intros t; simpl; [done|].
  unfold ip_pairs. simpl. rewrite not_elem_of_cons. intros [Hne Hrest].
  destruct (Z.eqb_spec (s_ip e) des), (Z.eqb_spec (d_ip e) src); simpl;
    [exfalso; apply Hne; congruence|..]; by rewrite IH.
Qed.

(** The entry of the reverse direction is counted down when it is
    positive, and the packet waits 10 ms more when more than 5 are left. *)
Lemma ip_count_outgo_spec src des tbl t :
  NoDup (ip_pairs tbl) →
  ip_count_outgo src des tbl t =
  (((λ e, if (s_ip e =? des) && (d_ip e =? src) && (0 <? count e)
          then Build_ip_count (s_ip e) (d_ip e) (count e - 1) else e) <$> tbl),
   match list_find (λ e, s_ip e = des ∧ d_ip e = src) tbl with
   | Some (_, e) => if 6 <? count e then u64 (t + 10000000) else t
   | None => t
   end).
Proof.
  set (dec := λ e, if (s_ip e =? des) && (d_ip e =? src) && (0 <? count e)
                   then Build_ip_count (s_ip e) (d_ip e) (count e - 1) else e).
  assert (∀ rest, (des, src) ∉ ip_pairs rest → dec <$> rest = rest) as Hid.
  { induction rest as [|e1 rest IH]; [done|].
    unfold ip_pairs. rewrite !fmap_cons, not_elem_of_cons. intros [Hne Hrest].
    f_equal; [|by apply IH]. unfold dec.
    destruct (Z.eqb_spec (s_ip e1) des), (Z.eqb_spec (d_ip e1) src); simpl; try done.
    exfalso. apply Hne. congruence. }
  revert t. induction tbl as [|e rest IH]; intros t Hnd; [done|].
  unfold ip_pairs in Hnd. rewrite fmap_cons in Hnd. apply NoDup_cons in Hnd as [Hout Hnd].
  rewrite fmap_cons. cbn [ip_count_outgo list_find].
  destruct (decide (s_ip e = des ∧ d_ip e = src)) as [[E1 E2]|Hne].
  - assert ((des, src) ∉ ip_pairs rest) as Hother by (by rewrite <- E1, <- E2).
    rewrite (Hid rest Hother). unfold dec.
    rewrite !(proj2 (Z.eqb_eq _ _)) by done. cbn [andb].
    destruct (Z.ltb_spec 0 (count e)).
    + rewrite ip_count_outgo_other by done. cbn [fst snd].
      destruct (Z.ltb_spec 5 (count e - 1)), (Z.ltb_spec 6 (count e)); try lia; done.
    + rewrite ip_count_outgo_other by done. cbn [fst snd].
      destruct (Z.ltb_spec 6 (count e)); [lia|done].
  - assert ((s_ip e =? des) && (d_ip e =? src) = false) as Hf.
    { destruct (Z.eqb_spec (s_ip e) des), (Z.eqb_spec (d_ip e) src); simpl; try done.
      exfalso. by apply Hne. }
    unfold dec at 1. rewrite Hf. cbn [andb]. rewrite IH by done. f_equal.
    destruct (list_find _ rest) as [[i e1]|]; done.
Qed.

Lemma marco_fq_classify_addr jiffies alloc_ok skb q f skb' q' :
  marco_fq_classify jiffies alloc_ok skb q = Some (f, skb', q') →
  saddr skb' = saddr skb ∧ daddr skb' = daddr skb.
Proof.
  unfold marco_fq_classify. intros H.
  destruct (Z.land (priority skb) TC_PRIO_MAX =? TC_PRIO_CONTROL); [by simplify_eq|].
  match type of H with
  | (let '(_, _) := ?p in _) = _ =>
      assert (saddr p.2 = saddr skb ∧ daddr p.2 = daddr skb) as Hskb
        by (destruct (skb_sk skb) as [s|];
            [destruct (sk_listener s); [|destruct (sk_state s =? TCP_CLOSE)]|]; done);
      destruct p as [sk0 skb0]
  end.
  simpl in Hskb.
  match type of H with
  | (?c ≫= _) = _ => destruct c as [q1|]; [|done]
  end.
  cbn [mbind option_bind] in H.
  destruct (get_root q1 _) as [root|]; [|done]. cbn [mbind option_bind] in H.
  destruct (fq_root_lookup sk0 root).
  - destruct (get_flow q1 (FLOW sk0)) as [fl|] eqn:Hget; [|done].
    cbn [mbind option_bind] in H.
    destruct (skb_sk_is skb0 sk0) as [s|]; [|by simplify_eq].
    destruct (negb (socket_hash fl =? sk_hash s)); [|by simplify_eq].
    destruct (marco_fq_flow_is_throttled _).
    + erewrite marco_fq_flow_unset_throttled_eq in H by apply get_set_flow_eq.
      cbn [mbind option_bind] in H. rewrite get_set_flow_eq in H.
      cbn [mbind option_bind] in H. by simplify_eq.
    + cbn [mbind option_bind] in H. rewrite get_set_flow_eq in H.
      cbn [mbind option_bind] in H. by simplify_eq.
  - destruct (negb alloc_ok); by simplify_eq.
Qed.

(** [ENOMEM] is for the first packet of an address pair only, and an
    entry is never taken out. *)
Lemma marco_fq_enqueue_flow_table jiffies fa ia skb sch ret free sch' :
  marco_fq_enqueue_flow jiffies fa ia skb sch = Some (ret, free, sch') →
  (ret = ENOMEM → ia = false ∧ (saddr skb, daddr skb) ∉ ip_pairs (ip_count_table sch)) ∧
  (ip_pairs (ip_count_table sch') = ip_pairs (ip_count_table sch) ∨
   ((saddr skb, daddr skb) ∉ ip_pairs (ip_count_table sch)) ∧
   ip_pairs (ip_count_table sch') = (saddr skb, daddr skb) :: ip_pairs (ip_count_table sch)).
Proof.
  unfold marco_fq_enqueue_flow. intros H.
  destruct (marco_fq_classify jiffies fa skb (priv sch)) as [[[f skb1] q1]|] eqn:Hcl;
    [|done].
  destruct (marco_fq_classify_addr _ _ _ _ _ _ _ Hcl) as [Hs Hd].
  cbn [mbind option_bind] in H.
  destruct (get_flow q1 f) as [fl|] eqn:Hget; [|done]. cbn [mbind option_bind] in H.
  destruct (_ && _); [unfold qdisc_drop in H; simplify_eq; split; [done|by left]|].
  match type of H with
  | (?c ≫= _) = _ =>
      assert (∃ q3 fl3, c = Some q3 ∧ get_flow q3 f = Some fl3)
        as (q3 & fl3 & Hc & Hget3)
  end.
  { destruct (marco_fq_flow_is_detached fl).
    - erewrite marco_fq_flow_add_tail_eq by apply get_set_flow_eq.
      cbn [mbind option_bind]. rewrite get_set_flow_eq. cbn [mbind option_bind].
      eexists _, _. split; [done|]. by fq_simpl.
    - eexists _, _. split; [done|]. apply get_set_flow_eq. }
  rewrite Hc in H. cbn [mbind option_bind] in H. fq_proj_in H.
  rewrite Hs, Hd in H.
  destruct (ip_count_income (saddr skb) (daddr skb) (ip_count_table sch)) as [tbl|] eqn:Hin.
  - rewrite Hget3 in H. cbn [mbind option_bind] in H. simplify_eq. fq_proj.
    split; [done|]. left. by eapply ip_count_income_pairs.
  - apply ip_count_income_None in Hin. destruct ia.
    + rewrite Hget3 in H. cbn [mbind option_bind] in H. simplify_eq. fq_proj.
      split; [done|]. by right.
    + simplify_eq. fq_proj. split; [done|]. by left.
Qed.

Lemma marco_fq_enqueue_table now jiffies fa ia skb sch ret free sch' :
  marco_fq_enqueue now jiffies fa ia skb sch = Some (ret, free, sch') →
  (ret = ENOMEM → ia = false ∧ (saddr skb, daddr skb) ∉ ip_pairs (ip_count_table sch)) ∧
  (ip_pairs (ip_count_table sch') = ip_pairs (ip_count_table sch) ∨
   ((saddr skb, daddr skb) ∉ ip_pairs (ip_count_table sch)) ∧
   ip_pairs (ip_count_table sch') = (saddr skb, daddr skb) :: ip_pairs (ip_count_table sch)).
Proof.
  unfold marco_fq_enqueue. intros H.
  repeat match type of H with
         | (if ?c then _ else _) = _ => destruct c
         end;
    try (unfold qdisc_drop in H; simplify_eq; split; [done|by left]);
    by apply marco_fq_enqueue_flow_table in H.
Qed.

Lemma marco_fq_dequeue_turn_table now jiffies sch r :
  marco_fq_dequeue_turn now jiffies sch = Some r →
  let sch' := match r with GOTO_BEGIN s | RETURN_NULL s | DEQUEUED _ _ s => s end in
  ip_pairs (ip_count_table sch') = ip_pairs (ip_count_table sch).
Proof.
  intros H. turn_inv H; cbv zeta;
    repeat match goal with
           | |- context [if ?c then _ else _] => destruct c
           end; fq_proj; try done;
    match goal with
    | Hp : ip_count_outgo ?s ?d ?tbl ?t = (?l, _) |- _ =>
        pose proof (ip_count_outgo_pairs s d tbl t) as Ho; rewrite Hp in Ho; exact Ho
    end.
Qed.

Lemma marco_fq_dequeue_begin_table fuel now jiffies sch sel sch' :
  marco_fq_dequeue_begin fuel now jiffies sch = Some (sel, sch') →
  ip_pairs (ip_count_table sch') = ip_pairs (ip_count_table sch).
Proof.
  revert sch. induction fuel as [|fuel IH]; intros sch H; [done|].
  simpl in H. destruct (marco_fq_dequeue_turn now jiffies sch) as [r|] eqn:Hr; [|done].
  pose proof (marco_fq_dequeue_turn_table _ _ _ _ Hr) as Ht.
  destruct r as [sch1|sch1|h skb sch1]; cbv beta iota zeta in Ht;
    cbn [mbind option_bind] in H.
  - rewrite <- Ht. by apply IH.
  - by injection H as <- <-.
  - by injection H as <- <-.
Qed.

Lemma marco_fq_dequeue_table fuel now jiffies sch r sch' :
  marco_fq_dequeue fuel now jiffies sch = Some (r, sch') →
  ip_pairs (ip_count_table sch') = ip_pairs (ip_count_table sch).
Proof.
  unfold marco_fq_dequeue. intros H.
  destruct (q_qlen sch =? 0); [by simplify_eq|].
  destruct (marco_fq_peek (internal (priv sch))) as [skb|].
  { unfold marco_fq_dequeue_skb in H. simpl in H. by simplify_eq. }
  destruct (marco_fq_check_throttled now _) as [q1|]; [|done].
  cbn [mbind option_bind] in H.
  destruct (marco_fq_dequeue_begin fuel now jiffies (set_priv q1 sch))
    as [[sel sch1]|] eqn:Hb; [|done].
  cbn [mbind option_bind] in H.
  apply marco_fq_dequeue_begin_table in Hb. fq_proj_in Hb.
  destruct sel as [[h skb]|]; [|by injection H as <- <-].
  destruct (marco_fq_dequeue_charge now h skb (priv sch1)) as [q2|]; [|done].
  cbn [mbind option_bind] in H. injection H as <- <-.
  unfold qdisc_bstats_update. by fq_proj.
Qed.

Lemma marco_fq_change_table fuel clock jiffies alloc_ok opt sch err dropped sch' :
  marco_fq_change fuel clock jiffies alloc_ok opt sch = Some (err, dropped, sch') →
  ip_pairs (ip_count_table sch') = ip_pairs (ip_count_table sch).
Proof.
  intros H. unfold marco_fq_change in H. destruct opt as [tb|]; [|by simplify_eq].
  assert (ip_count_table (marco_fq_change_attrs tb sch).2 = ip_count_table sch) as Ha
    by attrs_keep (λ st : Z * Z * Qdisc, ip_count_table st.2).
  destruct (marco_fq_change_attrs tb sch) as [[err1 fq_log] sch1]. simpl in Ha.
  match type of H with
  | (?c ≫= _) = _ => destruct c as [[err2 sch2]|] eqn:H2; [|done]
  end.
  cbn [mbind option_bind] in H.
  assert (ip_count_table sch2 = ip_count_table sch1) as H21.
  { destruct (err1 =? 0); [|by simplify_eq].
    destruct (marco_fq_resize jiffies alloc_ok fq_log (priv sch1)) as [[e q]|]; [|done].
    cbn [mbind option_bind] in H2. by simplify_eq. }
  destruct (marco_fq_change_drain _ _ _ _ _ _) as [[d sch3]|] eqn:H3; [|done].
  cbn [mbind option_bind] in H. simplify_eq. rewrite <- Ha, <- H21.
  clear -H3. revert H3. generalize (@nil sk_buff), O.
  generalize (Z.to_nat (q_qlen sch2)). intros n. revert sch2.
  induction n as [|n IH]; intros sch2 l k H; simpl in H; [by simplify_eq|].
  destruct (limit sch2 <? q_qlen sch2); [|by simplify_eq].
  destruct (marco_fq_dequeue fuel (clock k).1 (clock k).2 sch2) as [[r sch4]|] eqn:Hd;
    [|done].
  cbn [mbind option_bind] in H. apply marco_fq_dequeue_table in Hd.
  destruct r as [skb|]; [|by simplify_eq]. rewrite <- Hd. by eapply IH.
Qed.

Lemma marco_fq_reset_table sch :
  ip_count_table (marco_fq_reset sch) = ip_count_table sch.
Proof.
  unfold marco_fq_reset. cbv zeta. fq_proj. destruct (fq_root (priv sch)); [|done].
  destruct (marco_fq_reset_roots _ _). by fq_proj.
Qed.

(** No call takes an entry out of the counting table, and no address
    pair gets a second entry. *)
Lemma marco_fq_calls_table calls sch rets sch' :
  NoDup (ip_pairs (ip_count_table sch)) →
  fq_calls calls sch = Some (rets, sch') →
  NoDup (ip_pairs (ip_count_table sch')) ∧
  ip_pairs (ip_count_table sch) `suffix_of` ip_pairs (ip_count_table sch').
Proof.
  revert sch rets. induction calls as [|call calls IH]; intros sch rets Hnd H;
    simpl in H; [by simplify_eq|].
  destruct call as [now jiffies fa ia skb|fuel now jiffies|fuel clock jiffies ok opt|].
  - destruct (marco_fq_enqueue now jiffies fa ia skb sch) as [[[ret free] sch1]|] eqn:H1;
      [|done].
    cbn [mbind option_bind] in H.
    destruct (fq_calls calls sch1) as [[rets1 sch2]|] eqn:H2; [|done].
    cbn [mbind option_bind] in H. simplify_eq.
    destruct (marco_fq_enqueue_table _ _ _ _ _ _ _ _ _ H1) as [_ [E|[Hnew E]]].
    + rewrite <- E in *. by eapply IH.
    + destruct (IH sch1 rets1) as [I1 I2]; [rewrite E; by constructor|done|].
      split; [done|]. etrans; [|exact I2]. rewrite E. by apply suffix_cons_r.
  - destruct (marco_fq_dequeue fuel now jiffies sch) as [[r sch1]|] eqn:H1; [|done].
    cbn [mbind option_bind] in H. apply marco_fq_dequeue_table in H1.
    rewrite <- H1 in *. by eapply IH.
  - destruct (marco_fq_change fuel clock jiffies ok opt sch) as [[[e d] sch1]|] eqn:H1;
      [|done].
    cbn [mbind option_bind] in H. apply marco_fq_change_table in H1.
    rewrite <- H1 in *. by eapply IH.
  - rewrite <- (marco_fq_reset_table sch) in *. by eapply IH.
Qed.
End counting.

Section dump.
Implicit Types (q : marco_fq_sched_data) (sch : Qdisc) (f g h : flow_ref).



End dump.

Section limit.
Implicit Types (q : marco_fq_sched_data) (sch : Qdisc) (f g h : flow_ref).

Lemma marco_fq_dequeue_turn_qlen now jiffies sch r :
  marco_fq_dequeue_turn now jiffies sch = Some r →
  match r with
  | GOTO_BEGIN s | RETURN_NULL s => q_qlen s = q_qlen sch
  | DEQUEUED _ _ s => q_qlen s = u32 (q_qlen sch - 1)
  end.
Proof.
  intros H. turn_inv H;
    repeat match goal with
           | |- context [if ?c then _ else _] => destruct c
           end; by fq_proj.
Qed.

Lemma marco_fq_dequeue_begin_qlen fuel now jiffies sch sel sch' :
  marco_fq_dequeue_begin fuel now jiffies sch = Some (sel, sch') →
  q_qlen sch' = match sel with
                | Some _ => u32 (q_qlen sch - 1)
                | None => q_qlen sch
                end.
Proof.
  revert sch. induction fuel as [|fuel IH]; intros sch H; [done|].
  simpl in H. destruct (marco_fq_dequeue_turn now jiffies sch) as [r|] eqn:Hr; [|done].
  pose proof (marco_fq_dequeue_turn_qlen _ _ _ _ Hr) as Ht.
  destruct r as [sch1|sch1|h skb sch1]; cbn [mbind option_bind] in H.
  - rewrite <- Ht. by apply IH.
  - by injection H as <- <-.
  - by injection H as <- <-.
Qed.

(** A dequeue that gives a packet counts it out. *)
Lemma marco_fq_dequeue_qlen fuel now jiffies sch r sch' :
  marco_fq_dequeue fuel now jiffies sch = Some (r, sch') →
  q_qlen sch' = match r with
                | Some _ => u32 (q_qlen sch - 1)
                | None => q_qlen sch
                end ∧
  (is_Some r → q_qlen sch ≠ 0).
Proof.
  unfold marco_fq_dequeue. intros H.
  destruct (Z.eqb_spec (q_qlen sch) 0); [simplify_eq; split; [done|by intros [? ?]]|].
  split; [|done].
  destruct (marco_fq_peek (internal (priv sch))) as [skb|].
  { unfold marco_fq_dequeue_skb in H. simpl in H. by simplify_eq. }
  destruct (marco_fq_check_throttled now _) as [q1|]; [|done].
  cbn [mbind option_bind] in H.
  destruct (marco_fq_dequeue_begin fuel now jiffies (set_priv q1 sch))
    as [[sel sch1]|] eqn:Hb; [|done].
  cbn [mbind option_bind] in H.
  apply marco_fq_dequeue_begin_qlen in Hb. fq_proj_in Hb.
  destruct sel as [[h skb]|]; [|by injection H as <- <-].
  destruct (marco_fq_dequeue_charge now h skb (priv sch1)) as [q2|]; [|done].
  cbn [mbind option_bind] in H. injection H as <- <-.
  unfold qdisc_bstats_update. by fq_proj.
Qed.

(** The loop of [marco_fq_change] that drops the packets above the
    limit ends at the limit, or when [marco_fq_dequeue] has no packet to
    give. *)
Lemma marco_fq_change_drain_limit n fuel clock k sch dropped dropped' sch' :
  0 <= q_qlen sch <= Z.of_nat n → q_qlen sch < 2 ^ 32 → 0 <= limit sch →
  marco_fq_change_drain n fuel clock k sch dropped = Some (dropped', sch') →
  limit sch' = limit sch ∧
  Z.of_nat (length dropped') = Z.of_nat (length dropped) + (q_qlen sch - q_qlen sch') ∧
  (q_qlen sch' <= limit sch' ∨
   ∃ k' sch0, limit sch0 < q_qlen sch0 ∧
              marco_fq_dequeue fuel (clock k').1 (clock k').2 sch0 = Some (None, sch')).
Proof.
  revert k sch dropped. induction n as [|n IH]; intros k sch dropped Hlen Hmax Hlim H;
    simpl in H.
  { simplify_eq. split; [done|]. split; [lia|]. left. lia. }
  destruct (Z.ltb_spec (limit sch) (q_qlen sch)).
  2:{ simplify_eq. split; [done|]. split; [lia|]. by left. }
  destruct (marco_fq_dequeue fuel (clock k).1 (clock k).2 sch) as [[r sch1]|] eqn:Hd;
    [|done].
  cbn [mbind option_bind] in H.
  destruct (marco_fq_dequeue_qlen _ _ _ _ _ _ Hd) as [Hq _].
  pose proof (marco_fq_dequeue_config _ _ _ _ _ _ Hd) as [Hcfg _].
  unfold fq_config in Hcfg. injection Hcfg as Hl _.
  destruct r as [skb|].
  - rewrite u32_id in Hq by lia.
    apply IH in H as (I1 & I2 & I3); [|lia..].
    split; [congruence|]. split; [|done].
    rewrite I2, length_app. simpl. lia.
  - simplify_eq. split; [done|]. split; [lia|]. right. by exists k, sch.
Qed.

Lemma marco_fq_change_limit fuel clock jiffies alloc_ok tb sch err dropped sch' :
  0 <= q_qlen sch < 2 ^ 32 → 0 <= limit sch' →
  marco_fq_change fuel clock jiffies alloc_ok (Some tb) sch = Some (err, dropped, sch') →
  Z.of_nat (length dropped) = q_qlen sch - q_qlen sch' ∧
  (q_qlen sch' <= limit sch' ∨
   ∃ k sch0, limit sch0 < q_qlen sch0 ∧
             marco_fq_dequeue fuel (clock k).1 (clock k).2 sch0 = Some (None, sch')).
Proof.
  intros Hlen Hlim H. unfold marco_fq_change in H.
  assert (q_qlen (marco_fq_change_attrs tb sch).2 = q_qlen sch) as Ha
    by attrs_keep (λ st : Z * Z * Qdisc, q_qlen st.2).
  destruct (marco_fq_change_attrs tb sch) as [[err1 fq_log] sch1]. simpl in Ha.
  match type of H with
  | (?c ≫= _) = _ => destruct c as [[err2 sch2]|] eqn:H2; [|done]
  end.
  cbn [mbind option_bind] in H.
  assert (q_qlen sch2 = q_qlen sch1 ∧ limit sch2 = limit sch1) as [H21 L21].
  { destruct (err1 =? 0); [|by simplify_eq].
    destruct (marco_fq_resize jiffies alloc_ok fq_log (priv sch1)) as [[e q]|]; [|done].
    cbn [mbind option_bind] in H2. by simplify_eq. }
  destruct (marco_fq_change_drain _ _ _ _ _ _) as [[d sch3]|] eqn:H3; [|done].
  cbn [mbind option_bind] in H. injection H as <- <- <-.
  pose proof (marco_fq_change_drain_config _ _ _ _ _ _ _ _ H3) as [Hcfg _].
  unfold fq_config in Hcfg. injection Hcfg as Hl _.
  apply marco_fq_change_drain_limit in H3 as (_ & D2 & D3); [|lia..].
  split; [|done]. simpl in D2. lia.
Qed.
End limit.

Section edges.
Implicit Types (q : marco_fq_sched_data) (sch : Qdisc) (f g h : flow_ref).


(** A table of another size: the flows the collector may free are
    freed, all of them, and nothing else. *)
Lemma marco_fq_resize_collects jiffies log q err q' :
  sched_wf q → log ≠ fq_trees_log q →
  marco_fq_resize jiffies true log q = Some (err, q') →
  err = 0 ∧ fq_trees_log q' = log ∧
  (∃ roots, fq_root q' = Some roots ∧ length roots = Z.to_nat (u32 (Z.shiftl 1 log))) ∧
  (∀ k fl, flow_heap q' !! k = Some fl ↔
           flow_heap q !! k = Some fl ∧ marco_fq_gc_candidate jiffies fl = false) ∧
  ∃ fcnt,
    Z.of_nat (size (flow_heap q)) = Z.of_nat (size (flow_heap q')) + fcnt ∧
    flows q' = u32 (flows q - fcnt) ∧
    inactive_flows q' = u32 (inactive_flows q - fcnt) ∧
    stat_gc_flows q' = u64 (stat_gc_flows q + fcnt).
Proof.
  intros [Hwf _] Hlog H. unfold marco_fq_resize in H.
  destruct (Z.eqb_spec log (fq_trees_log q)); [done|]. rewrite andb_false_r in H.
  simpl in H.
  pose proof (wf_fq_root _ Hwf) as Hfq. pose proof Hfq as (old & Hold & _).
  rewrite Hold in H.
  match type of H with
  | (?c ≫= _) = _ => destruct c as [[arr q1]|] eqn:Hre; [|done]
  end.
  cbn [mbind option_bind] in H. injection H as <- <-.
  apply marco_fq_rehash_spec in Hre
    as (fcnt & Hlen & Hheap & Hsize & _ & _ & Hf & Hi & Hs & _);
    [|done|done|by intros i r [-> _]%lookup_replicate].
  fq_proj. split_and!; [done|done| |done|].
  - exists arr. split; [done|]. by rewrite Hlen, length_replicate.
  - by exists fcnt.
Qed.

(** A packet whose socket has no flow gets a new one, detached and with
    the initial quantum as its credit, or the internal flow when there is
    no memory. *)
Lemma marco_fq_classify_miss jiffies alloc_ok skb q f skb' q' :
  Z.land (priority skb) TC_PRIO_MAX ≠ TC_PRIO_CONTROL →
  get_flow q (FLOW (classify_key q skb)) = None →
  marco_fq_classify jiffies alloc_ok skb q = Some (f, skb', q') →
  if alloc_ok then
    f = FLOW (classify_key q skb) ∧
    ∃ fl, get_flow q' f = Some fl ∧ sk fl = classify_key q skb ∧
          marco_fq_flow_is_detached fl = true ∧ flow_age fl = Z.lor jiffies 1 ∧
          credit fl = s32 (initial_quantum q) ∧ flow_packets fl = [] ∧
          qlen fl = 0 ∧ time_next_packet fl = 0 ∧ next_is_throttled fl = false
  else
    f = INTERNAL ∧ flow_heap q' !! classify_key q skb = None ∧
    ∃ q1, stat_allocation_errors q' = u64 (stat_allocation_errors q1 + 1) ∧
          stat_allocation_errors q1 = stat_allocation_errors q.
Proof.
  unfold marco_fq_classify, classify_key. intros Hprio Hnone H.
  destruct (Z.eqb_spec (Z.land (priority skb) TC_PRIO_MAX) TC_PRIO_CONTROL); [done|].
  cbv zeta in Hnone, H |- *.
  set (orphan := Z.lor (Z.shiftl (Z.land (skb_hash skb) (orphan_mask q)) 1) 1) in *.
  set (key := match skb_sk skb with
              | Some s => if sk_listener s then orphan
                          else if sk_state s =? TCP_CLOSE then orphan else sk_ptr s
              | None => orphan
              end) in *.
  assert (∃ skb0, (match skb_sk skb with
                   | Some s =>
                       if sk_listener s then (orphan, set_skb_sk None skb)
                       else if sk_state s =? TCP_CLOSE then (orphan, skb)
                       else (sk_ptr s, skb)
                   | None => (orphan, set_skb_sk None skb)
                   end) = (key, skb0)) as [skb0 Hkey].
  { unfold key. destruct (skb_sk skb) as [s|]; [|by eexists].
    destruct (sk_listener s); [by eexists|]. destruct (_ =? _); by eexists. }
  rewrite Hkey in H. clear Hkey.
  match type of H with
  | (?c ≫= _) = _ => destruct c as [q1|] eqn:Hgc; [|done]
  end.
  cbn [mbind option_bind] in H.
  assert (get_flow q1 (FLOW key) = None ∧ initial_quantum q1 = initial_quantum q ∧
          stat_allocation_errors q1 = stat_allocation_errors q) as (Hnone1 & Hiq & Hst).
  { match type of Hgc with
    | (if ?c then _ else _) = _ => destruct c
    end; [|by simplify_eq].
    destruct (marco_fq_gc_spec _ _ _ _ _ Hgc) as (tofree & _ & _ & _ & Hheap & _).
    pose proof (marco_fq_gc_config _ _ _ _ _ Hgc) as Hcfg.
    unfold sched_config in Hcfg. injection Hcfg as _ _ Hiq _.
    split_and!; [|done|].
    - simpl. destruct (flow_heap q1 !! key) as [fl|] eqn:E; [|done].
      apply Hheap in E as [E _]. simpl in Hnone. congruence.
    - unfold marco_fq_gc in Hgc. destruct (get_root q _); [|done].
      cbn [mbind option_bind] in Hgc.
      destruct (marco_fq_gc_walk _ _ _ _ _) as [[|??]|]; cbn [mbind option_bind] in Hgc;
        simplify_eq; [done|]. unfold set_root. by fq_simpl. }
  clear Hgc.
  destruct (get_root q1 _) as [root|] eqn:Hroot; [|done]. cbn [mbind option_bind] in H.
  destruct (fq_root_lookup key root); [by rewrite Hnone1 in H|].
  destruct alloc_ok; simpl in H; simplify_eq.
  - split; [done|]. unfold set_root. fq_simpl. rewrite ?get_set_flow_eq.
    eexists. split; [unfold get_flow; fq_proj; apply lookup_insert_eq|].
    assert (Z.testbit (Z.lor jiffies 1) 0 = true) as Hbit.
    { rewrite Z.lor_spec. by rewrite orb_true_r. }
    destruct (skb_sk_is skb' key); unfold marco_fq_flow_is_detached, flow_age,
      marco_fq_flow_set_detached, flow_packets; fq_proj; by rewrite ?Hiq.
  - split; [done|]. fq_simpl. split; [exact Hnone1|]. by exists q1.
Qed.

(** [marco_fq_destroy] leaves no flow, no table and no timer. *)
Lemma marco_fq_destroy_frees sch :
  sched_wf (priv sch) →
  let sch' := marco_fq_destroy sch in
  flow_heap (priv sch') = ∅ ∧ marco_fq_peek (internal (priv sch')) = None ∧
  fq_root (priv sch') = None ∧ watchdog (priv sch') = None ∧
  new_flows (priv sch') = [] ∧ old_flows (priv sch') = [] ∧
  delayed (priv sch') = RB_ROOT ∧ q_qlen sch' = 0 ∧ backlog sch' = 0.
Proof.
  intros Hwf. destruct (marco_fq_reset_wf sch Hwf) as (_ & Hh & Hn & Ho & Hd & Hp).
  unfold marco_fq_destroy. cbv zeta. fq_proj. split_and!; try done.
  - unfold marco_fq_reset. cbv zeta. fq_proj. destruct (fq_root (priv sch)); [|done].
    destruct (marco_fq_reset_roots _ _). by fq_proj.
  - unfold marco_fq_reset. cbv zeta. fq_proj. destruct (fq_root (priv sch)); [|done].
    destruct (marco_fq_reset_roots _ _). by fq_proj.
Qed.
End edges.

Section stuck.
Implicit Types (q : marco_fq_sched_data) (sch : Qdisc) (f g h : flow_ref).

(** With nothing deferred [marco_fq_check_throttled] moves no flow. *)
Lemma marco_fq_check_throttled_idle now q :
  delayed q = RB_ROOT →
  ∃ q', marco_fq_check_throttled now q = Some q' ∧
        new_flows q' = new_flows q ∧ old_flows q' = old_flows q ∧
        (∀ f, get_flow q' f = get_flow q f) ∧ quantum q' = quantum q.
Proof.
  intros Hd. unfold marco_fq_check_throttled.
  destruct (now <? time_next_delayed_flow q); [by exists q|].
  cbv zeta. fq_proj. rewrite Hd. simpl. eexists. split; [done|].
  split; [by fq_simpl|]. split; [by fq_simpl|]. split; [|by fq_simpl].
  intros f. by destruct f.
Qed.

(** The selection loop reads the flow at the head of the list of new
    flows: when that flow was freed, no number of turns gives a
    result. *)
Lemma marco_fq_dequeue_freed_head fuel now jiffies sch f rest :
  q_qlen sch ≠ 0 → marco_fq_peek (internal (priv sch)) = None →
  delayed (priv sch) = RB_ROOT →
  new_flows (priv sch) = f :: rest → get_flow (priv sch) f = None →
  marco_fq_dequeue fuel now jiffies sch = None.
Proof.
  intros Hlen Hpeek Hd Hnew Hf. unfold marco_fq_dequeue.
  destruct (Z.eqb_spec (q_qlen sch) 0); [done|]. rewrite Hpeek.
  destruct (marco_fq_check_throttled_idle now (set_ktime_cache now (priv sch)))
    as (q' & -> & Hnew' & _ & Hget & _); [by fq_simpl|].
  cbn [mbind option_bind]. destruct fuel as [|fuel]; [done|].
  cbn [marco_fq_dequeue_begin]. unfold marco_fq_dequeue_turn. cbv zeta. fq_proj.
  assert (new_flows q' = f :: rest) as Hn by (rewrite Hnew'; by fq_simpl).
  unfold selected_head. rewrite Hn. cbn [head_first]. rewrite Hn.
  rewrite Hget. assert (get_flow (set_ktime_cache now (priv sch)) f = None) as ->.
  { by destruct f. }
  done.
Qed.

(** A quantum of 2^31 refills nothing: a credit of 0 becomes -2^31, a
    credit of -2^31 becomes 0, and the flow goes round the list of old
    flows. *)
Lemma marco_fq_dequeue_turn_cycles now jiffies sch f :
  credit_cycles f (priv sch) →
  ∃ sch', marco_fq_dequeue_turn now jiffies sch = Some (GOTO_BEGIN sch') ∧
          credit_cycles f (priv sch').
Proof.
  intros (Hq & Hlists & fl & Hfl & Hc).
  unfold marco_fq_dequeue_turn. cbv zeta. unfold selected_head.
  assert (credit fl <=? 0 = true) as Hle by (apply Z.leb_le; lia).
  assert (s32 (credit fl + 2 ^ 31) = 0 ∨ s32 (credit fl + 2 ^ 31) = - 2 ^ 31) as Hc'.
  { destruct Hc as [-> | ->]; [right|left]; reflexivity. }
  destruct Hlists as [[Hn Ho] | [Hn Ho]]; rewrite Hn; cbn [head_first];
    rewrite ?Hn, ?Ho, Hfl; cbn [mbind option_bind]; rewrite Hle, Hq;
    erewrite marco_fq_flow_add_tail_eq
      by (rewrite ?get_flow_set_head_first, get_set_flow_eq; done);
    cbn [mbind option_bind]; eexists; (split; [done|]); fq_proj;
    (split; [by fq_simpl|]);
    (split; [right; by fq_simpl; rewrite ?Ho|]);
    rewrite get_set_flow_eq; eexists; (split; [done|]); by fq_proj.
Qed.

Lemma marco_fq_dequeue_begin_cycles fuel now jiffies sch f :
  credit_cycles f (priv sch) → marco_fq_dequeue_begin fuel now jiffies sch = None.
Proof.
  revert sch. induction fuel as [|fuel IH]; intros sch Hc; [done|].
  cbn [marco_fq_dequeue_begin].
  destruct (marco_fq_dequeue_turn_cycles now jiffies sch f Hc) as (sch' & -> & Hc').
  cbn [mbind option_bind]. by apply IH.
Qed.

Lemma marco_fq_dequeue_cycles fuel now jiffies sch f :
  q_qlen sch ≠ 0 → marco_fq_peek (internal (priv sch)) = None →
  delayed (priv sch) = RB_ROOT → credit_cycles f (priv sch) →
  marco_fq_dequeue fuel now jiffies sch = None.
Proof.
  intros Hlen Hpeek Hd (Hq & Hlists & fl & Hfl & Hc). unfold marco_fq_dequeue.
  destruct (Z.eqb_spec (q_qlen sch) 0); [done|]. rewrite Hpeek.
  destruct (marco_fq_check_throttled_idle now (set_ktime_cache now (priv sch)))
    as (q' & -> & Hnew' & Hold' & Hget & Hq'); [by fq_simpl|].
  cbn [mbind option_bind].
  rewrite (marco_fq_dequeue_begin_cycles fuel now jiffies (set_priv q' sch) f); [done|].
  fq_proj. split; [rewrite Hq'; by fq_simpl|].
  split; [rewrite Hnew', Hold'; by fq_simpl|].
  exists fl. split; [|done]. rewrite Hget. by destruct f.
Qed.

Lemma marco_fq_reset_roots_length roots heap :
  length (marco_fq_reset_roots roots heap).1 = length roots.
Proof.
  revert heap. induction roots as [|r rs IH]; intros heap; simpl; [done|].
  destruct (marco_fq_reset_root _ _ _) as [r' heap']. specialize (IH heap').
  destruct (marco_fq_reset_roots rs heap') as [rs' heap'']. simpl in *. by rewrite IH.
Qed.

(** [marco_fq_reset] leaves every shard of the flow table empty. *)
Lemma marco_fq_reset_shards sch roots :
  fq_root (priv sch) = Some roots →
  ∃ roots', fq_root (priv (marco_fq_reset sch)) = Some roots' ∧
            length roots' = length roots ∧
            Forall (λ root, root = RB_ROOT) roots'.
Proof.
  intros Hroots. unfold marco_fq_reset. cbv zeta. fq_proj. rewrite Hroots.
  pose proof (marco_fq_reset_roots_empty roots (flow_heap (priv sch))) as Hempty.
  pose proof (marco_fq_reset_roots_length roots (flow_heap (priv sch))) as Hlen.
  destruct (marco_fq_reset_roots roots (flow_heap (priv sch))) as [roots' heap'].
  simpl in Hempty, Hlen. fq_proj. by exists roots'.
Qed.
End stuck.

(** C10 fails in the code, in two states that calls of the qdisc reach
    with a quantum above 0.  In [dangling_sch] the enqueue that returned
    [ENOMEM] left the detached flow of the socket on the list of new flows,
    the resize freed it as an idle flow, and [marco_fq_dequeue] reads the
    freed flow at the head of the list: it has no result, whatever the
    number of turns and the time.  In [wide_mtu_sch] the quantum is 2^31
    and the credit of the flow wraps between -2^31 and 0: the selection
    loop refills and rotates the flow for ever. *)
Theorem marco_fq_dequeue_never_returns :
  (fst <$> fq_calls dangling_calls example_sch = Some [ENOMEM; NET_XMIT_SUCCESS] ∧
   quantum (priv dangling_sch) = 3000 ∧ q_qlen dangling_sch = 1 ∧
   new_flows (priv dangling_sch) = [FLOW 4096; FLOW 1] ∧
   get_flow (priv dangling_sch) (FLOW 4096) = None ∧
   ∀ fuel now jiffies, marco_fq_dequeue fuel now jiffies dangling_sch = None) ∧
  (quantum (priv wide_mtu_sch) = 2 ^ 31 ∧ q_qlen wide_mtu_sch = 1 ∧
   new_flows (priv wide_mtu_sch) = [FLOW 4096] ∧
   credit <$> get_flow (priv wide_mtu_sch) (FLOW 4096) = Some (- 2 ^ 31) ∧
   ∀ fuel now jiffies, marco_fq_dequeue fuel now jiffies wide_mtu_sch = None).
Proof.
  split.
  - split; [eval_eq|]. split; [eval_eq|]. split; [eval_eq|]. split; [eval_eq|].
    split; [eval_eq|]. intros fuel now jiffies.
    apply (marco_fq_dequeue_freed_head fuel now jiffies dangling_sch (FLOW 4096) [FLOW 1]);
      [vm_compute; discriminate|eval_eq..].
  - split; [eval_eq|]. split; [eval_eq|]. split; [eval_eq|]. split; [eval_eq|].
    intros fuel now jiffies.
    apply (marco_fq_dequeue_cycles fuel now jiffies wide_mtu_sch (FLOW 4096));
      [vm_compute; discriminate|eval_eq|eval_eq|].
    split; [eval_eq|]. split; [left; split; eval_eq|].
    eexists. split; [eval_eq|]. right. reflexivity.
Qed.

(** The example states are states the scheduler reaches. *)
Lemma example_sch_wf : sched_wf (priv example_sch).
Proof.
  apply (marco_fq_init_wf 1 clock0 0 true 1500 (Some tca_two_shards) Qdisc_zero []
           example_sch); eval_eq.
Qed.

Lemma queued_sch_wf : sched_wf (priv queued_sch).
Proof.
  apply (marco_fq_enqueue_wf 0 0 true true (example_skb 1 0 7 100) example_sch
           NET_XMIT_SUCCESS [] queued_sch); [exact example_sch_wf|eval_eq|discriminate].
Qed.

Lemma throttled_sch_wf : sched_wf (priv throttled_sch).
Proof.
  apply (marco_fq_calls_wf
           [CALL_ENQUEUE 0 0 true true (example_skb 1 1000 7 100); CALL_DEQUEUE 5 0 0]
           example_sch [NET_XMIT_SUCCESS] throttled_sch);
    [exact example_sch_wf|eval_eq|].
  intros H%list_elem_of_singleton. discriminate.
Qed.

(** X1.  [marco_fq_init] on a qdisc whose private data are zeroed, as
    [qdisc_alloc] leaves them, that returns 0 leaves the links of the
    scheduler in order ([sched_wf]), with or without a request, whatever
    the request sets and whatever the packet count of the qdisc was. *)
Theorem marco_fq_init_links (fuel : nat) (clock : nat → Z * Z) (jiffies : Z)
  (alloc_ok : bool) (mtu : Z) (opt : option tca_fq) (sch : Qdisc)
  (dropped : list sk_buff) (sch' : Qdisc) :
  priv sch = sched_zero →
  marco_fq_init fuel clock jiffies alloc_ok mtu opt sch = Some (0, dropped, sch') →
  sched_wf (priv sch').
Proof. apply marco_fq_init_wf. Qed.

Lemma marco_fq_init_links_witness :
  priv Qdisc_zero = sched_zero ∧
  marco_fq_init 1 clock0 0 true 1500 (Some tca_two_shards) Qdisc_zero
  = Some (0, [], example_sch) ∧
  sched_wf (priv example_sch).
Proof.
  assert (priv Qdisc_zero = sched_zero) as Hz by reflexivity.
  assert (marco_fq_init 1 clock0 0 true 1500 (Some tca_two_shards) Qdisc_zero
          = Some (0, [], example_sch)) as Hinit by eval_eq.
  split; [exact Hz|]. split; [exact Hinit|].
  exact (marco_fq_init_links 1 clock0 0 true 1500 (Some tca_two_shards) Qdisc_zero []
           example_sch Hz Hinit).
Defined.

(** X2.  [marco_fq_enqueue] keeps the links of the scheduler in order
    unless it returns [ENOMEM]: whether the packet is dropped, goes to the
    internal flow, to a flow it finds or to a flow it allocates, and
    whatever the collector frees on the way, afterwards every linked flow
    is a live flow that is not detached, no flow is linked twice, the
    deferral index holds the throttled flows in the order of
    [time_next_packet] with [time_next_delayed_flow] not above them, and
    every flow of the heap is in the shard of its socket. *)
Theorem marco_fq_enqueue_links (now jiffies : Z) (flow_alloc_ok ip_alloc_ok : bool)
  (skb : sk_buff) (sch : Qdisc) (ret : Z) (free : list sk_buff) (sch' : Qdisc) :
  sched_wf (priv sch) →
  marco_fq_enqueue now jiffies flow_alloc_ok ip_alloc_ok skb sch = Some (ret, free, sch') →
  ret ≠ ENOMEM →
  sched_wf (priv sch').
Proof. apply marco_fq_enqueue_wf. Qed.

Lemma marco_fq_enqueue_links_witness :
  sched_wf (priv example_sch) ∧
  marco_fq_enqueue 0 0 true true (example_skb 1 0 7 100) example_sch
  = Some (NET_XMIT_SUCCESS, [], queued_sch) ∧
  NET_XMIT_SUCCESS ≠ ENOMEM ∧
  sched_wf (priv queued_sch).
Proof.
  assert (marco_fq_enqueue 0 0 true true (example_skb 1 0 7 100) example_sch
          = Some (NET_XMIT_SUCCESS, [], queued_sch)) as Henq by eval_eq.
  assert (NET_XMIT_SUCCESS ≠ ENOMEM) as Hret by discriminate.
  split; [exact example_sch_wf|]. split; [exact Henq|]. split; [exact Hret|].
  exact (marco_fq_enqueue_links 0 0 true true (example_skb 1 0 7 100) example_sch
           NET_XMIT_SUCCESS [] queued_sch example_sch_wf Henq Hret).
Defined.

(** X3.  [marco_fq_dequeue] keeps the links of the scheduler in order,
    whatever it returns: through [marco_fq_check_throttled], every turn of
    the selection loop (credit refill, throttling, detaching an empty
    flow) and the charge of the packet served. *)
Theorem marco_fq_dequeue_links (fuel : nat) (now jiffies : Z) (sch : Qdisc)
  (r : option sk_buff) (sch' : Qdisc) :
  sched_wf (priv sch) →
  marco_fq_dequeue fuel now jiffies sch = Some (r, sch') →
  sched_wf (priv sch').
Proof. apply marco_fq_dequeue_wf. Qed.

Lemma marco_fq_dequeue_links_witness :
  sched_wf (priv queued_sch) ∧
  ∃ r sch', marco_fq_dequeue 5 0 0 queued_sch = Some (r, sch') ∧ sched_wf (priv sch').
Proof.
  split; [exact queued_sch_wf|].
  destruct (marco_fq_dequeue 5 0 0 queued_sch) as [[r sch']|] eqn:H;
    [|vm_compute in H; discriminate].
  exists r, sch'. split; [reflexivity|].
  exact (marco_fq_dequeue_links 5 0 0 queued_sch r sch' queued_sch_wf H).
Defined.

(** X4.  [marco_fq_change] keeps the links of the scheduler in order,
    whatever the request and whatever it returns: the attribute pass
    writes parameters only, [marco_fq_resize] and [marco_fq_rehash] free
    no flow that is linked and file every flow they keep in the shard of
    its socket under the new size, and the packets above the limit leave
    by [marco_fq_dequeue]. *)
Theorem marco_fq_change_links (fuel : nat) (clock : nat → Z * Z) (jiffies : Z)
  (alloc_ok : bool) (opt : option tca_fq) (sch : Qdisc) (err : Z)
  (dropped : list sk_buff) (sch' : Qdisc) :
  sched_wf (priv sch) →
  marco_fq_change fuel clock jiffies alloc_ok opt sch = Some (err, dropped, sch') →
  sched_wf (priv sch').
Proof. apply marco_fq_change_wf. Qed.

Lemma marco_fq_change_links_witness :
  sched_wf (priv queued_sch) ∧
  ∃ dropped sch',
    marco_fq_change 5 clock0 0 true (Some tca_four_shards) queued_sch
    = Some (0, dropped, sch') ∧
    fq_trees_log (priv sch') = 2 ∧ sched_wf (priv sch').
Proof.
  split; [exact queued_sch_wf|].
  destruct (marco_fq_change 5 clock0 0 true (Some tca_four_shards) queued_sch)
    as [[[err dropped] sch']|] eqn:H; [|vm_compute in H; discriminate].
  assert (err = 0) as ->.
  { assert (fst <$> (fst <$> marco_fq_change 5 clock0 0 true (Some tca_four_shards)
                       queued_sch) = Some 0) as E by eval_eq.
    rewrite H in E. by injection E. }
  assert (fq_trees_log (priv sch') = 2) as Hlog.
  { assert ((λ r, fq_trees_log (priv r.2)) <$>
              marco_fq_change 5 clock0 0 true (Some tca_four_shards) queued_sch
            = Some 2) as E by eval_eq.
    rewrite H in E. by injection E. }
  exists dropped, sch'. split; [reflexivity|]. split; [exact Hlog|].
  exact (marco_fq_change_links 5 clock0 0 true (Some tca_four_shards) queued_sch 0
           dropped sch' queued_sch_wf H).
Defined.

(** X5.  [marco_fq_reset] in a state whose links are in order frees every
    flow of the heap, so that no flow and no packet is left but the
    emptied internal flow, and leaves the links in order: the lists and
    the deferral index are empty, and the flow table keeps its number of
    shards, each of them an empty tree. *)
Theorem marco_fq_reset_frees_flows (sch : Qdisc) :
  sched_wf (priv sch) →
  let q' := priv (marco_fq_reset sch) in
  sched_wf q' ∧ flow_heap q' = ∅ ∧ new_flows q' = [] ∧ old_flows q' = [] ∧
  delayed q' = RB_ROOT ∧ marco_fq_peek (internal q') = None ∧
  ∃ roots roots',
    fq_root (priv sch) = Some roots ∧ fq_root q' = Some roots' ∧
    length roots' = length roots ∧ Forall (λ root, root = RB_ROOT) roots'.
Proof.
  intros Hwf. destruct (marco_fq_reset_wf sch Hwf) as (H1 & H2 & H3 & H4 & H5 & H6).
  pose proof Hwf as [[_ _ _ _ _ (roots & Hroots & _)] _].
  destruct (marco_fq_reset_shards sch roots Hroots) as (roots' & Hr & Hlen & Hall).
  cbv zeta. split; [exact H1|]. split; [exact H2|]. split; [exact H3|].
  split; [exact H4|]. split; [exact H5|]. split; [exact H6|].
  exists roots, roots'. split; [exact Hroots|]. split; [exact Hr|].
  split; [exact Hlen|exact Hall].
Qed.

Lemma marco_fq_reset_frees_flows_witness :
  sched_wf (priv queued_sch) ∧
  flow_heap (priv queued_sch) ≠ ∅ ∧
  fq_root (priv queued_sch) = Some [RB_ROOT; RB_NODE RB_ROOT 4096 RB_ROOT] ∧
  flow_heap (priv (marco_fq_reset queued_sch)) = ∅ ∧
  ∃ roots',
    fq_root (priv (marco_fq_reset queued_sch)) = Some roots' ∧
    length roots' = 2%nat ∧ Forall (λ root, root = RB_ROOT) roots'.
Proof.
  assert (fq_root (priv queued_sch) = Some [RB_ROOT; RB_NODE RB_ROOT 4096 RB_ROOT])
    as Hroots by eval_eq.
  split; [exact queued_sch_wf|]. split.
  { intros E. assert (flow_heap (priv queued_sch) !! 4096 = None) as E'
      by (rewrite E; apply lookup_empty).
    vm_compute in E'. discriminate. }
  split; [exact Hroots|].
  destruct (marco_fq_reset_frees_flows queued_sch queued_sch_wf)
    as (_ & Hheap & _ & _ & _ & _ & roots & roots' & Hr & Hr' & Hlen & Hall).
  split; [exact Hheap|]. exists roots'. split; [exact Hr'|]. split; [|exact Hall].
  rewrite Hlen. rewrite Hroots in Hr. injection Hr as <-. reflexivity.
Defined.

(** X6.  After [marco_fq_init] returned 0 on a zeroed qdisc of a device
    with an MTU between 1 and 2^30, and whatever calls of
    [marco_fq_enqueue], [marco_fq_dequeue], [marco_fq_change] and
    [marco_fq_reset] followed, none of the enqueues returning [ENOMEM],
    the links of the scheduler are in order and [marco_fq_dequeue]
    returns: some number of turns of its selection loop is enough at
    every time. *)
Theorem marco_fq_calls_dequeue_returns (fuel0 : nat) (clock : nat → Z * Z) (jiffies0 : Z)
  (alloc_ok : bool) (mtu : Z) (opt : option tca_fq) (sch : Qdisc)
  (dropped : list sk_buff) (sch0 : Qdisc) (calls : list fq_call) (rets : list Z)
  (sch' : Qdisc) :
  priv sch = sched_zero → 0 < mtu < 2 ^ 30 →
  marco_fq_init fuel0 clock jiffies0 alloc_ok mtu opt sch = Some (0, dropped, sch0) →
  fq_calls calls sch0 = Some (rets, sch') →
  ENOMEM ∉ rets →
  sched_wf (priv sch') ∧
  ∀ now jiffies, ∃ fuel r, ∀ fuel', (fuel ≤ fuel')%nat →
    marco_fq_dequeue fuel' now jiffies sch' = Some r.
Proof.
  intros Hz Hmtu Hinit Hcalls Hrets.
  assert (sched_wf (priv sch')) as Hwf.
  { eapply marco_fq_calls_wf; [|done..]. by eapply marco_fq_init_wf. }
  split; [done|]. intros now jiffies. apply marco_fq_dequeue_total; [done|].
  eapply marco_fq_calls_quantum; [|done]. by eapply marco_fq_init_quantum.
Qed.

Lemma marco_fq_calls_dequeue_returns_witness :
  priv Qdisc_zero = sched_zero ∧ 0 < 1500 < 2 ^ 30 ∧
  marco_fq_init 1 clock0 0 true 1500 (Some tca_two_shards) Qdisc_zero
  = Some (0, [], example_sch) ∧
  ∃ sch',
    fq_calls example_calls example_sch
    = Some ([NET_XMIT_SUCCESS; NET_XMIT_SUCCESS; NET_XMIT_SUCCESS], sch') ∧
    (ENOMEM ∉ [NET_XMIT_SUCCESS; NET_XMIT_SUCCESS; NET_XMIT_SUCCESS]) ∧
    sched_wf (priv sch') ∧
    ∀ now jiffies, ∃ fuel r, ∀ fuel', (fuel ≤ fuel')%nat →
      marco_fq_dequeue fuel' now jiffies sch' = Some r.
Proof.
  assert (priv Qdisc_zero = sched_zero) as Hz by reflexivity.
  assert (0 < 1500 < 2 ^ 30) as Hmtu by lia.
  assert (marco_fq_init 1 clock0 0 true 1500 (Some tca_two_shards) Qdisc_zero
          = Some (0, [], example_sch)) as Hinit by eval_eq.
  assert (ENOMEM ∉ [NET_XMIT_SUCCESS; NET_XMIT_SUCCESS; NET_XMIT_SUCCESS]) as Hrets.
  { rewrite !not_elem_of_cons. split_and!; [discriminate..|apply not_elem_of_nil]. }
  split; [exact Hz|]. split; [exact Hmtu|]. split; [exact Hinit|].
  destruct (fq_calls example_calls example_sch) as [[rets sch']|] eqn:H;
    [|vm_compute in H; discriminate].
  assert (rets = [NET_XMIT_SUCCESS; NET_XMIT_SUCCESS; NET_XMIT_SUCCESS]) as ->.
  { assert (fst <$> fq_calls example_calls example_sch
            = Some [NET_XMIT_SUCCESS; NET_XMIT_SUCCESS; NET_XMIT_SUCCESS]) as E by eval_eq.
    rewrite H in E. by injection E. }
  exists sch'. split; [reflexivity|]. split; [exact Hrets|].
  exact (marco_fq_calls_dequeue_returns 1 clock0 0 true 1500 (Some tca_two_shards)
           Qdisc_zero [] example_sch example_calls _ sch' Hz Hmtu Hinit H Hrets).
Defined.

(** X7.  When [marco_fq_dequeue] returns no packet although the qdisc
    counts packets, in a state whose links are in order and before the
    clock reaches 2^64 - 1, nothing was ready: the internal flow is empty,
    both round-robin lists are empty, every flow of the deferral index has
    its [time_next_packet] after [now], and unless
    [time_next_delayed_flow] is 2^64 - 1 it is after [now] and the
    watchdog is armed for it with [timer_slack]. *)
Theorem marco_fq_dequeue_null_nothing_ready (fuel : nat) (now jiffies : Z)
  (sch sch' : Qdisc) :
  sched_wf (priv sch) → q_qlen sch ≠ 0 → now < U64_MAX →
  marco_fq_dequeue fuel now jiffies sch = Some (None, sch') →
  let q' := priv sch' in
  marco_fq_peek (internal q') = None ∧ new_flows q' = [] ∧ old_flows q' = [] ∧
  (∀ f, f ∈ rb_inorder (delayed q') → now < flow_time_next_packet q' f) ∧
  (time_next_delayed_flow q' ≠ U64_MAX →
   now < time_next_delayed_flow q' ∧
   watchdog q' = Some (time_next_delayed_flow q', timer_slack q')).
Proof. apply marco_fq_dequeue_null. Qed.

Lemma marco_fq_dequeue_null_nothing_ready_witness :
  sched_wf (priv throttled_sch) ∧ q_qlen throttled_sch ≠ 0 ∧ 500 < U64_MAX ∧
  ∃ sch',
    marco_fq_dequeue 5 500 0 throttled_sch = Some (None, sch') ∧
    rb_inorder (delayed (priv sch')) = [FLOW 4096] ∧
    500 < flow_time_next_packet (priv sch') (FLOW 4096) ∧
    watchdog (priv sch') = Some (1000, timer_slack (priv sch')).
Proof.
  assert (q_qlen throttled_sch ≠ 0) as Hlen by (vm_compute; discriminate).
  assert (500 < U64_MAX) as Hnow by reflexivity.
  split; [exact throttled_sch_wf|]. split; [exact Hlen|]. split; [exact Hnow|].
  destruct (marco_fq_dequeue 5 500 0 throttled_sch) as [[r sch']|] eqn:H;
    [|vm_compute in H; discriminate].
  assert (r = None) as ->.
  { assert (fst <$> marco_fq_dequeue 5 500 0 throttled_sch = Some None) as E by eval_eq.
    rewrite H in E. by injection E. }
  assert (rb_inorder (delayed (priv sch')) = [FLOW 4096] ∧
          time_next_delayed_flow (priv sch') = 1000) as [Hd Ht].
  { assert ((λ r, (rb_inorder (delayed (priv r.2)), time_next_delayed_flow (priv r.2)))
              <$> marco_fq_dequeue 5 500 0 throttled_sch = Some ([FLOW 4096], 1000)) as E
      by eval_eq.
    rewrite H in E. cbn [fmap option_fmap option_map snd] in E.
    injection E as E1 E2. split; [exact E1|exact E2]. }
  destruct (marco_fq_dequeue_null_nothing_ready 5 500 0 throttled_sch sch'
              throttled_sch_wf Hlen Hnow H) as (_ & _ & _ & Hlate & Hw).
  exists sch'. split; [reflexivity|]. split; [exact Hd|]. split.
  - apply Hlate. rewrite Hd. apply list_elem_of_singleton. reflexivity.
  - rewrite <- Ht. apply Hw. rewrite Ht. discriminate.
Defined.

Lemma aged_sch_wf : sched_wf (priv aged_sch).
Proof.
  apply (marco_fq_calls_wf
           [CALL_ENQUEUE 0 0 true true (example_skb 1 0 7 100);
            CALL_ENQUEUE 0 0 true true (orphan_skb 2);
            CALL_DEQUEUE 5 0 0; CALL_DEQUEUE 5 0 0]
           example_sch [NET_XMIT_SUCCESS; NET_XMIT_SUCCESS] aged_sch);
    [exact example_sch_wf|eval_eq|].
  rewrite !not_elem_of_cons. split_and!; [discriminate..|apply not_elem_of_nil].
Qed.

(** X8.  [marco_fq_gc] frees at most [FQ_GC_MAX] flows, each of them a
    flow of the heap that is detached and older than [FQ_GC_AGE], and never
    the flow of the socket it was called for; every other flow stays as it
    was.  When it frees nothing the scheduler is unchanged, otherwise
    [flows] and [inactive_flows] go down and [stat_gc_flows] goes up by the
    number of flows freed. *)
Theorem marco_fq_gc_frees_candidates (jiffies : Z) (idx : nat) (sk0 : Z)
  (q q' : marco_fq_sched_data) :
  marco_fq_gc jiffies idx sk0 q = Some q' →
  ∃ tofree,
    Z.of_nat (length tofree) <= FQ_GC_MAX ∧ (sk0 ∉ tofree) ∧
    (∀ k, k ∈ tofree →
          ∃ fl, flow_heap q !! k = Some fl ∧ marco_fq_gc_candidate jiffies fl = true) ∧
    (∀ k fl, flow_heap q' !! k = Some fl ↔ flow_heap q !! k = Some fl ∧ (k ∉ tofree)) ∧
    (tofree = [] → q' = q) ∧
    (tofree ≠ [] →
     flows q' = u32 (flows q - Z.of_nat (length tofree)) ∧
     inactive_flows q' = u32 (inactive_flows q - Z.of_nat (length tofree)) ∧
     stat_gc_flows q' = u64 (stat_gc_flows q + Z.of_nat (length tofree))).
Proof. apply marco_fq_gc_spec. Qed.

Lemma marco_fq_gc_frees_candidates_witness :
  ∃ q', marco_fq_gc 4000 1 5120 (priv aged_sch) = Some q' ∧
        stat_gc_flows (priv aged_sch) = 0 ∧ stat_gc_flows q' = 1 ∧
        ∃ tofree,
          Z.of_nat (length tofree) <= FQ_GC_MAX ∧ (5120 ∉ tofree) ∧
          (∀ k, k ∈ tofree →
                ∃ fl, flow_heap (priv aged_sch) !! k = Some fl ∧
                      marco_fq_gc_candidate 4000 fl = true) ∧
          (∀ k fl, flow_heap q' !! k = Some fl ↔
                   flow_heap (priv aged_sch) !! k = Some fl ∧ (k ∉ tofree)) ∧
          (tofree = [] → q' = priv aged_sch) ∧
          (tofree ≠ [] →
           flows q' = u32 (flows (priv aged_sch) - Z.of_nat (length tofree)) ∧
           inactive_flows q' =
           u32 (inactive_flows (priv aged_sch) - Z.of_nat (length tofree)) ∧
           stat_gc_flows q' =
           u64 (stat_gc_flows (priv aged_sch) + Z.of_nat (length tofree))).
Proof.
  destruct (marco_fq_gc 4000 1 5120 (priv aged_sch)) as [q'|] eqn:H;
    [|vm_compute in H; discriminate].
  assert (stat_gc_flows q' = 1) as Hgc.
  { assert (stat_gc_flows <$> marco_fq_gc 4000 1 5120 (priv aged_sch) = Some 1) as E
      by eval_eq.
    rewrite H in E. by injection E. }
  exists q'. split; [reflexivity|]. split; [eval_eq|]. split; [exact Hgc|].
  exact (marco_fq_gc_frees_candidates 4000 1 5120 (priv aged_sch) q' H).
Defined.

(** X9.  In a state whose links are in order, [marco_fq_classify] on a
    packet that is not of control priority and whose socket has a flow
    returns that flow: it allocates nothing, so no flow is added to the
    heap and [stat_allocation_errors] stays, with or without memory. *)
Theorem marco_fq_classify_finds_flow (jiffies : Z) (alloc_ok : bool) (skb : sk_buff)
  (q : marco_fq_sched_data) (f : flow_ref) (skb' : sk_buff) (q' : marco_fq_sched_data) :
  sched_wf q →
  Z.land (priority skb) TC_PRIO_MAX ≠ TC_PRIO_CONTROL →
  is_Some (get_flow q (FLOW (classify_key q skb))) →
  marco_fq_classify jiffies alloc_ok skb q = Some (f, skb', q') →
  f = FLOW (classify_key q skb) ∧ is_Some (get_flow q' f) ∧
  stat_allocation_errors q' = stat_allocation_errors q ∧
  ∀ k, is_Some (flow_heap q' !! k) → is_Some (flow_heap q !! k).
Proof. apply marco_fq_classify_hit. Qed.

Lemma marco_fq_classify_finds_flow_witness :
  sched_wf (priv queued_sch) ∧
  Z.land (priority (example_skb 2 0 7 100)) TC_PRIO_MAX ≠ TC_PRIO_CONTROL ∧
  is_Some (get_flow (priv queued_sch)
             (FLOW (classify_key (priv queued_sch) (example_skb 2 0 7 100)))) ∧
  ∃ f skb' q',
    marco_fq_classify 0 false (example_skb 2 0 7 100) (priv queued_sch)
    = Some (f, skb', q') ∧
    f = FLOW 4096 ∧ stat_allocation_errors q' = stat_allocation_errors (priv queued_sch).
Proof.
  assert (Z.land (priority (example_skb 2 0 7 100)) TC_PRIO_MAX ≠ TC_PRIO_CONTROL)
    as Hprio by (vm_compute; discriminate).
  assert (is_Some (get_flow (priv queued_sch)
                     (FLOW (classify_key (priv queued_sch) (example_skb 2 0 7 100)))))
    as Hsome.
  { destruct (get_flow (priv queued_sch)
                (FLOW (classify_key (priv queued_sch) (example_skb 2 0 7 100))))
      as [fl|] eqn:E; [by exists fl|vm_compute in E; discriminate]. }
  split; [exact queued_sch_wf|]. split; [exact Hprio|]. split; [exact Hsome|].
  destruct (marco_fq_classify 0 false (example_skb 2 0 7 100) (priv queued_sch))
    as [[[f skb'] q']|] eqn:H; [|vm_compute in H; discriminate].
  destruct (marco_fq_classify_finds_flow 0 false (example_skb 2 0 7 100) (priv queued_sch)
              f skb' q' queued_sch_wf Hprio Hsome H) as (Hf & _ & Hst & _).
  exists f, skb', q'. split; [reflexivity|]. split; [exact Hf|exact Hst].
Defined.

(** X10.  [marco_fq_classify] on a packet that is not of control priority
    and whose socket has no flow: with memory it returns a new flow of the
    heap, filed under the key of the packet, detached with the age of
    [jiffies], without a packet, with [initial_quantum] as its credit and
    no pacing deadline; without memory it returns the internal flow, adds
    no flow and counts one allocation error. *)
Theorem marco_fq_classify_new_flow (jiffies : Z) (alloc_ok : bool) (skb : sk_buff)
  (q : marco_fq_sched_data) (f : flow_ref) (skb' : sk_buff) (q' : marco_fq_sched_data) :
  Z.land (priority skb) TC_PRIO_MAX ≠ TC_PRIO_CONTROL →
  get_flow q (FLOW (classify_key q skb)) = None →
  marco_fq_classify jiffies alloc_ok skb q = Some (f, skb', q') →
  if alloc_ok then
    f = FLOW (classify_key q skb) ∧
    ∃ fl, get_flow q' f = Some fl ∧ sk fl = classify_key q skb ∧
          marco_fq_flow_is_detached fl = true ∧ flow_age fl = Z.lor jiffies 1 ∧
          credit fl = s32 (initial_quantum q) ∧ flow_packets fl = [] ∧
          qlen fl = 0 ∧ time_next_packet fl = 0 ∧ next_is_throttled fl = false
  else
    f = INTERNAL ∧ flow_heap q' !! classify_key q skb = None ∧
    stat_allocation_errors q' = u64 (stat_allocation_errors q + 1).
Proof.
  intros Hprio Hnone H.
  pose proof (marco_fq_classify_miss _ _ _ _ _ _ _ Hprio Hnone H) as Hm.
  destruct alloc_ok; [exact Hm|].
  destruct Hm as (Hf & Hheap & q1 & E1 & E2).
  split; [exact Hf|]. split; [exact Hheap|]. by rewrite E1, E2.
Qed.

Lemma marco_fq_classify_new_flow_witness :
  Z.land (priority (example_skb 1 0 7 100)) TC_PRIO_MAX ≠ TC_PRIO_CONTROL ∧
  get_flow (priv example_sch)
    (FLOW (classify_key (priv example_sch) (example_skb 1 0 7 100))) = None ∧
  ∃ f skb' q',
    marco_fq_classify 5 true (example_skb 1 0 7 100) (priv example_sch)
    = Some (f, skb', q') ∧
    f = FLOW (classify_key (priv example_sch) (example_skb 1 0 7 100)) ∧
    ∃ fl, get_flow q' f = Some fl ∧
          sk fl = classify_key (priv example_sch) (example_skb 1 0 7 100) ∧
          marco_fq_flow_is_detached fl = true ∧ flow_age fl = Z.lor 5 1 ∧
          credit fl = s32 (initial_quantum (priv example_sch)) ∧ flow_packets fl = [] ∧
          qlen fl = 0 ∧ time_next_packet fl = 0 ∧ next_is_throttled fl = false.
Proof.
  assert (Z.land (priority (example_skb 1 0 7 100)) TC_PRIO_MAX ≠ TC_PRIO_CONTROL)
    as Hprio by (vm_compute; discriminate).
  assert (get_flow (priv example_sch)
            (FLOW (classify_key (priv example_sch) (example_skb 1 0 7 100))) = None)
    as Hnone by eval_eq.
  split; [exact Hprio|]. split; [exact Hnone|].
  destruct (marco_fq_classify 5 true (example_skb 1 0 7 100) (priv example_sch))
    as [[[f skb'] q']|] eqn:H; [|vm_compute in H; discriminate].
  exists f, skb', q'. split; [reflexivity|].
  exact (marco_fq_classify_new_flow 5 true (example_skb 1 0 7 100) (priv example_sch)
           f skb' q' Hprio Hnone H).
Defined.

(** X11.  A packet of control priority that [marco_fq_enqueue] accepts
    while the internal flow is empty is the packet the next
    [marco_fq_dequeue] returns, at every time and whatever the flows hold:
    it waits for no credit and no pacing deadline, and the queue length of
    the qdisc is back to what it was. *)
Theorem marco_fq_control_packet_first (now jiffies : Z) (flow_alloc_ok ip_alloc_ok : bool)
  (skb : sk_buff) (sch : Qdisc) (free : list sk_buff) (sch' : Qdisc) :
  0 <= q_qlen sch → limit sch < 2 ^ 32 →
  Z.land (priority skb) TC_PRIO_MAX = TC_PRIO_CONTROL →
  marco_fq_peek (internal (priv sch)) = None →
  marco_fq_enqueue now jiffies flow_alloc_ok ip_alloc_ok skb sch
  = Some (NET_XMIT_SUCCESS, free, sch') →
  ∀ fuel now' jiffies', ∃ skb1 sch'',
    marco_fq_dequeue fuel now' jiffies' sch' = Some (Some skb1, sch'') ∧
    skb_id skb1 = skb_id skb ∧
    marco_fq_peek (internal (priv sch'')) = None ∧
    q_qlen sch'' = q_qlen sch.
Proof.
  intros Hq Hl Hprio Hpeek Henq fuel now' jiffies'.
  destruct (marco_fq_enqueue_control _ _ _ _ _ _ _ _ Hprio Hpeek Henq)
    as (skb1 & Hid & Hhead & Htree & Hlen & Hlt).
  assert (q_qlen sch' = q_qlen sch + 1) as Hlen1 by (rewrite Hlen; apply u32_id; lia).
  destruct (marco_fq_dequeue_internal fuel now' jiffies' sch' skb1)
    as (sch'' & Hdq & Hp & Hlen'); [lia|exact Hhead|exact Htree|].
  exists skb1, sch''. split; [exact Hdq|]. split; [exact Hid|]. split; [exact Hp|].
  rewrite Hlen', Hlen1. replace (q_qlen sch + 1 - 1) with (q_qlen sch) by lia.
  apply u32_id. lia.
Qed.

Lemma marco_fq_control_packet_first_witness :
  0 <= q_qlen queued_sch ∧ limit queued_sch < 2 ^ 32 ∧
  Z.land (priority control_skb) TC_PRIO_MAX = TC_PRIO_CONTROL ∧
  marco_fq_peek (internal (priv queued_sch)) = None ∧
  ∃ free sch',
    marco_fq_enqueue 0 0 true true control_skb queued_sch
    = Some (NET_XMIT_SUCCESS, free, sch') ∧
    ∃ skb1 sch'',
      marco_fq_dequeue 0 0 0 sch' = Some (Some skb1, sch'') ∧
      skb_id skb1 = skb_id control_skb ∧
      marco_fq_peek (internal (priv sch'')) = None ∧
      q_qlen sch'' = q_qlen queued_sch.
Proof.
  assert (0 <= q_qlen queued_sch) as Hq by (vm_compute; discriminate).
  assert (limit queued_sch < 2 ^ 32) as Hl by reflexivity.
  assert (Z.land (priority control_skb) TC_PRIO_MAX = TC_PRIO_CONTROL) as Hprio
    by reflexivity.
  assert (marco_fq_peek (internal (priv queued_sch)) = None) as Hpeek by eval_eq.
  split; [exact Hq|]. split; [exact Hl|]. split; [exact Hprio|]. split; [exact Hpeek|].
  destruct (marco_fq_enqueue 0 0 true true control_skb queued_sch)
    as [[[ret free] sch']|] eqn:H; [|vm_compute in H; discriminate].
  assert (ret = NET_XMIT_SUCCESS) as ->.
  { assert ((λ r, r.1.1) <$> marco_fq_enqueue 0 0 true true control_skb queued_sch
            = Some NET_XMIT_SUCCESS) as E by eval_eq.
    rewrite H in E. by injection E. }
  exists free, sch'. split; [reflexivity|].
  exact (marco_fq_control_packet_first 0 0 true true control_skb queued_sch free sch'
           Hq Hl Hprio Hpeek H 0%nat 0 0).
Defined.

(** X12.  Whatever calls of [marco_fq_enqueue], [marco_fq_dequeue],
    [marco_fq_change] and [marco_fq_reset] are made, the counting table
    only grows: the address pairs it had are still there, in their order
    and behind the new ones, [marco_fq_reset] included, and no pair gets a
    second entry. *)
Theorem marco_fq_count_table_grows (calls : list fq_call) (sch : Qdisc) (rets : list Z)
  (sch' : Qdisc) :
  NoDup (ip_pairs (ip_count_table sch)) →
  fq_calls calls sch = Some (rets, sch') →
  NoDup (ip_pairs (ip_count_table sch')) ∧
  ip_pairs (ip_count_table sch) `suffix_of` ip_pairs (ip_count_table sch').
Proof. apply marco_fq_calls_table. Qed.

Lemma marco_fq_count_table_grows_witness :
  NoDup (ip_pairs (ip_count_table example_sch)) ∧
  ∃ rets sch',
    fq_calls example_calls example_sch = Some (rets, sch') ∧
    ip_pairs (ip_count_table sch') = [(1, 2)] ∧
    NoDup (ip_pairs (ip_count_table sch')) ∧
    ip_pairs (ip_count_table example_sch) `suffix_of` ip_pairs (ip_count_table sch').
Proof.
  assert (NoDup (ip_pairs (ip_count_table example_sch))) as Hnd
    by (vm_compute; apply NoDup_nil_2).
  split; [exact Hnd|].
  destruct (fq_calls example_calls example_sch) as [[rets sch']|] eqn:H;
    [|vm_compute in H; discriminate].
  assert (ip_pairs (ip_count_table sch') = [(1, 2)]) as Hp.
  { assert ((λ r, ip_pairs (ip_count_table r.2)) <$> fq_calls example_calls example_sch
            = Some [(1, 2)]) as E by eval_eq.
    rewrite H in E. by injection E. }
  exists rets, sch'. split; [reflexivity|]. split; [exact Hp|].
  exact (marco_fq_count_table_grows example_calls example_sch rets sch' Hnd H).
Defined.

(** X13.  [marco_fq_enqueue] returns [ENOMEM] only for a packet whose
    address pair has no entry in the counting table and when [kmalloc]
    failed; and it leaves the address pairs of the table as they were or
    puts the pair of the packet, which had no entry, in front of them. *)
Theorem marco_fq_enqueue_enomem_first_of_pair (now jiffies : Z)
  (flow_alloc_ok ip_alloc_ok : bool) (skb : sk_buff) (sch : Qdisc) (ret : Z)
  (free : list sk_buff) (sch' : Qdisc) :
  marco_fq_enqueue now jiffies flow_alloc_ok ip_alloc_ok skb sch = Some (ret, free, sch') →
  (ret = ENOMEM →
   ip_alloc_ok = false ∧ ((saddr skb, daddr skb) ∉ ip_pairs (ip_count_table sch))) ∧
  (ip_pairs (ip_count_table sch') = ip_pairs (ip_count_table sch) ∨
   ((saddr skb, daddr skb) ∉ ip_pairs (ip_count_table sch)) ∧
   ip_pairs (ip_count_table sch') = (saddr skb, daddr skb) :: ip_pairs (ip_count_table sch)).
Proof. apply marco_fq_enqueue_table. Qed.

Lemma marco_fq_enqueue_enomem_first_of_pair_witness :
  ∃ free sch',
    marco_fq_enqueue 0 0 true false (example_skb 1 0 7 100) example_sch
    = Some (ENOMEM, free, sch') ∧
    ((saddr (example_skb 1 0 7 100), daddr (example_skb 1 0 7 100))
       ∉ ip_pairs (ip_count_table example_sch)).
Proof.
  destruct (marco_fq_enqueue 0 0 true false (example_skb 1 0 7 100) example_sch)
    as [[[ret free] sch']|] eqn:H; [|vm_compute in H; discriminate].
  assert (ret = ENOMEM) as ->.
  { assert ((λ r, r.1.1) <$> marco_fq_enqueue 0 0 true false (example_skb 1 0 7 100)
                                example_sch = Some ENOMEM) as E by eval_eq.
    rewrite H in E. by injection E. }
  exists free, sch'. split; [reflexivity|].
  exact (proj2 (proj1 (marco_fq_enqueue_enomem_first_of_pair 0 0 true false
                         (example_skb 1 0 7 100) example_sch ENOMEM free sch' H)
                  eq_refl)).
Defined.



(** X15.  The count-down [marco_fq_dequeue] runs on the counting table for
    a packet from [src_ip] to [des_ip], when no address pair has two
    entries: the entry of the reverse direction, when its count is
    positive, loses one, every other entry stays, and the pacing deadline
    of the flow grows by 10 ms exactly when that count was above 6. *)
Theorem marco_fq_outgo_counts_down (src_ip des_ip : Z) (tbl : list hash_ip_count)
  (time_next_packet : Z) :
  NoDup (ip_pairs tbl) →
  ip_count_outgo src_ip des_ip tbl time_next_packet =
  (((λ e, if (s_ip e =? des_ip) && (d_ip e =? src_ip) && (0 <? count e)
          then Build_ip_count (s_ip e) (d_ip e) (count e - 1) else e) <$> tbl),
   match list_find (λ e, s_ip e = des_ip ∧ d_ip e = src_ip) tbl with
   | Some (_, e) => if 6 <? count e then u64 (time_next_packet + 10000000)
                    else time_next_packet
   | None => time_next_packet
   end).
Proof. apply ip_count_outgo_spec. Qed.

Lemma marco_fq_outgo_counts_down_witness :
  NoDup (ip_pairs example_table) ∧
  ip_count_outgo 1 2 example_table 500
  = ([Build_ip_count 2 1 7; Build_ip_count 1 2 3], 10000500).
Proof.
  assert (NoDup (ip_pairs example_table)) as Hnd.
  { apply NoDup_cons. split; [|apply NoDup_singleton].
    intros E%list_elem_of_singleton. discriminate. }
  split; [exact Hnd|].
  rewrite (marco_fq_outgo_counts_down 1 2 example_table 500 Hnd). reflexivity.
Defined.

(** X16.  [marco_fq_change] with a request hands back as dropped exactly
    the packets by which the queue length of the qdisc went down, and it
    leaves the queue length at or below the limit, unless a
    [marco_fq_dequeue] of its drain loop found no packet to return while
    the queue was above the limit. *)
Theorem marco_fq_change_enforces_limit (fuel : nat) (clock : nat → Z * Z) (jiffies : Z)
  (alloc_ok : bool) (tb : tca_fq) (sch : Qdisc) (err : Z) (dropped : list sk_buff)
  (sch' : Qdisc) :
  0 <= q_qlen sch < 2 ^ 32 → 0 <= limit sch' →
  marco_fq_change fuel clock jiffies alloc_ok (Some tb) sch = Some (err, dropped, sch') →
  Z.of_nat (length dropped) = q_qlen sch - q_qlen sch' ∧
  (q_qlen sch' <= limit sch' ∨
   ∃ k sch0, limit sch0 < q_qlen sch0 ∧
             marco_fq_dequeue fuel (clock k).1 (clock k).2 sch0 = Some (None, sch')).
Proof. apply marco_fq_change_limit. Qed.

Lemma marco_fq_change_enforces_limit_witness :
  0 <= q_qlen two_queued_sch < 2 ^ 32 ∧
  ∃ err dropped sch',
    marco_fq_change 5 clock0 0 true (Some tca_limit_one) two_queued_sch
    = Some (err, dropped, sch') ∧
    limit sch' = 1 ∧ q_qlen sch' = 1 ∧
    Z.of_nat (length dropped) = q_qlen two_queued_sch - q_qlen sch'.
Proof.
  assert (q_qlen two_queued_sch = 2) as Hq by eval_eq.
  assert (0 <= q_qlen two_queued_sch < 2 ^ 32) as Hr by (rewrite Hq; lia).
  split; [exact Hr|].
  destruct (marco_fq_change 5 clock0 0 true (Some tca_limit_one) two_queued_sch)
    as [[[err dropped] sch']|] eqn:H; [|vm_compute in H; discriminate].
  assert (limit sch' = 1 ∧ q_qlen sch' = 1) as [Hl Hq'].
  { assert ((λ r, (limit r.2, q_qlen r.2)) <$>
              marco_fq_change 5 clock0 0 true (Some tca_limit_one) two_queued_sch
            = Some (1, 1)) as E by eval_eq.
    rewrite H in E. cbn [fmap option_fmap option_map snd] in E.
    injection E as E1 E2. split; [exact E1|exact E2]. }
  assert (0 <= limit sch') as Hl0 by (rewrite Hl; lia).
  exists err, dropped, sch'. split; [reflexivity|]. split; [exact Hl|].
  split; [exact Hq'|].
  exact (proj1 (marco_fq_change_enforces_limit 5 clock0 0 true tca_limit_one
                  two_queued_sch err dropped sch' Hr Hl0 H)).
Defined.



(** X18.  [marco_fq_resize] to another size, with memory and in a state
    whose links are in order, returns 0 with a table of 2^log shards, and
    frees exactly the flows that are detached and older than
    [FQ_GC_AGE]: every other flow of the heap is kept as it was, and
    [flows], [inactive_flows] and [stat_gc_flows] move by the number of
    flows freed. *)
Theorem marco_fq_resize_frees_candidates (jiffies log : Z) (q : marco_fq_sched_data)
  (err : Z) (q' : marco_fq_sched_data) :
  sched_wf q → log ≠ fq_trees_log q →
  marco_fq_resize jiffies true log q = Some (err, q') →
  err = 0 ∧ fq_trees_log q' = log ∧
  (∃ roots, fq_root q' = Some roots ∧ length roots = Z.to_nat (u32 (Z.shiftl 1 log))) ∧
  (∀ k fl, flow_heap q' !! k = Some fl ↔
           flow_heap q !! k = Some fl ∧ marco_fq_gc_candidate jiffies fl = false) ∧
  ∃ fcnt,
    Z.of_nat (size (flow_heap q)) = Z.of_nat (size (flow_heap q')) + fcnt ∧
    flows q' = u32 (flows q - fcnt) ∧
    inactive_flows q' = u32 (inactive_flows q - fcnt) ∧
    stat_gc_flows q' = u64 (stat_gc_flows q + fcnt).
Proof. apply marco_fq_resize_collects. Qed.

Lemma marco_fq_resize_frees_candidates_witness :
  sched_wf (priv aged_sch) ∧ 2 ≠ fq_trees_log (priv aged_sch) ∧
  ∃ err q',
    marco_fq_resize 4000 true 2 (priv aged_sch) = Some (err, q') ∧
    is_Some (flow_heap (priv aged_sch) !! 4096) ∧ flow_heap q' !! 4096 = None ∧
    err = 0 ∧ fq_trees_log q' = 2.
Proof.
  assert (2 ≠ fq_trees_log (priv aged_sch)) as Hlog by (vm_compute; discriminate).
  split; [exact aged_sch_wf|]. split; [exact Hlog|].
  destruct (marco_fq_resize 4000 true 2 (priv aged_sch)) as [[err q']|] eqn:H;
    [|vm_compute in H; discriminate].
  assert (flow_heap q' !! 4096 = None) as Hnone.
  { assert ((λ r, flow_heap r.2 !! 4096) <$> marco_fq_resize 4000 true 2 (priv aged_sch)
            = Some None) as E by eval_eq.
    rewrite H in E. by injection E. }
  destruct (marco_fq_resize_frees_candidates 4000 2 (priv aged_sch) err q'
              aged_sch_wf Hlog H) as (Herr & Hlog' & _).
  exists err, q'. split; [reflexivity|]. split.
  { destruct (flow_heap (priv aged_sch) !! 4096) as [fl|] eqn:E;
      [by exists fl|vm_compute in E; discriminate]. }
  split; [exact Hnone|]. split; [exact Herr|exact Hlog'].
Defined.

(** X19.  [marco_fq_destroy] in a state whose links are in order leaves
    nothing behind: every flow of the heap is freed, the internal flow,
    both lists and the deferral index are empty, the flow table is freed,
    the watchdog is cancelled and the qdisc counts no packet and no
    byte. *)
Theorem marco_fq_destroy_frees_all (sch : Qdisc) :
  sched_wf (priv sch) →
  let sch' := marco_fq_destroy sch in
  flow_heap (priv sch') = ∅ ∧ marco_fq_peek (internal (priv sch')) = None ∧
  fq_root (priv sch') = None ∧ watchdog (priv sch') = None ∧
  new_flows (priv sch') = [] ∧ old_flows (priv sch') = [] ∧
  delayed (priv sch') = RB_ROOT ∧ q_qlen sch' = 0 ∧ backlog sch' = 0.
Proof. apply marco_fq_destroy_frees. Qed.

Lemma marco_fq_destroy_frees_all_witness :
  sched_wf (priv throttled_sch) ∧
  delayed (priv throttled_sch) ≠ RB_ROOT ∧
  delayed (priv (marco_fq_destroy throttled_sch)) = RB_ROOT ∧
  flow_heap (priv (marco_fq_destroy throttled_sch)) = ∅.
Proof.
  split; [exact throttled_sch_wf|]. split; [vm_compute; discriminate|].
  destruct (marco_fq_destroy_frees_all throttled_sch throttled_sch_wf)
    as (Hh & _ & _ & _ & _ & _ & Hd & _).
  split; [exact Hd|exact Hh].
Defined.

(** X20.  [marco_fq_dequeue] takes one packet off the queue length of the
    qdisc when it returns a packet, which it does only when the queue
    length was not 0, and leaves the queue length as it was when it returns
    none, however many turns of its loop it made. *)
Theorem marco_fq_dequeue_counts_one (fuel : nat) (now jiffies : Z) (sch : Qdisc)
  (r : option sk_buff) (sch' : Qdisc) :
  marco_fq_dequeue fuel now jiffies sch = Some (r, sch') →
  q_qlen sch' = match r with
                | Some _ => u32 (q_qlen sch - 1)
                | None => q_qlen sch
                end ∧
  (is_Some r → q_qlen sch ≠ 0).
Proof. apply marco_fq_dequeue_qlen. Qed.

Lemma marco_fq_dequeue_counts_one_witness :
  ∃ skb sch',
    marco_fq_dequeue 5 0 0 two_queued_sch = Some (Some skb, sch') ∧
    q_qlen two_queued_sch = 2 ∧ q_qlen sch' = u32 (q_qlen two_queued_sch - 1).
Proof.
  destruct (marco_fq_dequeue 5 0 0 two_queued_sch) as [[[skb|] sch']|] eqn:H;
    [|vm_compute in H; discriminate..].
  exists skb, sch'. split; [reflexivity|]. split; [eval_eq|].
  exact (proj1 (marco_fq_dequeue_counts_one 5 0 0 two_queued_sch (Some skb) sch' H)).
Defined.
